(** * Eco-Route-Navigation: routing core

    A shallow embedding of the routing engine of the repository:
    [adb[1].h] (place lookup, k-nearest-neighbour graph, Dijkstra, two-path
    Yen variant, text of the map page) and [carbon.c] (dense CO2 graph,
    traffic cache, Dijkstra, RDP simplifier, the request [shortp]).

    Conventions of the embedding.
    - A C [int], [long long] or array index is a [Z]; where the code can wrap
      around, the wrap is written out.
    - A C [double] is an exact rational [Q]: sums, products and comparisons
      are the mathematical ones, rounding is not modelled, and costs are
      compared up to [==].  [INF] is the constant [1e18] of the code.
      Where a property turns on the rounding, the code is taken with the
      binary64 numbers of the kernel (module [B64]), or a theorem is
      proved for every function in the place of the one that rounds
      ([rdp_simplify_by]); the number that ["%.6f"] prints is rounded as
      [printf] rounds it.
    - A static C array ([head], [to], [distv], ...) is a total map
      [Z -> A]; the code only touches cells inside the live range.  A heap
      block whose bounds matter ([Graph.edges], the RDP work stack) is a
      list together with its length.
    - [haversine_km_idx] needs [sin], [cos], [atan2]; it is a parameter
      [hav : Z -> Z -> Q] of the definitions that use it.
    - A loop that the code writes with [for(;;)] or [while] takes a fuel
      argument and ends in the outcome [Fuel] when the fuel runs out; the
      theorems show that the fuel given is enough.
    - The node array of a [Path] and the scratch arrays [tmp] and
      [spur_nodes] are lists.  The room of [tmp] is the fuel of the walk
      along [parent]; the room of a candidate's node array is checked
      where the candidate is built. *)

From Stdlib Require Import Floats.
From Stdlib Require Import String Ascii ZArith QArith Qround Qminmax Lqa List Sorted Lia Bool.
Import ListNotations.

Local Open Scope Z_scope.

(** ** Loops and arrays *)

(** The indices [0, 1, ..., n-1] of a [for (i = 0; i < n; ++i)] loop. *)
Definition Zrange (n : Z) : list Z := map Z.of_nat (seq 0 (Z.to_nat n)).

(** The indices [lo, lo+1, ..., hi-1]. *)
Definition Zrange_from (lo hi : Z) : list Z :=
  map (fun k => lo + Z.of_nat k) (seq 0 (Z.to_nat (hi - lo))).

(** [for (i = 0; i < n; ++i) s = body i s]. *)
Definition for_loop {St : Type} (n : Z) (body : Z -> St -> St) (s : St) : St :=
  fold_left (fun acc i => body i acc) (Zrange n) s.

(** A static array as a total map, and the assignment [a[i] = x]. *)
Definition upd {A : Type} (a : Z -> A) (i : Z) (x : A) : Z -> A :=
  fun j => if Z.eqb j i then x else a j.

(** A bounded block: the read [l[i]] and the write [l[i] = x]. *)
Definition rd {A : Type} (d : A) (l : list A) (i : Z) : A :=
  nth (Z.to_nat i) l d.

Fixpoint set_nth {A : Type} (l : list A) (k : nat) (x : A) : list A :=
  match l, k with
  | [], _ => []
  | _ :: r, O => x :: r
  | y :: r, S k' => y :: set_nth r k' x
  end.

Definition wr {A : Type} (l : list A) (i : Z) (x : A) : list A :=
  if i <? 0 then l else set_nth l (Z.to_nat i) x.

(** A write that is checked against the bounds of the block: [None] stands
    for a store outside the allocation. *)
Definition store {A : Type} (l : list A) (i : Z) (x : A) : option (list A) :=
  if (0 <=? i) && (i <? Z.of_nat (length l)) then Some (wr l i x) else None.

(** Comparisons of doubles. *)
Definition Qltb (a b : Q) : bool := negb (Qle_bool b a).
Definition Qgeb (a b : Q) : bool := Qle_bool b a.

Definition INF : Q := 1000000000000000000 # 1.

(** An in-place change of one cell of a block. *)
Definition modify {A : Type} (d : A) (l : list A) (k : Z) (f : A -> A) : list A :=
  wr l k (f (rd d l k)).

(** A pair of nested counted loops that rewrites each cell [i*n+j] of an
    [n x n] block once, from its own former contents. *)
Definition matrix_loop {A : Type} (d : A) (n : Z) (f : Z -> Z -> A -> A)
    (l : list A) : list A :=
  for_loop n (fun i l1 =>
    for_loop n (fun j l2 => modify d l2 (i * n + j) (f i j)) l1) l.


(** ** Outcomes of a run

    [Ret a] is a normal return, [Die msg] the call [die(msg)] (the process
    exits), [OutOfBounds] a store outside an allocated block, [Fuel] a loop
    of the embedding that was cut off. *)
Inductive run (A : Type) : Type :=
| Ret (a : A)
| Die (msg : string)
| OutOfBounds
| Fuel.
Arguments Ret {A} a.
Arguments Die {A} msg.
Arguments OutOfBounds {A}.
Arguments Fuel {A}.

Definition bind {A B : Type} (m : run A) (k : A -> run B) : run B :=
  match m with
  | Ret a => k a
  | Die msg => Die msg
  | OutOfBounds => OutOfBounds
  | Fuel => Fuel
  end.

Notation "x <- m ;; k" := (bind m (fun x => k))
  (at level 61, m at next level, right associativity).
Notation "' p <- m ;; k" := (bind m (fun p => k))
  (at level 61, p pattern, m at next level, right associativity).

(** A counted loop whose body can fail. *)
Definition for_loopM {St : Type} (n : Z) (body : Z -> St -> run St) (s : St)
    : run St :=
  fold_left (fun acc i => a <- acc ;; body i a) (Zrange n) (Ret s).

(** ** adb[1].h: sparse graph, Dijkstra, Yen with K = 2 *)

Definition MAXV : Z := 1500.
Definition MAXE : Z := MAXV * 16.

Definition CAR_KMH : Q := 40.
Definition BIKE_KMH : Q := 15.
Definition WALK_KMH : Q := 5.

(** The globals of the translation unit: the node count, the adjacency
    arrays with the edge count, the tables of the last Dijkstra run and the
    edge that the relaxation skips. *)
Record state : Type := mkState {
  V : Z;
  head : Z -> Z;
  to : Z -> Z;
  nxt : Z -> Z;
  w : Z -> Q;
  E : Z;
  parent : Z -> Z;
  distv : Z -> Q;
  used : Z -> Z;
  skip_u : Z;
  skip_v : Z
}.

Definition set_head (st : state) (h : Z -> Z) : state :=
  mkState (V st) h (to st) (nxt st) (w st) (E st)
          (parent st) (distv st) (used st) (skip_u st) (skip_v st).
Definition set_to (st : state) (a : Z -> Z) : state :=
  mkState (V st) (head st) a (nxt st) (w st) (E st)
          (parent st) (distv st) (used st) (skip_u st) (skip_v st).
Definition set_nxt (st : state) (a : Z -> Z) : state :=
  mkState (V st) (head st) (to st) a (w st) (E st)
          (parent st) (distv st) (used st) (skip_u st) (skip_v st).
Definition set_w (st : state) (a : Z -> Q) : state :=
  mkState (V st) (head st) (to st) (nxt st) a (E st)
          (parent st) (distv st) (used st) (skip_u st) (skip_v st).
Definition set_E (st : state) (e : Z) : state :=
  mkState (V st) (head st) (to st) (nxt st) (w st) e
          (parent st) (distv st) (used st) (skip_u st) (skip_v st).
Definition set_parent (st : state) (a : Z -> Z) : state :=
  mkState (V st) (head st) (to st) (nxt st) (w st) (E st)
          a (distv st) (used st) (skip_u st) (skip_v st).
Definition set_distv (st : state) (a : Z -> Q) : state :=
  mkState (V st) (head st) (to st) (nxt st) (w st) (E st)
          (parent st) a (used st) (skip_u st) (skip_v st).
Definition set_used (st : state) (a : Z -> Z) : state :=
  mkState (V st) (head st) (to st) (nxt st) (w st) (E st)
          (parent st) (distv st) a (skip_u st) (skip_v st).
Definition set_skip (st : state) (su sv : Z) : state :=
  mkState (V st) (head st) (to st) (nxt st) (w st) (E st)
          (parent st) (distv st) (used st) su sv.

(** The graph that a query observes: node count, edge count and the four
    adjacency arrays. *)
Definition graph_of (st : state)
    : Z * Z * (Z -> Z) * (Z -> Z) * (Z -> Z) * (Z -> Q) :=
  (V st, E st, head st, to st, nxt st, w st).

(** [Path]: [nodes[0 .. len-1]] and the cost. *)
Record Path : Type := mkPath {
  nodes : list Z;
  cost : Q
}.

Definition len (p : Path) : Z := Z.of_nat (length (nodes p)).

(** *** Graph builder *)

Definition reset_graph (st : state) : state :=
  set_E (set_head st (fun i => if (0 <=? i) && (i <? MAXV) then -1 else head st i)) 0.

Definition add_edge (st : state) (u v : Z) (ww : Q) : run state :=
  if (u <? 0) || (u >=? V st) || (v <? 0) || (v >=? V st) || (u =? v)
  then Ret st
  else if E st + 2 >=? MAXE
  then Die "Edge capacity exceeded (raise MAXE)."
  else
    let st := set_to st (upd (to st) (E st) v) in
    let st := set_w st (upd (w st) (E st) ww) in
    let st := set_nxt st (upd (nxt st) (E st) (head st u)) in
    let st := set_head st (upd (head st) u (E st)) in
    let st := set_E st (E st + 1) in
    let st := set_to st (upd (to st) (E st) u) in
    let st := set_w st (upd (w st) (E st) ww) in
    let st := set_nxt st (upd (nxt st) (E st) (head st v)) in
    let st := set_head st (upd (head st) v (E st)) in
    let st := set_E st (E st + 1) in
    Ret st.

(** The partial selection sort of [build_knn_fixed]: after step [i] the
    cell [i] of [dists] and [idx] holds the smallest remaining distance. *)
Definition knn_argmin (Vn : Z) (dists : Z -> Q) (i : Z) : Z :=
  fold_left (fun mi j => if Qltb (dists j) (dists mi) then j else mi)
            (Zrange_from (i + 1) Vn) i.

Definition knn_select_step (Vn : Z) (i : Z) (s : (Z -> Q) * (Z -> Z))
    : (Z -> Q) * (Z -> Z) :=
  let '(dists, idx) := s in
  let mi := knn_argmin Vn dists i in
  let td := dists i in
  let dists := upd dists i (dists mi) in
  let dists := upd dists mi td in
  let ti := idx i in
  let idx := upd idx i (idx mi) in
  let idx := upd idx mi ti in
  (dists, idx).

Section Eco.

(** [haversine_km_idx i j]: the great-circle distance in km between the
    places [i] and [j], a function of the arrays [lat] and [lon]. *)
Variable haversine_km_idx : Z -> Z -> Q.

Definition knn_row (Vn : Z) (k : Z) (u : Z) : Z -> Z :=
  let dists := fun v => if u =? v then INF else haversine_km_idx u v in
  let idx := fun v : Z => v in
  snd (for_loop (Z.min k Vn) (knn_select_step Vn) (dists, idx)).

Definition build_knn_fixed (st : state) (k : Z) : run state :=
  let st := reset_graph st in
  let k := if k <? 1 then 1 else k in
  let k := if V st - 1 <? k then V st - 1 else k in
  for_loopM (V st) (fun u st =>
    let idx := knn_row (V st) k u in
    let kk := if k <? V st then k else V st in
    for_loopM kk (fun i st =>
      let v := idx i in
      if negb (v =? u) then add_edge st u v (haversine_km_idx u v) else Ret st) st) st.

End Eco.

(** *** Shortest paths *)

Definition minQ (st : state) : Z :=
  snd (for_loop (V st)
         (fun i '(best, bi) =>
            if (used st i =? 0) && Qltb (distv st i) best
            then (distv st i, i) else (best, bi))
         (INF, -1)).

(** [for(int i=0;i<V;i++){ distv[i]=INF; used[i]=0; parent[i]=-1; }
    distv[s]=0.0;] *)
Definition dijkstra_init (st : state) (s : Z) : state :=
  let st := for_loop (V st) (fun i st =>
              let st := set_distv st (upd (distv st) i INF) in
              let st := set_used st (upd (used st) i 0) in
              set_parent st (upd (parent st) i (-1))) st in
  set_distv st (upd (distv st) s 0%Q).

(** The test of [dijkstra_skip_edge] that drops the excluded edge in both
    directions. *)
Definition is_skipped (st : state) (u v : Z) : bool :=
  ((u =? skip_u st) && (v =? skip_v st)) || ((u =? skip_v st) && (v =? skip_u st)).

(** One turn of [for(int e=head[u]; e!=-1; e=nxt[e])].  [ecodijkstra] and
    [dijkstra_skip_edge] have the same text but for the skip test;
    [skipping] says whether the test is there. *)
Definition relax_edge (skipping : bool) (u e : Z) (st : state) : state :=
  let v := to st e in
  if skipping && is_skipped st u v then st
  else
    let alt := (distv st u + w st e)%Q in
    if Qltb alt (distv st v)
    then set_parent (set_distv st (upd (distv st) v alt)) (upd (parent st) v u)
    else st.

Fixpoint relax_edges (skipping : bool) (fuel : nat) (u e : Z) (st : state)
    : run state :=
  if e =? -1 then Ret st
  else match fuel with
       | O => Fuel
       | S f => relax_edges skipping f u (nxt st e) (relax_edge skipping u e st)
       end.

(** The loop [for(;;)] of the two Dijkstra functions. *)
Fixpoint dijkstra_loop (skipping : bool) (fuel : nat) (t : Z) (st : state)
    : run state :=
  match fuel with
  | O => Fuel
  | S f =>
      let u := minQ st in
      if u =? -1 then Ret st
      else
        let st := set_used st (upd (used st) u 1) in
        if u =? t then Ret st
        else
          st <- relax_edges skipping (Z.to_nat (E st)) u (head st u) st ;;
          dijkstra_loop skipping f t st
  end.

Definition ecodijkstra (st : state) (s t : Z) : run (state * Q) :=
  st <- dijkstra_loop false (S (Z.to_nat (V st))) t (dijkstra_init st s) ;;
  Ret (st, distv st t).

Definition dijkstra_skip_edge (st : state) (s t : Z) : run (state * Q) :=
  st <- dijkstra_loop true (S (Z.to_nat (V st))) t (dijkstra_init st s) ;;
  Ret (st, distv st t).

(** [for(int v=t; v!=-1; v=parent[v]) tmp[k++]=v;] with [int tmp[MAXV]]:
    the result is [tmp[0 .. k-1]], the fuel is the room in [tmp]. *)
Fixpoint walk_parents (fuel : nat) (par : Z -> Z) (v : Z) : run (list Z) :=
  if v =? -1 then Ret []
  else match fuel with
       | O => Fuel
       | S f => r <- walk_parents f par (par v) ;; Ret (v :: r)
       end.

(** [build_path]: the empty list stands for the return value 0. *)
Definition build_path (st : state) (t : Z) : run (list Z) :=
  if Qgeb (distv st t) (INF / 2) then Ret []
  else tmp <- walk_parents (Z.to_nat MAXV) (parent st) t ;; Ret (rev tmp).

Definition equal_paths (a b : Path) : bool :=
  if negb (len a =? len b) then false
  else forallb (fun i => rd 0 (nodes a) i =? rd 0 (nodes b) i) (Zrange (len a)).

Section Yen.

Variable haversine_km_idx : Z -> Z -> Q.

(** [for(int j=0;j<=i;j++){ cand.nodes[cand.len++]=prev->nodes[j];
    if(j>0) cand.cost += haversine_km_idx(prev->nodes[j-1], prev->nodes[j]); }] *)
Definition cand_prefix (prev : list Z) (i : Z) (cand : Path) : Path :=
  for_loop (i + 1) (fun j cand =>
    let cand := mkPath (nodes cand ++ [rd 0 prev j]) (cost cand) in
    if 0 <? j
    then mkPath (nodes cand)
                (cost cand + haversine_km_idx (rd 0 prev (j - 1)) (rd 0 prev j))
    else cand) cand.

(** [for(int j=1;j<spur_len;j++){ cand.nodes[cand.len++]=spur_nodes[j];
    cand.cost += haversine_km_idx(spur_nodes[j-1], spur_nodes[j]); }] *)
Definition cand_spur (spur_nodes : list Z) (cand : Path) : Path :=
  fold_left (fun cand j =>
    mkPath (nodes cand ++ [rd 0 spur_nodes j])
           (cost cand + haversine_km_idx (rd 0 spur_nodes (j - 1)) (rd 0 spur_nodes j)))
    (Zrange_from 1 (Z.of_nat (length spur_nodes))) cand.

(** The body of the loop over the edges of the best path; [A] is the
    array of candidates, [Ac] its length.  [cand.nodes] has room for
    [MAXV] indices: the two copy loops store [cand.len] of them one after
    the other, so a candidate longer than [MAXV] is a store outside the
    array. *)
Definition yen_spur (t : Z) (prev : list Z) (i : Z) (s : state * list Path)
    : run (state * list Path) :=
  let '(st, A) := s in
  let st := set_skip st (rd 0 prev i) (rd 0 prev (i + 1)) in
  '(st, c) <- dijkstra_skip_edge st (rd 0 prev i) t ;;
  if Qgeb c (INF / 2) then Ret (st, A)
  else
    tmp <- walk_parents (Z.to_nat MAXV) (parent st) t ;;
    let spur_nodes := rev tmp in
    let cand := cand_spur spur_nodes (cand_prefix prev i (mkPath [] 0)) in
    if MAXV <? len cand then OutOfBounds
    else
      let dup := existsb (fun p => equal_paths p cand) A in
      if negb dup && (Z.of_nat (length A) <? 64)
      then Ret (st, A ++ [cand]) else Ret (st, A).

(** [for(int i=1;i<Ac;i++) if(A[i].cost < A[besti].cost) besti=i;] *)
Definition yen_besti (A : list Path) : Z :=
  fold_left (fun besti i =>
    if Qltb (cost (rd (mkPath [] 0) A i)) (cost (rd (mkPath [] 0) A besti))
    then i else besti)
    (Zrange_from 1 (Z.of_nat (length A))) 0.

(** [yen_k2_paths]: the list returned is [out[0 .. count-1]]. *)
Definition yen_k2_paths (st : state) (s t : Z) : run (state * list Path) :=
  '(st, best) <- ecodijkstra st s t ;;
  if Qgeb best (INF / 2) then Ret (st, [])
  else
    n0 <- build_path st t ;;
    let out0 := mkPath n0 best in
    '(st, A) <- for_loopM (len out0 - 1) (yen_spur t (nodes out0)) (st, []) ;;
    let st := set_skip st (-1) (-1) in
    if Z.of_nat (length A) =? 0 then Ret (st, [out0])
    else Ret (st, [out0; rd (mkPath [] 0) A (yen_besti A)]).

(** [ecopath] from the point where [V] places are loaded; [s] and [t] are
    the indices that [ask_place_interactive] hands back. *)
Definition ecopath (st : state) (s t : Z) : run (state * list Path) :=
  if V st <? 2
  then Die "Need at least 2 places in places.txt (format: Name lat lon)"
  else
    let st := reset_graph st in
    let k := 8 in
    let k := if V st - 1 <? k then V st - 1 else k in
    let k := if (k <? 2) && (V st >=? 3) then 2 else k in
    st <- build_knn_fixed haversine_km_idx st k ;;
    if s =? t then Die "Source and destination must differ."
    else yen_k2_paths st s t.

End Yen.

(** *** Result display *)

Definition compute_time_min (distance_km speed_kmh : Q) : Q :=
  if Qle_bool speed_kmh 0 then 0 else (distance_km / speed_kmh) * 60.

(** The three times that [display_results] and [write_html] print for a
    route: car, bike, walk. *)
Definition display_times (route : Path) : Q * Q * Q :=
  let km := cost route in
  (compute_time_min km CAR_KMH,
   compute_time_min km BIKE_KMH,
   compute_time_min km WALK_KMH).

(** ** carbon.c: dense CO2 graph, traffic cache, Dijkstra, RDP *)

Definition DEFAULT_CO2_GKM : Q := 120.
Definition SAMPLE_EVERY_N : Z := 3.
Definition CACHE_TTL_MINUTES_DEFAULT : Z := 15.

Definition CAR_FREEFLOW_KMPH : Q := 50.
Definition BIKE_KMPH : Q := 15.
Definition WALK_KMPH : Q := 5.

Record City : Type := mkCity {
  name : string;
  lon : Q;
  lat : Q
}.

Record Edge : Type := mkEdge {
  e_v : Z;
  distance_km : Q;
  traffic_factor : Q;
  co2_cost : Q
}.

(** [Graph]: [edges] is the block of [n * n] cells that
    [build_complete_graph] allocates, cell [i * n + j] for the pair (i, j). *)
Record Graph : Type := mkGraph {
  g_n : Z;
  cities : Z -> City;
  edges : list Edge
}.

Definition set_e_v (e : Edge) (x : Z) : Edge :=
  mkEdge x (distance_km e) (traffic_factor e) (co2_cost e).
Definition set_distance_km (e : Edge) (x : Q) : Edge :=
  mkEdge (e_v e) x (traffic_factor e) (co2_cost e).
Definition set_traffic_factor (e : Edge) (x : Q) : Edge :=
  mkEdge (e_v e) (distance_km e) x (co2_cost e).
Definition set_co2_cost (e : Edge) (x : Q) : Edge :=
  mkEdge (e_v e) (distance_km e) (traffic_factor e) x.
Definition set_edges (g : Graph) (l : list Edge) : Graph :=
  mkGraph (g_n g) (cities g) l.

(** A cell as [calloc] leaves it. *)
Definition zero_edge : Edge := mkEdge 0 0 0 0.

(** [g->edges[i*n + j]]. *)
Definition edge_at (g : Graph) (i j : Z) : Edge :=
  rd zero_edge (edges g) (i * g_n g + j).

(** *** Strings: [isspace], [tolower], [trim] *)

Definition isspace (c : ascii) : bool :=
  let k := N_of_ascii c in
  (N.eqb k 32 || (N.leb 9 k && N.leb k 13))%bool.

Definition tolower (c : ascii) : ascii :=
  let k := N_of_ascii c in
  if (N.leb 65 k && N.leb k 90)%bool then ascii_of_N (k + 32) else c.

Fixpoint lower (s : string) : string :=
  match s with
  | EmptyString => EmptyString
  | String c r => String (tolower c) (lower r)
  end.

Fixpoint ltrim (s : string) : string :=
  match s with
  | EmptyString => EmptyString
  | String c r => if isspace c then ltrim r else s
  end.

Fixpoint rtrim (s : string) : string :=
  match s with
  | EmptyString => EmptyString
  | String c r =>
      match rtrim r with
      | EmptyString => if isspace c then EmptyString else String c EmptyString
      | r' => String c r'
      end
  end.

Definition trim (s : string) : string := rtrim (ltrim s).

(** *** Traffic cache *)

(** The cache file as [fscanf] reads it: [cf_ts] is the result of the
    conversion ["%lld"] at the start of the file ([None] when it does not
    match), [cf_rows] the rows that ["%d %d %lf\n"] converts before it first
    fails.  A file that cannot be opened is [None : option cache_file]. *)
Record cache_file : Type := mkCache {
  cf_ts : option Z;
  cf_rows : list (Z * Z * Q)
}.

(** The value of a [long long] expression after wrap-around. *)
Definition wrap64 (z : Z) : Z := (z + 2 ^ 63) mod 2 ^ 64 - 2 ^ 63.

(** [now] is the value of [time(NULL)]. *)
Definition is_cache_fresh (file : option cache_file) (ttl_minutes : Z) (now : Z)
    : bool :=
  match file with
  | None => false
  | Some cf =>
      match cf_ts cf with
      | None => false
      | Some ts =>
          let age := wrap64 (now - ts) in
          if age <? 0 then false
          else if age <=? wrap64 (ttl_minutes * 60) then true
          else false
      end
  end.

(** A checked change of the field of one cell. *)
Definition store_field (l : list Edge) (k : Z) (f : Edge -> Edge)
    : run (list Edge) :=
  match store l k (f (rd zero_edge l k)) with
  | Some l' => Ret l'
  | None => OutOfBounds
  end.

Definition load_row (n : Z) (l : list Edge) (row : Z * Z * Q) : run (list Edge) :=
  let '(u, v, fac) := row in
  if (u >=? 0) && (u <? n) && (v >=? 0) && (v <? n)
  then
    l <- store_field l (u * n + v) (fun e => set_traffic_factor e fac) ;;
    store_field l (v * n + u) (fun e => set_traffic_factor e fac)
  else Ret l.

(** [load_traffic_cache]: the graph after the call and the value returned. *)
Definition load_traffic_cache (g : Graph) (file : option cache_file)
    : run (Graph * Z) :=
  match file with
  | None => Ret (g, 0)
  | Some cf =>
      match cf_ts cf with
      | None => Ret (g, 0)
      | Some ts =>
          let n := g_n g in
          l <- for_loopM (n * n)
                 (fun i l => store_field l i (fun e => set_traffic_factor e 1))
                 (edges g) ;;
          l <- fold_left (fun acc row => l <- acc ;; load_row n l row)
                         (cf_rows cf) (Ret l) ;;
          Ret (set_edges g l, 1)
      end
  end.

(** The nearest whole number, the even one of the two when [y] is half way
    between them: the rounding of [printf]. *)
Definition round_half_even (y : Q) : Z :=
  let f := Qfloor y in
  let r := (y - (f # 1))%Q in
  if Qltb r (1 # 2) then f
  else if Qltb (1 # 2) r then f + 1
  else if Z.even f then f else f + 1.

(** The number that ["%lf"] reads back from what ["%.6f"] printed: [x]
    rounded to six decimals. *)
Definition round6 (x : Q) : Q := (round_half_even (x * 1000000) # 1) / 1000000.

(** [save_traffic_cache]: the cache file after the call and the value
    returned; [old] is the file before, [writable] says whether
    [fopen(.., "w")] succeeds. *)
Definition save_traffic_cache (g : Graph) (now : Z) (old : option cache_file)
    (writable : bool) : option cache_file * Z :=
  if writable then
    let n := g_n g in
    let rows :=
      for_loop n (fun i rows =>
        fold_left (fun rows j =>
          rows ++ [(i, j, round6 (traffic_factor (edge_at g i j)))])
          (Zrange_from (i + 1) n) rows) [] in
    (Some (mkCache (Some now) rows), 1)
  else (old, 0).

Section Carbon.

(** [haversine_km lat1 lon1 lat2 lon2]. *)
Variable haversine_km : Q -> Q -> Q -> Q -> Q.

(** [sample_tomtom_factor lat lon], the answer of the traffic service, and
    whether the program is compiled with [USE_TOMTOM]. *)
Variable sample_tomtom_factor : Q -> Q -> Q.
Variable USE_TOMTOM : bool.

(** *** Graph builder *)

Definition build_complete_graph (cs : Z -> City) (n : Z) : list Edge :=
  matrix_loop zero_edge n (fun i j e =>
    let e := set_e_v e (if i =? j then -1 else j) in
    if negb (i =? j) then
      let d := haversine_km (lat (cs i)) (lon (cs i)) (lat (cs j)) (lon (cs j)) in
      let e := set_distance_km e d in
      let e := set_traffic_factor e 1 in
      set_co2_cost e 0
    else
      let e := set_distance_km e 0 in
      let e := set_traffic_factor e 1 in
      set_co2_cost e 0)
    (repeat zero_edge (Z.to_nat (n * n))).

(** The sampling pass of [build_edge_midpoint_traffic_factors_cached]:
    the loop over the pairs [i < j], with the running [sample_count]. *)
Definition sample_pass (g : Graph) (sample_every_n : Z) : list Edge :=
  let n := g_n g in
  fst (for_loop n (fun i s =>
    fold_left (fun (s : list Edge * Z) j =>
      let '(l, sample_count) := s in
      let idx_ij := i * n + j in
      let fac :=
        if (sample_count mod sample_every_n =? 0) && USE_TOMTOM
        then sample_tomtom_factor
               ((lat (cities g i) + lat (cities g j)) / 2)
               ((lon (cities g i) + lon (cities g j)) / 2)
        else 1%Q in
      let l := modify zero_edge l idx_ij (fun e => set_traffic_factor e fac) in
      let l := modify zero_edge l (j * n + i) (fun e => set_traffic_factor e fac) in
      (l, sample_count + 1))
      (Zrange_from (i + 1) n) s) (edges g, 0)).

(** [build_edge_midpoint_traffic_factors_cached]: the graph and the cache
    file after the call. *)
Definition build_edge_midpoint_traffic_factors_cached (g : Graph)
    (sample_every_n : Z) (force_refresh : bool) (ttl_minutes : Z)
    (file : option cache_file) (now : Z) (writable : bool)
    : run (Graph * option cache_file) :=
  let sample_every_n := if sample_every_n <? 1 then SAMPLE_EVERY_N else sample_every_n in
  let sample (g : Graph) :=
    let g := set_edges g (sample_pass g sample_every_n) in
    Ret (g, fst (save_traffic_cache g now file writable)) in
  if negb force_refresh && is_cache_fresh file ttl_minutes now
  then
    '(g, ok) <- load_traffic_cache g file ;;
    if negb (ok =? 0) then Ret (g, file) else sample g
  else sample g.

(** *** CO2 weights *)

Definition apply_co2_weights (g : Graph) (car_co2_g_per_km : Q) : Graph :=
  set_edges g
    (matrix_loop zero_edge (g_n g) (fun i j e =>
       if e_v e >=? 0
       then set_co2_cost e (distance_km e * traffic_factor e * car_co2_g_per_km)
       else set_co2_cost e 0)
       (edges g)).

End Carbon.

(** *** Dijkstra (minimum CO2) *)

Record DijkNode : Type := mkNode {
  dist : Q;
  prev : Z;
  visited : Z
}.

(** The scan for the unvisited node of least [dist]. *)
Definition dijkstra_select (n : Z) (nd : Z -> DijkNode) : Z :=
  snd (for_loop n
         (fun i '(best, u) =>
            if (visited (nd i) =? 0) && Qltb (dist (nd i)) best
            then (dist (nd i), i) else (best, u))
         (INF, -1)).

Definition dijkstra_relax (g : Graph) (u : Z) (nd : Z -> DijkNode)
    : Z -> DijkNode :=
  for_loop (g_n g) (fun v nd =>
    let e := edge_at g u v in
    if (e_v e >=? 0) && (visited (nd v) =? 0)
    then
      let alt := (dist (nd u) + co2_cost e)%Q in
      if Qltb alt (dist (nd v))
      then upd nd v (mkNode alt u (visited (nd v)))
      else nd
    else nd) nd.

Fixpoint dijkstra_rounds (fuel : nat) (g : Graph) (dst : Z) (nd : Z -> DijkNode)
    : run (Z -> DijkNode) :=
  match fuel with
  | O => Fuel
  | S f =>
      let u := dijkstra_select (g_n g) nd in
      if u =? -1 then Ret nd
      else if u =? dst then Ret nd
      else
        let nd := upd nd u (mkNode (dist (nd u)) (prev (nd u)) 1) in
        dijkstra_rounds f g dst (dijkstra_relax g u nd)
  end.

(** [while (cur != -1 && k < 1024) { tmp[k++] = cur; cur = nodes[cur].prev; }]:
    [room] is what is left of [tmp]. *)
Fixpoint walk_prev (room : nat) (nd : Z -> DijkNode) (cur : Z) : list Z :=
  match room with
  | O => []
  | S r => if cur =? -1 then [] else cur :: walk_prev r nd (prev (nd cur))
  end.

(** [dijkstra]: [Ret None] is the return value 0, [Ret (Some (path, cost))]
    the return value 1 with [out_path[0 .. out_len-1]] and [out_cost]. *)
Definition dijkstra (g : Graph) (src dst : Z) : run (option (list Z * Q)) :=
  let n := g_n g in
  let nd := for_loop n (fun i nd => upd nd i (mkNode INF (-1) 0))
                     (fun _ => mkNode 0 0 0) in
  let nd := upd nd src (mkNode 0 (prev (nd src)) (visited (nd src))) in
  nd <- dijkstra_rounds (S (Z.to_nat n)) g dst nd ;;
  if Qgeb (dist (nd dst)) (INF / 2) then Ret None
  else
    let tmp := walk_prev 1024 nd dst in
    Ret (Some (rev tmp, dist (nd dst))).

(** *** RDP simplification *)

Record Pt : Type := mkPt {
  pt_lat : Q;
  pt_lon : Q
}.

Definition seg_point_dist2 (a b c : Pt) : Q :=
  (let vx := pt_lon b - pt_lon a in
   let vy := pt_lat b - pt_lat a in
   let wx := pt_lon c - pt_lon a in
   let wy := pt_lat c - pt_lat a in
   let vv := vx * vx + vy * vy in
   if Qeq_bool vv 0 then
     let dx := pt_lon c - pt_lon a in
     let dy := pt_lat c - pt_lat a in
     dx * dx + dy * dy
   else
     let t := (vx * wx + vy * wy) / vv in
     let t := if Qltb t 0 then 0 else if Qltb 1 t then 1 else t in
     let px := pt_lon a + t * vx in
     let py := pt_lat a + t * vy in
     let dx := pt_lon c - px in
     let dy := pt_lat c - py in
     dx * dx + dy * dy)%Q.

Definition pt0 : Pt := mkPt 0 0.

(** The simplifier is written once over the function [dist2] that measures
    a point against a chord and over the value [eps2] of [eps*eps];
    [rdp_simplify] below is the instance with [seg_point_dist2] and the
    product [eps * eps].  What holds for every [dist2] and [eps2] holds
    for the distances and the product as the machine rounds them. *)
Section Rdp.

Variable dist2 : Pt -> Pt -> Pt -> Q.

(** The scan of the span [(i, j)] for the point farthest from the chord. *)
Definition rdp_farthest_by (pts : list Pt) (i j : Z) : Q * Z :=
  fold_left (fun '(bestd2, bestk) k =>
    let d2 := dist2 (rd pt0 pts i) (rd pt0 pts j) (rd pt0 pts k) in
    if Qltb bestd2 d2 then (d2, k) else (bestd2, bestk))
    (Zrange_from (i + 1) j) ((-1)%Q, -1).

(** The loop [while (top > 0)].  The work stack is a list with the top
    first; it has room for [n + 5] cells. *)
Fixpoint rdp_loop_by (fuel : nat) (pts : list Pt) (n : Z) (eps2 : Q)
    (stack : list Z) (keep : list Z) : run (list Z) :=
  match stack with
  | [] => Ret keep
  | [_] => OutOfBounds
  | j :: i :: rest =>
      match fuel with
      | O => Fuel
      | S f =>
          let '(bestd2, bestk) := rdp_farthest_by pts i j in
          if Qltb eps2 bestd2 then
            let keep := wr keep bestk 1 in
            if Z.of_nat (length rest) + 4 <=? n + 5
            then rdp_loop_by f pts n eps2 (j :: bestk :: bestk :: i :: rest) keep
            else OutOfBounds
          else rdp_loop_by f pts n eps2 rest keep
      end
  end.

(** [for (int i=0;i<n && c<out_max;i++) if (keep[i]) out[c++] = pts[i];] *)
Definition rdp_compose (pts : list Pt) (n : Z) (keep : list Z) (out_max : Z)
    : list Pt :=
  for_loop n (fun i out =>
    if (Z.of_nat (length out) <? out_max) && negb (rd 0 keep i =? 0)
    then out ++ [rd pt0 pts i] else out) [].

Definition rdp_simplify_by (pts : list Pt) (eps2 : Q) (out_max : Z)
    : run (list Pt) :=
  let n := Z.of_nat (length pts) in
  if (n <=? 0) || (out_max <=? 0) then Ret []
  else if n =? 1 then Ret [rd pt0 pts 0]
  else
    let keep := repeat 0 (Z.to_nat n) in
    let keep := wr keep 0 1 in
    let keep := wr keep (n - 1) 1 in
    keep <- rdp_loop_by (Z.to_nat (2 * n)) pts n eps2 [n - 1; 0] keep ;;
    Ret (rdp_compose pts n keep out_max).

End Rdp.

Definition rdp_farthest : list Pt -> Z -> Z -> Q * Z :=
  rdp_farthest_by seg_point_dist2.

Definition rdp_loop (fuel : nat) (pts : list Pt) (n : Z) (eps : Q)
    (stack : list Z) (keep : list Z) : run (list Z) :=
  rdp_loop_by seg_point_dist2 fuel pts n (eps * eps) stack keep.

(** [rdp_simplify pts n eps out out_max] with [n] the length of [pts]:
    the result is [out[0 .. c-1]]. *)
Definition rdp_simplify (pts : list Pt) (eps : Q) (out_max : Z) : run (list Pt) :=
  rdp_simplify_by seg_point_dist2 pts (eps * eps) out_max.

(** *** The request: [shortp] *)

(** The loop that resolves the two names of the route to indices. *)
Definition resolve_cities (cs : Z -> City) (n : Z) (from_name to_name : string)
    : Z * Z :=
  for_loop n (fun i '(src, dst) =>
    let cl := lower (trim (name (cs i))) in
    let src := if String.eqb cl (lower from_name) then i else src in
    let dst := if String.eqb cl (lower to_name) then i else dst in
    (src, dst)) (-1, -1).

(** The rows of [cars.txt] that ["%127[^,],%lf"] converts, in file order;
    the scan stops at the first row whose trimmed, lower-cased model is
    the lower-cased [car_model]. *)
Fixpoint lookup_car_model (rows : list (string * Q)) (car_model : string)
    : option Q :=
  match rows with
  | [] => None
  | (model, val) :: r =>
      if String.eqb (lower (trim model)) (lower car_model) then Some val
      else lookup_car_model r car_model
  end.

(** [car_line] is the line typed for the car model, without its newline;
    [cars] is [None] when [cars.txt] cannot be opened. *)
Definition select_car_co2 (cars : option (list (string * Q))) (car_line : string)
    : Q :=
  let car_model := if String.eqb car_line "" then "Default"%string else car_line in
  match cars with
  | Some rows =>
      match lookup_car_model rows car_model with
      | Some val => val
      | None => DEFAULT_CO2_GKM
      end
  | None => DEFAULT_CO2_GKM
  end.

(** The minutes by car over one edge.  A factor 0 makes the C quotient
    [CAR_FREEFLOW_KMPH/factor] infinite and the time 0; the rationals have
    no infinity, so that case is written out. *)
Definition car_minutes (d factor : Q) : Q :=
  (if Qeq_bool factor 0 then 0
   else
     let car_speed := CAR_FREEFLOW_KMPH / factor in
     let car_speed := if Qltb car_speed 5 then 5 else car_speed in
     (d / car_speed) * 60)%Q.

(** The loop over the steps of the route: total minutes by car, bike and
    on foot. *)
Definition mode_times (g : Graph) (path : list Z) : Q * Q * Q :=
  for_loop (Z.of_nat (length path) - 1) (fun i '(car, bike, walk) =>
    let u := rd 0 path i in
    let v := rd 0 path (i + 1) in
    let e := edge_at g u v in
    let d := distance_km e in
    let factor := traffic_factor e in
    (car + car_minutes d factor,
     bike + (d / BIKE_KMPH) * 60,
     walk + (d / WALK_KMPH) * 60)%Q) (0%Q, 0%Q, 0%Q).

Record route_report : Type := mkReport {
  r_path : list Z;
  r_total_co2 : Q;
  r_car_min : Q;
  r_bike_min : Q;
  r_walk_min : Q
}.

Section Shortp.

Variable haversine_km : Q -> Q -> Q -> Q -> Q.
Variable sample_tomtom_factor : Q -> Q -> Q.
Variable USE_TOMTOM : bool.

(** [shortp] once [cities.txt] is loaded into [cs[0 .. n-1]] and the route
    line is split into [from_name] and [to_name]: the value returned and,
    on success, what is handed to [write_html_map]. *)
Definition shortp (cs : Z -> City) (n : Z) (from_name to_name car_line : string)
    (cars : option (list (string * Q)))
    (file : option cache_file) (now : Z) (writable : bool)
    : run (Z * option route_report) :=
  if n <=? 0 then Ret (1, None)
  else
    let '(src, dst) := resolve_cities cs n from_name to_name in
    if src <? 0 then Ret (1, None)
    else if dst <? 0 then Ret (1, None)
    else
      let car_co2 := select_car_co2 cars car_line in
      let g := mkGraph n cs (build_complete_graph haversine_km cs n) in
      '(g, _) <- build_edge_midpoint_traffic_factors_cached
                   sample_tomtom_factor USE_TOMTOM g SAMPLE_EVERY_N false
                   CACHE_TTL_MINUTES_DEFAULT file now writable ;;
      let g := apply_co2_weights g car_co2 in
      r <- dijkstra g src dst ;;
      match r with
      | None => Ret (1, None)
      | Some (path, total_co2) =>
          let '(total_car_min, total_bike_min, total_walk_min) := mode_times g path in
          Ret (0, Some (mkReport path total_co2
                          total_car_min total_bike_min total_walk_min))
      end.

End Shortp.

(** ** adb[1].h: the input module and the text of the map page *)

Definition NAMELEN : Z := 64.

(** [tolower_copy(src, dst, n)]: the string left in [dst], the first
    [n - 1] characters of [src] at most, each through [tolower]. *)
Fixpoint tolower_copy_room (src : string) (room : nat) : string :=
  match src, room with
  | String c r, S k => String (tolower c) (tolower_copy_room r k)
  | _, _ => EmptyString
  end.

Definition tolower_copy (src : string) (n : Z) : string :=
  tolower_copy_room src (Z.to_nat (n - 1)).

(** [strstr(hay, needle) != NULL]. *)
Fixpoint strstr_found (hay needle : string) : bool :=
  if String.prefix needle hay then true
  else match hay with
       | EmptyString => false
       | String _ r => strstr_found r needle
       end.

Definition ci_contains (hay needle : string) : bool :=
  strstr_found (tolower_copy hay NAMELEN) (tolower_copy needle NAMELEN).

(** [strcasecmp(a, b) == 0]. *)
Definition strcasecmp_eq (a b : string) : bool :=
  String.eqb (lower a) (lower b).

(** [(a<b?(a<b?a:b):(b<c?b:c))], as the code has it: when [a < b] the third
    argument is not looked at. *)
Definition min3 (a b c : Z) : Z :=
  if a <? b then (if a <? b then a else b) else (if b <? c then b else c).

(** The character [s[i]]; past the end it is the terminating 0. *)
Definition char_at (s : string) (i : Z) : ascii :=
  match String.get (Z.to_nat i) s with
  | Some c => c
  | None => zero
  end.

(** [levenshtein_ci], the table [d] of [(n+1)*(m+1)] cells in row-major
    order; [malloc] is taken to succeed. *)
Definition levenshtein_ci (s1 s2 : string) : Z :=
  let a := tolower_copy s1 NAMELEN in
  let b := tolower_copy s2 NAMELEN in
  let n := Z.of_nat (String.length a) in
  let m := Z.of_nat (String.length b) in
  let d := repeat 0 (Z.to_nat ((n + 1) * (m + 1))) in
  let d := for_loop (n + 1) (fun i d => wr d (i * (m + 1) + 0) i) d in
  let d := for_loop (m + 1) (fun j d => wr d (0 * (m + 1) + j) j) d in
  let d :=
    fold_left (fun d i =>
      fold_left (fun d j =>
        let cost := if Ascii.eqb (char_at a (i - 1)) (char_at b (j - 1))
                    then 0 else 1 in
        wr d (i * (m + 1) + j)
           (min3 (rd 0 d ((i - 1) * (m + 1) + j) + 1)
                 (rd 0 d (i * (m + 1) + (j - 1)) + 1)
                 (rd 0 d ((i - 1) * (m + 1) + (j - 1)) + cost)))
        (Zrange_from 1 (m + 1)) d)
      (Zrange_from 1 (n + 1)) d in
  rd 0 d (n * (m + 1) + m).

(** One entry of [best]: [struct { int idx, dist; }]. *)
Record Suggestion : Type := mkSuggestion {
  b_idx : Z;
  b_dist : Z
}.

Definition no_suggestion : Suggestion := mkSuggestion (-1) 9999.

(** The first loop of [ask_place_interactive]: the index it returns, if it
    returns. *)
Definition exact_match (names : Z -> string) (V : Z) (q : string) : option Z :=
  for_loop V (fun i r =>
    match r with
    | Some _ => r
    | None => if strcasecmp_eq (names i) q then Some i else None
    end) None.

(** [cand_idx[0 .. cc-1]] after the second loop. *)
Definition candidates (names : Z -> string) (V : Z) (q : string) : list Z :=
  for_loop V (fun i cand =>
    if Z.of_nat (length cand) <? 64
    then if ci_contains (names i) q then cand ++ [i] else cand
    else cand) [].

(** The inner loop over [b] for the place [i] at distance [d]: the first
    entry that [d] beats is pushed down with those behind it, the last one
    drops out, and the loop is left. *)
Definition suggest_insert (best : list Suggestion) (i d : Z) : list Suggestion :=
  fst (for_loop 5 (fun b '(best, placed) =>
         if (placed : bool) then (best, placed)
         else if d <? b_dist (rd no_suggestion best b)
              then
                let best :=
                  fold_left (fun bs s => wr bs s (rd no_suggestion bs (s - 1)))
                            (rev (Zrange_from (b + 1) 5)) best in
                (wr best b (mkSuggestion i d), true)
              else (best, false)) (best, false)).

(** [best[0 .. 4]] after the third loop. *)
Definition suggestions (names : Z -> string) (V : Z) (q : string)
    : list Suggestion :=
  for_loop V (fun i best => suggest_insert best i (levenshtein_ci (names i) q))
           (repeat no_suggestion 5).

(** [ask_place_interactive]: [q] is what [scanf("%255s")] converts and
    [pick] what [scanf("%d")] converts, [None] when the conversion fails. *)
Definition ask_place_interactive (names : Z -> string) (V : Z)
    (q : option string) (pick : option Z) : run Z :=
  match q with
  | None => Die "Input error."
  | Some q =>
      match exact_match names V q with
      | Some i => Ret i
      | None =>
          let cand := candidates names V q in
          let cc := Z.of_nat (length cand) in
          if 0 <? cc
          then
            match pick with
            | None => Die "Bad selection."
            | Some pick =>
                if (pick <? 1) || (cc <? pick) then Die "Bad selection."
                else Ret (rd 0 cand (pick - 1))
            end
          else
            let best := suggestions names V q in
            match pick with
            | None => Die "Bad selection."
            | Some pick =>
                if (pick <? 1) || (5 <? pick)
                   || (b_idx (rd no_suggestion best (pick - 1)) =? -1)
                then Die "Bad selection."
                else Ret (b_idx (rd no_suggestion best (pick - 1)))
            end
      end
  end.

(** [js_escape(s, out, outn)]: the string left in [out]; [i] counts the
    characters written so far. *)
Fixpoint js_escape_from (s : string) (i outn : Z) : string :=
  match s with
  | EmptyString => EmptyString
  | String c r =>
      if i + 2 <? outn
      then
        let k := N_of_ascii c in
        if (N.eqb k 92 || N.eqb k 34)%bool
        then String (ascii_of_N 92) (String c (js_escape_from r (i + 2) outn))
        else if (N.eqb k 10 || N.eqb k 13)%bool
             then String (ascii_of_N 32) (js_escape_from r (i + 1) outn)
             else String c (js_escape_from r (i + 1) outn)
      else EmptyString
  end.

Definition js_escape (s : string) (outn : Z) : string := js_escape_from s 0 outn.

(** ** adb[1].h in binary64

    The shortest-path module once more, line by line as above, with every
    [double] a binary64 number of the kernel ([PrimFloat]): sums are
    rounded to nearest as the machine rounds them.  It serves where a
    claim turns on that rounding.  [haversine_km_idx] is again a
    parameter, now with binary64 values. *)
Module B64.

Definition INF : float := 0x1.bc16d674ec8p+59%float.

Definition fltb (a b : float) : bool := PrimFloat.ltb a b.
Definition fgeb (a b : float) : bool := PrimFloat.leb b a.

Record state : Type := mkState {
  V : Z;
  head : Z -> Z;
  to : Z -> Z;
  nxt : Z -> Z;
  w : Z -> float;
  E : Z;
  parent : Z -> Z;
  distv : Z -> float;
  used : Z -> Z;
  skip_u : Z;
  skip_v : Z
}.

Definition set_head (st : state) (h : Z -> Z) : state :=
  mkState (V st) h (to st) (nxt st) (w st) (E st)
          (parent st) (distv st) (used st) (skip_u st) (skip_v st).
Definition set_to (st : state) (a : Z -> Z) : state :=
  mkState (V st) (head st) a (nxt st) (w st) (E st)
          (parent st) (distv st) (used st) (skip_u st) (skip_v st).
Definition set_nxt (st : state) (a : Z -> Z) : state :=
  mkState (V st) (head st) (to st) a (w st) (E st)
          (parent st) (distv st) (used st) (skip_u st) (skip_v st).
Definition set_w (st : state) (a : Z -> float) : state :=
  mkState (V st) (head st) (to st) (nxt st) a (E st)
          (parent st) (distv st) (used st) (skip_u st) (skip_v st).
Definition set_E (st : state) (e : Z) : state :=
  mkState (V st) (head st) (to st) (nxt st) (w st) e
          (parent st) (distv st) (used st) (skip_u st) (skip_v st).
Definition set_parent (st : state) (a : Z -> Z) : state :=
  mkState (V st) (head st) (to st) (nxt st) (w st) (E st)
          a (distv st) (used st) (skip_u st) (skip_v st).
Definition set_distv (st : state) (a : Z -> float) : state :=
  mkState (V st) (head st) (to st) (nxt st) (w st) (E st)
          (parent st) a (used st) (skip_u st) (skip_v st).
Definition set_used (st : state) (a : Z -> Z) : state :=
  mkState (V st) (head st) (to st) (nxt st) (w st) (E st)
          (parent st) (distv st) a (skip_u st) (skip_v st).
Definition set_skip (st : state) (su sv : Z) : state :=
  mkState (V st) (head st) (to st) (nxt st) (w st) (E st)
          (parent st) (distv st) (used st) su sv.

Record Path : Type := mkPath {
  nodes : list Z;
  cost : float
}.

Definition len (p : Path) : Z := Z.of_nat (length (nodes p)).

Definition reset_graph (st : state) : state :=
  set_E (set_head st (fun i => if (0 <=? i) && (i <? MAXV) then -1 else head st i)) 0.

(** The globals after [load_places] with [n] places. *)
Definition loaded_state (n : Z) : state :=
  reset_graph (mkState n (fun _ => 0) (fun _ => 0) (fun _ => 0) (fun _ => 0%float) 0
                       (fun _ => 0) (fun _ => 0%float) (fun _ => 0) (-1) (-1)).

Definition add_edge (st : state) (u v : Z) (ww : float) : run state :=
  if (u <? 0) || (u >=? V st) || (v <? 0) || (v >=? V st) || (u =? v)
  then Ret st
  else if E st + 2 >=? MAXE
  then Die "Edge capacity exceeded (raise MAXE)."
  else
    let st := set_to st (upd (to st) (E st) v) in
    let st := set_w st (upd (w st) (E st) ww) in
    let st := set_nxt st (upd (nxt st) (E st) (head st u)) in
    let st := set_head st (upd (head st) u (E st)) in
    let st := set_E st (E st + 1) in
    let st := set_to st (upd (to st) (E st) u) in
    let st := set_w st (upd (w st) (E st) ww) in
    let st := set_nxt st (upd (nxt st) (E st) (head st v)) in
    let st := set_head st (upd (head st) v (E st)) in
    let st := set_E st (E st + 1) in
    Ret st.

Definition minQ (st : state) : Z :=
  snd (for_loop (V st)
         (fun i '(best, bi) =>
            if (used st i =? 0) && fltb (distv st i) best
            then (distv st i, i) else (best, bi))
         (INF, -1)).

Definition dijkstra_init (st : state) (s : Z) : state :=
  let st := for_loop (V st) (fun i st =>
              let st := set_distv st (upd (distv st) i INF) in
              let st := set_used st (upd (used st) i 0) in
              set_parent st (upd (parent st) i (-1))) st in
  set_distv st (upd (distv st) s 0%float).

Definition is_skipped (st : state) (u v : Z) : bool :=
  ((u =? skip_u st) && (v =? skip_v st)) || ((u =? skip_v st) && (v =? skip_u st)).

Definition relax_edge (skipping : bool) (u e : Z) (st : state) : state :=
  let v := to st e in
  if skipping && is_skipped st u v then st
  else
    let alt := PrimFloat.add (distv st u) (w st e) in
    if fltb alt (distv st v)
    then set_parent (set_distv st (upd (distv st) v alt)) (upd (parent st) v u)
    else st.

Fixpoint relax_edges (skipping : bool) (fuel : nat) (u e : Z) (st : state)
    : run state :=
  if e =? -1 then Ret st
  else match fuel with
       | O => Fuel
       | S f => relax_edges skipping f u (nxt st e) (relax_edge skipping u e st)
       end.

Fixpoint dijkstra_loop (skipping : bool) (fuel : nat) (t : Z) (st : state)
    : run state :=
  match fuel with
  | O => Fuel
  | S f =>
      let u := minQ st in
      if u =? -1 then Ret st
      else
        let st := set_used st (upd (used st) u 1) in
        if u =? t then Ret st
        else
          st <- relax_edges skipping (Z.to_nat (E st)) u (head st u) st ;;
          dijkstra_loop skipping f t st
  end.

Definition ecodijkstra (st : state) (s t : Z) : run (state * float) :=
  st <- dijkstra_loop false (S (Z.to_nat (V st))) t (dijkstra_init st s) ;;
  Ret (st, distv st t).

Definition dijkstra_skip_edge (st : state) (s t : Z) : run (state * float) :=
  st <- dijkstra_loop true (S (Z.to_nat (V st))) t (dijkstra_init st s) ;;
  Ret (st, distv st t).

Definition build_path (st : state) (t : Z) : run (list Z) :=
  if fgeb (distv st t) (PrimFloat.div INF 2%float) then Ret []
  else tmp <- walk_parents (Z.to_nat MAXV) (parent st) t ;; Ret (rev tmp).

Definition equal_paths (a b : Path) : bool :=
  if negb (len a =? len b) then false
  else forallb (fun i => rd 0 (nodes a) i =? rd 0 (nodes b) i) (Zrange (len a)).

Section Yen.

Variable haversine_km_idx : Z -> Z -> float.

Definition cand_prefix (prev : list Z) (i : Z) (cand : Path) : Path :=
  for_loop (i + 1) (fun j cand =>
    let cand := mkPath (nodes cand ++ [rd 0 prev j]) (cost cand) in
    if 0 <? j
    then mkPath (nodes cand)
           (PrimFloat.add (cost cand)
                          (haversine_km_idx (rd 0 prev (j - 1)) (rd 0 prev j)))
    else cand) cand.

Definition cand_spur (spur_nodes : list Z) (cand : Path) : Path :=
  fold_left (fun cand j =>
    mkPath (nodes cand ++ [rd 0 spur_nodes j])
           (PrimFloat.add (cost cand)
              (haversine_km_idx (rd 0 spur_nodes (j - 1)) (rd 0 spur_nodes j))))
    (Zrange_from 1 (Z.of_nat (length spur_nodes))) cand.

Definition yen_spur (t : Z) (prev : list Z) (i : Z) (s : state * list Path)
    : run (state * list Path) :=
  let '(st, A) := s in
  let st := set_skip st (rd 0 prev i) (rd 0 prev (i + 1)) in
  '(st, c) <- dijkstra_skip_edge st (rd 0 prev i) t ;;
  if fgeb c (PrimFloat.div INF 2%float) then Ret (st, A)
  else
    tmp <- walk_parents (Z.to_nat MAXV) (parent st) t ;;
    let spur_nodes := rev tmp in
    let cand := cand_spur spur_nodes (cand_prefix prev i (mkPath [] 0%float)) in
    if MAXV <? len cand then OutOfBounds
    else
      let dup := existsb (fun p => equal_paths p cand) A in
      if negb dup && (Z.of_nat (length A) <? 64)
      then Ret (st, A ++ [cand]) else Ret (st, A).

Definition yen_besti (A : list Path) : Z :=
  fold_left (fun besti i =>
    if fltb (cost (rd (mkPath [] 0%float) A i))
            (cost (rd (mkPath [] 0%float) A besti))
    then i else besti)
    (Zrange_from 1 (Z.of_nat (length A))) 0.

Definition yen_k2_paths (st : state) (s t : Z) : run (state * list Path) :=
  '(st, best) <- ecodijkstra st s t ;;
  if fgeb best (PrimFloat.div INF 2%float) then Ret (st, [])
  else
    n0 <- build_path st t ;;
    let out0 := mkPath n0 best in
    '(st, A) <- for_loopM (len out0 - 1) (yen_spur t (nodes out0)) (st, []) ;;
    let st := set_skip st (-1) (-1) in
    if Z.of_nat (length A) =? 0 then Ret (st, [out0])
    else Ret (st, [out0; rd (mkPath [] 0%float) A (yen_besti A)]).

End Yen.

End B64.

(** ** Vocabulary of the statements *)

(** The steps of a route: its pairs of consecutive nodes. *)
Fixpoint steps (path : list Z) : list (Z * Z) :=
  match path with
  | [] => []
  | u :: r => match r with
              | [] => []
              | v :: _ => (u, v) :: steps r
              end
  end.

(** The multiplier that a list of cache rows leaves on the pair (i, j) of
    an [n x n] graph: every row starts from 1; a row [(u, v, fac)] with both
    indices inside [0, n) gives [fac] to (u, v) and to (v, u); any other row
    is passed over. *)
Definition row_hits (n : Z) (row : Z * Z * Q) (i j : Z) : bool :=
  let '(u, v, _) := row in
  ((0 <=? u) && (u <? n) && (0 <=? v) && (v <? n)) &&
  (((u =? i) && (v =? j)) || ((u =? j) && (v =? i))).

Definition cache_factor_from (n : Z) (rows : list (Z * Z * Q)) (i j : Z) (start : Q)
    : Q :=
  fold_left (fun acc row => if row_hits n row i j then snd row else acc)
            rows start.

Definition cache_factor (n : Z) (rows : list (Z * Z * Q)) (i j : Z) : Q :=
  cache_factor_from n rows i j 1%Q.

(** The spans held by the work stack of [rdp_simplify], top first: the
    stack [j :: i :: rest] holds the span (i, j) above those of [rest]. *)
Fixpoint spans (stack : list Z) : list (Z * Z) :=
  match stack with
  | j :: r => match r with
              | i :: rest => (i, j) :: spans rest
              | [] => []
              end
  | [] => []
  end.

(** What the simplifier computes for point [k] of the polyline against the
    chord from point [a] to point [b]. *)
Definition chord_dist2 (dist2 : Pt -> Pt -> Pt -> Q) (pts : list Pt)
    (a b k : Z) : Q :=
  dist2 (rd pt0 pts a) (rd pt0 pts b) (rd pt0 pts k).

(** Point [k] is marked in the block [keep]. *)
Definition kept (keep : list Z) (k : Z) : Prop := 0 <= k /\ rd 0 keep k <> 0.

(** The edge records on the list that starts at record [e]: [e], [nxt[e]],
    and so on up to the end mark -1. *)
Fixpoint chain (fuel : nat) (nx : Z -> Z) (e : Z) : list Z :=
  if e =? -1 then []
  else match fuel with
       | O => []
       | S f => e :: chain f nx (nx e)
       end.

(** The adjacency records of node [u]: target and weight of each record
    on the list of [head[u]], and the targets alone. *)
Definition out_edges (st : state) (u : Z) : list (Z * Q) :=
  map (fun e => (to st e, w st e)) (chain (Z.to_nat (E st)) (nxt st) (head st u)).

Definition adjacency (st : state) (u : Z) : list Z := map fst (out_edges st u).

(** The adjacency arrays as [reset_graph] and [add_edge] leave them: the
    list of a node starts at a record below [E] or is empty, every record
    points to an older record or ends the list, and targets are nodes. *)
Definition wf_graph (st : state) : Prop :=
  0 <= V st <= MAXV /\
  0 <= E st /\
  (forall u, 0 <= u < V st -> -1 <= head st u < E st) /\
  (forall e, 0 <= e < E st -> -1 <= nxt st e < e) /\
  (forall e, 0 <= e < E st -> 0 <= to st e < V st).

(** The globals once [load_places] has read [n] places: empty graph, no
    run of Dijkstra yet, no edge to skip. *)
Definition loaded_state (n : Z) : state :=
  reset_graph (mkState n (fun _ => 0) (fun _ => 0) (fun _ => 0) (fun _ => 0%Q) 0
                       (fun _ => 0) (fun _ => 0%Q) (fun _ => 0) (-1) (-1)).

(** Places in a row, one degree of longitude apart on the equator:
    111 km from each to the next. *)
Definition line_hav (i j : Z) : Q := (Z.abs (i - j) * 111) # 1.

(** The result of a run, or a default when the run does not return. *)
Definition result_or {A : Type} (d : A) (r : run A) : A :=
  match r with
  | Ret a => a
  | _ => d
  end.

(** The cost of a sequence of nodes: the sum of the great-circle
    distances of its steps. *)
Definition path_cost (hav : Z -> Z -> Q) (p : list Z) : Q :=
  fold_right (fun ab acc => (hav (fst ab) (snd ab) + acc)%Q) 0%Q (steps p).

(** The weight of every record is the great-circle distance between its
    endpoints, and distances are not negative. *)
Definition weights_ok (hav : Z -> Z -> Q) (st : state) : Prop :=
  forall u v ww, 0 <= u < V st -> In (v, ww) (out_edges st u) -> (ww == hav u v)%Q.

Definition hav_nonneg (hav : Z -> Z -> Q) : Prop :=
  forall a b, (0 <= hav a b)%Q.

(** The relaxation may use the edge from [u] to [v]: it is not the edge
    that [dijkstra_skip_edge] leaves out. *)
Definition allowedb (skipping : bool) (st : state) (u v : Z) : bool :=
  negb (skipping && is_skipped st u v).

(** Two states with the same graph and the same edge to skip. *)
Definition same_graph (st st' : state) : Prop :=
  graph_of st' = graph_of st /\ skip_u st' = skip_u st /\ skip_v st' = skip_v st.

(** The test that leaves out the edge between [x] and [y], in both
    directions. *)
Definition avoid (x y : Z) (a b : Z) : bool :=
  negb (((a =? x) && (b =? y)) || ((a =? y) && (b =? x))).
(** * Properties

    ** Loops, arrays and comparisons *)

Lemma Qltb_lt (a b : Q) : Qltb a b = true <-> (a < b)%Q.
Proof.
  unfold Qltb. rewrite negb_true_iff. split; intro H.
  - apply Qnot_le_lt. intro L. apply Qle_bool_iff in L. congruence.
  - destruct (Qle_bool b a) eqn:E; trivial.
    apply Qle_bool_iff in E. exfalso. apply (Qlt_not_le _ _ H E).
Qed.

Lemma Qltb_ge (a b : Q) : Qltb a b = false <-> (b <= a)%Q.
Proof.
  unfold Qltb. rewrite negb_false_iff. apply Qle_bool_iff.
Qed.

Lemma Qgeb_ge (a b : Q) : Qgeb a b = true <-> (b <= a)%Q.
Proof. apply Qle_bool_iff. Qed.

Lemma Qgeb_lt (a b : Q) : Qgeb a b = false <-> (a < b)%Q.
Proof.
  unfold Qgeb. split; intro H.
  - apply Qnot_le_lt. intro L. apply Qle_bool_iff in L. congruence.
  - destruct (Qle_bool b a) eqn:E; trivial.
    apply Qle_bool_iff in E. exfalso. apply (Qlt_not_le _ _ H E).
Qed.

Lemma upd_same {A} (a : Z -> A) i x : upd a i x i = x.
Proof. unfold upd. now rewrite Z.eqb_refl. Qed.

Lemma upd_other {A} (a : Z -> A) i j x : j <> i -> upd a i x j = a j.
Proof. unfold upd. intro H. apply Z.eqb_neq in H. now rewrite H. Qed.

Lemma in_Zrange (n i : Z) : In i (Zrange n) <-> 0 <= i < n.
Proof.
  unfold Zrange. rewrite in_map_iff. split.
  - intros [k [<- Hk]]. apply in_seq in Hk. lia.
  - intros H. exists (Z.to_nat i). split; [lia|]. apply in_seq. lia.
Qed.

Lemma Zrange_succ (n : Z) : 0 <= n -> Zrange (n + 1) = Zrange n ++ [n].
Proof.
  intros H. unfold Zrange.
  replace (Z.to_nat (n + 1)) with (Z.to_nat n + 1)%nat by lia.
  rewrite seq_app, map_app. simpl. f_equal. f_equal. lia.
Qed.

Lemma Zrange_nonpos (n : Z) : n <= 0 -> Zrange n = [].
Proof.
  intros H. unfold Zrange. replace (Z.to_nat n) with 0%nat by lia. reflexivity.
Qed.

Lemma for_loop_succ {St} (n : Z) (body : Z -> St -> St) (s : St) :
  0 <= n -> for_loop (n + 1) body s = body n (for_loop n body s).
Proof.
  intros H. unfold for_loop. rewrite Zrange_succ by assumption.
  now rewrite fold_left_app.
Qed.

Lemma for_loop_nonpos {St} (n : Z) (body : Z -> St -> St) (s : St) :
  n <= 0 -> for_loop n body s = s.
Proof. intros H. unfold for_loop. now rewrite Zrange_nonpos. Qed.

(** Induction principle for a counted loop: an invariant that holds before
    the loop and is kept by every iteration holds after [n] iterations. *)
Lemma for_loop_ind {St} (P : Z -> St -> Prop) (n : Z) (body : Z -> St -> St) (s : St) :
  0 <= n ->
  P 0 s ->
  (forall i acc, 0 <= i < n -> P i acc -> P (i + 1) (body i acc)) ->
  P n (for_loop n body s).
Proof.
  intros Hn H0 Hstep.
  assert (G : forall k : nat, Z.of_nat k <= n ->
                              P (Z.of_nat k) (for_loop (Z.of_nat k) body s)).
  { induction k as [|k IH]; intros Hk.
    - simpl. now rewrite for_loop_nonpos by lia.
    - replace (Z.of_nat (S k)) with (Z.of_nat k + 1) by lia.
      rewrite for_loop_succ by lia. apply Hstep; [lia|]. apply IH. lia. }
  specialize (G (Z.to_nat n)). rewrite Z2Nat.id in G by assumption.
  apply G. lia.
Qed.

Lemma length_set_nth {A} (l : list A) k x : length (set_nth l k x) = length l.
Proof.
  revert k. induction l as [|y r IH]; intros [|k]; simpl; auto.
Qed.

Lemma nth_set_nth_same {A} (d : A) (l : list A) k x :
  (k < length l)%nat -> nth k (set_nth l k x) d = x.
Proof.
  revert k. induction l as [|y r IH]; intros [|k] H; simpl in *; try lia; auto.
  apply IH. lia.
Qed.

Lemma nth_set_nth_other {A} (d : A) (l : list A) k k' x :
  k <> k' -> nth k' (set_nth l k x) d = nth k' l d.
Proof.
  revert k k'. induction l as [|y r IH]; intros [|k] [|k'] H; simpl; auto; try lia.
Qed.

Lemma length_wr {A} (l : list A) i x : length (wr l i x) = length l.
Proof. unfold wr. destruct (i <? 0); auto using length_set_nth. Qed.

Lemma rd_wr_same {A} (d : A) (l : list A) i x :
  0 <= i < Z.of_nat (length l) -> rd d (wr l i x) i = x.
Proof.
  intros H. unfold rd, wr. destruct (Z.ltb_spec i 0); [lia|].
  apply nth_set_nth_same. lia.
Qed.

Lemma rd_wr_other {A} (d : A) (l : list A) i j x :
  0 <= j -> i <> j -> rd d (wr l i x) j = rd d l j.
Proof.
  intros Hj H. unfold rd, wr. destruct (Z.ltb_spec i 0); [reflexivity|].
  apply nth_set_nth_other. lia.
Qed.

Lemma length_modify {A} (d : A) l k f : length (modify d l k f) = length l.
Proof. apply length_wr. Qed.

Lemma cell_index_inj (n i j a b : Z) :
  0 <= j < n -> 0 <= b < n -> i * n + j = a * n + b -> i = a /\ j = b.
Proof.
  intros Hj Hb H.
  assert (i = a) by (destruct (Z.lt_trichotomy i a) as [L|[L|L]]; [nia|assumption|nia]).
  subst. lia.
Qed.

Lemma cell_index_bound (n i j : Z) :
  0 <= i < n -> 0 <= j < n -> 0 <= i * n + j < n * n.
Proof. intros Hi Hj. nia. Qed.

Lemma matrix_loop_spec {A} (d : A) (n : Z) (f : Z -> Z -> A -> A) (l : list A) :
  0 <= n -> Z.of_nat (length l) = n * n ->
  length (matrix_loop d n f l) = length l /\
  forall i j, 0 <= i < n -> 0 <= j < n ->
    rd d (matrix_loop d n f l) (i * n + j) = f i j (rd d l (i * n + j)).
Proof.
  intros Hn Hlen. unfold matrix_loop.
  pose (P := fun (i : Z) (l1 : list A) =>
    length l1 = length l /\
    forall a b, 0 <= a < n -> 0 <= b < n ->
      rd d l1 (a * n + b) =
      if a <? i then f a b (rd d l (a * n + b)) else rd d l (a * n + b)).
  assert (G : P n (for_loop n (fun i l1 =>
    for_loop n (fun j l2 => modify d l2 (i * n + j) (f i j)) l1) l)).
  { apply for_loop_ind; [assumption| |].
    - split; [reflexivity|]. intros a b Ha Hb.
      destruct (Z.ltb_spec a 0); [lia|reflexivity].
    - intros i acc Hi [Hl Hacc].
      pose (R := fun (j : Z) (l2 : list A) =>
        length l2 = length l /\
        forall a b, 0 <= a < n -> 0 <= b < n ->
          rd d l2 (a * n + b) =
          if (a <? i) || ((a =? i) && (b <? j))
          then f a b (rd d l (a * n + b)) else rd d l (a * n + b)).
      assert (G : R n (for_loop n
                 (fun j l2 => modify d l2 (i * n + j) (f i j)) acc)).
      { apply for_loop_ind; [assumption| |].
        - split; [assumption|]. intros a b Ha Hb. rewrite Hacc by assumption.
          destruct (Z.ltb_spec b 0); [lia|]. now rewrite andb_false_r, orb_false_r.
        - intros j l2 Hj [Hl2 Hc]. split.
          + now rewrite length_modify.
          + intros a b Ha Hb. unfold modify.
            destruct (Z.eq_dec (i * n + j) (a * n + b)) as [E|NE].
            * destruct (cell_index_inj n i j a b Hj Hb E) as [-> ->].
              rewrite rd_wr_same by (rewrite Hl2; pose proof (cell_index_bound n a b); lia).
              rewrite Hc by assumption.
              destruct (Z.ltb_spec a a); [lia|]. rewrite Z.eqb_refl. simpl.
              destruct (Z.ltb_spec b b); [lia|].
              destruct (Z.ltb_spec b (b + 1)); [reflexivity|lia].
            * rewrite rd_wr_other by (try nia; assumption).
              rewrite Hc by assumption.
              destruct (Z.ltb_spec a i); [reflexivity|]. simpl.
              destruct (Z.eqb_spec a i); [|reflexivity]. simpl. subst a.
              assert (b <> j) by (intro; subst; lia).
              destruct (Z.ltb_spec b j), (Z.ltb_spec b (j + 1)); try lia; reflexivity. }
      destruct G as [Gl Gc]. split; [assumption|].
      intros a b Ha Hb. rewrite Gc by assumption.
      destruct (Z.ltb_spec a i), (Z.ltb_spec a (i + 1)); try lia; simpl.
      * reflexivity.
      * destruct (Z.eqb_spec a i); [|lia]. destruct (Z.ltb_spec b n); [reflexivity|lia].
      * destruct (Z.eqb_spec a i); [lia|]. reflexivity. }
  destruct G as [Gl Gc]. split; [assumption|].
  intros i j Hi Hj. rewrite Gc by assumption.
  destruct (Z.ltb_spec i n); [reflexivity|lia].
Qed.

Lemma Zrange_cons (n : Z) : 0 <= n -> Zrange (n + 1) = 0 :: map Z.succ (Zrange n).
Proof.
  intros H. unfold Zrange.
  replace (Z.to_nat (n + 1)) with (S (Z.to_nat n)) by lia.
  simpl. f_equal. rewrite <- seq_shift, !map_map.
  apply map_ext. intros a. lia.
Qed.

(** A counted loop, unrolled at its first iteration. *)
Lemma for_loop_shift {St} (n : Z) (body : Z -> St -> St) (s : St) :
  0 <= n ->
  for_loop (n + 1) body s = for_loop n (fun i => body (i + 1)) (body 0 s).
Proof.
  intros H. unfold for_loop. rewrite Zrange_cons by assumption. simpl.
  generalize (body 0 s). induction (Zrange n) as [|a l IH]; intros s0; simpl.
  - reflexivity.
  - rewrite IH. unfold Z.succ. reflexivity.
Qed.

Lemma for_loop_ext {St} (n : Z) (f g : Z -> St -> St) (s : St) :
  (forall i acc, 0 <= i < n -> f i acc = g i acc) ->
  for_loop n f s = for_loop n g s.
Proof.
  intros H. unfold for_loop.
  assert (G : forall l, (forall i, In i l -> 0 <= i < n) ->
            forall s0, fold_left (fun acc i => f i acc) l s0 =
                       fold_left (fun acc i => g i acc) l s0).
  { induction l as [|a l IH]; intros Hl s0; simpl; [reflexivity|].
    rewrite H by (apply Hl; now left). apply IH. intros i Hi. apply Hl. now right. }
  apply G. intros i Hi. now apply in_Zrange.
Qed.

Lemma rd_cons_succ {A} (d : A) (x : A) (l : list A) (i : Z) :
  0 <= i -> rd d (x :: l) (i + 1) = rd d l i.
Proof.
  intros H. unfold rd. replace (Z.to_nat (i + 1)) with (S (Z.to_nat i)) by lia.
  reflexivity.
Qed.

(** A loop over the indices of the steps of a route is a fold over the
    steps. *)
Lemma for_loop_steps {St} (f : Z -> Z -> St -> St) (path : list Z) (s : St) :
  for_loop (Z.of_nat (length path) - 1)
           (fun i acc => f (rd 0 path i) (rd 0 path (i + 1)) acc) s =
  fold_left (fun acc p => f (fst p) (snd p) acc) (steps path) s.
Proof.
  revert s. induction path as [|u r IH]; intros s.
  - now rewrite for_loop_nonpos by (simpl; lia).
  - destruct r as [|v r'].
    + now rewrite for_loop_nonpos by (simpl; lia).
    + replace (Z.of_nat (length (u :: v :: r')) - 1)
        with ((Z.of_nat (length (v :: r')) - 1) + 1) by (simpl length; lia).
      rewrite for_loop_shift by (simpl length; lia).
      change (steps (u :: v :: r')) with ((u, v) :: steps (v :: r')).
      simpl fold_left. rewrite <- IH.
      apply for_loop_ext. intros i acc Hi.
      rewrite !rd_cons_succ by lia. reflexivity.
Qed.

Lemma for_loopM_succ {St} (n : Z) (body : Z -> St -> run St) (s : St) :
  0 <= n ->
  for_loopM (n + 1) body s = (a <- for_loopM n body s ;; body n a).
Proof.
  intros H. unfold for_loopM. rewrite Zrange_succ by assumption.
  now rewrite fold_left_app.
Qed.

Lemma for_loopM_nonpos {St} (n : Z) (body : Z -> St -> run St) (s : St) :
  n <= 0 -> for_loopM n body s = Ret s.
Proof. intros H. unfold for_loopM. now rewrite Zrange_nonpos. Qed.

(** A counted loop whose every iteration returns, returns; an invariant
    kept by the iterations holds of the result. *)
Lemma for_loopM_ind {St} (P : Z -> St -> Prop) (n : Z)
    (body : Z -> St -> run St) (s : St) :
  0 <= n ->
  P 0 s ->
  (forall i acc, 0 <= i < n -> P i acc ->
     exists acc', body i acc = Ret acc' /\ P (i + 1) acc') ->
  exists r, for_loopM n body s = Ret r /\ P n r.
Proof.
  intros Hn H0 Hstep.
  assert (G : forall k : nat, Z.of_nat k <= n ->
            exists r, for_loopM (Z.of_nat k) body s = Ret r /\ P (Z.of_nat k) r).
  { induction k as [|k IH]; intros Hk.
    - exists s. split; [now rewrite for_loopM_nonpos by (simpl; lia)|assumption].
    - destruct IH as (r & Hr & HP); [lia|].
      destruct (Hstep (Z.of_nat k) r ltac:(lia) HP) as (r' & Hr' & HP').
      exists r'. replace (Z.of_nat (S k)) with (Z.of_nat k + 1) by lia.
      rewrite for_loopM_succ by lia. rewrite Hr. simpl. split; assumption. }
  specialize (G (Z.to_nat n)). rewrite Z2Nat.id in G by assumption.
  apply G. lia.
Qed.

(** The same when an iteration may also store out of bounds, which can
    only happen under the condition [C]. *)
Lemma for_loopM_ind_bounds {St} (C : Prop) (P : Z -> St -> Prop) (n : Z)
    (body : Z -> St -> run St) (s : St) :
  0 <= n ->
  P 0 s ->
  (forall i acc, 0 <= i < n -> P i acc ->
     (body i acc = OutOfBounds /\ C) \/
     exists acc', body i acc = Ret acc' /\ P (i + 1) acc') ->
  (for_loopM n body s = OutOfBounds /\ C) \/
  exists r, for_loopM n body s = Ret r /\ P n r.
Proof.
  intros Hn H0 Hstep.
  assert (G : forall k : nat, Z.of_nat k <= n ->
            (for_loopM (Z.of_nat k) body s = OutOfBounds /\ C) \/
            exists r, for_loopM (Z.of_nat k) body s = Ret r /\ P (Z.of_nat k) r).
  { induction k as [|k IH]; intros Hk.
    - right. exists s.
      split; [now rewrite for_loopM_nonpos by (simpl; lia)|assumption].
    - replace (Z.of_nat (S k)) with (Z.of_nat k + 1) by lia.
      rewrite for_loopM_succ by lia.
      destruct IH as [[Hr HC]|(r & Hr & HP)]; [lia| |]; rewrite Hr; simpl.
      + left. split; [reflexivity|exact HC].
      + destruct (Hstep (Z.of_nat k) r ltac:(lia) HP)
          as [[Hr' HC]|(r' & Hr' & HP')].
        * left. split; assumption.
        * right. exists r'. split; assumption. }
  specialize (G (Z.to_nat n)). rewrite Z2Nat.id in G by assumption.
  apply G. lia.
Qed.

Lemma Zrange_from_empty (lo hi : Z) : hi <= lo -> Zrange_from lo hi = [].
Proof.
  intros H. unfold Zrange_from. replace (Z.to_nat (hi - lo)) with 0%nat by lia.
  reflexivity.
Qed.

Lemma Zrange_from_succ (lo hi : Z) :
  lo <= hi -> Zrange_from lo (hi + 1) = Zrange_from lo hi ++ [hi].
Proof.
  intros H. unfold Zrange_from.
  replace (Z.to_nat (hi + 1 - lo)) with (Z.to_nat (hi - lo) + 1)%nat by lia.
  rewrite seq_app, map_app. simpl. f_equal. f_equal. lia.
Qed.

Lemma in_Zrange_from (lo hi i : Z) : In i (Zrange_from lo hi) <-> lo <= i < hi.
Proof.
  unfold Zrange_from. rewrite in_map_iff. split.
  - intros [k [<- Hk]]. apply in_seq in Hk. lia.
  - intros H. exists (Z.to_nat (i - lo)). split; [lia|]. apply in_seq. lia.
Qed.

(** Induction principle for a loop [for (k = lo; k < hi; ++k)]. *)
Lemma fold_Zrange_from_ind {St} (P : Z -> St -> Prop) (lo hi : Z)
    (f : St -> Z -> St) (s : St) :
  lo <= hi ->
  P lo s ->
  (forall k acc, lo <= k < hi -> P k acc -> P (k + 1) (f acc k)) ->
  P hi (fold_left f (Zrange_from lo hi) s).
Proof.
  intros Hle H0 Hstep.
  assert (G : forall d : nat, lo + Z.of_nat d <= hi ->
            P (lo + Z.of_nat d) (fold_left f (Zrange_from lo (lo + Z.of_nat d)) s)).
  { induction d as [|d IH]; intros Hd.
    - rewrite Zrange_from_empty by lia. simpl. now rewrite Z.add_0_r.
    - replace (lo + Z.of_nat (S d)) with (lo + Z.of_nat d + 1) by lia.
      rewrite Zrange_from_succ by lia. rewrite fold_left_app. simpl.
      apply Hstep; [lia|]. apply IH. lia. }
  specialize (G (Z.to_nat (hi - lo))).
  replace (lo + Z.of_nat (Z.to_nat (hi - lo))) with hi in G by lia.
  apply G. lia.
Qed.

(** If the loop returns, an invariant kept by the iterations that return
    holds of the result. *)
Lemma for_loopM_inv {St} (P : Z -> St -> Prop) (n : Z)
    (body : Z -> St -> run St) (s : St) :
  0 <= n ->
  P 0 s ->
  (forall i acc acc', 0 <= i < n -> P i acc -> body i acc = Ret acc' ->
     P (i + 1) acc') ->
  forall r, for_loopM n body s = Ret r -> P n r.
Proof.
  intros Hn H0 Hstep.
  assert (G : forall k : nat, Z.of_nat k <= n ->
            forall r, for_loopM (Z.of_nat k) body s = Ret r -> P (Z.of_nat k) r).
  { induction k as [|k IH]; intros Hk r Hr.
    - rewrite for_loopM_nonpos in Hr by (simpl; lia). now inversion Hr; subst.
    - replace (Z.of_nat (S k)) with (Z.of_nat k + 1) in * by lia.
      rewrite for_loopM_succ in Hr by lia.
      destruct (for_loopM (Z.of_nat k) body s) as [a| | |] eqn:Ea;
        try discriminate Hr.
      simpl in Hr. apply (Hstep (Z.of_nat k) a r); [lia| |assumption].
      apply IH; [lia|reflexivity]. }
  specialize (G (Z.to_nat n)). rewrite Z2Nat.id in G by assumption.
  apply G. lia.
Qed.

(** ** CO2 weights of the dense graph *)

(** The shape that [build_complete_graph] gives the block of edges, and
    that the traffic cache keeps: [n * n] cells, the cell of a pair of
    distinct nodes marked with its target, the diagonal marked invalid. *)
Definition dense_graph (g : Graph) : Prop :=
  0 <= g_n g /\
  Z.of_nat (length (edges g)) = g_n g * g_n g /\
  forall i j, 0 <= i < g_n g -> 0 <= j < g_n g ->
    e_v (edge_at g i j) = if i =? j then -1 else j.

Lemma build_complete_graph_cell (hv : Q -> Q -> Q -> Q -> Q) (cs : Z -> City) (n : Z) :
  0 <= n ->
  Z.of_nat (length (build_complete_graph hv cs n)) = n * n /\
  forall i j, 0 <= i < n -> 0 <= j < n ->
    rd zero_edge (build_complete_graph hv cs n) (i * n + j) =
    if i =? j then mkEdge (-1) 0 1 0
    else mkEdge j (hv (lat (cs i)) (lon (cs i)) (lat (cs j)) (lon (cs j))) 1 0.
Proof.
  intros Hn. unfold build_complete_graph.
  assert (L : Z.of_nat (length (repeat zero_edge (Z.to_nat (n * n)))) = n * n)
    by (rewrite repeat_length; nia).
  match goal with
  | |- context [matrix_loop ?d ?m ?f ?l] =>
      destruct (matrix_loop_spec d m f l Hn L) as [Hl Hc]
  end.
  split; [now rewrite Hl|].
  intros i j Hi Hj. rewrite (Hc i j Hi Hj).
  destruct (i =? j); reflexivity.
Qed.

Lemma build_complete_graph_dense (hv : Q -> Q -> Q -> Q -> Q) (cs : Z -> City) (n : Z) :
  0 <= n -> dense_graph (mkGraph n cs (build_complete_graph hv cs n)).
Proof.
  intros Hn. destruct (build_complete_graph_cell hv cs n Hn) as [Hl Hc].
  repeat split; simpl; try assumption; try lia.
  intros i j Hi Hj. unfold edge_at. simpl. rewrite (Hc i j Hi Hj).
  destruct (i =? j); reflexivity.
Qed.

Lemma apply_co2_weights_cell (g : Graph) (car : Q) (i j : Z) :
  0 <= g_n g -> Z.of_nat (length (edges g)) = g_n g * g_n g ->
  0 <= i < g_n g -> 0 <= j < g_n g ->
  edge_at (apply_co2_weights g car) i j =
  let e := edge_at g i j in
  if e_v e >=? 0
  then set_co2_cost e (distance_km e * traffic_factor e * car)
  else set_co2_cost e 0.
Proof.
  intros Hn Hl Hi Hj. unfold apply_co2_weights, edge_at. simpl.
  destruct (matrix_loop_spec zero_edge (g_n g)
    (fun _ _ e => if e_v e >=? 0
                  then set_co2_cost e (distance_km e * traffic_factor e * car)
                  else set_co2_cost e 0) (edges g) Hn Hl) as [_ Hc].
  apply (Hc i j Hi Hj).
Qed.


(** The name under which the emission factor is looked up: what was typed,
    or [Default] for an empty line. *)
Definition car_model_of (car_line : string) : string :=
  if String.eqb car_line "" then "Default"%string else car_line.

(** C4 (amended).  In the dense CO2 graph, for two distinct nodes [i] and
    [j], [apply_co2_weights] sets the cost of the edge to
    [distance_km * traffic_factor * car_co2_g_per_km] and leaves distance
    and traffic factor alone.  The emission factor is found by name in the
    table of profiles; a blank line is looked up under the name [Default];
    a name without a row, or a missing table, gives 120 g/km.  With
    distance 10, multiplier 2 and factor 120 the cost is 2400. *)
Theorem co2_edge_cost :
  forall (g : Graph) (cars : option (list (string * Q))) (car_line : string)
         (i j : Z),
    dense_graph g -> 0 <= i < g_n g -> 0 <= j < g_n g -> i <> j ->
    let car := select_car_co2 cars car_line in
    let e := edge_at g i j in
    let e' := edge_at (apply_co2_weights g car) i j in
    co2_cost e' = (distance_km e * traffic_factor e * car)%Q /\
    distance_km e' = distance_km e /\
    traffic_factor e' = traffic_factor e /\
    (cars = None -> car = 120%Q) /\
    (forall rows, cars = Some rows ->
       lookup_car_model rows (car_model_of car_line) = None -> car = 120%Q) /\
    (forall rows val, cars = Some rows ->
       lookup_car_model rows (car_model_of car_line) = Some val -> car = val) /\
    select_car_co2 cars "" = select_car_co2 cars "Default" /\
    (distance_km e == 10 -> traffic_factor e == 2 -> car == 120 ->
     co2_cost e' == 2400)%Q.
Proof.
  intros g cars car_line i j (Hn & Hl & Hv) Hi Hj Hij car e e'.
  assert (He' : e' = set_co2_cost e (distance_km e * traffic_factor e * car)).
  { unfold e'. rewrite apply_co2_weights_cell by assumption. simpl.
    fold e. unfold e at 1. rewrite (Hv i j Hi Hj).
    destruct (Z.eqb_spec i j); [contradiction|].
    destruct (Z.geb_spec j 0); [reflexivity|lia]. }
  rewrite He'. simpl.
  repeat split.
  - intros ->. reflexivity.
  - intros rows -> Hnone. unfold car, select_car_co2. fold (car_model_of car_line).
    now rewrite Hnone.
  - intros rows val -> Hsome. unfold car, select_car_co2. fold (car_model_of car_line).
    now rewrite Hsome.
  - intros Hd Ht Hc. rewrite Hd, Ht, Hc. reflexivity.
Qed.

Definition two_cities (i : Z) : City :=
  if i =? 0 then mkCity "Dehradun" (780322 # 10000) (303165 # 10000)
  else mkCity "Haridwar" (781642 # 10000) (299457 # 10000).

(** A dense graph of two cities, 10 km apart, whose edge carries the
    multiplier 2. *)
Definition two_city_graph : Graph :=
  let g := mkGraph 2 two_cities (build_complete_graph (fun _ _ _ _ => 10%Q) two_cities 2) in
  set_edges g (map (fun e => set_traffic_factor e 2) (edges g)).

Lemma two_city_graph_dense : dense_graph two_city_graph.
Proof.
  repeat split; try (vm_compute; congruence).
  intros i j Hi Hj. change (g_n two_city_graph) with 2 in Hi, Hj.
  assert (Ci : i = 0 \/ i = 1) by lia. assert (Cj : j = 0 \/ j = 1) by lia.
  destruct Ci as [-> | ->], Cj as [-> | ->]; reflexivity.
Qed.

Lemma co2_edge_cost_witness :
  (co2_cost (edge_at (apply_co2_weights two_city_graph
                        (select_car_co2 None "Swift")) 0 1) == 2400)%Q.
Proof.
  pose proof (co2_edge_cost two_city_graph None "Swift" 0 1
                two_city_graph_dense
                ltac:(change (g_n two_city_graph) with 2; lia)
                ltac:(change (g_n two_city_graph) with 2; lia)
                ltac:(lia)) as H.
  simpl in H. destruct H as (_ & _ & _ & _ & _ & _ & _ & H).
  apply H; reflexivity.
Defined.

(** C4, as stated, fails for the blank profile: with a row named
    [Default] in the table, the blank profile gets that row's factor, not
    120 g/km. *)
Lemma blank_profile_not_default :
  ~ (select_car_co2 (Some [("Default"%string, 95%Q)]) "" == 120)%Q.
Proof. vm_compute. discriminate. Qed.

(** ** Estimated times *)

(** The length of a route in the dense graph: the sum of [distance_km]
    over its steps. *)
Definition total_km (g : Graph) (path : list Z) : Q :=
  fold_right (fun p acc => (distance_km (edge_at g (fst p) (snd p)) + acc)%Q)
             0%Q (steps path).

Lemma mode_times_fold (g : Graph) (path : list Z) :
  mode_times g path =
  fold_left (fun acc p =>
    let '(car, bike, walk) := acc in
    let e := edge_at g (fst p) (snd p) in
    (car + car_minutes (distance_km e) (traffic_factor e),
     bike + (distance_km e / BIKE_KMPH) * 60,
     walk + (distance_km e / WALK_KMPH) * 60)%Q) (steps path) (0%Q, 0%Q, 0%Q).
Proof.
  unfold mode_times.
  apply (for_loop_steps (fun u v (acc : Q * Q * Q) =>
    let '(car, bike, walk) := acc in
    let e := edge_at g u v in
    (car + car_minutes (distance_km e) (traffic_factor e),
     bike + (distance_km e / BIKE_KMPH) * 60,
     walk + (distance_km e / WALK_KMPH) * 60)%Q)).
Qed.

Lemma mode_times_sums (g : Graph) (l : list (Z * Z)) (car bike walk : Q) :
  let r := fold_left (fun acc p =>
    let '(car, bike, walk) := acc in
    let e := edge_at g (fst p) (snd p) in
    (car + car_minutes (distance_km e) (traffic_factor e),
     bike + (distance_km e / BIKE_KMPH) * 60,
     walk + (distance_km e / WALK_KMPH) * 60)%Q) l (car, bike, walk) in
  let km := fold_right (fun p acc =>
    (distance_km (edge_at g (fst p) (snd p)) + acc)%Q) 0%Q l in
  let cm := fold_right (fun p acc =>
    let e := edge_at g (fst p) (snd p) in
    (car_minutes (distance_km e) (traffic_factor e) + acc)%Q) 0%Q l in
  (fst (fst r) == car + cm /\
   snd (fst r) == bike + (km / BIKE_KMPH) * 60 /\
   snd r == walk + (km / WALK_KMPH) * 60)%Q.
Proof.
  revert car bike walk. induction l as [|p l IH]; intros car bike walk; simpl.
  - unfold BIKE_KMPH, WALK_KMPH. repeat split; field.
  - specialize (IH
      (car + car_minutes (distance_km (edge_at g (fst p) (snd p)))
                         (traffic_factor (edge_at g (fst p) (snd p))))%Q
      (bike + (distance_km (edge_at g (fst p) (snd p)) / BIKE_KMPH) * 60)%Q
      (walk + (distance_km (edge_at g (fst p) (snd p)) / WALK_KMPH) * 60)%Q).
    simpl in IH. destruct IH as (Hc & Hb & Hw).
    rewrite Hc, Hb, Hw. unfold BIKE_KMPH, WALK_KMPH. repeat split; field.
Qed.

(** The sum over the steps of a route, in the order of the route. *)
Definition sum_steps (F : Z -> Z -> Q) (path : list Z) : Q :=
  fold_left (fun acc p => (acc + F (fst p) (snd p))%Q) (steps path) 0%Q.

(** The speed of the car on an edge with traffic factor [f]: 50 km/h
    divided by the factor, and not less than 5 km/h. *)
Definition edge_speed (f : Q) : Q := Qmax (50 / f) 5.

Lemma mode_times_split (g : Graph) (l : list (Z * Z)) :
  forall car bike walk : Q,
    fold_left (fun acc p =>
      let '(car, bike, walk) := acc in
      let e := edge_at g (fst p) (snd p) in
      (car + car_minutes (distance_km e) (traffic_factor e),
       bike + (distance_km e / BIKE_KMPH) * 60,
       walk + (distance_km e / WALK_KMPH) * 60)%Q) l (car, bike, walk)
    = (fold_left (fun acc p =>
         let e := edge_at g (fst p) (snd p) in
         (acc + car_minutes (distance_km e) (traffic_factor e))%Q) l car,
       fold_left (fun acc p =>
         (acc + (distance_km (edge_at g (fst p) (snd p)) / BIKE_KMPH) * 60)%Q) l bike,
       fold_left (fun acc p =>
         (acc + (distance_km (edge_at g (fst p) (snd p)) / WALK_KMPH) * 60)%Q) l walk).
Proof.
  induction l as [|p l IH]; intros car bike walk; [reflexivity|].
  cbn [fold_left]. apply IH.
Qed.

Lemma fold_left_sum_ext (F G : Z * Z -> Q) (l : list (Z * Z)) :
  (forall p, In p l -> (F p == G p)%Q) ->
  forall a b : Q, (a == b)%Q ->
    (fold_left (fun acc p => acc + F p) l a
     == fold_left (fun acc p => acc + G p) l b)%Q.
Proof.
  induction l as [|p l IH]; intros H a b Hab; [exact Hab|].
  cbn [fold_left]. apply IH.
  - intros q Hq. apply H. now right.
  - rewrite Hab, (H p (or_introl eq_refl)). reflexivity.
Qed.

Lemma car_minutes_speed (d f : Q) :
  ~ (f == 0)%Q -> (car_minutes d f == (d / edge_speed f) * 60)%Q.
Proof.
  intros Hf. unfold car_minutes, edge_speed, CAR_FREEFLOW_KMPH.
  destruct (Qeq_bool f 0) eqn:E0; [apply Qeq_bool_iff in E0; contradiction|].
  cbv zeta. destruct (Qltb (50 / f) 5) eqn:E5.
  - apply Qltb_lt in E5. rewrite Q.max_r by lra. reflexivity.
  - apply Qltb_ge in E5. rewrite Q.max_l by lra. reflexivity.
Qed.

Lemma edge_speed_free (f : Q) :
  (0 < f -> f <= 10 -> edge_speed f == 50 / f)%Q.
Proof.
  intros Hpos Hle. unfold edge_speed. apply Q.max_l.
  apply Qle_shift_div_l; [exact Hpos|lra].
Qed.

Lemma edge_speed_floor (f : Q) :
  (10 <= f -> edge_speed f == 5)%Q.
Proof.
  intros Hle. unfold edge_speed. apply Q.max_r.
  apply Qle_shift_div_r; lra.
Qed.

(** C5 (amended).  In the generic mode the three times of a route are
    [(km / speed) * 60] with the fixed speeds 40, 15 and 5 km/h.  In the
    CO2 mode each of the three times is the sum over the steps of the
    route, in the order of the route, of [(d / speed) * 60] for the
    distance [d] of the step: by bike and on foot with the fixed speeds 15
    and 5 km/h, by car with the speed of the step's own edge, which is
    50 km/h divided by the traffic factor of the edge and not less than
    5 km/h (a step whose factor is 0 aside).  So the speed of the car is
    [50 / f] on an edge with [0 < f <= 10] and 5 km/h on an edge with
    [10 <= f]. *)
Theorem estimated_times :
  (forall route : Path,
     let '(car, bike, walk) := display_times route in
     car == (cost route / 40) * 60 /\
     bike == (cost route / 15) * 60 /\
     walk == (cost route / 5) * 60)%Q /\
  (forall (g : Graph) (path : list Z),
     (forall u v, In (u, v) (steps path) ->
                  ~ traffic_factor (edge_at g u v) == 0) ->
     let '(car, bike, walk) := mode_times g path in
     car == sum_steps (fun u v =>
              (distance_km (edge_at g u v)
               / edge_speed (traffic_factor (edge_at g u v))) * 60) path /\
     bike == sum_steps (fun u v => (distance_km (edge_at g u v) / 15) * 60) path /\
     walk == sum_steps (fun u v => (distance_km (edge_at g u v) / 5) * 60) path)%Q /\
  (forall f : Q, 0 < f -> f <= 10 -> edge_speed f == 50 / f)%Q /\
  (forall f : Q, 10 <= f -> edge_speed f == 5)%Q.
Proof.
  split; [|split; [|split]].
  - intros route. unfold display_times, compute_time_min. simpl.
    repeat split; reflexivity.
  - intros g path Hf. rewrite mode_times_fold, mode_times_split.
    unfold sum_steps. split; [|split].
    + apply (fold_left_sum_ext
               (fun p => car_minutes (distance_km (edge_at g (fst p) (snd p)))
                                     (traffic_factor (edge_at g (fst p) (snd p))))
               (fun p => (distance_km (edge_at g (fst p) (snd p))
                          / edge_speed (traffic_factor (edge_at g (fst p) (snd p))))
                         * 60)%Q); [|reflexivity].
      intros [u v] Hin. apply car_minutes_speed. exact (Hf u v Hin).
    + reflexivity.
    + reflexivity.
  - exact edge_speed_free.
  - exact edge_speed_floor.
Qed.

Lemma estimated_times_witness :
  let '(car, bike, walk) := mode_times two_city_graph [0; 1] in
  (car == sum_steps (fun u v =>
            (distance_km (edge_at two_city_graph u v)
             / edge_speed (traffic_factor (edge_at two_city_graph u v))) * 60)
            [0%Z; 1%Z] /\
   bike == sum_steps (fun u v =>
             (distance_km (edge_at two_city_graph u v) / 15) * 60) [0%Z; 1%Z] /\
   walk == sum_steps (fun u v =>
             (distance_km (edge_at two_city_graph u v) / 5) * 60) [0%Z; 1%Z])%Q.
Proof.
  destruct estimated_times as (_ & H & _).
  apply (H two_city_graph [0; 1]).
  intros u v [E|[]]. inversion E; subst. vm_compute. discriminate.
Defined.

(** C5, as stated, fails for the car in the CO2 mode: a fresh cache that
    gives the only edge of a 10 km route the multiplier 2 makes the time by
    car 24 minutes, twice [(10 / 50) * 60]. *)
Lemma co2_car_time_follows_traffic :
  match shortp (fun _ _ _ _ => 10%Q) (fun _ _ => 1%Q) false
               two_cities 2 "Dehradun" "Haridwar" "" None
               (Some (mkCache (Some 1000) [(0, 1, 2%Q)])) 1060 true with
  | Ret (0, Some r) =>
      r_path r = [0; 1] /\
      (total_km two_city_graph (r_path r) == 10)%Q /\
      ~ (r_car_min r == (10 / 50) * 60)%Q
  | _ => False
  end.
Proof. vm_compute. repeat split; congruence. Qed.

(** ** Traffic cache *)

Lemma store_field_in (l : list Edge) (k : Z) (f : Edge -> Edge) :
  0 <= k < Z.of_nat (length l) ->
  store_field l k f = Ret (wr l k (f (rd zero_edge l k))).
Proof.
  intros H. unfold store_field, store.
  destruct (Z.leb_spec 0 k); [|lia].
  destruct (Z.ltb_spec k (Z.of_nat (length l))); [|lia]. reflexivity.
Qed.

Lemma reset_factors (l : list Edge) (m : Z) :
  Z.of_nat (length l) = m ->
  exists l', for_loopM m
               (fun i l => store_field l i (fun e => set_traffic_factor e 1)) l
             = Ret l' /\
             length l' = length l /\
             forall k, 0 <= k < m ->
               rd zero_edge l' k = set_traffic_factor (rd zero_edge l k) 1.
Proof.
  intros Hm.
  destruct (for_loopM_ind
    (fun i acc => length acc = length l /\
       forall k, 0 <= k < m ->
         rd zero_edge acc k =
         if k <? i then set_traffic_factor (rd zero_edge l k) 1
         else rd zero_edge l k)
    m (fun i l => store_field l i (fun e => set_traffic_factor e 1)) l)
    as (r & Hr & Hlen & Hc).
  - lia.
  - split; [reflexivity|]. intros k Hk. destruct (Z.ltb_spec k 0); [lia|reflexivity].
  - intros i acc Hi [Hl Hacc]. rewrite store_field_in by lia.
    eexists. split; [reflexivity|]. split; [now rewrite length_wr|].
    intros k Hk. destruct (Z.eq_dec i k) as [->|NE].
    + rewrite rd_wr_same by lia. rewrite Hacc by lia.
      destruct (Z.ltb_spec k k); [lia|].
      destruct (Z.ltb_spec k (k + 1)); [reflexivity|lia].
    + rewrite rd_wr_other by lia. rewrite Hacc by lia.
      destruct (Z.ltb_spec k i), (Z.ltb_spec k (i + 1)); try lia; reflexivity.
  - exists r. split; [assumption|]. split; [assumption|].
    intros k Hk. rewrite Hc by assumption.
    destruct (Z.ltb_spec k m); [reflexivity|lia].
Qed.

Lemma load_row_cells (n : Z) (l : list Edge) (row : Z * Z * Q) :
  0 <= n -> Z.of_nat (length l) = n * n ->
  exists l', load_row n l row = Ret l' /\
             length l' = length l /\
             forall i j, 0 <= i < n -> 0 <= j < n ->
               rd zero_edge l' (i * n + j) =
               if row_hits n row i j
               then set_traffic_factor (rd zero_edge l (i * n + j)) (snd row)
               else rd zero_edge l (i * n + j).
Proof.
  intros Hn Hl. destruct row as [[u v] fac]. unfold load_row, row_hits. simpl snd.
  destruct (Z.geb_spec u 0), (Z.ltb_spec u n), (Z.geb_spec v 0), (Z.ltb_spec v n);
    destruct (Z.leb_spec 0 u), (Z.leb_spec 0 v); try lia; simpl;
    try (exists l; repeat split; reflexivity).
  pose proof (cell_index_bound n u v ltac:(lia) ltac:(lia)) as Buv.
  pose proof (cell_index_bound n v u ltac:(lia) ltac:(lia)) as Bvu.
  rewrite store_field_in by lia. simpl.
  rewrite store_field_in by (rewrite length_wr; lia).
  eexists. split; [reflexivity|]. split; [now rewrite !length_wr|].
  intros i j Hi Hj.
  pose proof (cell_index_bound n i j Hi Hj) as Bij.
  destruct (Z.eq_dec (v * n + u) (i * n + j)) as [E1|N1].
  - destruct (cell_index_inj n v u i j ltac:(lia) Hj E1) as [-> ->].
    rewrite rd_wr_same by (rewrite length_wr; lia).
    rewrite !Z.eqb_refl. rewrite andb_true_r, orb_true_r.
    destruct (Z.eq_dec (j * n + i) (i * n + j)) as [E2|N2].
    + rewrite E2. rewrite rd_wr_same by lia. reflexivity.
    + rewrite rd_wr_other by lia. reflexivity.
  - rewrite rd_wr_other by lia.
    assert (Hvu : (u =? j) && (v =? i) = false).
    { destruct (Z.eqb_spec u j), (Z.eqb_spec v i); try reflexivity. subst. lia. }
    rewrite Hvu, orb_false_r.
    destruct (Z.eq_dec (u * n + v) (i * n + j)) as [E2|N2].
    + destruct (cell_index_inj n u v i j ltac:(lia) Hj E2) as [-> ->].
      rewrite rd_wr_same by lia. now rewrite !Z.eqb_refl.
    + rewrite rd_wr_other by lia.
      destruct (Z.eqb_spec u i), (Z.eqb_spec v j); try reflexivity. subst. lia.
Qed.

Lemma load_rows_cells (n : Z) (orig : list Edge) (rows : list (Z * Z * Q)) :
  0 <= n ->
  forall (l : list Edge) (a : Z -> Z -> Q),
    Z.of_nat (length l) = n * n ->
    (forall i j, 0 <= i < n -> 0 <= j < n ->
       rd zero_edge l (i * n + j) =
       set_traffic_factor (rd zero_edge orig (i * n + j)) (a i j)) ->
    exists l',
      fold_left (fun acc row => l <- acc ;; load_row n l row) rows (Ret l) = Ret l' /\
      length l' = length l /\
      forall i j, 0 <= i < n -> 0 <= j < n ->
        rd zero_edge l' (i * n + j) =
        set_traffic_factor (rd zero_edge orig (i * n + j))
                           (cache_factor_from n rows i j (a i j)).
Proof.
  intros Hn. induction rows as [|row rows IH]; intros l a Hl Ha.
  - exists l. repeat split; assumption.
  - destruct (load_row_cells n l row Hn Hl) as (l1 & H1 & Hl1 & Hc1).
    simpl fold_left. rewrite H1.
    destruct (IH l1 (fun i j => if row_hits n row i j then snd row else a i j))
      as (l' & H' & Hl' & Hc').
    + lia.
    + intros i j Hi Hj. rewrite Hc1, Ha by assumption.
      destruct (row_hits n row i j); reflexivity.
    + exists l'. split; [exact H'|]. split; [congruence|].
      intros i j Hi Hj. rewrite Hc' by assumption. reflexivity.
Qed.

(** C10.  [load_traffic_cache] on an [n x n] graph never stores outside
    the block of edges.  Without a file, or without a timestamp at its
    start, it returns 0 and leaves the graph as it is.  Otherwise it returns
    1, the graph keeps its size, and every cell (i, j) is the former cell
    with only [traffic_factor] changed: to the multiplier of the last row
    [(u, v, fac)] with [0 <= u < n], [0 <= v < n] that names the pair in
    either order, and to 1.0 when no such row exists.  Rows with an index
    out of range change nothing. *)
Theorem load_traffic_cache_cells :
  forall (g : Graph) (file : option cache_file),
    0 <= g_n g -> Z.of_nat (length (edges g)) = g_n g * g_n g ->
    match file with
    | None => load_traffic_cache g file = Ret (g, 0)
    | Some cf =>
        match cf_ts cf with
        | None => load_traffic_cache g file = Ret (g, 0)
        | Some _ =>
            exists l',
              load_traffic_cache g file = Ret (set_edges g l', 1) /\
              length l' = length (edges g) /\
              forall i j, 0 <= i < g_n g -> 0 <= j < g_n g ->
                rd zero_edge l' (i * g_n g + j) =
                set_traffic_factor (edge_at g i j)
                                   (cache_factor (g_n g) (cf_rows cf) i j)
        end
    end.
Proof.
  intros g file Hn Hl. destruct file as [cf|]; [|reflexivity].
  unfold load_traffic_cache. destruct (cf_ts cf) as [ts|]; [|reflexivity].
  destruct (reset_factors (edges g) (g_n g * g_n g) Hl) as (l1 & H1 & Hl1 & Hc1).
  rewrite H1. simpl bind.
  destruct (load_rows_cells (g_n g) (edges g) (cf_rows cf) Hn l1 (fun _ _ => 1%Q))
    as (l' & H' & Hl' & Hc').
  - lia.
  - intros i j Hi Hj. apply Hc1. apply cell_index_bound; assumption.
  - exists l'. rewrite H'. simpl. split; [reflexivity|]. split; [congruence|].
    intros i j Hi Hj. rewrite Hc' by assumption. reflexivity.
Qed.

Lemma load_traffic_cache_cells_witness :
  exists l',
    load_traffic_cache two_city_graph
      (Some (mkCache (Some 1000) [(0, 1, 3%Q); (5, 0, 4%Q)])) =
    Ret (set_edges two_city_graph l', 1) /\
    traffic_factor (rd zero_edge l' 1) = 3%Q /\
    traffic_factor (rd zero_edge l' 2) = 3%Q.
Proof.
  destruct (load_traffic_cache_cells two_city_graph
              (Some (mkCache (Some 1000) [(0, 1, 3%Q); (5, 0, 4%Q)]))
              ltac:(vm_compute; congruence) ltac:(reflexivity))
    as (l' & H & _ & Hc).
  exists l'. split; [exact H|]. split.
  - pose proof (Hc 0 1 ltac:(change (g_n two_city_graph) with 2; lia)
                       ltac:(change (g_n two_city_graph) with 2; lia)) as H01.
    change (0 * g_n two_city_graph + 1) with 1 in H01. rewrite H01. reflexivity.
  - pose proof (Hc 1 0 ltac:(change (g_n two_city_graph) with 2; lia)
                       ltac:(change (g_n two_city_graph) with 2; lia)) as H10.
    change (1 * g_n two_city_graph + 0) with 2 in H10. rewrite H10. reflexivity.
Defined.

(** C10, as stated, fails for a file without a timestamp: the function
    returns before the reset, and the multiplier 2 of the graph stays. *)
Lemma load_without_timestamp_keeps_factors :
  load_traffic_cache two_city_graph (Some (mkCache None [(0, 1, 3%Q)])) =
    Ret (two_city_graph, 0) /\
  traffic_factor (edge_at two_city_graph 0 1) = 2%Q /\
  ~ (traffic_factor (edge_at two_city_graph 0 1) == 1)%Q.
Proof. repeat split. vm_compute. discriminate. Qed.

Lemma wrap64_small (z : Z) :
  - 2 ^ 63 <= z < 2 ^ 63 -> wrap64 z = z.
Proof.
  intros H. unfold wrap64. rewrite Z.mod_small; lia.
Qed.

Lemma wrap64_high (z : Z) :
  2 ^ 63 <= z < 2 ^ 64 -> wrap64 z = z - 2 ^ 64.
Proof.
  intros H. unfold wrap64.
  replace (z + 2 ^ 63) with ((z - 2 ^ 63) + 1 * 2 ^ 64) by lia.
  rewrite Z_mod_plus_full. rewrite Z.mod_small; lia.
Qed.

Lemma is_cache_fresh_age (cf : cache_file) (ts ttl now : Z) :
  cf_ts cf = Some ts ->
  0 <= now < 2 ^ 63 -> - 2 ^ 63 <= ts < 2 ^ 63 -> - 2 ^ 31 <= ttl < 2 ^ 31 ->
  (is_cache_fresh (Some cf) ttl now = true <-> 0 <= now - ts <= ttl * 60).
Proof.
  intros Hts Hnow Hr Httl. unfold is_cache_fresh. rewrite Hts.
  rewrite (wrap64_small (ttl * 60)) by lia.
  destruct (Z_lt_ge_dec (now - ts) (2 ^ 63)) as [Hs|Hh].
  - rewrite wrap64_small by lia.
    destruct (Z.ltb_spec (now - ts) 0).
    + split; [discriminate|lia].
    + destruct (Z.leb_spec (now - ts) (ttl * 60)); split; try reflexivity;
        try discriminate; lia.
  - rewrite wrap64_high by lia.
    destruct (Z.ltb_spec (now - ts - 2 ^ 64) 0); [|lia].
    split; [discriminate|lia].
Qed.

(** C6.  With [now] the reading of the clock (a non-negative [long long]),
    [ttl] an [int] and the timestamp of the file a [long long]:
    [is_cache_fresh] answers 1 exactly when the file opens, a timestamp is
    read from it and the age [now - timestamp], in seconds, is between 0
    and [ttl] minutes, that is [ttl * 60] seconds.  A timestamp in the
    future is never fresh.  The file that [save_traffic_cache] writes at
    time [T] is fresh from [T] to [T + ttl * 60] and not at
    [T + ttl * 60 + 1]. *)
Theorem is_cache_fresh_iff :
  forall (file : option cache_file) (ttl now : Z),
    0 <= now < 2 ^ 63 -> - 2 ^ 31 <= ttl < 2 ^ 31 ->
    (forall cf ts, file = Some cf -> cf_ts cf = Some ts ->
                   - 2 ^ 63 <= ts < 2 ^ 63) ->
    (is_cache_fresh file ttl now = true <->
     exists cf ts, file = Some cf /\ cf_ts cf = Some ts /\
                   0 <= now - ts <= ttl * 60) /\
    (forall cf ts, file = Some cf -> cf_ts cf = Some ts -> now < ts ->
                   is_cache_fresh file ttl now = false) /\
    (forall (g : Graph) (T : Z), 0 <= T <= now ->
       let written := fst (save_traffic_cache g T file true) in
       (is_cache_fresh written ttl now = true <-> now <= T + ttl * 60) /\
       (0 <= ttl -> T + ttl * 60 + 1 < 2 ^ 63 ->
        is_cache_fresh written ttl (T + ttl * 60) = true /\
        is_cache_fresh written ttl (T + ttl * 60 + 1) = false)).
Proof.
  intros file ttl now Hnow Httl Hts. split; [|split].
  - split.
    + intros H. destruct file as [cf|]; [|discriminate].
      destruct (cf_ts cf) as [ts|] eqn:E; [|unfold is_cache_fresh in H; now rewrite E in H].
      exists cf, ts. repeat split; try reflexivity; try assumption;
        apply (is_cache_fresh_age cf ts ttl now E Hnow (Hts cf ts eq_refl E) Httl) in H; lia.
    + intros (cf & ts & -> & E & Hage).
      apply (is_cache_fresh_age cf ts ttl now E Hnow (Hts cf ts eq_refl E) Httl). lia.
  - intros cf ts -> E Hfut.
    destruct (is_cache_fresh (Some cf) ttl now) eqn:F; [|reflexivity].
    apply (is_cache_fresh_age cf ts ttl now E Hnow (Hts cf ts eq_refl E) Httl) in F. lia.
  - intros g T HT written. unfold written, save_traffic_cache. simpl fst.
    set (cf := mkCache (Some T) _).
    assert (E : cf_ts cf = Some T) by reflexivity.
    split.
    + rewrite (is_cache_fresh_age cf T ttl now E Hnow ltac:(lia) Httl). lia.
    + intros Hpos Hbound. split.
      * apply (is_cache_fresh_age cf T ttl (T + ttl * 60) E); lia.
      * destruct (is_cache_fresh (Some cf) ttl (T + ttl * 60 + 1)) eqn:F; [|reflexivity].
        apply (is_cache_fresh_age cf T ttl (T + ttl * 60 + 1) E) in F; lia.
Qed.

Lemma is_cache_fresh_iff_witness :
  is_cache_fresh (Some (mkCache (Some 1000) [])) 15 1900 = true /\
  is_cache_fresh (Some (mkCache (Some 1000) [])) 15 1901 = false.
Proof.
  assert (R : forall cf ts, Some (mkCache (Some 1000) []) = Some cf ->
                            cf_ts cf = Some ts -> - 2 ^ 63 <= ts < 2 ^ 63).
  { intros cf ts H E. inversion H; subst cf. simpl in E. inversion E; subst ts. lia. }
  split.
  - destruct (is_cache_fresh_iff (Some (mkCache (Some 1000) [])) 15 1900
                ltac:(lia) ltac:(lia) R) as (Hiff & _ & _).
    apply Hiff. exists (mkCache (Some 1000) []), 1000. repeat split; lia.
  - destruct (is_cache_fresh_iff (Some (mkCache (Some 1000) [])) 15 1901
                ltac:(lia) ltac:(lia) R) as (Hiff & _ & _).
    destruct (is_cache_fresh (Some (mkCache (Some 1000) [])) 15 1901) eqn:F;
      [|reflexivity].
    destruct (proj1 Hiff eq_refl) as (cf & ts & H & E & Hage).
    inversion H; subst cf. simpl in E. inversion E; subst ts. lia.
Defined.

(** ** Source equal to target *)

Lemma for_loop_upd_const {A} (n : Z) (x : A) (a : Z -> A) :
  0 <= n ->
  forall i, for_loop n (fun i a => upd a i x) a i =
            if (0 <=? i) && (i <? n) then x else a i.
Proof.
  intros Hn.
  apply (for_loop_ind (fun k (b : Z -> A) =>
           forall i, b i = if (0 <=? i) && (i <? k) then x else a i)).
  - assumption.
  - intros i. destruct (Z.leb_spec 0 i), (Z.ltb_spec i 0); try lia; reflexivity.
  - intros k b Hk Hb i. unfold upd. destruct (Z.eqb_spec i k) as [->|NE].
    + destruct (Z.leb_spec 0 k), (Z.ltb_spec k (k + 1)); try lia; reflexivity.
    + rewrite Hb.
      destruct (Z.leb_spec 0 i), (Z.ltb_spec i k), (Z.ltb_spec i (k + 1));
        try lia; reflexivity.
Qed.

(** The scan of [dijkstra] finds the source when every other node is at
    [INF]. *)
Lemma dijkstra_select_source (n src : Z) (nd : Z -> DijkNode) :
  0 <= src < n ->
  nd src = mkNode 0 (-1) 0 ->
  (forall i, 0 <= i < n -> i <> src -> nd i = mkNode INF (-1) 0) ->
  dijkstra_select n nd = src.
Proof.
  intros Hs Hsrc Hoth. unfold dijkstra_select.
  assert (G : for_loop n
         (fun i '(best, u) =>
            if (visited (nd i) =? 0) && Qltb (dist (nd i)) best
            then (dist (nd i), i) else (best, u)) (INF, -1) =
          if n <=? src then (INF, -1) else (0%Q, src));
    [|rewrite G; destruct (Z.leb_spec n src); [lia|reflexivity]].
  apply (for_loop_ind (fun k (s : Q * Z) =>
           s = if k <=? src then (INF, -1) else (0%Q, src))).
  - lia.
  - destruct (Z.leb_spec 0 src); [reflexivity|lia].
  - intros i [best u] Hi Hacc.
    destruct (Z.leb_spec i src) as [Hle|Hgt].
    + inversion Hacc; subst best u. destruct (Z.eq_dec i src) as [->|NE].
      * rewrite Hsrc. simpl. destruct (Z.leb_spec (src + 1) src); [lia|reflexivity].
      * rewrite (Hoth i Hi NE). simpl.
        destruct (Z.leb_spec (i + 1) src); [reflexivity|lia].
    + inversion Hacc; subst best u. rewrite (Hoth i Hi ltac:(lia)). simpl.
      destruct (Z.leb_spec (i + 1) src); [lia|reflexivity].
Qed.

Lemma walk_prev_one (r : nat) (nd : Z -> DijkNode) (cur : Z) :
  cur <> -1 -> prev (nd cur) = -1 -> walk_prev (S (S r)) nd cur = [cur].
Proof.
  intros Hc Hp. cbn [walk_prev].
  destruct (Z.eqb_spec cur (-1)); [contradiction|]. rewrite Hp. reflexivity.
Qed.

Lemma dijkstra_same_node (g : Graph) (src : Z) :
  0 <= src < g_n g -> dijkstra g src src = Ret (Some ([src], 0%Q)).
Proof.
  intros Hs. unfold dijkstra.
  set (nd0 := for_loop (g_n g) (fun i nd => upd nd i (mkNode INF (-1) 0))
                       (fun _ => mkNode 0 0 0)).
  assert (H0 : forall i, 0 <= i < g_n g -> nd0 i = mkNode INF (-1) 0).
  { intros i Hi. unfold nd0. rewrite for_loop_upd_const by lia.
    destruct (Z.leb_spec 0 i), (Z.ltb_spec i (g_n g)); try lia; reflexivity. }
  set (nd1 := upd nd0 src (mkNode 0 (prev (nd0 src)) (visited (nd0 src)))).
  assert (H1 : nd1 src = mkNode 0 (-1) 0).
  { unfold nd1. rewrite upd_same, (H0 src Hs). reflexivity. }
  assert (Hsel : dijkstra_select (g_n g) nd1 = src).
  { apply dijkstra_select_source; try assumption.
    intros i Hi NE. unfold nd1. rewrite upd_other by assumption. now apply H0. }
  assert (Hw : walk_prev 1024 nd1 src = [src]).
  { change 1024%nat with (S (S 1022)). apply walk_prev_one; [lia|].
    now rewrite H1. }
  cbn [dijkstra_rounds]. rewrite Hsel.
  destruct (Z.eqb_spec src (-1)); [lia|]. rewrite Z.eqb_refl.
  cbn [bind]. rewrite Hw, H1. reflexivity.
Qed.

Definition one_city (i : Z) : City := mkCity "Dehradun" (780322 # 10000) (303165 # 10000).

(** C3 (the code departs from it).  In the distance mode, [ecopath] ends
    with [die("Source and destination must differ.")] when the two indices
    are equal.  In the CO2 mode nothing compares them: [dijkstra] from a
    node to itself returns 1 with the one-node path and cost 0, and
    [shortp] on the route [Dehradun to Dehradun] returns 0 with that
    path. *)
Theorem same_source_and_target :
  (forall (hav : Z -> Z -> Q) (st st' : state) (s : Z),
     2 <= V st ->
     build_knn_fixed hav (reset_graph st)
       (let k := if V st - 1 <? 8 then V st - 1 else 8 in
        if (k <? 2) && (V st >=? 3) then 2 else k) = Ret st' ->
     ecopath hav st s s = Die "Source and destination must differ.") /\
  (forall (g : Graph) (src : Z),
     0 <= src < g_n g -> dijkstra g src src = Ret (Some ([src], 0%Q))) /\
  shortp (fun _ _ _ _ => 10%Q) (fun _ _ => 1%Q) false
         one_city 1 "Dehradun" "Dehradun" "" None None 1000 true
  = Ret (0, Some (mkReport [0] 0 0 0 0)).
Proof.
  split; [|split].
  - intros hav st st' s HV Hb. unfold ecopath.
    destruct (Z.ltb_spec (V st) 2); [lia|].
    change (V (reset_graph st)) with (V st). cbv zeta in Hb |- *.
    rewrite Hb. simpl bind. now rewrite Z.eqb_refl.
  - apply dijkstra_same_node.
  - vm_compute. reflexivity.
Qed.

Lemma same_source_and_target_witness :
  dijkstra two_city_graph 1 1 = Ret (Some ([1], 0%Q)).
Proof.
  destruct same_source_and_target as (_ & H & _).
  apply H. change (g_n two_city_graph) with 2. lia.
Defined.

(** ** RDP simplification *)

Lemma sq_nonneg (x : Q) : (0 <= x * x)%Q.
Proof.
  unfold Qle, Qmult. simpl. rewrite Z.mul_1_r. apply Z.square_nonneg.
Qed.

Lemma sq_sum_nonneg (x y : Q) : (0 <= x * x + y * y)%Q.
Proof. pose proof (sq_nonneg x). pose proof (sq_nonneg y). lra. Qed.

Lemma seg_point_dist2_nonneg (a b c : Pt) : (0 <= seg_point_dist2 a b c)%Q.
Proof.
  unfold seg_point_dist2. cbv zeta.
  destruct (Qeq_bool _ 0); [apply sq_sum_nonneg|].
  destruct (Qltb _ 0); [apply sq_sum_nonneg|].
  destruct (Qltb 1 _); apply sq_sum_nonneg.
Qed.

(** The scan of a span returns either nothing (no interior point) or an
    interior point whose distance is the largest of the span. *)
Lemma rdp_farthest_spec (dist2 : Pt -> Pt -> Pt -> Q) (pts : list Pt) (i j : Z) :
  let r := rdp_farthest_by dist2 pts i j in
  (forall k, i < k < j -> (chord_dist2 dist2 pts i j k <= fst r)%Q) /\
  ((fst r = (-1)%Q /\ snd r = -1) \/
   (i < snd r < j /\ fst r = chord_dist2 dist2 pts i j (snd r))).
Proof.
  intros r. unfold r, rdp_farthest_by.
  set (d2 := chord_dist2 dist2 pts i j).
  change (fold_left (fun '(bestd2, bestk) k =>
            let d := dist2 (rd pt0 pts i) (rd pt0 pts j) (rd pt0 pts k) in
            if Qltb bestd2 d then (d, k) else (bestd2, bestk))
            (Zrange_from (i + 1) j) ((-1)%Q, -1))
    with (fold_left (fun '(bestd2, bestk) k =>
            if Qltb bestd2 (d2 k) then (d2 k, k) else (bestd2, bestk))
            (Zrange_from (i + 1) j) ((-1)%Q, -1)).
  destruct (Z_le_gt_dec (i + 1) j) as [Hle|Hgt].
  - apply (fold_Zrange_from_ind (fun hi (s : Q * Z) =>
      (forall k, i < k < hi -> (d2 k <= fst s)%Q) /\
      ((fst s = (-1)%Q /\ snd s = -1) \/ (i < snd s < hi /\ fst s = d2 (snd s))))).
    + assumption.
    + split; [intros k Hk; lia|]. left. split; reflexivity.
    + intros k [bd bk] Hk [Hmax Hbest]. cbn [fst snd] in Hmax, Hbest.
      change (dist2 (rd pt0 pts i) (rd pt0 pts j) (rd pt0 pts k)) with (d2 k).
      destruct (Qltb bd (d2 k)) eqn:Elt; cbn [fst snd].
      * apply Qltb_lt in Elt. split.
        -- intros k' Hk'. destruct (Z.eq_dec k' k) as [->|NE]; [lra|].
           specialize (Hmax k' ltac:(lia)). lra.
        -- right. split; [lia|reflexivity].
      * apply Qltb_ge in Elt. split.
        -- intros k' Hk'. destruct (Z.eq_dec k' k) as [->|NE]; [assumption|].
           apply Hmax. lia.
        -- destruct Hbest as [Hb|[Hb1 Hb2]]; [left; assumption|right].
           split; [lia|assumption].
  - rewrite Zrange_from_empty by lia. cbn [fold_left fst snd].
    split; [intros k Hk; lia|]. left. split; reflexivity.
Qed.

Lemma kept_range (keep : list Z) (k : Z) :
  kept keep k -> 0 <= k < Z.of_nat (length keep).
Proof.
  intros [H0 H]. split; [exact H0|].
  destruct (Z_lt_ge_dec k (Z.of_nat (length keep))) as [Hlt|Hge]; [exact Hlt|].
  exfalso. apply H. unfold rd. apply nth_overflow. lia.
Qed.

Lemma kept_wr (keep : list Z) (bk k : Z) :
  0 <= bk < Z.of_nat (length keep) ->
  kept (wr keep bk 1) k <-> k = bk \/ kept keep k.
Proof.
  intros Hbk. unfold kept. destruct (Z.eq_dec k bk) as [->|NE].
  - rewrite rd_wr_same by exact Hbk. split; [intros _; now left|].
    intros _. split; [lia|discriminate].
  - split.
    + intros [H0 H]. right. split; [exact H0|].
      rewrite rd_wr_other in H by lia. exact H.
    + intros [E|[H0 H]]; [contradiction|]. split; [exact H0|].
      rewrite rd_wr_other by lia. exact H.
Qed.

Lemma spans_push (j i : Z) (rest : list Z) :
  spans (j :: i :: rest) = (i, j) :: spans rest.
Proof. reflexivity. Qed.

Lemma length_spans (stack : list Z) :
  Nat.Even (length stack) -> length stack = (2 * length (spans stack))%nat.
Proof.
  revert stack. fix IH 1. intros [|j [|i rest]] H.
  - reflexivity.
  - destruct H as [k Hk]. simpl in Hk. lia.
  - simpl. rewrite (IH rest); [lia|].
    destruct H as [k Hk]. simpl in Hk. exists (k - 1)%nat. lia.
Qed.

Definition span_len (l : list (Z * Z)) : Z :=
  fold_right (fun p acc => (snd p - fst p) + acc) 0 l.

(** The number of turns of the loop still to come is at most this. *)
Definition span_work (l : list (Z * Z)) : Z :=
  fold_right (fun p acc => (2 * (snd p - fst p) - 1) + acc) 0 l.

Lemma span_len_cons (p : Z * Z) (l : list (Z * Z)) :
  span_len (p :: l) = (snd p - fst p) + span_len l.
Proof. reflexivity. Qed.

Lemma span_work_cons (p : Z * Z) (l : list (Z * Z)) :
  span_work (p :: l) = (2 * (snd p - fst p) - 1) + span_work l.
Proof. reflexivity. Qed.

Lemma span_len_count (l : list (Z * Z)) :
  Forall (fun p => fst p < snd p) l -> Z.of_nat (length l) <= span_len l.
Proof.
  induction 1 as [|p l H1 Hl IH]; unfold span_len in *;
    cbn [fold_right length]; lia.
Qed.

Lemma span_work_nonneg (l : list (Z * Z)) :
  Forall (fun p => fst p < snd p) l -> 0 <= span_work l.
Proof.
  induction 1 as [|p l H1 Hl IH]; unfold span_work in *;
    cbn [fold_right]; lia.
Qed.

Section RdpLoop.

Variable dist2 : Pt -> Pt -> Pt -> Q.
Variable pts : list Pt.
Variable eps2 : Q.
Hypothesis eps2_nonneg : (0 <= eps2)%Q.

Let n : Z := Z.of_nat (length pts).
Let d2 : Z -> Z -> Z -> Q := chord_dist2 dist2 pts.

(** A span of the stack: its two ends are marked and no point between them
    is. *)
Definition span_inv (keep : list Z) (p : Z * Z) : Prop :=
  fst p < snd p /\ kept keep (fst p) /\ kept keep (snd p) /\
  forall k, fst p < k < snd p -> ~ kept keep k.

(** Two marked points with no marked point between them are the ends of a
    span of the stack, or every point between them is within the
    tolerance of their chord. *)
Definition leaves_inv (stack keep : list Z) : Prop :=
  forall a b, kept keep a -> kept keep b -> a < b ->
    (forall c, a < c < b -> ~ kept keep c) ->
    In (a, b) (spans stack) \/ forall k, a < k < b -> (d2 a b k <= eps2)%Q.

(** A marked interior point was the farthest from the chord of two marked
    points around it, and beyond the tolerance. *)
Definition splits_inv (keep : list Z) : Prop :=
  forall k, kept keep k -> 0 < k < n - 1 ->
    exists a b, kept keep a /\ kept keep b /\ a < k < b /\
      (eps2 < d2 a b k)%Q /\ forall k', a < k' < b -> (d2 a b k' <= d2 a b k)%Q.

(** Every point is marked, or waits inside a span of the stack, or is
    within the tolerance of a chord. *)
Definition cover_inv (stack keep : list Z) : Prop :=
  forall k, 0 <= k < n ->
    kept keep k \/
    (exists p, In p (spans stack) /\ fst p < k < snd p) \/
    exists a b, 0 <= a < k /\ k < b < n /\ (d2 a b k <= eps2)%Q.

(** The state of the loop.  The spans of the stack lie side by side, the
    one on top to the right of those below. *)
Definition rdp_inv (stack keep : list Z) : Prop :=
  Z.of_nat (length keep) = n /\
  Forall (span_inv keep) (spans stack) /\
  StronglySorted (fun p q : Z * Z => snd q <= fst p) (spans stack) /\
  leaves_inv stack keep /\ splits_inv keep /\ cover_inv stack keep.

(** A span that is not split leaves the stack. *)
Lemma rdp_inv_pop (j i : Z) (rest keep : list Z) :
  rdp_inv (j :: i :: rest) keep ->
  (forall k, i < k < j -> (d2 i j k <= eps2)%Q) ->
  rdp_inv rest keep.
Proof.
  intros (Hlen & Hsp & Hord & Hleaf & Hsplit & Hcov) Hnear.
  rewrite spans_push in Hsp, Hord.
  inversion Hsp as [|p l Hp Hrest]; subst.
  inversion Hord as [|p l Hord' Hbelow]; subst.
  destruct Hp as (Hij & Hki & Hkj & Hnone). cbn [fst snd] in *.
  split; [exact Hlen|]. split; [exact Hrest|]. split; [exact Hord'|].
  split; [|split; [exact Hsplit|]].
  - intros a b Ha Hb Hab Hbetween.
    destruct (Hleaf a b Ha Hb Hab Hbetween) as [Hin|Hd]; [|right; exact Hd].
    rewrite spans_push in Hin. destruct Hin as [E|Hin]; [|left; exact Hin].
    inversion E; subst. right. exact Hnear.
  - intros k Hk. destruct (Hcov k Hk) as [H|[(p & Hp & Hin)|H]];
      [left; exact H| |right; right; exact H].
    rewrite spans_push in Hp. destruct Hp as [<-|Hp].
    + cbn [fst snd] in Hin. right. right. exists i, j.
      pose proof (kept_range keep i Hki). pose proof (kept_range keep j Hkj).
      split; [lia|]. split; [lia|]. apply Hnear. exact Hin.
    + right. left. exists p. split; assumption.
Qed.

(** A span that is split at its farthest point [bk] gives way to its two
    halves, the right one on top. *)
Lemma rdp_inv_split (j i bk : Z) (rest keep : list Z) :
  rdp_inv (j :: i :: rest) keep ->
  i < bk < j -> (eps2 < d2 i j bk)%Q ->
  (forall k, i < k < j -> (d2 i j k <= d2 i j bk)%Q) ->
  rdp_inv (j :: bk :: bk :: i :: rest) (wr keep bk 1).
Proof.
  intros (Hlen & Hsp & Hord & Hleaf & Hsplit & Hcov) Hbk Hfar Hmax.
  rewrite spans_push in Hsp, Hord.
  inversion Hsp as [|p l Hp Hrest]; subst.
  inversion Hord as [|p l Hord' Hbelow]; subst.
  destruct Hp as (Hij & Hki & Hkj & Hnone). cbn [fst snd] in *.
  pose proof (kept_range keep i Hki) as Hri.
  pose proof (kept_range keep j Hkj) as Hrj.
  assert (Hrb : 0 <= bk < Z.of_nat (length keep)) by lia.
  assert (Hmono : forall k, kept keep k -> kept (wr keep bk 1) k).
  { intros k Hk. apply kept_wr; [exact Hrb|]. now right. }
  assert (Hnew : kept (wr keep bk 1) bk).
  { apply kept_wr; [exact Hrb|]. now left. }
  assert (Hold : forall k, kept (wr keep bk 1) k -> k <> bk -> kept keep k).
  { intros k Hk NE. apply kept_wr in Hk; [|exact Hrb].
    destruct Hk as [E|Hk]; [contradiction|exact Hk]. }
  rewrite Forall_forall in Hbelow.
  split; [rewrite length_wr; exact Hlen|].
  rewrite !spans_push.
  split; [|split; [|split; [|split]]].
  - constructor; [|constructor].
    + unfold span_inv. cbn [fst snd]. split; [lia|]. split; [exact Hnew|].
      split; [apply Hmono; exact Hkj|].
      intros k Hk Hkk. apply (Hnone k); [lia|]. apply Hold; [exact Hkk|lia].
    + unfold span_inv. cbn [fst snd]. split; [lia|].
      split; [apply Hmono; exact Hki|].
      split; [exact Hnew|].
      intros k Hk Hkk. apply (Hnone k); [lia|]. apply Hold; [exact Hkk|lia].
    + rewrite Forall_forall in Hrest. apply Forall_forall. intros p Hp.
      destruct (Hrest p Hp) as (Hp1 & Hp2 & Hp3 & Hp4).
      specialize (Hbelow p Hp). cbn [fst snd] in Hbelow.
      split; [exact Hp1|]. split; [apply Hmono; exact Hp2|].
      split; [apply Hmono; exact Hp3|].
      intros k Hk Hkk. apply (Hp4 k Hk). apply Hold; [exact Hkk|lia].
  - constructor; [constructor; [exact Hord'|]|].
    + apply Forall_forall. intros p Hp. specialize (Hbelow p Hp).
      cbn [fst snd] in *. exact Hbelow.
    + constructor; [cbn [fst snd]; lia|].
      apply Forall_forall. intros p Hp. specialize (Hbelow p Hp).
      cbn [fst snd] in *. lia.
  - intros a b Ha Hb Hab Hbetween.
    destruct (Z.eq_dec a bk) as [->|Na].
    { left. left. f_equal.
      destruct (Z.eq_dec b j) as [E|NE]; [symmetry; exact E|]. exfalso.
      assert (Hb' : kept keep b) by (apply Hold; [exact Hb|lia]).
      destruct (Z_lt_ge_dec b j) as [Hlt|Hge].
      - apply (Hnone b); [lia|exact Hb'].
      - apply (Hbetween j); [lia|]. apply Hmono. exact Hkj. }
    destruct (Z.eq_dec b bk) as [->|Nb].
    { left. right. left. f_equal.
      destruct (Z.eq_dec a i) as [E|NE]; [symmetry; exact E|]. exfalso.
      assert (Ha' : kept keep a) by (apply Hold; [exact Ha|lia]).
      destruct (Z_lt_ge_dec i a) as [Hlt|Hge].
      - apply (Hnone a); [lia|exact Ha'].
      - apply (Hbetween i); [lia|]. apply Hmono. exact Hki. }
    destruct (Hleaf a b (Hold a Ha Na) (Hold b Hb Nb) Hab) as [Hin|Hd].
    + intros c Hc Hkc. apply (Hbetween c Hc). apply Hmono. exact Hkc.
    + rewrite spans_push in Hin. destruct Hin as [E|Hin].
      * inversion E; subst. exfalso. apply (Hbetween bk Hbk). exact Hnew.
      * left. right. right. exact Hin.
    + right. exact Hd.
  - intros k Hk Hint. destruct (Z.eq_dec k bk) as [->|NE].
    + exists i, j. split; [apply Hmono; exact Hki|].
      split; [apply Hmono; exact Hkj|]. split; [exact Hbk|].
      split; [exact Hfar|exact Hmax].
    + destruct (Hsplit k (Hold k Hk NE) Hint) as (a & b & Ha & Hb & Hakb & Hd & Hm).
      exists a, b. split; [apply Hmono; exact Ha|].
      split; [apply Hmono; exact Hb|]. split; [exact Hakb|].
      split; [exact Hd|exact Hm].
  - intros k Hk. destruct (Z.eq_dec k bk) as [->|NE]; [left; exact Hnew|].
    destruct (Hcov k Hk) as [H|[(p & Hp & Hin)|H]];
      [left; apply Hmono; exact H| |right; right; exact H].
    right. left. rewrite spans_push in Hp. destruct Hp as [<-|Hp].
    + cbn [fst snd] in Hin. destruct (Z_lt_ge_dec k bk).
      * exists (i, bk). split; [right; left; reflexivity|]. cbn [fst snd]. lia.
      * exists (bk, j). split; [left; reflexivity|]. cbn [fst snd]. lia.
    + exists p. split; [right; right; exact Hp|exact Hin].
Qed.

Lemma span_inv_lt (keep : list Z) (l : list (Z * Z)) :
  Forall (span_inv keep) l -> Forall (fun p => fst p < snd p) l.
Proof. apply Forall_impl. intros p Hp. apply Hp. Qed.

(** The loop never runs out of fuel.  It stops either on a store beyond
    the [n + 5] cells of the stack, which needs more than 7 points, or with
    an empty stack. *)
Lemma rdp_loop_result (fuel : nat) :
  forall (stack : list Z) (keep : list Z),
    Nat.Even (length stack) ->
    span_len (spans stack) <= n - 1 ->
    span_work (spans stack) <= Z.of_nat fuel ->
    rdp_inv stack keep ->
    (rdp_loop_by dist2 fuel pts n eps2 stack keep = OutOfBounds /\ 7 < n) \/
    exists keep',
      rdp_loop_by dist2 fuel pts n eps2 stack keep = Ret keep' /\
      rdp_inv [] keep' /\
      (forall k, kept keep k -> kept keep' k).
Proof.
  induction fuel as [|fuel IH]; intros stack keep Hev Hlen Hwork Hinv.
  - destruct stack as [|j [|i rest]].
    + right. exists keep. split; [reflexivity|]. split; [exact Hinv|tauto].
    + destruct Hev as [m Hm]. simpl in Hm. lia.
    + exfalso. destruct Hinv as (_ & Hsp & _).
      apply span_inv_lt in Hsp. rewrite spans_push in Hsp, Hwork.
      rewrite span_work_cons in Hwork.
      inversion Hsp as [|p l H1 Hr]; subst.
      pose proof (span_work_nonneg _ Hr). cbn [fst snd] in *. lia.
  - destruct stack as [|j [|i rest]].
    + right. exists keep. split; [reflexivity|]. split; [exact Hinv|tauto].
    + destruct Hev as [m Hm]. simpl in Hm. lia.
    + assert (Hev' : Nat.Even (length rest)).
      { destruct Hev as [m Hm]. simpl in Hm. exists (m - 1)%nat. lia. }
      pose proof Hinv as (Hkl & Hsp & _).
      pose proof (span_inv_lt _ _ Hsp) as Hlt.
      rewrite spans_push in Hlt, Hlen, Hwork, Hsp.
      rewrite span_len_cons in Hlen. rewrite span_work_cons in Hwork.
      cbn [fst snd] in Hlen, Hwork.
      inversion Hlt as [|p l H1 Hr]; subst. cbn [fst snd] in H1.
      inversion Hsp as [|p l Hp _]; subst.
      destruct Hp as (_ & Hki & Hkj & _). cbn [fst snd] in Hki, Hkj.
      pose proof (kept_range keep i Hki) as Hri.
      pose proof (kept_range keep j Hkj) as Hrj.
      pose proof (span_work_nonneg _ Hr) as Hwn.
      cbn [rdp_loop_by].
      pose proof (rdp_farthest_spec dist2 pts i j) as [Hmax Hbest].
      fold d2 in Hmax, Hbest.
      destruct (rdp_farthest_by dist2 pts i j) as [bestd2 bestk].
      cbn [fst snd] in Hmax, Hbest.
      destruct (Qltb eps2 bestd2) eqn:Esplit.
      * apply Qltb_lt in Esplit.
        assert (Hk : i < bestk < j /\ bestd2 = d2 i j bestk).
        { destruct Hbest as [[Hb _]|Hb]; [|exact Hb].
          subst bestd2. exfalso. lra. }
        destruct Hk as [Hk Hd]. subst bestd2.
        destruct (Z.leb_spec (Z.of_nat (length rest) + 4) (n + 5)) as [Hroom|Hfull].
        -- destruct (IH (j :: bestk :: bestk :: i :: rest) (wr keep bestk 1))
             as [[Hoob Hn]|(keep' & Hret & Hfin & Hmono)].
           ++ destruct Hev' as [m Hm]. exists (m + 2)%nat. simpl. lia.
           ++ rewrite !spans_push, !span_len_cons. cbn [fst snd]. lia.
           ++ rewrite !spans_push, !span_work_cons. cbn [fst snd]. lia.
           ++ apply rdp_inv_split; assumption.
           ++ left. split; assumption.
           ++ right. exists keep'. split; [exact Hret|]. split; [exact Hfin|].
              intros k Hkk. apply Hmono. apply kept_wr; [lia|]. now right.
        -- left. split; [reflexivity|].
           pose proof (span_len_count _ Hr) as Hc.
           pose proof (length_spans rest Hev') as Hs. lia.
      * apply Qltb_ge in Esplit.
        destruct (IH rest keep Hev' ltac:(lia) ltac:(lia))
          as [[Hoob Hn]|(keep' & Hret & Hfin & Hmono)].
        -- apply (rdp_inv_pop j i); [exact Hinv|].
           intros k Hk. specialize (Hmax k Hk). lra.
        -- left. split; assumption.
        -- right. exists keep'. split; [exact Hret|]. split; [exact Hfin|exact Hmono].
Qed.

End RdpLoop.

Lemma firstn_snoc {A} (d : A) (l : list A) (m : nat) :
  (m < length l)%nat -> firstn (S m) l = firstn m l ++ [nth m l d].
Proof.
  revert m. induction l as [|x l IH]; intros m H; simpl in H; [lia|].
  destruct m as [|m]; [reflexivity|].
  change (firstn (S (S m)) (x :: l)) with (x :: firstn (S m) l).
  rewrite (IH m) by lia. reflexivity.
Qed.

Lemma rdp_compose_all (pts : list Pt) (keep : list Z) (out_max : Z) :
  let n := Z.of_nat (length pts) in
  n <= out_max ->
  (forall k, 0 <= k < n -> rd 0 keep k <> 0) ->
  rdp_compose pts n keep out_max = pts.
Proof.
  intros n Hmax Hall. unfold rdp_compose.
  assert (G : (fun i (out : list Pt) => out = firstn (Z.to_nat i) pts)
          n (for_loop n (fun i out =>
               if (Z.of_nat (length out) <? out_max) && negb (rd 0 keep i =? 0)
               then out ++ [rd pt0 pts i] else out) [])).
  { apply for_loop_ind.
    - lia.
    - reflexivity.
    - intros i out Hi ->.
      assert (Hl : length (firstn (Z.to_nat i) pts) = Z.to_nat i)
        by (apply firstn_length_le; lia).
      rewrite Hl.
      destruct (Z.ltb_spec (Z.of_nat (Z.to_nat i)) out_max); [|lia].
      destruct (Z.eqb_spec (rd 0 keep i) 0) as [E|NE]; [now apply Hall in E|]. simpl.
      replace (Z.to_nat (i + 1)) with (S (Z.to_nat i)) by lia.
      rewrite (firstn_snoc pt0) by lia. reflexivity. }
  simpl in G. rewrite G. apply firstn_all2. lia.
Qed.

Lemma filter_Zrange_succ (f : Z -> bool) (i : Z) :
  0 <= i ->
  filter f (Zrange (i + 1)) = filter f (Zrange i) ++ (if f i then [i] else []).
Proof.
  intros Hi. rewrite Zrange_succ by assumption. rewrite filter_app. reflexivity.
Qed.

Lemma length_Zrange (n : Z) : 0 <= n -> Z.of_nat (length (Zrange n)) = n.
Proof. intros H. unfold Zrange. rewrite length_map, length_seq. lia. Qed.

Lemma rdp_compose_filter (pts : list Pt) (n : Z) (keep : list Z) (out_max : Z) :
  0 <= n -> n <= out_max ->
  rdp_compose pts n keep out_max =
  map (rd pt0 pts) (filter (fun i => negb (rd 0 keep i =? 0)) (Zrange n)).
Proof.
  intros Hn Hmax. unfold rdp_compose.
  apply (for_loop_ind (fun i (out : list Pt) =>
           out = map (rd pt0 pts)
                     (filter (fun i => negb (rd 0 keep i =? 0)) (Zrange i))));
    [exact Hn|reflexivity|].
  intros i out Hi ->. rewrite filter_Zrange_succ by lia.
  assert (Hlen : Z.of_nat (length (map (rd pt0 pts)
                   (filter (fun i => negb (rd 0 keep i =? 0)) (Zrange i)))) <= i).
  { rewrite length_map.
    pose proof (filter_length_le (fun i => negb (rd 0 keep i =? 0)) (Zrange i)).
    pose proof (length_Zrange i ltac:(lia)). lia. }
  destruct (Z.ltb_spec (Z.of_nat (length (map (rd pt0 pts)
              (filter (fun i => negb (rd 0 keep i =? 0)) (Zrange i))))) out_max);
    [|lia].
  cbn [andb]. destruct (negb (rd 0 keep i =? 0)).
  - rewrite map_app. reflexivity.
  - rewrite app_nil_r. reflexivity.
Qed.

Lemma StronglySorted_filter (f : Z -> bool) (l : list Z) :
  StronglySorted Z.lt l -> StronglySorted Z.lt (filter f l).
Proof.
  induction 1 as [|a l Hs IH Ha]; [constructor|].
  cbn [filter]. destruct (f a); [|exact IH].
  constructor; [exact IH|]. apply Forall_forall. intros x Hx.
  apply filter_In in Hx. rewrite Forall_forall in Ha. apply Ha. apply Hx.
Qed.

Lemma StronglySorted_Zrange (n : Z) : StronglySorted Z.lt (Zrange n).
Proof.
  destruct (Z_le_gt_dec 0 n) as [Hn|Hn].
  - pattern n. apply natlike_ind; [constructor| |exact Hn].
    intros k Hk IH. unfold Z.succ. rewrite Zrange_cons by assumption. constructor.
    + clear - IH. induction IH as [|a l Hs IHs Ha]; [constructor|].
      cbn [map]. constructor; [exact IHs|].
      apply Forall_forall. intros x Hx. apply in_map_iff in Hx.
      destruct Hx as (y & <- & Hy). rewrite Forall_forall in Ha.
      specialize (Ha y Hy). lia.
    + apply Forall_forall. intros x Hx. apply in_map_iff in Hx.
      destruct Hx as (y & <- & Hy). apply in_Zrange in Hy. lia.
  - rewrite Zrange_nonpos by lia. constructor.
Qed.


(** What [rdp_simplify] returns, whatever the function that measures the
    distances and whatever the value of [eps*eps], as long as that value is
    not negative. *)
Lemma rdp_simplify_by_spec (dist2 : Pt -> Pt -> Pt -> Q) (pts : list Pt)
    (eps2 : Q) (out_max : Z) :
  let n := Z.of_nat (length pts) in
  let d2 := chord_dist2 dist2 pts in
  (0 <= eps2)%Q -> 1 <= n -> n <= out_max ->
  (rdp_simplify_by dist2 pts eps2 out_max = OutOfBounds /\ 7 < n) \/
  exists ks,
    rdp_simplify_by dist2 pts eps2 out_max = Ret (map (rd pt0 pts) ks) /\
    StronglySorted Z.lt ks /\
    (forall k, In k ks -> 0 <= k < n) /\
    hd 0 ks = 0 /\ last ks 0 = n - 1 /\
    (forall a b, In a ks -> In b ks -> a < b ->
       (forall c, a < c < b -> ~ In c ks) ->
       forall k, a < k < b -> (d2 a b k <= eps2)%Q) /\
    (forall k, In k ks -> 0 < k < n - 1 ->
       exists a b, In a ks /\ In b ks /\ a < k < b /\
         (eps2 < d2 a b k)%Q /\
         forall k', a < k' < b -> (d2 a b k' <= d2 a b k)%Q) /\
    (forall k, 0 <= k < n ->
       In k ks \/ exists a b, 0 <= a < k /\ k < b < n /\ (d2 a b k <= eps2)%Q) /\
    ((forall k, 0 <= k < n -> In k ks) -> map (rd pt0 pts) ks = pts).
Proof.
  intros n d2 Heps Hn Hmax. unfold rdp_simplify_by. fold n.
  destruct (Z.leb_spec n 0); [lia|]. destruct (Z.leb_spec out_max 0); [lia|].
  cbn [orb]. destruct (Z.eqb_spec n 1) as [E1|N1].
  - right. exists [0].
    assert (Hp : pts = [rd pt0 pts 0]).
    { destruct pts as [|x [|y r]]; simpl in n; subst n; try (simpl in E1; lia).
      reflexivity. }
    split; [reflexivity|].
    split; [constructor; [constructor|constructor]|].
    split; [intros k [<-|[]]; lia|]. split; [reflexivity|].
    split; [simpl; lia|].
    split; [intros a b [<-|[]] [<-|[]] Hab; lia|].
    split; [intros k _ Hk; lia|].
    split; [intros k Hk; left; left; lia|].
    intros _. symmetry. exact Hp.
  - set (keep0 := wr (wr (repeat 0 (Z.to_nat n)) 0 1) (n - 1) 1).
    assert (Hl0 : Z.of_nat (length keep0) = n).
    { unfold keep0. rewrite !length_wr, repeat_length. lia. }
    assert (Hkept0 : forall k, kept keep0 k <-> k = 0 \/ k = n - 1).
    { intros k. unfold keep0.
      rewrite kept_wr by (rewrite length_wr, repeat_length; lia).
      rewrite kept_wr by (rewrite repeat_length; lia).
      split; [|tauto]. intros [H1|[H1|[_ H1]]]; [now right|now left|].
      exfalso. apply H1. unfold rd. apply nth_repeat. }
    destruct (rdp_loop_result dist2 pts eps2 Heps (Z.to_nat (2 * n)) [n - 1; 0] keep0)
      as [[Hoob Hbig]|(keep' & Hret & Hfin & Hmono)].
    + exists 1%nat. reflexivity.
    + rewrite spans_push, span_len_cons. cbn [fst snd spans]. unfold span_len.
      cbn [fold_right]. fold n. lia.
    + rewrite spans_push, span_work_cons. cbn [fst snd spans]. unfold span_work.
      cbn [fold_right]. lia.
    + fold n. split; [exact Hl0|]. rewrite spans_push. cbn [spans].
      split; [|split; [|split; [|split]]].
      * constructor; [|constructor]. unfold span_inv. cbn [fst snd].
        split; [lia|]. split; [apply Hkept0; now left|].
        split; [apply Hkept0; now right|].
        intros k Hk Hkk. apply Hkept0 in Hkk. lia.
      * constructor; [constructor|constructor].
      * intros a b Ha Hb Hab _. apply Hkept0 in Ha. apply Hkept0 in Hb.
        left. left. f_equal; lia.
      * intros k Hk Hint. apply Hkept0 in Hk. lia.
      * intros k Hk.
        destruct (Z.eq_dec k 0) as [->|]; [left; apply Hkept0; now left|].
        destruct (Z.eq_dec k (n - 1)) as [->|]; [left; apply Hkept0; now right|].
        right. left. exists (0, n - 1). split; [now left|]. cbn [fst snd]. lia.
    + left. fold n in Hoob, Hbig. rewrite Hoob. split; [reflexivity|assumption].
    + right. fold n in Hret, Hfin, Hmono. rewrite Hret. cbn [bind].
      destruct Hfin as (Hl' & _ & _ & Hleaf & Hsplit & Hcov). fold n in Hl'.
      rewrite rdp_compose_filter by lia.
      set (f := fun i => negb (rd 0 keep' i =? 0)).
      assert (Hf : forall k, In k (filter f (Zrange n)) <-> kept keep' k).
      { intros k. rewrite filter_In, in_Zrange. unfold f, kept. split.
        - intros [Hk Hne]. split; [lia|].
          destruct (Z.eqb_spec (rd 0 keep' k) 0); [discriminate|assumption].
        - intros Hk. pose proof (kept_range keep' k Hk) as Hr. rewrite Hl' in Hr.
          split; [exact Hr|]. destruct Hk as [_ Hk].
          destruct (Z.eqb_spec (rd 0 keep' k) 0); [contradiction|reflexivity]. }
      assert (Hf0 : f 0 = true).
      { assert (Hk : kept keep' 0) by (apply Hmono, Hkept0; now left).
        apply Hf in Hk. apply filter_In in Hk. apply Hk. }
      assert (Hfn : f (n - 1) = true).
      { assert (Hk : kept keep' (n - 1)) by (apply Hmono, Hkept0; now right).
        apply Hf in Hk. apply filter_In in Hk. apply Hk. }
      exists (filter f (Zrange n)). split; [reflexivity|].
      split; [apply StronglySorted_filter, StronglySorted_Zrange|].
      split; [intros k Hk; apply filter_In in Hk; apply in_Zrange; apply Hk|].
      split; [|split; [|split; [|split; [|split]]]].
      * replace n with ((n - 1) + 1) by lia. rewrite Zrange_cons by lia.
        cbn [filter]. rewrite Hf0. reflexivity.
      * replace n with ((n - 1) + 1) at 1 by lia.
        rewrite filter_Zrange_succ by lia. rewrite Hfn. apply last_last.
      * intros a b Ha Hb Hab Hbetween.
        destruct (Hleaf a b (proj1 (Hf a) Ha) (proj1 (Hf b) Hb) Hab) as [[]|Hd];
          [|exact Hd].
        intros c Hc Hkc. apply (Hbetween c Hc). apply Hf. exact Hkc.
      * intros k Hk Hint.
        destruct (Hsplit k (proj1 (Hf k) Hk) Hint) as (a & b & Ha & Hb & Hr).
        exists a, b. split; [apply Hf; exact Ha|]. split; [apply Hf; exact Hb|].
        exact Hr.
      * intros k Hk. destruct (Hcov k Hk) as [Hc|[(p & [] & _)|Hc]];
          [left; apply Hf; exact Hc|right; exact Hc].
      * intros Hall. subst f.
        rewrite <- (rdp_compose_filter pts n keep' out_max) by lia.
        apply rdp_compose_all; [exact Hmax|].
        intros k Hk. apply (Hf k). apply Hall. exact Hk.
Qed.

(** C9 (amended).  [dist2] stands for [seg_point_dist2] as it is computed,
    never negative, and [eps2] for the value of [eps*eps], which is 0 for
    the tolerance 0 (and for a tolerance so small that the product is
    rounded to 0).  For a polyline of [n >= 1] points and room for all of
    them in [out], [rdp_simplify] either stores beyond the [n + 5] cells of
    its work stack, which takes more than 7 points, or returns the points
    at an increasing list of indices that starts with the first point and
    ends with the last, such that
    - every point between two neighbours of the list is at computed
      distance 0 from the chord of the two: these are the points left out;
    - every interior point of the list is at a positive computed distance
      from the chord of two points of the list around it, and is the
      farthest from that chord of the points between the two.
    So the full input is returned when every point is at a positive
    computed distance from every chord of an earlier and a later point. *)
Theorem rdp_zero_tolerance :
  forall (dist2 : Pt -> Pt -> Pt -> Q) (pts : list Pt) (eps2 : Q) (out_max : Z),
    let n := Z.of_nat (length pts) in
    let d2 := chord_dist2 dist2 pts in
    (forall a b c, (0 <= dist2 a b c)%Q) -> (eps2 == 0)%Q ->
    1 <= n -> n <= out_max ->
    (rdp_simplify_by dist2 pts eps2 out_max = OutOfBounds /\ 7 < n) \/
    exists ks,
      rdp_simplify_by dist2 pts eps2 out_max = Ret (map (rd pt0 pts) ks) /\
      StronglySorted Z.lt ks /\
      (forall k, In k ks -> 0 <= k < n) /\
      hd 0 ks = 0 /\ last ks 0 = n - 1 /\
      (forall a b, In a ks -> In b ks -> a < b ->
         (forall c, a < c < b -> ~ In c ks) ->
         forall k, a < k < b -> (d2 a b k == 0)%Q) /\
      (forall k, In k ks -> 0 < k < n - 1 ->
         exists a b, In a ks /\ In b ks /\ a < k < b /\
           (0 < d2 a b k)%Q /\
           forall k', a < k' < b -> (d2 a b k' <= d2 a b k)%Q) /\
      ((forall a k b, 0 <= a < k -> k < b < n -> (0 < d2 a b k)%Q) ->
       map (rd pt0 pts) ks = pts).
Proof.
  intros dist2 pts eps2 out_max n d2 Hpos Heps Hn Hmax.
  destruct (rdp_simplify_by_spec dist2 pts eps2 out_max
              ltac:(rewrite Heps; apply Qle_refl) Hn Hmax)
    as [Hoob|(ks & Hret & Hsort & Hrange & Hhd & Hlast & Hleaf & Hsplit & Hcov & Hall)].
  - left. exact Hoob.
  - right. exists ks. split; [exact Hret|]. split; [exact Hsort|].
    split; [exact Hrange|]. split; [exact Hhd|]. split; [exact Hlast|].
    split; [|split].
    + intros a b Ha Hb Hab Hbetween k Hk.
      pose proof (Hleaf a b Ha Hb Hab Hbetween k Hk) as Hd.
      fold n d2 in Hd. rewrite Heps in Hd.
      apply Qle_antisym; [exact Hd|apply Hpos].
    + intros k Hk Hint.
      destruct (Hsplit k Hk Hint) as (a & b & Ha & Hb & Hakb & Hd & Hm).
      exists a, b. split; [exact Ha|]. split; [exact Hb|]. split; [exact Hakb|].
      split; [|exact Hm]. rewrite Heps in Hd. exact Hd.
    + intros Hoff. apply Hall. intros k Hk.
      destruct (Hcov k Hk) as [Hin|(a & b & Ha & Hb & Hd)]; [exact Hin|].
      exfalso. specialize (Hoff a k b Ha Hb). fold d2 in Hd.
      rewrite Heps in Hd. apply (Qlt_irrefl 0).
      apply (Qlt_le_trans _ (d2 a b k)); assumption.
Qed.

Definition bent_line : list Pt := [mkPt 0 0; mkPt 1 1; mkPt 0 2].

Lemma rdp_zero_tolerance_witness :
  rdp_simplify bent_line 0 3 = Ret bent_line.
Proof.
  destruct (rdp_zero_tolerance seg_point_dist2 bent_line (0 * 0) 3
              seg_point_dist2_nonneg ltac:(reflexivity)
              ltac:(simpl; lia) ltac:(simpl; lia))
    as [[_ Hbig]|(ks & Hret & _ & _ & _ & _ & _ & _ & Hfull)].
  - simpl in Hbig. lia.
  - unfold rdp_simplify. rewrite Hret. f_equal. apply Hfull.
    intros a k b Ha Hb. simpl in Hb.
    assert (a = 0 /\ k = 1 /\ b = 2) as (-> & -> & ->) by lia.
    vm_compute. reflexivity.
Defined.

(** C9, as stated, fails on three points in a line: with tolerance 0 the
    middle point is at distance 0 from the chord, the test
    [bestd2 > eps*eps] is false, and the point is dropped. *)
Lemma rdp_drops_collinear_point :
  exists out,
    rdp_simplify [mkPt 0 0; mkPt 0 1; mkPt 0 2] 0 3 = Ret out /\
    out = [mkPt 0 0; mkPt 0 2] /\ ~ In (mkPt 0 1) out.
Proof.
  exists [mkPt 0 0; mkPt 0 2]. split; [vm_compute; reflexivity|].
  split; [reflexivity|]. intros [H|[H|[]]]; discriminate H.
Qed.

(** ** The sparse graph *)

Lemma chain_agree (m : nat) :
  forall (e : Z) (f1 f2 : nat) (nx1 nx2 : Z -> Z),
    -1 <= e -> e < Z.of_nat m ->
    (forall e', 0 <= e' <= e -> -1 <= nx1 e' < e' /\ nx2 e' = nx1 e') ->
    e + 1 <= Z.of_nat f1 -> e + 1 <= Z.of_nat f2 ->
    chain f1 nx1 e = chain f2 nx2 e.
Proof.
  induction m as [|m IH]; intros e f1 f2 nx1 nx2 He Hm Hnx H1 H2.
  - assert (e = -1) by lia. subst e. destruct f1, f2; reflexivity.
  - destruct (Z.eq_dec e (-1)) as [->|NE]; [destruct f1, f2; reflexivity|].
    destruct f1 as [|f1]; [lia|]. destruct f2 as [|f2]; [lia|].
    cbn [chain]. destruct (Z.eqb_spec e (-1)); [contradiction|].
    destruct (Hnx e ltac:(lia)) as [Hd Heq]. rewrite Heq. f_equal.
    apply IH; try lia. intros e' He'. apply Hnx. lia.
Qed.

Lemma chain_bound (fuel : nat) (nx : Z -> Z) :
  forall e, (forall e', 0 <= e' <= e -> -1 <= nx e' < e') -> -1 <= e ->
    forall x, In x (chain fuel nx e) -> 0 <= x <= e.
Proof.
  induction fuel as [|fuel IH]; intros e Hnx He x Hx.
  - simpl in Hx. destruct (e =? -1); contradiction.
  - cbn [chain] in Hx. destruct (Z.eqb_spec e (-1)); [contradiction|].
    destruct Hx as [Hx|Hx]; [subst x; lia|].
    pose proof (Hnx e ltac:(lia)) as Hd.
    assert (0 <= x <= nx e); [|lia].
    apply IH; try assumption; try lia. intros e' He'. apply Hnx. lia.
Qed.

Lemma out_edges_range (st : state) (u v : Z) (ww : Q) :
  wf_graph st -> 0 <= u < V st -> In (v, ww) (out_edges st u) -> 0 <= v < V st.
Proof.
  intros (HV & HE & Hhead & Hnxt & Hto) Hu Hin. unfold out_edges in Hin.
  apply in_map_iff in Hin. destruct Hin as (e & He & Hin). inversion He; subst.
  apply (chain_bound _ _ (head st u)) in Hin.
  - apply Hto. specialize (Hhead u Hu). lia.
  - intros e' He'. apply Hnxt. specialize (Hhead u Hu). lia.
  - specialize (Hhead u Hu). lia.
Qed.

Lemma reset_graph_wf (st : state) :
  0 <= V st <= MAXV -> wf_graph (reset_graph st).
Proof.
  intros HV. unfold wf_graph, reset_graph. simpl.
  repeat split; try lia.
  - destruct (Z.leb_spec 0 u), (Z.ltb_spec u MAXV); simpl; lia.
  - destruct (Z.leb_spec 0 u), (Z.ltb_spec u MAXV); simpl; lia.
Qed.

Lemma reset_graph_out_edges (st : state) (u : Z) :
  0 <= u < MAXV -> out_edges (reset_graph st) u = [].
Proof.
  intros Hu. unfold out_edges, reset_graph. simpl.
  destruct (Z.leb_spec 0 u), (Z.ltb_spec u MAXV); try lia. reflexivity.
Qed.

(** The state after an [add_edge] that adds its two records. *)
Definition add_edge_result (st : state) (u v : Z) (ww : Q) : state :=
  mkState (V st)
    (upd (upd (head st) u (E st)) v (E st + 1))
    (upd (upd (to st) (E st) v) (E st + 1) u)
    (upd (upd (nxt st) (E st) (head st u)) (E st + 1) (upd (head st) u (E st) v))
    (upd (upd (w st) (E st) ww) (E st + 1) ww)
    (E st + 1 + 1) (parent st) (distv st) (used st) (skip_u st) (skip_v st).

Lemma add_edge_unfold (st : state) (u v : Z) (ww : Q) :
  add_edge st u v ww =
  if (u <? 0) || (u >=? V st) || (v <? 0) || (v >=? V st) || (u =? v)
  then Ret st
  else if E st + 2 >=? MAXE
  then Die "Edge capacity exceeded (raise MAXE)."
  else Ret (add_edge_result st u v ww).
Proof. reflexivity. Qed.

Lemma add_edge_cases (st : state) (u v : Z) (ww : Q) (st' : state) :
  add_edge st u v ww = Ret st' ->
  (st' = st /\ (u < 0 \/ u >= V st \/ v < 0 \/ v >= V st \/ u = v)) \/
  (0 <= u < V st /\ 0 <= v < V st /\ u <> v /\
   st' = add_edge_result st u v ww).
Proof.
  rewrite add_edge_unfold. intros Hadd.
  destruct (Z.ltb_spec u 0); cbn [orb] in Hadd;
    [inversion Hadd; subst; left; split; [reflexivity|lia]|].
  destruct (Z.geb_spec u (V st)); cbn [orb] in Hadd;
    [inversion Hadd; subst; left; split; [reflexivity|lia]|].
  destruct (Z.ltb_spec v 0); cbn [orb] in Hadd;
    [inversion Hadd; subst; left; split; [reflexivity|lia]|].
  destruct (Z.geb_spec v (V st)); cbn [orb] in Hadd;
    [inversion Hadd; subst; left; split; [reflexivity|lia]|].
  destruct (Z.eqb_spec u v); cbn [orb] in Hadd;
    [inversion Hadd; subst; left; split; [reflexivity|lia]|].
  destruct (E st + 2 >=? MAXE); [discriminate|].
  inversion Hadd; subst st'; clear Hadd. right.
  repeat split; lia.
Qed.

Lemma add_edge_result_wf (st : state) (u v : Z) (ww : Q) :
  wf_graph st -> 0 <= u < V st -> 0 <= v < V st -> u <> v ->
  wf_graph (add_edge_result st u v ww).
Proof.
  intros (HV & HE & Hhead & Hnxt & Hto) Hu Hv Huv.
  pose proof (Hhead u Hu) as Hhu. pose proof (Hhead v Hv) as Hhv.
  unfold wf_graph, add_edge_result. cbn [V E head nxt to].
  rewrite (upd_other (head st) u v) by lia.
  split; [lia|]. split; [lia|]. split; [|split].
  - intros x Hx. unfold upd. destruct (Z.eqb_spec x v); [lia|].
    destruct (Z.eqb_spec x u); [lia|]. specialize (Hhead x Hx). lia.
  - intros e He. unfold upd. destruct (Z.eqb_spec e (E st + 1)); [lia|].
    destruct (Z.eqb_spec e (E st)); [lia|]. specialize (Hnxt e ltac:(lia)). lia.
  - intros e He. unfold upd. destruct (Z.eqb_spec e (E st + 1)); [lia|].
    destruct (Z.eqb_spec e (E st)); [lia|]. specialize (Hto e ltac:(lia)). lia.
Qed.

Lemma add_edge_result_old_record (st : state) (u v : Z) (ww : Q) (e : Z) :
  e <> E st -> e <> E st + 1 ->
  nxt (add_edge_result st u v ww) e = nxt st e /\
  to (add_edge_result st u v ww) e = to st e /\
  w (add_edge_result st u v ww) e = w st e.
Proof.
  intros H1 H2. unfold add_edge_result. cbn [nxt to w].
  rewrite !upd_other by assumption. repeat split; reflexivity.
Qed.

(** The list that starts at an old record is the same after [add_edge]. *)
Lemma add_edge_result_old_list (st : state) (u v : Z) (ww : Q) (e0 : Z) (f : nat) :
  wf_graph st -> -1 <= e0 < E st -> e0 + 1 <= Z.of_nat f ->
  map (fun e => (to (add_edge_result st u v ww) e, w (add_edge_result st u v ww) e))
      (chain f (nxt (add_edge_result st u v ww)) e0)
  = map (fun e => (to st e, w st e)) (chain (Z.to_nat (E st)) (nxt st) e0).
Proof.
  intros (HV & HE & Hhead & Hnxt & Hto) He0 Hf.
  rewrite (chain_agree (Z.to_nat (E st + 2)) e0 (Z.to_nat (E st)) f
             (nxt st) (nxt (add_edge_result st u v ww))); try lia.
  - apply map_ext_in. intros e Hin.
    apply (chain_bound _ _ e0) in Hin; try lia.
    + destruct (add_edge_result_old_record st u v ww e) as (_ & -> & ->);
        [lia|lia|reflexivity].
    + intros e' He'.
      destruct (add_edge_result_old_record st u v ww e') as (-> & _ & _);
        [lia|lia|]. apply Hnxt. lia.
  - intros e' He'. split; [apply Hnxt; lia|].
    now destruct (add_edge_result_old_record st u v ww e') as (-> & _ & _);
      [lia|lia|].
Qed.

(** What [add_edge] does to the lists of a well-formed graph when it adds:
    one record at the front of the list of each endpoint. *)
Lemma add_edge_result_out_edges (st : state) (u v : Z) (ww : Q) (x : Z) :
  wf_graph st -> 0 <= u < V st -> 0 <= v < V st -> u <> v -> 0 <= x < V st ->
  out_edges (add_edge_result st u v ww) x =
  (if x =? u then [(v, ww)] else []) ++
  (if x =? v then [(u, ww)] else []) ++ out_edges st x.
Proof.
  intros Hwf Hu Hv Huv Hx.
  pose proof Hwf as (HV & HE & Hhead & Hnxt & Hto).
  pose proof (Hhead u Hu) as Hhu. pose proof (Hhead v Hv) as Hhv.
  pose proof (Hhead x Hx) as Hhx.
  unfold out_edges at 1.
  replace (Z.to_nat (E (add_edge_result st u v ww)))
    with (S (Z.to_nat (E st + 1))) by (cbn [add_edge_result E]; lia).
  destruct (Z.eqb_spec x u) as [Eu|Nu]; destruct (Z.eqb_spec x v) as [Ev|Nv];
    try lia.
  - subst x.
    assert (Hh : head (add_edge_result st u v ww) u = E st).
    { cbn [add_edge_result head]. rewrite upd_other by lia. apply upd_same. }
    rewrite Hh. cbn [chain]. destruct (Z.eqb_spec (E st) (-1)); [lia|].
    cbn [map app]. f_equal.
    + cbn [add_edge_result to w]. unfold upd.
      destruct (Z.eqb_spec (E st) (E st + 1)); [lia|].
      now rewrite Z.eqb_refl.
    + assert (Hn : nxt (add_edge_result st u v ww) (E st) = head st u).
      { cbn [add_edge_result nxt]. rewrite upd_other by lia. apply upd_same. }
      rewrite Hn. apply add_edge_result_old_list; [assumption|lia|lia].
  - subst x.
    assert (Hh : head (add_edge_result st u v ww) v = E st + 1)
      by (cbn [add_edge_result head]; apply upd_same).
    rewrite Hh. cbn [chain]. destruct (Z.eqb_spec (E st + 1) (-1)); [lia|].
    cbn [map app]. f_equal.
    + cbn [add_edge_result to w]. now rewrite !upd_same.
    + assert (Hn : nxt (add_edge_result st u v ww) (E st + 1) = head st v).
      { cbn [add_edge_result nxt]. rewrite upd_same. apply upd_other. lia. }
      rewrite Hn. apply add_edge_result_old_list; [assumption|lia|lia].
  - cbn [app].
    assert (Hh : head (add_edge_result st u v ww) x = head st x).
    { cbn [add_edge_result head]. rewrite !upd_other by lia. reflexivity. }
    rewrite Hh. apply add_edge_result_old_list; [assumption|lia|lia].
Qed.

(** *** Nearest-neighbour selection *)

Lemma knn_argmin_range (Vn : Z) (dists : Z -> Q) (i : Z) :
  0 <= i < Vn -> i <= knn_argmin Vn dists i < Vn.
Proof.
  intros Hi. unfold knn_argmin.
  apply (fold_Zrange_from_ind (fun hi mi => i <= mi < hi)).
  - lia.
  - lia.
  - intros k mi Hk Hmi. destruct (Qltb (dists k) (dists mi)); lia.
Qed.

(** [idx] stays a one-to-one table on [0, V): the selection only swaps
    cells. *)
Definition one_to_one (Vn : Z) (idx : Z -> Z) : Prop :=
  forall i j, 0 <= i < Vn -> 0 <= j < Vn -> idx i = idx j -> i = j.

Lemma knn_select_step_one_to_one (Vn i : Z) (s : (Z -> Q) * (Z -> Z)) :
  0 <= i < Vn -> one_to_one Vn (snd s) ->
  one_to_one Vn (snd (knn_select_step Vn i s)).
Proof.
  intros Hi Hinj. destruct s as [dists idx]. unfold knn_select_step. simpl in *.
  pose proof (knn_argmin_range Vn dists i Hi) as Hmi.
  revert Hmi. generalize (knn_argmin Vn dists i). intros mi Hmi.
  intros a b Ha Hb. unfold upd.
  destruct (Z.eqb_spec a mi), (Z.eqb_spec b mi), (Z.eqb_spec a i), (Z.eqb_spec b i);
    subst; intros Heq; try reflexivity; try lia;
    try (apply Hinj in Heq; lia).
Qed.

Lemma knn_row_one_to_one (hav : Z -> Z -> Q) (Vn k u : Z) :
  one_to_one Vn (knn_row hav Vn k u).
Proof.
  unfold knn_row.
  destruct (Z_le_gt_dec 0 (Z.min k Vn)) as [Hk|Hk].
  - apply (for_loop_ind (fun (_ : Z) (s : (Z -> Q) * (Z -> Z)) =>
                           one_to_one Vn (snd s))).
    + assumption.
    + intros a b _ _ H. exact H.
    + intros i acc Hi Hacc. apply knn_select_step_one_to_one; [lia|assumption].
  - rewrite for_loop_nonpos by lia. intros a b _ _ H. exact H.
Qed.

Lemma NoDup_map_Zrange (Vn n : Z) (idx : Z -> Z) :
  one_to_one Vn idx -> n <= Vn -> NoDup (map idx (Zrange n)).
Proof.
  intros Hinj Hn.
  destruct (Z_le_gt_dec 0 n) as [H0|H0]; [|rewrite Zrange_nonpos by lia; constructor].
  revert Hn. pattern n. apply natlike_ind; [| |assumption].
  - intros _. constructor.
  - intros m Hm IH Hle. unfold Z.succ. rewrite Zrange_succ by assumption.
    rewrite map_app. simpl.
    apply NoDup_app; [apply IH; lia|constructor; [intros []|constructor]|].
    intros x Hx [<-|[]]. apply in_map_iff in Hx. destruct Hx as (y & Hy & Hin).
    apply in_Zrange in Hin. apply Hinj in Hy; lia.
Qed.

Lemma knn_row_range (hav : Z -> Z -> Q) (Vn k u : Z) :
  forall j, 0 <= j < Vn -> 0 <= knn_row hav Vn k u j < Vn.
Proof.
  unfold knn_row.
  destruct (Z_le_gt_dec 0 (Z.min k Vn)) as [Hk|Hk].
  - apply (for_loop_ind (fun (_ : Z) (s : (Z -> Q) * (Z -> Z)) =>
                           forall j, 0 <= j < Vn -> 0 <= snd s j < Vn)).
    + assumption.
    + intros j Hj. exact Hj.
    + intros i [dists idx] Hi Hacc j Hj. unfold knn_select_step. cbn [snd] in *.
      pose proof (knn_argmin_range Vn dists i ltac:(lia)) as Hmi.
      unfold upd. destruct (j =? knn_argmin Vn dists i); [apply Hacc; lia|].
      destruct (j =? i); apply Hacc; lia.
  - rewrite for_loop_nonpos by lia. intros j Hj. exact Hj.
Qed.

(** *** Records of the built graph *)

(** The number of neighbours that [build_knn_fixed] takes for each of [Vn]
    places when it is asked for [k]: at least 1, at most all the others. *)
Definition knn_k (Vn k : Z) : Z := Z.min (Z.max k 1) (Vn - 1).

(** [u] selects [v]: [v] is another node than [u] and stands at one of the
    first [knn_k Vn k] places of the row that the selection leaves for
    [u]. *)
Definition selects (hav : Z -> Z -> Q) (Vn k u v : Z) : bool :=
  negb (v =? u)
  && existsb (fun i => knn_row hav Vn (knn_k Vn k) u i =? v) (Zrange (knn_k Vn k)).

Definition one_if (c : bool) : nat := if c then 1%nat else 0%nat.

(** The state of the builder: a well-formed graph on [Vn] nodes without
    self-loop records, with [cnt a b] records from [a] to [b]. *)
Definition knn_inv (Vn : Z) (cnt : Z -> Z -> nat) (st : state) : Prop :=
  wf_graph st /\ V st = Vn /\
  (forall a, 0 <= a < Vn -> ~ In a (adjacency st a)) /\
  (forall a b, 0 <= a < Vn -> 0 <= b < Vn ->
     count_occ Z.eq_dec (adjacency st a) b = cnt a b).

Lemma knn_inv_ext (Vn : Z) (cnt cnt' : Z -> Z -> nat) (st : state) :
  (forall a b, 0 <= a < Vn -> 0 <= b < Vn -> cnt a b = cnt' a b) ->
  knn_inv Vn cnt st -> knn_inv Vn cnt' st.
Proof.
  intros Heq (Hwf & HV & Hself & Hcnt).
  split; [exact Hwf|]. split; [exact HV|]. split; [exact Hself|].
  intros a b Ha Hb. rewrite <- Heq by assumption. apply Hcnt; assumption.
Qed.

Lemma count_occ_one (v b : Z) :
  count_occ Z.eq_dec [v] b = one_if (b =? v).
Proof.
  simpl. destruct (Z.eq_dec v b), (Z.eqb_spec b v); try reflexivity; congruence.
Qed.

(** One pass of the inner loop of [build_knn_fixed], for a neighbour [v]
    in range: a record from [u] to [v] and one from [v] to [u], unless [v]
    is [u]. *)
Lemma knn_add_step (Vn : Z) (cnt : Z -> Z -> nat) (st st' : state)
    (u v : Z) (ww : Q) :
  knn_inv Vn cnt st -> 0 <= u < Vn -> 0 <= v < Vn ->
  (if negb (v =? u) then add_edge st u v ww else Ret st) = Ret st' ->
  knn_inv Vn (fun a b =>
    (cnt a b
     + (if negb (v =? u)%Z
        then one_if ((a =? u)%Z && (b =? v)%Z) + one_if ((b =? u)%Z && (a =? v)%Z)
        else 0))%nat) st'.
Proof.
  intros Hinv Hu Hv Hstep.
  destruct (Z.eqb_spec v u) as [E|NE]; cbn [negb] in *.
  { inversion Hstep; subst st'. revert Hinv. apply knn_inv_ext.
    intros a b _ _. lia. }
  destruct Hinv as (Hwf & HV & Hself & Hcnt).
  destruct (add_edge_cases st u v ww st' Hstep)
    as [[_ Hout]|(Hur & Hvr & Huv & ->)]; [lia|].
  assert (Hadj : forall x, 0 <= x < Vn ->
            adjacency (add_edge_result st u v ww) x =
            (if x =? u then [v] else []) ++ (if x =? v then [u] else []) ++
            adjacency st x).
  { intros x Hx. unfold adjacency.
    rewrite add_edge_result_out_edges by (try assumption; lia).
    rewrite !map_app. destruct (x =? u), (x =? v); reflexivity. }
  split; [apply add_edge_result_wf; assumption|].
  split; [exact HV|]. split.
  - intros a Ha. rewrite Hadj by assumption. intros Hin.
    apply in_app_or in Hin. destruct Hin as [Hin|Hin].
    { destruct (Z.eqb_spec a u); [|contradiction]. destruct Hin as [<-|[]]. lia. }
    apply in_app_or in Hin. destruct Hin as [Hin|Hin].
    { destruct (Z.eqb_spec a v); [|contradiction]. destruct Hin as [<-|[]]. lia. }
    apply (Hself a Ha Hin).
  - intros a b Ha Hb. rewrite Hadj by assumption.
    rewrite !count_occ_app. rewrite (Hcnt a b Ha Hb).
    assert (C1 : count_occ Z.eq_dec (if a =? u then [v] else []) b
                 = one_if ((a =? u) && (b =? v))).
    { destruct (a =? u); [apply count_occ_one|reflexivity]. }
    assert (C2 : count_occ Z.eq_dec (if a =? v then [u] else []) b
                 = one_if ((b =? u) && (a =? v))).
    { destruct (a =? v); [rewrite count_occ_one|simpl; now rewrite andb_false_r].
      now rewrite andb_true_r. }
    lia.
Qed.

(** How often [b] is among the entries [idx i], [i] in [l], that are not
    [u]. *)
Definition picks (idx : Z -> Z) (u : Z) (l : list Z) (b : Z) : nat :=
  count_occ Z.eq_dec (filter (fun v => negb (v =? u)) (map idx l)) b.

Lemma picks_snoc (idx : Z -> Z) (u : Z) (l : list Z) (i b : Z) :
  picks idx u (l ++ [i]) b
  = (picks idx u l b
     + (if negb (idx i =? u)%Z then one_if (b =? idx i)%Z else 0))%nat.
Proof.
  unfold picks. rewrite map_app, filter_app, count_occ_app. f_equal.
  cbn [map filter]. destruct (negb (idx i =? u)); [apply count_occ_one|reflexivity].
Qed.

Lemma picks_NoDup (idx : Z -> Z) (u b : Z) (l : list Z) :
  NoDup (map idx l) ->
  picks idx u l b = one_if (negb (b =? u) && existsb (fun i => idx i =? b) l).
Proof.
  unfold picks. induction l as [|i l IH]; intros Hnd.
  - cbn. now rewrite andb_false_r.
  - cbn [map] in Hnd. inversion Hnd as [|x xs Hnot Hnd']; subst.
    specialize (IH Hnd'). cbn [map filter existsb].
    destruct (Z.eqb_spec (idx i) b) as [E|NE].
    + assert (Hrest : existsb (fun i0 => idx i0 =? b) l = false).
      { destruct (existsb (fun i0 => idx i0 =? b) l) eqn:Ex; [|reflexivity].
        apply existsb_exists in Ex. destruct Ex as (y & Hy & Hyb).
        apply Z.eqb_eq in Hyb. exfalso. apply Hnot. rewrite E, <- Hyb.
        apply in_map. exact Hy. }
      rewrite Hrest, andb_false_r in IH. cbn [orb]. rewrite andb_true_r.
      rewrite E. destruct (Z.eqb_spec b u) as [Eu|Nu]; cbn [negb].
      * exact IH.
      * cbn [count_occ]. destruct (Z.eq_dec b b); [|contradiction].
        rewrite IH. reflexivity.
    + cbn [orb]. destruct (negb (idx i =? u)); [|exact IH].
      cbn [count_occ]. destruct (Z.eq_dec (idx i) b); [contradiction|exact IH].
Qed.

(** The inner loop of [build_knn_fixed] for the node [u]. *)
Lemma knn_row_inv (Vn kk u : Z) (idx : Z -> Z) (hav : Z -> Z -> Q)
    (cnt : Z -> Z -> nat) (st st' : state) :
  one_to_one Vn idx -> (forall j, 0 <= j < Vn -> 0 <= idx j < Vn) ->
  kk <= Vn -> 0 <= u < Vn ->
  knn_inv Vn cnt st ->
  for_loopM kk (fun i st =>
    let v := idx i in
    if negb (v =? u) then add_edge st u v (hav u v) else Ret st) st = Ret st' ->
  knn_inv Vn (fun a b =>
    (cnt a b
     + (if (a =? u)%Z
        then one_if (negb (b =? u)%Z && existsb (fun i => (idx i =? b)%Z) (Zrange kk))
        else 0)
     + (if (b =? u)%Z
        then one_if (negb (a =? u)%Z && existsb (fun i => (idx i =? a)%Z) (Zrange kk))
        else 0))%nat) st'.
Proof.
  intros Hinj Hrange Hkk Hu Hinv Hloop.
  destruct (Z_le_gt_dec 0 kk) as [H0|H0].
  2:{ rewrite for_loopM_nonpos in Hloop by lia. inversion Hloop; subst st'.
      revert Hinv. apply knn_inv_ext. intros a b _ _.
      rewrite Zrange_nonpos by lia. cbn [existsb]. rewrite !andb_false_r.
      cbn [one_if]. destruct (a =? u), (b =? u); lia. }
  pose (count := fun (i : Z) (a b : Z) =>
    (cnt a b
     + (if (a =? u)%Z then picks idx u (Zrange i) b else 0)
     + (if (b =? u)%Z then picks idx u (Zrange i) a else 0))%nat).
  assert (G : knn_inv Vn (count kk) st').
  { apply (for_loopM_inv (fun i s => knn_inv Vn (count i) s) kk
             (fun i st => let v := idx i in
                if negb (v =? u) then add_edge st u v (hav u v) else Ret st) st);
      try assumption.
    - revert Hinv. apply knn_inv_ext. intros a b _ _. unfold count.
      rewrite Zrange_nonpos by lia. unfold picks. cbn.
      destruct (a =? u), (b =? u); lia.
    - intros i acc acc' Hi Hacc Hbody. cbv zeta in Hbody.
      apply (knn_add_step Vn (count i) acc acc' u (idx i) (hav u (idx i)) Hacc Hu)
        in Hbody; [|apply Hrange; lia].
      revert Hbody. apply knn_inv_ext. intros a b _ _. unfold count.
      rewrite Zrange_succ by lia. rewrite !picks_snoc.
      destruct (negb (idx i =? u)); unfold one_if;
        destruct (Z.eqb_spec a u), (Z.eqb_spec b u), (Z.eqb_spec b (idx i)),
                 (Z.eqb_spec a (idx i)); cbn [andb]; lia. }
  revert G. apply knn_inv_ext. intros a b _ _. unfold count.
  pose proof (NoDup_map_Zrange Vn kk idx Hinj Hkk) as Hnd.
  rewrite !(picks_NoDup idx u _ (Zrange kk) Hnd). reflexivity.
Qed.

(** The records of the graph that [build_knn_fixed] returns: after the
    rows of the nodes below [u0], from [a] to [b] one record if [a] is
    below [u0] and selects [b], and one if [b] is below [u0] and selects
    [a]. *)
Definition knn_count (hav : Z -> Z -> Q) (Vn k u0 a b : Z) : nat :=
  (one_if ((a <? u0)%Z && selects hav Vn k a b)
   + one_if ((b <? u0)%Z && selects hav Vn k b a))%nat.

Lemma build_knn_fixed_inv (hav : Z -> Z -> Q) (st : state) (k : Z) (st' : state) :
  0 <= V st <= MAXV ->
  build_knn_fixed hav st k = Ret st' ->
  knn_inv (V st)
    (fun a b => (one_if (selects hav (V st) k a b)
                 + one_if (selects hav (V st) k b a))%nat) st'.
Proof.
  intros HV Hb. unfold build_knn_fixed in Hb.
  change (V (reset_graph st)) with (V st) in Hb. cbv zeta in Hb.
  assert (Hk2 : (if V st - 1 <? (if k <? 1 then 1 else k)
                 then V st - 1 else (if k <? 1 then 1 else k)) = knn_k (V st) k).
  { unfold knn_k. destruct (Z.ltb_spec k 1);
      destruct (Z.ltb_spec (V st - 1) 1); destruct (Z.ltb_spec (V st - 1) k); lia. }
  rewrite Hk2 in Hb.
  assert (G : knn_inv (V st) (knn_count hav (V st) k (V st)) st').
  { revert st' Hb.
    apply (for_loopM_inv (fun u s => knn_inv (V st) (knn_count hav (V st) k u) s)).
    - lia.
    - split; [apply reset_graph_wf; assumption|]. split; [reflexivity|].
      split.
      + intros a Ha. unfold adjacency. rewrite reset_graph_out_edges by lia.
        intros [].
      + intros a b Ha Hb0. unfold adjacency. rewrite reset_graph_out_edges by lia.
        unfold knn_count. destruct (Z.ltb_spec a 0), (Z.ltb_spec b 0); try lia.
        reflexivity.
    - intros u acc acc' Hu Hacc Hrow.
      assert (HVa : V acc = V st) by apply Hacc.
      rewrite HVa in Hrow.
      assert (Hlt : knn_k (V st) k < V st) by (unfold knn_k; lia).
      destruct (Z.ltb_spec (knn_k (V st) k) (V st)); [|lia].
      apply (knn_row_inv (V st) (knn_k (V st) k) u
               (knn_row hav (V st) (knn_k (V st) k) u) hav
               (knn_count hav (V st) k u) acc acc') in Hrow;
        try assumption; try lia.
      + revert Hrow. apply knn_inv_ext. intros a b Ha Hb0.
        unfold knn_count, selects.
        destruct (Z.eqb_spec a u) as [Ea|Na]; destruct (Z.eqb_spec b u) as [Eb|Nb];
          subst;
          repeat match goal with
                 | |- context [?x <? ?y] => destruct (Z.ltb_spec x y); try lia
                 end;
          cbn [andb negb one_if];
          try rewrite Z.eqb_refl; cbn [andb negb one_if]; try lia;
          repeat match goal with
                 | |- context [?x =? ?y] =>
                     destruct (Z.eqb_spec x y); try lia; try congruence
                 end; cbn [andb negb one_if]; lia.
      + apply knn_row_one_to_one.
      + apply knn_row_range. }
  revert G. apply knn_inv_ext. intros a b Ha Hb0. unfold knn_count.
  destruct (Z.ltb_spec a (V st)), (Z.ltb_spec b (V st)); try lia. reflexivity.
Qed.

(** C7 (amended).  For every set of at most [MAXV] places and every [k],
    the graph that [build_knn_fixed] returns has no self-loop record, every
    record leads to one of the places, and for every ordered pair of places
    (u, v) the number of records from [u] to [v] is the number of the two
    places that select the other as one of their nearest neighbours: one
    record when only one of them selects the other, two when each selects
    the other, none when neither does.  So there are at most two records
    for any ordered pair. *)
Theorem knn_graph_records :
  forall (hav : Z -> Z -> Q) (st : state) (k : Z) (st' : state),
    0 <= V st <= MAXV ->
    build_knn_fixed hav st k = Ret st' ->
    forall u, 0 <= u < V st ->
      ~ In u (adjacency st' u) /\
      (forall v, In v (adjacency st' u) -> 0 <= v < V st) /\
      (forall v, 0 <= v < V st ->
         count_occ Z.eq_dec (adjacency st' u) v
         = (one_if (selects hav (V st) k u v)
            + one_if (selects hav (V st) k v u))%nat) /\
      (forall v, (count_occ Z.eq_dec (adjacency st' u) v <= 2)%nat).
Proof.
  intros hav st k st' HV Hb u Hu.
  destruct (build_knn_fixed_inv hav st k st' HV Hb) as (Hwf & HVs & Hself & Hcnt).
  assert (Hrange : forall v, In v (adjacency st' u) -> 0 <= v < V st).
  { intros v Hin. unfold adjacency in Hin. apply in_map_iff in Hin.
    destruct Hin as ([v' ww] & E & Hin). cbn in E. subst v'.
    rewrite <- HVs. apply (out_edges_range st' u v ww Hwf); [lia|exact Hin]. }
  split; [apply Hself; assumption|]. split; [exact Hrange|].
  split; [intros v Hv; apply Hcnt; assumption|].
  intros v. destruct (Z_lt_ge_dec v 0) as [Hneg|Hpos];
    [|destruct (Z_lt_ge_dec v (V st)) as [Hin|Hout]].
  - rewrite (proj1 (count_occ_not_In Z.eq_dec _ _)); [lia|].
    intros Hin. apply Hrange in Hin. lia.
  - rewrite Hcnt by lia. unfold one_if.
    destruct (selects hav (V st) k u v), (selects hav (V st) k v u); lia.
  - rewrite (proj1 (count_occ_not_In Z.eq_dec _ _)); [lia|].
    intros Hin. apply Hrange in Hin. lia.
Qed.

Definition three_places : state :=
  result_or (loaded_state 3) (build_knn_fixed line_hav (loaded_state 3) 2).

Lemma three_places_built :
  build_knn_fixed line_hav (loaded_state 3) 2 = Ret three_places.
Proof. vm_compute. reflexivity. Qed.

Lemma knn_graph_records_witness :
  ~ In 1 (adjacency three_places 1) /\
  (forall v, In v (adjacency three_places 1) -> 0 <= v < 3) /\
  (forall v, 0 <= v < 3 ->
     count_occ Z.eq_dec (adjacency three_places 1%Z) v
     = (one_if (selects line_hav 3 2 1 v) + one_if (selects line_hav 3 2 v 1))%nat) /\
  (forall v, (count_occ Z.eq_dec (adjacency three_places 1%Z) v <= 2)%nat).
Proof.
  exact (knn_graph_records line_hav (loaded_state 3) 2 three_places
           ltac:(vm_compute; split; discriminate) three_places_built 1
           ltac:(vm_compute; split; [discriminate|reflexivity])).
Defined.

(** C7, as stated, fails as soon as two places select each other: with two
    places each is the other's nearest neighbour, [add_edge] runs once per
    selection, and the list of node 0 holds two records for node 1. *)
Lemma mutual_neighbours_two_records :
  match build_knn_fixed line_hav (loaded_state 2) 1 with
  | Ret st' =>
      adjacency st' 0 = [1; 1] /\
      (count_occ Z.eq_dec (adjacency st' 0%Z) 1%Z = 2)%nat
  | _ => False
  end.
Proof. vm_compute. split; reflexivity. Qed.

(** ** Steps and costs of node sequences *)

Lemma steps_cons2 (a b : Z) (l : list Z) :
  steps (a :: b :: l) = (a, b) :: steps (b :: l).
Proof. reflexivity. Qed.

Lemma steps_snoc (p : list Z) (x : Z) :
  p <> [] -> steps (p ++ [x]) = steps p ++ [(last p 0, x)].
Proof.
  induction p as [|a p IH]; intros Hne; [contradiction|].
  destruct p as [|b p]; [reflexivity|].
  change ((a :: b :: p) ++ [x]) with (a :: (b :: p) ++ [x]).
  change ((b :: p) ++ [x]) with (b :: p ++ [x]) at 1.
  rewrite steps_cons2. change (b :: p ++ [x]) with ((b :: p) ++ [x]).
  rewrite IH by discriminate. rewrite steps_cons2. reflexivity.
Qed.

Lemma steps_app_r (l1 l2 : list Z) (ab : Z * Z) :
  In ab (steps l2) -> In ab (steps (l1 ++ l2)).
Proof.
  induction l1 as [|a l1 IH]; intros H; [exact H|].
  simpl app. destruct (l1 ++ l2) as [|b r] eqn:E.
  - destruct l1; simpl in E; [subst l2|discriminate]. exact H.
  - rewrite steps_cons2. right. apply IH. exact H.
Qed.


Lemma in_steps_nodes (l : list Z) (a b : Z) :
  In (a, b) (steps l) -> In a l /\ In b l.
Proof.
  induction l as [|x l IH]; intros H; [destruct H|].
  destruct l as [|y l]; [destruct H|]. rewrite steps_cons2 in H.
  destruct H as [H|H].
  - inversion H; subst. split; [now left|right; now left].
  - destruct (IH H) as [Ha Hb]. split; right; assumption.
Qed.

(** In a sequence of distinct nodes the step that leaves the first node
    is the first step. *)
Lemma steps_from_head (a : Z) (l : list Z) (b : Z) :
  NoDup (a :: l) -> In (a, b) (steps (a :: l)) -> exists r, l = b :: r.
Proof.
  intros Hnd H. destruct l as [|y l]; [destruct H|]. rewrite steps_cons2 in H.
  destruct H as [H|H].
  - inversion H; subst. now exists l.
  - apply in_steps_nodes in H. inversion Hnd; subst. tauto.
Qed.

Section PathCost.

Variable hav : Z -> Z -> Q.
Hypothesis hav_pos : forall a b, (0 <= hav a b)%Q.

Lemma path_cost_cons2 (a b : Z) (l : list Z) :
  path_cost hav (a :: b :: l) = (hav a b + path_cost hav (b :: l))%Q.
Proof. reflexivity. Qed.

Lemma path_cost_nonneg (p : list Z) : (0 <= path_cost hav p)%Q.
Proof.
  unfold path_cost. induction (steps p) as [|ab l IH]; simpl; [lra|].
  pose proof (hav_pos (fst ab) (snd ab)). lra.
Qed.

Lemma path_cost_snoc (p : list Z) (x : Z) :
  p <> [] ->
  (path_cost hav (p ++ [x]) == path_cost hav p + hav (last p 0%Z) x)%Q.
Proof.
  intros Hne. unfold path_cost. rewrite steps_snoc by assumption.
  induction (steps p) as [|ab l IH]; simpl; [lra|]. rewrite IH. lra.
Qed.

(** Two sequences glued at a common node: the costs add up. *)
Lemma path_cost_glue (l1 : list Z) (x : Z) (l2 : list Z) :
  (path_cost hav (l1 ++ x :: l2)
   == path_cost hav (l1 ++ [x]) + path_cost hav (x :: l2))%Q.
Proof.
  induction l1 as [|a l1 IH].
  - simpl app. change (path_cost hav [x]) with 0%Q. lra.
  - destruct l1 as [|b l1].
    + simpl app. rewrite !path_cost_cons2. change (path_cost hav [x]) with 0%Q. lra.
    + change ((a :: b :: l1) ++ x :: l2) with (a :: b :: (l1 ++ x :: l2)).
      change ((a :: b :: l1) ++ [x]) with (a :: b :: (l1 ++ [x])).
      rewrite !path_cost_cons2.
      change (b :: l1 ++ x :: l2) with ((b :: l1) ++ x :: l2).
      change (b :: l1 ++ [x]) with ((b :: l1) ++ [x]).
      rewrite IH. lra.
Qed.

End PathCost.

(** ** Dijkstra on the tables

    The invariant of the loop of [ecodijkstra] and [dijkstra_skip_edge],
    stated on the three tables [distv], [parent], [used] over a graph given
    by its adjacency lists [adj] and by the test [okb] of the edges that the
    relaxation may use. *)

Section Tables.

Variable Vn : Z.
Variable adj : Z -> list (Z * Q).
Variable okb : Z -> Z -> bool.
Variable hav : Z -> Z -> Q.
Variable s : Z.

Hypothesis adj_range :
  forall u v ww, 0 <= u < Vn -> In (v, ww) (adj u) -> 0 <= v < Vn.
Hypothesis adj_weight :
  forall u v ww, 0 <= u < Vn -> In (v, ww) (adj u) -> (ww == hav u v)%Q.
Hypothesis hav_pos : forall a b, (0 <= hav a b)%Q.
Hypothesis s_range : 0 <= s < Vn.

(** An edge that the relaxation may use, and a walk along such edges. *)
Definition edge (a b : Z) : Prop :=
  0 <= a < Vn /\ exists ww, In (b, ww) (adj a) /\ okb a b = true.

Definition walk (p : list Z) : Prop :=
  forall a b, In (a, b) (steps p) -> edge a b.

(** [pchain par v l]: [l] is [v], [par v], [par (par v)], ... down to the
    source, whose parent is -1. *)
Inductive pchain (par : Z -> Z) : Z -> list Z -> Prop :=
| pchain_src : par s = -1 -> pchain par s [s]
| pchain_step (v : Z) (l : list Z) :
    v <> s -> par v <> -1 -> pchain par (par v) l -> pchain par v (v :: l).

Record dinv (C : Z -> Prop) (d : Z -> Q) (par us : Z -> Z) : Prop := {
  d_src : (d s == 0)%Q /\ par s = -1;
  d_nonneg : forall v, 0 <= v < Vn -> (0 <= d v)%Q;
  d_used01 : forall v, 0 <= v < Vn -> us v = 0 \/ us v = 1;
  d_usedfin : forall v, 0 <= v < Vn -> us v = 1 -> (d v < INF)%Q;
  d_order : forall x y, 0 <= x < Vn -> 0 <= y < Vn ->
    us x = 1 -> us y = 0 -> (d x <= d y)%Q;
  d_closed : forall x, 0 <= x < Vn -> C x ->
    forall y ww, In (y, ww) (adj x) -> okb x y = true -> (d y <= d x + ww)%Q;
  d_sub : forall x, 0 <= x < Vn -> C x -> us x = 1;
  d_tree : forall v, 0 <= v < Vn -> v <> s -> (d v < INF)%Q ->
    0 <= par v < Vn /\ us (par v) = 1 /\ edge (par v) v /\
    (d v == d (par v) + hav (par v) v)%Q;
  d_chain : forall u, 0 <= u < Vn -> us u = 1 ->
    exists l, pchain par u l /\
              (forall x, In x l -> 0 <= x < Vn /\ us x = 1) /\ NoDup l
}.

Lemma pchain_ext (par par' : Z -> Z) (v : Z) (l : list Z) :
  (forall x, In x l -> par' x = par x) ->
  pchain par v l -> pchain par' v l.
Proof.
  intros Hext Hc. induction Hc as [Hs|v l Hv Hp Hc IH].
  - apply pchain_src. rewrite Hext; [assumption|now left].
  - apply pchain_step; try assumption.
    + rewrite Hext; [assumption|now left].
    + rewrite Hext by (now left). apply IH. intros x Hx. apply Hext. now right.
Qed.

Lemma pchain_head (par : Z -> Z) (v : Z) (l : list Z) :
  pchain par v l -> exists r, l = v :: r.
Proof. intros [Hs|v0 l0 _ _ _]; eexists; reflexivity. Qed.

(** The tables as the initialisation leaves them. *)
Lemma dinv_init (d : Z -> Q) (par us : Z -> Z) :
  d s = 0%Q ->
  (forall i, 0 <= i < Vn -> par i = -1 /\ us i = 0 /\ (i <> s -> d i = INF)) ->
  dinv (fun _ => False) d par us.
Proof.
  intros Hs Hi. constructor.
  - split; [rewrite Hs; reflexivity|apply Hi; assumption].
  - intros v Hv. destruct (Z.eq_dec v s) as [->|NE]; [rewrite Hs; lra|].
    destruct (Hi v Hv) as (_ & _ & Hd). rewrite (Hd NE). unfold INF. lra.
  - intros v Hv. left. apply Hi; assumption.
  - intros v Hv Hu. destruct (Hi v Hv) as (_ & Hu0 & _). lia.
  - intros x y Hx Hy Hu. destruct (Hi x Hx) as (_ & Hu0 & _). lia.
  - intros x Hx [].
  - intros x Hx [].
  - intros v Hv NE Hd. destruct (Hi v Hv) as (_ & _ & Hinf).
    rewrite (Hinf NE) in Hd. lra.
  - intros u Hu Hus. destruct (Hi u Hu) as (_ & Hu0 & _). lia.
Qed.

(** Marking the unused node of least distance. *)
Lemma dinv_pick (C : Z -> Prop) (d : Z -> Q) (par us : Z -> Z) (u : Z) :
  dinv C d par us ->
  0 <= u < Vn -> us u = 0 -> (d u < INF)%Q ->
  (forall y, 0 <= y < Vn -> us y = 0 -> (d u <= d y)%Q) ->
  dinv C d par (upd us u 1) /\
  (forall x, 0 <= x < Vn -> upd us u 1 x = 1 -> (d x <= d u)%Q).
Proof.
  intros H Hu Hu0 Hfin Hmin. split.
  - constructor.
    + apply (d_src _ _ _ _ H).
    + apply (d_nonneg _ _ _ _ H).
    + intros v Hv. unfold upd. destruct (Z.eqb_spec v u); [now right|].
      apply (d_used01 _ _ _ _ H); assumption.
    + intros v Hv. unfold upd. destruct (Z.eqb_spec v u) as [->|]; [intros _; exact Hfin|].
      apply (d_usedfin _ _ _ _ H); assumption.
    + intros x y Hx Hy. unfold upd.
      destruct (Z.eqb_spec y u); [lia|]. destruct (Z.eqb_spec x u) as [->|].
      * intros _ Hy0. apply Hmin; assumption.
      * apply (d_order _ _ _ _ H); assumption.
    + apply (d_closed _ _ _ _ H).
    + intros x Hx HC. unfold upd. destruct (Z.eqb_spec x u); [reflexivity|].
      apply (d_sub _ _ _ _ H); assumption.
    + intros v Hv NE Hd.
      destruct (d_tree _ _ _ _ H v Hv NE Hd) as (Hp & Hup & He & Hdv).
      split; [lia|]. split; [|split; [exact He|exact Hdv]].
      unfold upd. destruct (Z.eqb_spec (par v) u); [reflexivity|assumption].
    + intros x Hx. unfold upd at 1. destruct (Z.eqb_spec x u) as [->|NE].
      * intros _. destruct (Z.eq_dec u s) as [->|NEs].
        -- exists [s]. split; [apply pchain_src; apply (d_src _ _ _ _ H)|].
           split; [|constructor; [intros []|constructor]].
           intros y [<-|[]]. split; [assumption|]. apply upd_same.
        -- destruct (d_tree _ _ _ _ H u Hu NEs Hfin) as (Hp & Hup & He & Hdv).
           destruct (d_chain _ _ _ _ H (par u) Hp Hup) as (l & Hl & Hall & Hnd).
           exists (u :: l). split; [apply pchain_step; [assumption|lia|assumption]|].
           split.
           ++ intros y [<-|Hy]; [split; [assumption|apply upd_same]|].
              destruct (Hall y Hy) as [Hyr Hyu]. split; [assumption|].
              unfold upd. destruct (Z.eqb_spec y u); [reflexivity|assumption].
           ++ constructor; [|assumption]. intros Hin.
              destruct (Hall u Hin) as [_ Hcontra]. lia.
      * intros Hus. destruct (d_chain _ _ _ _ H x Hx Hus) as (l & Hl & Hall & Hnd).
        exists l. split; [assumption|]. split; [|assumption].
        intros y Hy. destruct (Hall y Hy) as [Hyr Hyu]. split; [assumption|].
        unfold upd. destruct (Z.eqb_spec y u); [reflexivity|assumption].
  - intros x Hx. unfold upd. destruct (Z.eqb_spec x u) as [->|NE]; [intros _; lra|].
    intros Hus. apply (d_order _ _ _ _ H); assumption.
Qed.

(** One relaxation that improves the distance of [v]. *)
Lemma dinv_relax (C : Z -> Prop) (d : Z -> Q) (par us : Z -> Z) (u v : Z) (ww : Q) :
  dinv C d par us ->
  0 <= u < Vn -> us u = 1 ->
  (forall x, 0 <= x < Vn -> us x = 1 -> (d x <= d u)%Q) ->
  In (v, ww) (adj u) -> okb u v = true -> (d u + ww < d v)%Q ->
  dinv C (upd d v (d u + ww)%Q) (upd par v u) us /\
  us v = 0 /\ v <> u.
Proof.
  intros H Hu Hus Hmax Hin Hok Hlt.
  pose proof (adj_range u v ww Hu Hin) as Hv.
  pose proof (adj_weight u v ww Hu Hin) as Hw.
  pose proof (hav_pos u v) as Hpos.
  pose proof (d_nonneg _ _ _ _ H u Hu) as Hdu.
  assert (Hv0 : us v = 0).
  { destruct (d_used01 _ _ _ _ H v Hv) as [|Hv1]; [assumption|].
    specialize (Hmax v Hv Hv1). lra. }
  assert (Hvu : v <> u) by (intros ->; lia).
  assert (Hvs : v <> s).
  { intros ->. destruct (d_src _ _ _ _ H) as [Hs0 _]. lra. }
  split; [|split; assumption].
  constructor.
  - destruct (d_src _ _ _ _ H) as [Hs0 Hps].
    rewrite !upd_other by congruence. split; assumption.
  - intros x Hx. unfold upd. destruct (Z.eqb_spec x v); [lra|].
    apply (d_nonneg _ _ _ _ H); assumption.
  - apply (d_used01 _ _ _ _ H).
  - intros x Hx Hx1. rewrite upd_other by (intros ->; lia).
    apply (d_usedfin _ _ _ _ H); assumption.
  - intros x y Hx Hy Hx1 Hy0. rewrite (upd_other d v x) by (intros ->; lia).
    unfold upd. destruct (Z.eqb_spec y v).
    + specialize (Hmax x Hx Hx1). lra.
    + apply (d_order _ _ _ _ H); assumption.
  - intros x Hx HC y ww' Hin' Hok'.
    pose proof (d_sub _ _ _ _ H x Hx HC) as Hx1.
    rewrite (upd_other d v x) by (intros ->; lia).
    pose proof (d_closed _ _ _ _ H x Hx HC y ww' Hin' Hok') as Hcl.
    unfold upd. destruct (Z.eqb_spec y v) as [->|]; [lra|assumption].
  - apply (d_sub _ _ _ _ H).
  - intros y Hy NE Hd. destruct (Z.eq_dec y v) as [->|NEv].
    + rewrite !upd_same. rewrite (upd_other d v u) by congruence.
      split; [lia|]. split; [assumption|]. split.
      * split; [lia|]. exists ww. split; assumption.
      * rewrite Hw. reflexivity.
    + rewrite (upd_other d v y) in Hd |- * by assumption.
      rewrite (upd_other par v y) by assumption.
      destruct (d_tree _ _ _ _ H y Hy NE Hd) as (Hp & Hup & He & Hdy).
      rewrite (upd_other d v (par y)) by (intros E; rewrite E in Hup; lia).
      split; [lia|]. split; [assumption|]. split; assumption.
  - intros x Hx Hx1. destruct (d_chain _ _ _ _ H x Hx Hx1) as (l & Hl & Hall & Hnd).
    exists l. split; [|split; assumption].
    apply (pchain_ext par); [|assumption].
    intros y Hy. apply upd_other. intros ->. destruct (Hall v Hy). lia.
Qed.

(** A node all of whose usable edges are relaxed joins the closed set. *)
Lemma dinv_close (C : Z -> Prop) (d : Z -> Q) (par us : Z -> Z) (u : Z) :
  dinv C d par us -> us u = 1 ->
  (forall y ww, In (y, ww) (adj u) -> okb u y = true -> (d y <= d u + ww)%Q) ->
  dinv (fun x => C x \/ x = u) d par us.
Proof.
  intros H Hu Hrel. constructor.
  - apply (d_src _ _ _ _ H).
  - apply (d_nonneg _ _ _ _ H).
  - apply (d_used01 _ _ _ _ H).
  - apply (d_usedfin _ _ _ _ H).
  - apply (d_order _ _ _ _ H).
  - intros x Hx [HC| ->]; [apply (d_closed _ _ _ _ H); assumption|exact Hrel].
  - intros x Hx [HC| ->]; [apply (d_sub _ _ _ _ H); assumption|exact Hu].
  - apply (d_tree _ _ _ _ H).
  - apply (d_chain _ _ _ _ H).
Qed.

Lemma dinv_weaken (C C' : Z -> Prop) (d : Z -> Q) (par us : Z -> Z) :
  (forall x, 0 <= x < Vn -> C' x -> C x) -> dinv C d par us -> dinv C' d par us.
Proof.
  intros Hsub H. constructor.
  - apply (d_src _ _ _ _ H).
  - apply (d_nonneg _ _ _ _ H).
  - apply (d_used01 _ _ _ _ H).
  - apply (d_usedfin _ _ _ _ H).
  - apply (d_order _ _ _ _ H).
  - intros x Hx HC. apply (d_closed _ _ _ _ H); [assumption|apply Hsub; assumption].
  - intros x Hx HC. apply (d_sub _ _ _ _ H); [assumption|apply Hsub; assumption].
  - apply (d_tree _ _ _ _ H).
  - apply (d_chain _ _ _ _ H).
Qed.

(** *** Relaxing the edges of the marked node *)

Definition relax1 (u : Z) (vw : Z * Q) (t : (Z -> Q) * (Z -> Z))
    : (Z -> Q) * (Z -> Z) :=
  if okb u (fst vw) && Qltb (fst t u + snd vw) (fst t (fst vw))
  then (upd (fst t) (fst vw) (fst t u + snd vw)%Q, upd (snd t) (fst vw) u)
  else t.

Lemma relax_list (C : Z -> Prop) (us : Z -> Z) (u : Z) (L : list (Z * Q)) :
  0 <= u < Vn -> us u = 1 ->
  (forall vw, In vw L -> In vw (adj u)) ->
  forall (d : Z -> Q) (par : Z -> Z),
    dinv C d par us ->
    (forall x, 0 <= x < Vn -> us x = 1 -> (d x <= d u)%Q) ->
    let t := fold_left (fun t vw => relax1 u vw t) L (d, par) in
    dinv C (fst t) (snd t) us /\
    fst t u = d u /\
    (forall x, 0 <= x < Vn -> us x = 1 -> (fst t x <= fst t u)%Q) /\
    (forall x, (fst t x <= d x)%Q) /\
    (forall y ww, In (y, ww) L -> okb u y = true -> (fst t y <= fst t u + ww)%Q).
Proof.
  intros Hu Hus. induction L as [|[v ww] L IH]; intros Hsub d par H Hmax.
  - simpl. split; [assumption|]. split; [reflexivity|]. split; [assumption|].
    split; [intros x; lra|]. intros y ww [].
  - simpl fold_left.
    assert (Hin : In (v, ww) (adj u)) by (apply Hsub; now left).
    assert (Hsub' : forall vw, In vw L -> In vw (adj u))
      by (intros vw Hvw; apply Hsub; now right).
    unfold relax1 at 2. simpl fst. simpl snd.
    destruct (okb u v) eqn:Eok; simpl andb.
    + destruct (Qltb (d u + ww) (d v)) eqn:Elt.
      * apply Qltb_lt in Elt.
        destruct (dinv_relax C d par us u v ww H Hu Hus Hmax Hin Eok Elt)
          as (H' & Hv0 & Hvu).
        assert (Hdu : upd d v (d u + ww)%Q u = d u) by (apply upd_other; congruence).
        assert (Hmax' : forall x, 0 <= x < Vn -> us x = 1 ->
                  (upd d v (d u + ww)%Q x <= upd d v (d u + ww)%Q u)%Q).
        { intros x Hx Hx1. rewrite Hdu.
          rewrite upd_other by (intros E; rewrite E in Hx1; lia).
          apply Hmax; assumption. }
        destruct (IH Hsub' _ _ H' Hmax') as (Hi & Heq & Hm & Hle & Hdone).
        split; [exact Hi|]. split; [now rewrite Heq|]. split; [exact Hm|].
        split.
        -- intros x. specialize (Hle x).
           destruct (Z.eq_dec x v) as [E|NE].
           ++ rewrite E in *. rewrite upd_same in Hle. lra.
           ++ rewrite upd_other in Hle by assumption. lra.
        -- intros y ww' [Heq'|Hin'] Hok'; [|apply Hdone; assumption].
           inversion Heq'; subst y ww'.
           specialize (Hle v). rewrite upd_same in Hle. rewrite Heq, Hdu. lra.
      * apply Qltb_ge in Elt.
        destruct (IH Hsub' _ _ H Hmax) as (Hi & Heq & Hm & Hle & Hdone).
        split; [exact Hi|]. split; [exact Heq|]. split; [exact Hm|].
        split; [exact Hle|].
        intros y ww' [Heq'|Hin'] Hok'; [|apply Hdone; assumption].
        inversion Heq'; subst y ww'. specialize (Hle v). rewrite Heq. lra.
    + destruct (IH Hsub' _ _ H Hmax) as (Hi & Heq & Hm & Hle & Hdone).
      split; [exact Hi|]. split; [exact Heq|]. split; [exact Hm|].
      split; [exact Hle|].
      intros y ww' [Heq'|Hin'] Hok'; [|apply Hdone; assumption].
      inversion Heq'; subst y ww'. congruence.
Qed.

(** *** Lower bound on the cost of a walk from the source *)

(** [reach x c]: some walk along usable edges leads from the source to
    [x] at cost [c]. *)
Inductive reach : Z -> Q -> Prop :=
| reach_src : reach s 0
| reach_step (x : Z) (c : Q) (y : Z) :
    reach x c -> edge x y -> reach y (c + hav x y)%Q.

Lemma reach_nonneg (x : Z) (c : Q) : reach x c -> (0 <= c)%Q.
Proof.
  induction 1 as [|x c y _ IH _]; [lra|]. pose proof (hav_pos x y). lra.
Qed.

(** At the head of the loop every walk from the source either ends in a
    marked node whose distance it does not beat, or passes an unmarked node
    whose distance it does not beat. *)
Lemma reach_bound (C : Z -> Prop) (d : Z -> Q) (par us : Z -> Z) :
  dinv C d par us ->
  (forall x, 0 <= x < Vn -> us x = 1 -> C x) ->
  forall x c, reach x c ->
    0 <= x < Vn /\
    ((us x = 1 /\ (d x <= c)%Q) \/
     exists y, 0 <= y < Vn /\ us y = 0 /\ (d y <= c)%Q).
Proof.
  intros H HC x c Hr. induction Hr as [|x c y Hr [Hx IH] (Hxr & ww & Hin & Hok)].
  - split; [assumption|]. destruct (d_src _ _ _ _ H) as [Hs0 _].
    destruct (d_used01 _ _ _ _ H s s_range) as [H0|H1].
    + right. exists s. split; [assumption|]. split; [assumption|]. lra.
    + left. split; [assumption|]. lra.
  - pose proof (adj_range x y ww Hxr Hin) as Hy.
    pose proof (adj_weight x y ww Hxr Hin) as Hw.
    pose proof (hav_pos x y) as Hpos.
    split; [assumption|].
    destruct IH as [[Hx1 Hdx]|(y0 & Hy0 & Hu0 & Hd0)].
    + pose proof (d_closed _ _ _ _ H x Hx (HC x Hx Hx1) y ww Hin Hok) as Hcl.
      destruct (d_used01 _ _ _ _ H y Hy) as [H0|H1].
      * right. exists y. split; [assumption|]. split; [assumption|]. lra.
      * left. split; [assumption|]. lra.
    + right. exists y0. split; [assumption|]. split; [assumption|]. lra.
Qed.

(** A walk given as a list of nodes is a walk in the sense of [reach]. *)
Lemma walk_reach (q : list Z) :
  forall a c, walk (a :: q) -> reach a c ->
    exists c', reach (last (a :: q) 0) c' /\
               (c' == c + path_cost hav (a :: q))%Q.
Proof.
  induction q as [|b q IH]; intros a c Hw Hr.
  - exists c. split; [exact Hr|]. change (path_cost hav [a]) with 0%Q. lra.
  - assert (He : edge a b) by (apply Hw; rewrite steps_cons2; now left).
    assert (Hw' : walk (b :: q)).
    { intros x y Hxy. apply Hw. rewrite steps_cons2. now right. }
    destruct (IH b (c + hav a b)%Q Hw' (reach_step a c b Hr He)) as (c' & Hr' & Hc').
    exists c'. split; [exact Hr'|]. rewrite path_cost_cons2. lra.
Qed.

(** *** The chain of parents of a marked node *)

Lemma pchain_walk (C : Z -> Prop) (d : Z -> Q) (par us : Z -> Z) :
  dinv C d par us ->
  forall u l, pchain par u l ->
    (forall x, In x l -> 0 <= x < Vn /\ us x = 1) ->
    walk (rev l) /\ (path_cost hav (rev l) == d u)%Q /\
    hd 0 (rev l) = s /\ last (rev l) 0 = u /\ rev l <> [].
Proof.
  intros H u l Hc. induction Hc as [Hs|v l Hv Hp Hc IH]; intros Hall.
  - simpl. split; [intros a b []|]. split.
    + change (path_cost hav [s]) with 0%Q. destruct (d_src _ _ _ _ H) as [H0 _]. lra.
    + repeat split. discriminate.
  - destruct (Hall v ltac:(now left)) as [Hvr Hv1].
    pose proof (d_usedfin _ _ _ _ H v Hvr Hv1) as Hfin.
    destruct (d_tree _ _ _ _ H v Hvr Hv Hfin) as (Hpr & Hp1 & He & Hdv).
    destruct IH as (Hw & Hcost & Hhd & Hlast & Hne);
      [intros x Hx; apply Hall; now right|].
    simpl rev. split; [|split; [|split; [|split]]].
    + intros a b Hab. rewrite steps_snoc in Hab by assumption.
      apply in_app_or in Hab. destruct Hab as [Hab|[Hab|[]]]; [apply Hw; assumption|].
      inversion Hab; subst a b. rewrite Hlast. exact He.
    + rewrite (path_cost_snoc hav) by assumption. rewrite Hlast, Hcost. lra.
    + destruct (rev l); [contradiction|]. exact Hhd.
    + apply last_last.
    + intros E. apply app_eq_nil in E. destruct E as [_ E]. discriminate.
Qed.

End Tables.

(** ** Dijkstra on the state *)

(** The state [st] with other tables. *)
Definition with_tables (st : state) (d : Z -> Q) (par us : Z -> Z) : state :=
  mkState (V st) (head st) (to st) (nxt st) (w st) (E st) par d us
          (skip_u st) (skip_v st).

Lemma with_tables_id (st : state) :
  with_tables st (distv st) (parent st) (used st) = st.
Proof. destruct st; reflexivity. Qed.


Lemma filter_length_lt {A} (f g : A -> bool) (l : list A) (u : A) :
  (forall x, g x = true -> f x = true) ->
  In u l -> f u = true -> g u = false ->
  (length (filter g l) < length (filter f l))%nat.
Proof.
  intros Hsub Hin Hf Hg.
  assert (Hle : forall l', (length (filter g l') <= length (filter f l'))%nat).
  { induction l' as [|x l' IH]; simpl; [lia|].
    destruct (g x) eqn:Eg; [rewrite (Hsub x Eg); simpl; lia|].
    destruct (f x); simpl; lia. }
  induction l as [|x l IH]; [destruct Hin|]. simpl.
  destruct Hin as [->|Hin].
  - rewrite Hf, Hg. simpl. specialize (Hle l). lia.
  - specialize (IH Hin). destruct (g x) eqn:Eg; [rewrite (Hsub x Eg); simpl; lia|].
    destruct (f x); simpl; lia.
Qed.

(** The scan [minQ]: -1 when every unmarked node is at [INF], otherwise
    an unmarked node below [INF] of least distance. *)
Lemma minQ_spec (st : state) :
  0 <= V st ->
  let u := minQ st in
  (u = -1 /\
   forall i, 0 <= i < V st -> used st i = 0 -> (INF <= distv st i)%Q) \/
  (0 <= u < V st /\ used st u = 0 /\ (distv st u < INF)%Q /\
   forall i, 0 <= i < V st -> used st i = 0 -> (distv st u <= distv st i)%Q).
Proof.
  intros HV. unfold minQ.
  set (body := fun (i : Z) '(best, bi) =>
     if (used st i =? 0) && Qltb (distv st i) best
     then (distv st i, i) else (best, bi)).
  assert (G : let r := for_loop (V st) body (INF, -1) in
    (snd r = -1 /\ fst r = INF /\
     forall i, 0 <= i < V st -> used st i = 0 -> (INF <= distv st i)%Q) \/
    (0 <= snd r < V st /\ used st (snd r) = 0 /\ fst r = distv st (snd r) /\
     (fst r < INF)%Q /\
     forall i, 0 <= i < V st -> used st i = 0 -> (fst r <= distv st i)%Q)).
  { apply (for_loop_ind (fun k (r : Q * Z) =>
      (snd r = -1 /\ fst r = INF /\
       forall i, 0 <= i < k -> used st i = 0 -> (INF <= distv st i)%Q) \/
      (0 <= snd r < k /\ used st (snd r) = 0 /\ fst r = distv st (snd r) /\
       (fst r < INF)%Q /\
       forall i, 0 <= i < k -> used st i = 0 -> (fst r <= distv st i)%Q))).
    - assumption.
    - left. repeat split. intros i Hi. lia.
    - intros k [best bi] Hk Hacc. unfold body. simpl fst in *. simpl snd in *.
      destruct (Z.eqb_spec (used st k) 0) as [Hu0|Hu1]; simpl andb.
      + destruct (Qltb (distv st k) best) eqn:Elt.
        * apply Qltb_lt in Elt. right. simpl.
          split; [lia|]. split; [assumption|]. split; [reflexivity|].
          destruct Hacc as [(_ & Hb & Hall)|(_ & _ & _ & Hfin & Hall)].
          -- subst best. split; [assumption|]. intros i Hi Hi0.
             destruct (Z.eq_dec i k) as [->|]; [lra|].
             specialize (Hall i ltac:(lia) Hi0). lra.
          -- split; [lra|]. intros i Hi Hi0.
             destruct (Z.eq_dec i k) as [->|]; [lra|].
             specialize (Hall i ltac:(lia) Hi0). lra.
        * apply Qltb_ge in Elt.
          destruct Hacc as [(Hbi & Hb & Hall)|(Hbi & Hu & Hb & Hfin & Hall)].
          -- left. simpl. split; [assumption|]. split; [assumption|].
             intros i Hi Hi0. destruct (Z.eq_dec i k) as [->|]; [subst best; lra|].
             apply Hall; [lia|assumption].
          -- right. simpl. split; [lia|]. split; [assumption|].
             split; [assumption|]. split; [assumption|].
             intros i Hi Hi0. destruct (Z.eq_dec i k) as [->|]; [lra|].
             apply Hall; [lia|assumption].
      + destruct Hacc as [(Hbi & Hb & Hall)|(Hbi & Hu & Hb & Hfin & Hall)].
        * left. simpl. split; [assumption|]. split; [assumption|].
          intros i Hi Hi0. destruct (Z.eq_dec i k) as [->|]; [contradiction|].
          apply Hall; [lia|assumption].
        * right. simpl. split; [lia|]. split; [assumption|].
          split; [assumption|]. split; [assumption|].
          intros i Hi Hi0. destruct (Z.eq_dec i k) as [->|]; [contradiction|].
          apply Hall; [lia|assumption]. }
  simpl in G. destruct G as [(Hbi & Hb & Hall)|(Hbi & Hu & Hb & Hfin & Hall)].
  - left. split; assumption.
  - right. split; [assumption|]. split; [assumption|]. rewrite <- Hb.
    split; assumption.
Qed.

(** The initialisation rewrites the three tables on [0, V). *)
Lemma dijkstra_init_tables (st : state) (s : Z) :
  0 <= V st -> 0 <= s < V st ->
  exists d par us,
    dijkstra_init st s = with_tables st d par us /\
    d s = 0%Q /\
    forall i, 0 <= i < V st ->
      par i = -1 /\ us i = 0 /\ (i <> s -> d i = INF).
Proof.
  intros HV Hs. unfold dijkstra_init.
  match goal with
  | |- context [for_loop ?n ?b ?x] =>
      assert (G : exists d par us,
        for_loop n b x = with_tables st d par us /\
        forall i, 0 <= i < V st -> par i = -1 /\ us i = 0 /\ d i = INF)
  end.
  { apply (for_loop_ind (fun k st0 => exists d par us,
      st0 = with_tables st d par us /\
      forall i, 0 <= i < k -> par i = -1 /\ us i = 0 /\ d i = INF)).
    - assumption.
    - exists (distv st), (parent st), (used st). split; [now rewrite with_tables_id|].
      intros i Hi. lia.
    - intros k st0 Hk (d & par & us & -> & Hall).
      exists (upd d k INF), (upd par k (-1)), (upd us k 0).
      split; [reflexivity|]. intros i Hi. unfold upd.
      destruct (Z.eqb_spec i k); [repeat split|apply Hall; lia]. }
  destruct G as (d & par & us & -> & Hall).
  exists (upd d s 0%Q), par, us. split; [reflexivity|]. split; [apply upd_same|].
  intros i Hi. destruct (Hall i Hi) as (Hp & Hu & Hd).
  split; [assumption|]. split; [assumption|]. intros NE.
  rewrite upd_other by assumption. assumption.
Qed.

Lemma relax_edge_tables (sk : bool) (st : state) (u e : Z)
    (d : Z -> Q) (par us : Z -> Z) :
  relax_edge sk u e (with_tables st d par us) =
  let t := relax1 (allowedb sk st) u (to st e, w st e) (d, par) in
  with_tables st (fst t) (snd t) us.
Proof.
  unfold relax_edge, relax1, allowedb. cbn [with_tables to w distv parent fst snd].
  change (is_skipped (with_tables st d par us) u (to st e))
    with (is_skipped st u (to st e)).
  destruct (sk && is_skipped st u (to st e)); simpl; [reflexivity|].
  destruct (Qltb (d u + w st e) (d (to st e))); reflexivity.
Qed.

Lemma relax_edges_tables (sk : bool) (st : state) (u : Z) (us : Z -> Z) (fuel : nat) :
  forall (e : Z) (d : Z -> Q) (par : Z -> Z),
    -1 <= e -> e + 1 <= Z.of_nat fuel ->
    (forall e', 0 <= e' <= e -> -1 <= nxt st e' < e') ->
    relax_edges sk fuel u e (with_tables st d par us) =
    let t := fold_left (fun t vw => relax1 (allowedb sk st) u vw t)
               (map (fun e => (to st e, w st e)) (chain fuel (nxt st) e)) (d, par) in
    Ret (with_tables st (fst t) (snd t) us).
Proof.
  induction fuel as [|fuel IH]; intros e d par He Hf Hnxt.
  - assert (e = -1) by lia. subst e. reflexivity.
  - cbn [relax_edges chain]. destruct (Z.eqb_spec e (-1)); [reflexivity|].
    rewrite relax_edge_tables. cbv zeta.
    change (nxt (with_tables st d par us) e) with (nxt st e).
    cbn [map fold_left].
    destruct (relax1 (allowedb sk st) u (to st e, w st e) (d, par)) as [d1 par1].
    cbn [fst snd]. pose proof (Hnxt e ltac:(lia)) as Hd.
    apply IH; try lia. intros e' He'. apply Hnxt. lia.
Qed.

Lemma walk_parents_chain (s : Z) (par : Z -> Z) (v : Z) (l : list Z) :
  pchain s par v l -> (forall x, In x l -> 0 <= x) ->
  forall fuel, (length l <= fuel)%nat -> walk_parents fuel par v = Ret l.
Proof.
  intros Hc. induction Hc as [Hs|v l Hv Hp Hc IH]; intros Hall fuel Hf.
  - destruct fuel as [|fuel]; [simpl in Hf; lia|]. cbn [walk_parents].
    destruct (Z.eqb_spec s (-1)) as [E|_];
      [specialize (Hall s ltac:(now left)); lia|].
    rewrite Hs. destruct fuel; reflexivity.
  - destruct fuel as [|fuel]; [simpl in Hf; lia|]. cbn [walk_parents].
    destruct (Z.eqb_spec v (-1)) as [E|_];
      [specialize (Hall v ltac:(now left)); lia|].
    rewrite IH; [reflexivity| |simpl in Hf; lia].
    intros x Hx. apply Hall. now right.
Qed.

Lemma NoDup_range_length (n : Z) (l : list Z) :
  0 <= n -> NoDup l -> (forall x, In x l -> 0 <= x < n) ->
  Z.of_nat (length l) <= n.
Proof.
  intros Hn Hnd Hall.
  assert (H : (length l <= length (Zrange n))%nat).
  { apply NoDup_incl_length; [assumption|]. intros x Hx. apply in_Zrange.
    apply Hall. assumption. }
  unfold Zrange in H. rewrite length_map, length_seq in H. lia.
Qed.

Section DijkstraRun.

Variable hav : Z -> Z -> Q.
Variable st : state.
Variable sk : bool.
Variables s t : Z.

Hypothesis Hwf : wf_graph st.
Hypothesis Hw : weights_ok hav st.
Hypothesis Hpos : hav_nonneg hav.
Hypothesis Hs : 0 <= s < V st.
Hypothesis Ht : 0 <= t < V st.

(** What a run of Dijkstra from [s] leaves in the tables: the distance of
    [t] is not beaten by any walk of cost below [INF]; and when it is below
    [INF], the parents lead from [t] back to [s] along distinct nodes, on a
    walk whose cost is that distance. *)
Definition dpost (d : Z -> Q) (par : Z -> Z) : Prop :=
  (forall c, reach (V st) (out_edges st) (allowedb sk st) hav s t c ->
     (d t <= c)%Q \/ (INF <= c)%Q) /\
  ((d t < INF)%Q ->
   exists l, pchain s par t l /\ NoDup l /\
     (forall x, In x l -> 0 <= x < V st) /\
     walk (V st) (out_edges st) (allowedb sk st) (rev l) /\
     (path_cost hav (rev l) == d t)%Q /\
     hd 0 (rev l) = s /\ last (rev l) 0 = t).

Lemma dijkstra_loop_tables (fuel : nat) :
  forall (d : Z -> Q) (par us : Z -> Z),
    dinv (V st) (out_edges st) (allowedb sk st) hav s (fun x => us x = 1) d par us ->
    us t = 0 ->
    (length (filter (fun i => (us i =? 0)%Z) (Zrange (V st))) < fuel)%nat ->
    exists d' par' us',
      dijkstra_loop sk fuel t (with_tables st d par us)
      = Ret (with_tables st d' par' us') /\ dpost d' par'.
Proof.
  pose proof Hwf as (HV & HE & Hhead & Hnxt & Hto).
  assert (Hrange : forall u v ww, 0 <= u < V st -> In (v, ww) (out_edges st u) ->
                                  0 <= v < V st)
    by (intros u v ww; apply out_edges_range; assumption).
  assert (Hweight : forall u v ww, 0 <= u < V st -> In (v, ww) (out_edges st u) ->
                                   (ww == hav u v)%Q)
    by (intros u v ww; apply Hw).
  induction fuel as [|fuel IH]; intros d par us Hinv Hut Hcount; [lia|].
  cbn [dijkstra_loop].
  pose proof (minQ_spec (with_tables st d par us) ltac:(simpl; lia)) as Hmin.
  cbv zeta in Hmin. cbn [with_tables V used distv] in Hmin.
  destruct Hmin as [(Hu & Hall)|(Hu & Hu0 & Hfin & Hall)].
  - (* no node left below INF *)
    rewrite Hu. cbn [Z.eqb Pos.eqb].
    exists d, par, us. split; [reflexivity|]. split.
    + intros c Hr.
      destruct (reach_bound (V st) (out_edges st) (allowedb sk st) hav s
                  Hrange Hweight Hpos Hs _ d par us Hinv ltac:(auto) t c Hr)
        as [_ [[Hu1 _]|(y & Hy & Hy0 & Hdy)]]; [lia|].
      right. specialize (Hall y Hy Hy0). lra.
    + intros Hlt. specialize (Hall t Ht Hut). lra.
  - set (u := minQ (with_tables st d par us)) in *.
    destruct (Z.eqb_spec u (-1)); [lia|].
    destruct (dinv_pick (V st) (out_edges st) (allowedb sk st) hav s
                _ d par us u Hinv Hu Hu0 Hfin Hall) as [Hinv1 Hmax].
    destruct (Z.eqb_spec u t) as [Eut|NEut].
    + (* the target is marked *)
      exists d, par, (upd us u 1). split; [reflexivity|]. split.
      * intros c Hr.
        destruct (reach_bound (V st) (out_edges st) (allowedb sk st) hav s
                    Hrange Hweight Hpos Hs _ d par us Hinv ltac:(auto) t c Hr)
          as [_ [[Hu1 _]|(y & Hy & Hy0 & Hdy)]]; [lia|].
        left. specialize (Hall y Hy Hy0). rewrite <- Eut. lra.
      * intros _.
        destruct (d_chain _ _ _ _ _ _ _ _ _ Hinv1 t Ht ltac:(rewrite <- Eut; apply upd_same))
          as (l & Hl & Hin & Hnd).
        destruct (pchain_walk (V st) (out_edges st) (allowedb sk st) hav s
                    _ d par (upd us u 1) Hinv1 t l Hl Hin)
          as (Hwk & Hc & Hhd & Hlast & _).
        exists l. split; [assumption|]. split; [assumption|].
        split; [intros x Hx; apply Hin; assumption|].
        split; [exact Hwk|]. split; [exact Hc|]. split; assumption.
    + (* relax the edges of u and go on *)
      change (head (set_used (with_tables st d par us)
                (upd (used (with_tables st d par us)) u 1)) u) with (head st u).
      change (E (set_used (with_tables st d par us)
                (upd (used (with_tables st d par us)) u 1))) with (E st).
      change (set_used (with_tables st d par us)
                (upd (used (with_tables st d par us)) u 1))
        with (with_tables st d par (upd us u 1)).
      pose proof (Hhead u Hu) as Hhu.
      rewrite relax_edges_tables;
        [|lia|lia|intros e' He'; apply Hnxt; lia].
      cbv zeta. cbn [bind].
      fold (out_edges st u).
      destruct (relax_list (V st) (out_edges st) (allowedb sk st) hav s
                  Hrange Hweight Hpos _ (upd us u 1) u (out_edges st u)
                  Hu (upd_same _ _ _) ltac:(auto) d par Hinv1 Hmax)
        as (Hinv2 & Hdu & Hmax2 & Hle & Hdone).
      set (t2 := fold_left _ (out_edges st u) (d, par)) in *.
      apply (dinv_close (V st) (out_edges st) (allowedb sk st) hav s
               _ (fst t2) (snd t2) (upd us u 1) u) in Hinv2;
        [|apply upd_same|exact Hdone].
      apply (dinv_weaken (V st) (out_edges st) (allowedb sk st) hav s
               _ (fun x => upd us u 1 x = 1)) in Hinv2.
      2:{ intros x _. unfold upd. destruct (Z.eqb_spec x u); [now right|now left]. }
      apply IH; [exact Hinv2| |].
      * rewrite upd_other by congruence. assumption.
      * assert (Hlt : (length (filter (fun i => (upd us u 1 i =? 0)%Z) (Zrange (V st)))
                       < length (filter (fun i => (us i =? 0)%Z) (Zrange (V st))))%nat).
        { apply (filter_length_lt _ _ _ u).
          - intros x. unfold upd. destruct (Z.eqb_spec x u); [discriminate|auto].
          - apply in_Zrange. assumption.
          - rewrite Hu0. reflexivity.
          - rewrite upd_same. reflexivity. }
        lia.
Qed.

(** A run from the initial tables returns, with the graph untouched. *)
Lemma dijkstra_run :
  exists d par us,
    dijkstra_loop sk (S (Z.to_nat (V st))) t (dijkstra_init st s)
    = Ret (with_tables st d par us) /\ dpost d par.
Proof.
  pose proof Hwf as (HV & _).
  destruct (dijkstra_init_tables st s ltac:(lia) Hs) as (d & par & us & -> & Hd & Hall).
  apply dijkstra_loop_tables.
  - apply (dinv_weaken (V st) (out_edges st) (allowedb sk st) hav s (fun _ => False)).
    + intros x Hx Hx1. destruct (Hall x Hx) as (_ & Hx0 & _). lia.
    + apply dinv_init; assumption.
  - apply Hall. assumption.
  - assert (H : (length (filter (fun i => (us i =? 0)%Z) (Zrange (V st)))
                 <= length (Zrange (V st)))%nat) by apply filter_length_le.
    unfold Zrange in H at 2. rewrite length_map, length_seq in H. lia.
Qed.

End DijkstraRun.

(** ** Candidate paths of the two-path search *)

Lemma rd_app_l {A} (d : A) (l1 l2 : list A) (i : Z) :
  0 <= i < Z.of_nat (length l1) -> rd d (l1 ++ l2) i = rd d l1 i.
Proof. intros H. unfold rd. apply app_nth1. lia. Qed.

Lemma rd_app_r {A} (d : A) (l1 l2 : list A) (i : Z) :
  Z.of_nat (length l1) <= i ->
  rd d (l1 ++ l2) i = rd d l2 (i - Z.of_nat (length l1)).
Proof.
  intros H. unfold rd. rewrite app_nth2 by lia. f_equal. lia.
Qed.

Lemma rd_in {A} (d : A) (l : list A) (i : Z) :
  0 <= i < Z.of_nat (length l) -> In (rd d l i) l.
Proof. intros H. unfold rd. apply nth_In. lia. Qed.

Lemma in_rd {A} (d : A) (l : list A) (x : A) :
  In x l -> exists i, 0 <= i < Z.of_nat (length l) /\ rd d l i = x.
Proof.
  intros H. destruct (In_nth l x d H) as (k & Hk & Hx).
  exists (Z.of_nat k). split; [lia|]. unfold rd. now rewrite Nat2Z.id.
Qed.

Lemma nth_firstn_lt {A} (d : A) (k : nat) :
  forall (l : list A) (m : nat), (k < m)%nat -> nth k (firstn m l) d = nth k l d.
Proof.
  induction k as [|k IH]; intros l m Hk.
  - destruct m; [lia|]. destruct l; reflexivity.
  - destruct m; [lia|]. destruct l; [reflexivity|]. simpl. apply IH. lia.
Qed.

Lemma rd_firstn {A} (d : A) (l : list A) (m : nat) (i : Z) :
  0 <= i < Z.of_nat m -> rd d (firstn m l) i = rd d l i.
Proof. intros H. unfold rd. apply nth_firstn_lt. lia. Qed.

Lemma last_firstn (l : list Z) (m : nat) :
  (0 < m <= length l)%nat ->
  last (firstn m l) 0 = rd 0 l (Z.of_nat m - 1).
Proof.
  intros H. destruct m as [|m]; [lia|].
  rewrite (firstn_snoc 0) by lia. rewrite last_last. unfold rd. f_equal. lia.
Qed.

Lemma NoDup_firstn {A} (l : list A) (m : nat) : NoDup l -> NoDup (firstn m l).
Proof.
  intros H. rewrite <- (firstn_skipn m l) in H. apply NoDup_app_remove_r in H.
  exact H.
Qed.

Lemma in_firstn_rd (l : list Z) (m : nat) (x : Z) :
  (m <= length l)%nat -> In x (firstn m l) ->
  exists j, 0 <= j < Z.of_nat m /\ rd 0 l j = x.
Proof.
  intros Hm Hin. destruct (in_rd 0 _ _ Hin) as (j & Hj & Hx).
  rewrite firstn_length_le in Hj by assumption.
  exists j. split; [assumption|]. rewrite <- Hx. symmetry. apply rd_firstn. lia.
Qed.

(** In a list of distinct elements equal contents mean equal places. *)
Lemma NoDup_rd_inj (l : list Z) (i j : Z) :
  NoDup l -> 0 <= i < Z.of_nat (length l) -> 0 <= j < Z.of_nat (length l) ->
  rd 0 l i = rd 0 l j -> i = j.
Proof.
  intros Hnd Hi Hj H. unfold rd in H.
  rewrite NoDup_nth in Hnd. specialize (Hnd (Z.to_nat i) (Z.to_nat j)).
  assert (Z.to_nat i = Z.to_nat j) by (apply Hnd; try lia; exact H). lia.
Qed.

Lemma equal_paths_spec (a b : Path) :
  equal_paths a b = true <-> nodes a = nodes b.
Proof.
  unfold equal_paths, len. split.
  - destruct (Z.eqb_spec (Z.of_nat (length (nodes a))) (Z.of_nat (length (nodes b))))
      as [El|]; [|discriminate]. simpl. intros H.
    rewrite forallb_forall in H.
    apply (nth_ext _ _ 0 0); [lia|]. intros k Hk.
    specialize (H (Z.of_nat k)). unfold rd in H. rewrite Nat2Z.id in H.
    apply Z.eqb_eq. apply H. apply in_Zrange. lia.
  - intros ->. rewrite Z.eqb_refl. simpl. apply forallb_forall.
    intros i _. apply Z.eqb_refl.
Qed.

(** The last element of a list that passes a test, when there is one. *)
Lemma last_passing (P : Z -> bool) (l : list Z) :
  (forall x, In x l -> P x = false) \/
  exists r1 y r2, l = r1 ++ y :: r2 /\ P y = true /\
                  forall z, In z r2 -> P z = false.
Proof.
  induction l as [|a l IH]; [left; intros x []|].
  destruct IH as [Hnone|(r1 & y & r2 & -> & Hy & Hr2)].
  - destruct (P a) eqn:Ea.
    + right. exists [], a, l. repeat split; assumption.
    + left. intros x [<-|Hx]; [assumption|apply Hnone; assumption].
  - right. exists (a :: r1), y, r2. repeat split; assumption.
Qed.

Lemma last_app_cons (l1 : list Z) (y : Z) (l2 : list Z) (d : Z) :
  last (l1 ++ y :: l2) d = last (y :: l2) d.
Proof.
  induction l1 as [|a l1 IH]; [reflexivity|].
  change ((a :: l1) ++ y :: l2) with (a :: (l1 ++ y :: l2)).
  destruct (l1 ++ y :: l2) eqn:E; [destruct l1; discriminate|].
  rewrite <- IH. reflexivity.
Qed.

Section CandCost.

Variable hav : Z -> Z -> Q.
Hypothesis hav_pos : forall a b, (0 <= hav a b)%Q.

Lemma path_cost_prefix_le (l1 l2 : list Z) :
  (path_cost hav l1 <= path_cost hav (l1 ++ l2))%Q.
Proof.
  induction l1 as [|a l1 IH].
  - change (path_cost hav []) with 0%Q. apply path_cost_nonneg. assumption.
  - destruct l1 as [|b l1].
    + change (path_cost hav [a]) with 0%Q. apply path_cost_nonneg. assumption.
    + change ((a :: b :: l1) ++ l2) with (a :: b :: (l1 ++ l2)).
      rewrite !path_cost_cons2.
      change (b :: l1 ++ l2) with ((b :: l1) ++ l2). lra.
Qed.

Lemma path_cost_suffix_le (l1 l2 : list Z) :
  (path_cost hav l2 <= path_cost hav (l1 ++ l2))%Q.
Proof.
  induction l1 as [|a l1 IH]; [simpl; lra|].
  change ((a :: l1) ++ l2) with (a :: (l1 ++ l2)).
  destruct (l1 ++ l2) as [|b r] eqn:E.
  - destruct l1; [|discriminate]. simpl in E. subst l2.
    change (path_cost hav []) with 0%Q. apply path_cost_nonneg. assumption.
  - rewrite path_cost_cons2. pose proof (hav_pos a b). lra.
Qed.

(** The first loop of a candidate copies the root: the best path up to
    the spur node, with its cost. *)
Lemma cand_prefix_spec (prev : list Z) (i : Z) :
  0 <= i < Z.of_nat (length prev) ->
  nodes (cand_prefix hav prev i (mkPath [] 0)) = firstn (Z.to_nat (i + 1)) prev /\
  (cost (cand_prefix hav prev i (mkPath [] 0))
   == path_cost hav (firstn (Z.to_nat (i + 1)) prev))%Q.
Proof.
  intros Hi. unfold cand_prefix.
  apply (for_loop_ind (fun j (c : Path) =>
    nodes c = firstn (Z.to_nat j) prev /\
    (cost c == path_cost hav (firstn (Z.to_nat j) prev))%Q)).
  - lia.
  - split; reflexivity.
  - intros j c Hj [Hn Hc].
    replace (Z.to_nat (j + 1)) with (S (Z.to_nat j)) by lia.
    rewrite (firstn_snoc 0) by lia. fold (rd 0 prev j).
    destruct (Z.ltb_spec 0 j) as [Hpos|Hzero]; cbn [nodes cost].
    + split; [now rewrite Hn|].
      rewrite (path_cost_snoc hav).
      * rewrite last_firstn by lia. rewrite Z2Nat.id by lia. rewrite Hc. reflexivity.
      * intros E. apply (f_equal (@length Z)) in E.
        rewrite firstn_length_le in E by lia. simpl in E. lia.
    + split; [now rewrite Hn|]. assert (j = 0) by lia. subst j. simpl firstn.
      rewrite Hc. reflexivity.
Qed.

(** The second loop appends the spur path after its first node. *)
Lemma cand_spur_spec (spur : list Z) (cand : Path) :
  spur <> [] ->
  nodes (cand_spur hav spur cand) = nodes cand ++ tl spur /\
  (cost (cand_spur hav spur cand) == cost cand + path_cost hav spur)%Q.
Proof.
  intros Hne. unfold cand_spur.
  assert (Hlen : 1 <= Z.of_nat (length spur)) by (destruct spur; [contradiction|simpl; lia]).
  assert (G : (fun j (c : Path) =>
      nodes c = nodes cand ++ firstn (Z.to_nat (j - 1)) (tl spur) /\
      (cost c == cost cand + path_cost hav (firstn (Z.to_nat j) spur))%Q)
    (Z.of_nat (length spur))
    (fold_left (fun c j =>
       mkPath (nodes c ++ [rd 0 spur j])
              (cost c + hav (rd 0 spur (j - 1)) (rd 0 spur j)))
       (Zrange_from 1 (Z.of_nat (length spur))) cand)).
  { apply fold_Zrange_from_ind.
    - assumption.
    - simpl. split; [now rewrite app_nil_r|].
      destruct spur as [|x r]; [contradiction|]. simpl firstn.
      change (path_cost hav [x]) with 0%Q. lra.
    - intros j c Hj [Hn Hc]. cbn [nodes cost].
      assert (Htl : length (tl spur) = (length spur - 1)%nat)
        by (destruct spur; [contradiction|simpl; lia]).
      split.
      + rewrite Hn. rewrite <- app_assoc. f_equal.
        replace (Z.to_nat (j + 1 - 1)) with (S (Z.to_nat (j - 1))) by lia.
        rewrite (firstn_snoc 0) by lia. f_equal. f_equal.
        destruct spur as [|x r]; [contradiction|]. simpl tl. unfold rd.
        replace (Z.to_nat j) with (S (Z.to_nat (j - 1))) by lia. reflexivity.
      + replace (Z.to_nat (j + 1)) with (S (Z.to_nat j)) by lia.
        rewrite (firstn_snoc 0) by lia. fold (rd 0 spur j).
        rewrite (path_cost_snoc hav).
        * rewrite last_firstn by lia. rewrite Z2Nat.id by lia. rewrite Hc. lra.
        * intros E. apply (f_equal (@length Z)) in E.
          rewrite firstn_length_le in E by lia. simpl in E. lia. }
  simpl in G. destruct G as [Hn Hc]. split.
  - rewrite Hn. f_equal. apply firstn_all2.
    destruct spur; [contradiction|cbn [tl length]; lia].
  - rewrite Hc. rewrite Nat2Z.id. rewrite firstn_all. reflexivity.
Qed.

End CandCost.

(** [yen_besti] returns the first place of least cost. *)
Lemma yen_besti_spec (A : list Path) :
  A <> [] ->
  let b := yen_besti A in
  0 <= b < Z.of_nat (length A) /\
  forall q, 0 <= q < b ->
    (cost (rd (mkPath [] 0) A b) < cost (rd (mkPath [] 0) A q))%Q.
Proof.
  intros Hne. unfold yen_besti.
  assert (Hlen : 1 <= Z.of_nat (length A)) by (destruct A; [contradiction|simpl; lia]).
  set (c := fun i => cost (rd (mkPath [] 0) A i)).
  assert (G : (fun hi b =>
      0 <= b < hi /\
      (forall q, 0 <= q < b -> (c b < c q)%Q) /\
      (forall q, b <= q < hi -> (c b <= c q)%Q))
    (Z.of_nat (length A))
    (fold_left (fun besti i => if Qltb (c i) (c besti) then i else besti)
       (Zrange_from 1 (Z.of_nat (length A))) 0)).
  { apply fold_Zrange_from_ind.
    - assumption.
    - split; [lia|]. split; [intros q Hq; lia|].
      intros q Hq. assert (q = 0) by lia. subst q. lra.
    - intros i b Hi (Hb & Hlt & Hle).
      destruct (Qltb (c i) (c b)) eqn:E.
      + apply Qltb_lt in E. split; [lia|]. split.
        * intros q Hq. destruct (Z_lt_ge_dec q b).
          -- specialize (Hlt q ltac:(lia)). lra.
          -- specialize (Hle q ltac:(lia)). lra.
        * intros q Hq. assert (q = i) by lia. subst q. lra.
      + apply Qltb_ge in E. split; [lia|]. split; [assumption|].
        intros q Hq. destruct (Z.eq_dec q i) as [->|]; [assumption|].
        apply Hle. lia. }
  simpl in G. destruct G as (Hb & Hlt & _). split; assumption.
Qed.

(** ** The two-path search *)

Lemma last_rd (l : list Z) :
  l <> [] -> last l 0 = rd 0 l (Z.of_nat (length l) - 1).
Proof.
  intros Hne. destruct (exists_last Hne) as (l' & x & ->).
  rewrite last_last, length_app. simpl length.
  rewrite rd_app_r by lia.
  replace (Z.of_nat (length l' + 1) - 1 - Z.of_nat (length l')) with 0 by lia.
  reflexivity.
Qed.

Lemma allowedb_skip (st : state) (a b : Z) :
  allowedb true st a b = avoid (skip_u st) (skip_v st) a b.
Proof. reflexivity. Qed.

Section YenRun.

Variable hav : Z -> Z -> Q.
Variable st0 : state.
Variables s t : Z.

Hypothesis Hwf : wf_graph st0.
Hypothesis Hw : weights_ok hav st0.
Hypothesis Hpos : hav_nonneg hav.
Hypothesis Hs : 0 <= s < V st0.
Hypothesis Ht : 0 <= t < V st0.

(** A walk in the graph of [st0] along the edges that pass [okb]. *)
Definition gwalk (okb : Z -> Z -> bool) (p : list Z) : Prop :=
  walk (V st0) (out_edges st0) okb p.

Definition graph_eq (st : state) : Prop := graph_of st = graph_of st0.

Lemma graph_eq_fields (st : state) :
  graph_eq st ->
  V st = V st0 /\ out_edges st = out_edges st0 /\ wf_graph st /\ weights_ok hav st.
Proof.
  unfold graph_eq, graph_of. intros H. injection H as HV HE Hh Ht' Hn Hw'.
  assert (Ho : out_edges st = out_edges st0).
  { unfold out_edges. rewrite HE, Hh, Ht', Hn, Hw'. reflexivity. }
  split; [assumption|]. split; [assumption|]. split.
  - unfold wf_graph. rewrite HV, HE, Hh, Ht', Hn. exact Hwf.
  - unfold weights_ok. rewrite HV, Ho. exact Hw.
Qed.

(** What one run of Dijkstra from [a] to [t] returns: the graph and the
    skipped edge are as before; no walk of cost below [INF] along usable
    edges beats the distance returned; and when that distance is below
    [INF], walking the parents from [t] gives, reversed, a walk of distinct
    nodes from [a] to [t] with that cost. *)
Lemma dijkstra_fn_run (sk : bool) (st : state) (a : Z) :
  graph_eq st -> 0 <= a < V st0 ->
  exists d par us,
    dijkstra_loop sk (S (Z.to_nat (V st))) t (dijkstra_init st a)
      = Ret (with_tables st d par us) /\
    (forall q, gwalk (allowedb sk st) (a :: q) -> last (a :: q) 0 = t ->
       (d t <= path_cost hav (a :: q))%Q \/ (INF <= path_cost hav (a :: q))%Q) /\
    ((d t < INF)%Q ->
     exists l, walk_parents (Z.to_nat MAXV) par t = Ret l /\
       NoDup (rev l) /\ (forall x, In x (rev l) -> 0 <= x < V st0) /\
       gwalk (allowedb sk st) (rev l) /\
       (path_cost hav (rev l) == d t)%Q /\
       hd 0 (rev l) = a /\ last (rev l) 0 = t).
Proof.
  intros Hg Ha. destruct (graph_eq_fields st Hg) as (HV & Ho & Hwf' & Hw').
  destruct (dijkstra_run hav st sk a t Hwf' Hw' Hpos ltac:(lia) ltac:(lia))
    as (d & par & us & Hrun & Hopt & Hchain).
  exists d, par, us. split; [exact Hrun|]. unfold gwalk. rewrite <- HV, <- Ho.
  split.
  - intros q Hq Hlast.
    assert (Hrange : forall u v ww, 0 <= u < V st -> In (v, ww) (out_edges st u) ->
                                    0 <= v < V st)
      by (intros u v ww; apply out_edges_range; assumption).
    destruct (walk_reach (V st) (out_edges st) (allowedb sk st) hav a q a 0 Hq
                (reach_src _ _ _ _ _)) as (c' & Hr & Hc').
    rewrite Hlast in Hr. destruct (Hopt c' Hr); [left|right]; lra.
  - intros Hfin. destruct (Hchain Hfin) as (l & Hl & Hnd & Hin & Hwk & Hc & Hhd & Hla).
    exists l. split.
    + apply (walk_parents_chain a); [assumption| |].
      * intros x Hx. apply Hin in Hx. lia.
      * pose proof (NoDup_range_length (V st) l ltac:(destruct Hwf'; lia) Hnd Hin).
        destruct Hwf' as (HVm & _). lia.
    + split; [apply NoDup_rev; assumption|].
      split; [intros x Hx; apply in_rev in Hx; apply Hin; assumption|].
      split; [assumption|]. split; [assumption|]. split; assumption.
Qed.

(** *** The candidates *)

Variable n0 : list Z.
Hypothesis n0_nodup : NoDup n0.
Hypothesis n0_last : last n0 0 = t.

Definition compl (i : Z) (A : list Path) : Prop :=
  forall j q, 0 <= j < i ->
    gwalk (avoid (rd 0%Z n0 j) (rd 0%Z n0 (j + 1))) (rd 0%Z n0 j :: q) ->
    last (rd 0%Z n0 j :: q) 0 = t ->
    (path_cost hav (rd 0%Z n0 j :: q) < INF / 2)%Q ->
    64 <= Z.of_nat (length A) \/
    exists c, In c A /\
      (cost c <= path_cost hav (firstn (Z.to_nat (j + 1)) n0)
                 + path_cost hav (rd 0%Z n0 j :: q))%Q.

Definition good (A : list Path) : Prop :=
  forall p, 0 <= p < Z.of_nat (length A) ->
    NoDup (nodes (rd (mkPath [] 0) A p)) \/
    exists q, 0 <= q < p /\
      (cost (rd (mkPath [] 0) A q) <= cost (rd (mkPath [] 0) A p))%Q.

(** A candidate is free of loops, or there is no room left, or an earlier
    candidate costs no more. *)
Lemma cand_loopfree_or_beaten (i : Z) (spur : list Z) (A : list Path) :
  0 <= i -> i + 1 < Z.of_nat (length n0) ->
  NoDup spur -> hd 0 spur = rd 0%Z n0 i -> spur <> [] -> last spur 0 = t ->
  gwalk (avoid (rd 0%Z n0 i) (rd 0%Z n0 (i + 1))) spur ->
  (path_cost hav spur < INF / 2)%Q ->
  compl i A ->
  NoDup (firstn (Z.to_nat (i + 1)) n0 ++ tl spur) \/
  64 <= Z.of_nat (length A) \/
  exists c, In c A /\
    (cost c <= path_cost hav (firstn (Z.to_nat (i + 1)) n0) + path_cost hav spur)%Q.
Proof.
  intros Hi Hlen Hnd Hhd Hne Hlast Hwalk Hcost Hcompl.
  destruct spur as [|x rest]; [contradiction|]. simpl in Hhd. subst x.
  simpl tl.
  set (pre' := firstn (Z.to_nat i) n0).
  assert (Hpre : firstn (Z.to_nat (i + 1)) n0 = pre' ++ [rd 0%Z n0 i]).
  { replace (Z.to_nat (i + 1)) with (S (Z.to_nat i)) by lia.
    apply (firstn_snoc 0). lia. }
  assert (Hxrest : ~ In (rd 0%Z n0 i) rest) by (inversion Hnd; assumption).
  assert (Hndrest : NoDup rest) by (inversion Hnd; assumption).
  destruct (last_passing (fun z => existsb (Z.eqb z) pre') rest)
    as [Hnone|(r1 & y & r2 & Hrest & Hy & Hr2)].
  - left. apply NoDup_app; [apply NoDup_firstn; assumption|assumption|].
    rewrite Hpre. intros a Ha Har. apply in_app_or in Ha.
    destruct Ha as [Ha|[<-|[]]]; [|contradiction].
    specialize (Hnone a Har). cbv beta in Hnone.
    assert (Ht' : existsb (Z.eqb a) pre' = true).
    { apply existsb_exists. exists a. split; [assumption|apply Z.eqb_refl]. }
    congruence.
  - right. cbv beta in Hy.
    apply existsb_exists in Hy. destruct Hy as (y' & Hy' & Heq).
    apply Z.eqb_eq in Heq. subst y'.
    destruct (in_firstn_rd n0 (Z.to_nat i) y ltac:(lia) Hy') as (j & Hj & Hjy).
    rewrite Z2Nat.id in Hj by lia.
    assert (Hnotpre : forall z, In z r2 -> ~ In z pre').
    { intros z Hz Hzp. specialize (Hr2 z Hz). cbv beta in Hr2.
      assert (existsb (Z.eqb z) pre' = true); [|congruence].
      apply existsb_exists. exists z. split; [assumption|apply Z.eqb_refl]. }
    (* the node after the common node is not on the tail *)
    assert (Hm : ~ In (rd 0%Z n0 (j + 1)) (y :: r2)).
    { intros [Hmy|Hmr].
      - rewrite <- Hjy in Hmy.
        apply NoDup_rd_inj in Hmy; try assumption; lia.
      - destruct (Z.eq_dec (j + 1) i) as [E|NE].
        + rewrite E in Hmr. apply Hxrest. rewrite Hrest.
          apply in_or_app. right. right. assumption.
        + apply (Hnotpre _ Hmr). unfold pre'.
          rewrite <- (rd_firstn 0 n0 (Z.to_nat i) (j + 1)) by lia.
          apply rd_in. rewrite firstn_length_le by lia. lia. }
    assert (Hsub : gwalk (avoid (rd 0%Z n0 j) (rd 0%Z n0 (j + 1))) (rd 0%Z n0 j :: r2)).
    { rewrite Hjy. intros a b Hab.
      assert (Hab' : In (a, b) (steps (rd 0%Z n0 i :: rest))).
      { rewrite Hrest.
        change (rd 0%Z n0 i :: r1 ++ y :: r2) with ((rd 0%Z n0 i :: r1) ++ y :: r2).
        apply steps_app_r. assumption. }
      destruct (Hwalk a b Hab') as (Har & ww & Hin & _).
      split; [assumption|]. exists ww. split; [assumption|].
      apply in_steps_nodes in Hab. destruct Hab as [Ha Hb].
      unfold avoid.
      destruct (Z.eqb_spec b (rd 0%Z n0 (j + 1))) as [Eb|_];
        [rewrite Eb in Hb; contradiction|].
      destruct (Z.eqb_spec a (rd 0%Z n0 (j + 1))) as [Ea|_];
        [rewrite Ea in Ha; contradiction|].
      rewrite andb_false_r. reflexivity. }
    assert (Hlast' : last (rd 0%Z n0 j :: r2) 0 = t).
    { rewrite Hjy. rewrite <- Hlast. rewrite Hrest.
      change (rd 0%Z n0 i :: r1 ++ y :: r2) with ((rd 0%Z n0 i :: r1) ++ y :: r2).
      now rewrite last_app_cons. }
    assert (Hle : (path_cost hav (rd 0%Z n0 j :: r2)
                   <= path_cost hav (rd 0%Z n0 i :: rest))%Q).
    { rewrite Hjy, Hrest.
      change (rd 0%Z n0 i :: r1 ++ y :: r2) with ((rd 0%Z n0 i :: r1) ++ y :: r2).
      apply path_cost_suffix_le. assumption. }
    destruct (Hcompl j r2 ltac:(lia) Hsub Hlast' ltac:(lra))
      as [Hfull|(c & Hc & Hcc)]; [left; assumption|].
    right. exists c. split; [assumption|].
    assert (Hpl : (path_cost hav (firstn (Z.to_nat (j + 1)) n0)
                   <= path_cost hav (firstn (Z.to_nat (i + 1)) n0))%Q).
    { rewrite <- (firstn_skipn (Z.to_nat (j + 1)) (firstn (Z.to_nat (i + 1)) n0)).
      rewrite firstn_firstn. replace (Init.Nat.min (Z.to_nat (j + 1)) (Z.to_nat (i + 1)))
        with (Z.to_nat (j + 1)) by lia.
      apply path_cost_prefix_le. assumption. }
    lra.
Qed.

(** A candidate leaves the best path at its spur node. *)
Lemma cand_differs (i : Z) (spur : list Z) :
  0 <= i -> i + 1 < Z.of_nat (length n0) ->
  hd 0 spur = rd 0%Z n0 i -> spur <> [] -> last spur 0 = t -> NoDup spur ->
  gwalk (avoid (rd 0%Z n0 i) (rd 0%Z n0 (i + 1))) spur ->
  firstn (Z.to_nat (i + 1)) n0 ++ tl spur <> n0.
Proof.
  intros Hi Hlen Hhd Hne Hlast Hnd Hwalk Heq.
  destruct spur as [|x rest]; [contradiction|]. simpl in Hhd. subst x.
  simpl tl in Heq.
  assert (Hn0 : n0 <> []) by (intros E; rewrite E in Hlen; simpl in Hlen; lia).
  destruct rest as [|b r].
  - simpl in Hlast. rewrite <- n0_last, (last_rd n0 Hn0) in Hlast.
    apply NoDup_rd_inj in Hlast; try assumption; lia.
  - assert (Hb : rd 0 (firstn (Z.to_nat (i + 1)) n0 ++ b :: r) (i + 1) = b).
    { rewrite rd_app_r by (rewrite firstn_length_le by lia; lia).
      rewrite firstn_length_le by lia.
      replace (i + 1 - Z.of_nat (Z.to_nat (i + 1))) with 0 by lia. reflexivity. }
    rewrite Heq in Hb.
    destruct (Hwalk (rd 0%Z n0 i) b ltac:(rewrite steps_cons2; now left))
      as (_ & ww & _ & Hav).
    unfold avoid in Hav. rewrite Z.eqb_refl in Hav. rewrite <- Hb in Hav.
    rewrite Z.eqb_refl in Hav. simpl in Hav. discriminate.
Qed.

End YenRun.

Section YenMain.

Variable hav : Z -> Z -> Q.
Variable st0 : state.
Variables s t : Z.

Hypothesis Hwf : wf_graph st0.
Hypothesis Hw : weights_ok hav st0.
Hypothesis Hpos : hav_nonneg hav.
Hypothesis Hs : 0 <= s < V st0.
Hypothesis Ht : 0 <= t < V st0.

Variable n0 : list Z.
Hypothesis n0_nodup : NoDup n0.
Hypothesis n0_last : last n0 0 = t.
Hypothesis n0_range : forall z, In z n0 -> 0 <= z < V st0.

(** The state of the loop over the edges of the best path [n0], before
    the turn for edge [i]. *)
Definition yinv (i : Z) (A : list Path) : Prop :=
  (forall c, In c A -> (cost c == path_cost hav (nodes c))%Q) /\
  (forall c, In c A -> nodes c <> n0) /\
  good A /\
  compl hav st0 t n0 i A.

Lemma yen_spur_step (i : Z) (st : state) (A : list Path) :
  0 <= i -> i + 1 < Z.of_nat (length n0) ->
  graph_eq st0 st -> yinv i A ->
  (yen_spur hav t n0 i (st, A) = OutOfBounds /\ MAXV + 2 < 2 * V st0) \/
  exists st' A',
    yen_spur hav t n0 i (st, A) = Ret (st', A') /\
    graph_eq st0 st' /\ yinv (i + 1) A'.
Proof.
  intros Hi Hlen Hg (Hcost & Hdiff & Hgood & Hcompl).
  set (x := rd 0 n0 i). set (y := rd 0 n0 (i + 1)).
  assert (Hx : 0 <= x < V st0) by (apply n0_range; apply rd_in; lia).
  set (st1 := set_skip st x y).
  assert (Hg1 : graph_eq st0 st1) by exact Hg.
  destruct (dijkstra_fn_run hav st0 t Hwf Hw Hpos Ht true st1 x Hg1 Hx)
    as (d & par & us & Hrun & Hopt & Hchain).
  unfold yen_spur. fold x y st1. unfold dijkstra_skip_edge.
  rewrite Hrun. cbn [bind].
  change (distv (with_tables st1 d par us) t) with (d t).
  change (parent (with_tables st1 d par us)) with par.
  change (allowedb true st1) with (avoid x y) in Hopt, Hchain.
  assert (Hold : forall j q, 0 <= j < i ->
            gwalk st0 (avoid (rd 0 n0 j) (rd 0 n0 (j + 1))) (rd 0 n0 j :: q) ->
            last (rd 0 n0 j :: q) 0 = t ->
            (path_cost hav (rd 0%Z n0 j :: q) < INF / 2)%Q ->
            forall A', (forall c, In c A -> In c A') ->
                       Z.of_nat (length A) <= Z.of_nat (length A') ->
            64 <= Z.of_nat (length A') \/
            exists c, In c A' /\
              (cost c <= path_cost hav (firstn (Z.to_nat (j + 1)) n0)
                         + path_cost hav (rd 0%Z n0 j :: q))%Q).
  { intros j q Hj Hq Hl Hc A' Hsub Hle.
    destruct (Hcompl j q Hj Hq Hl Hc) as [Hfull|(c & Hin & Hcc)];
      [left; lia|right; exists c; split; [apply Hsub; assumption|assumption]]. }
  assert (HINF : (INF / 2 < INF)%Q) by reflexivity.
  destruct (Qgeb (d t) (INF / 2)) eqn:Ege.
  - (* no spur path *)
    apply Qgeb_ge in Ege.
    right. exists (with_tables st1 d par us), A. split; [reflexivity|].
    split; [exact Hg1|]. split; [assumption|]. split; [assumption|].
    split; [assumption|].
    intros j q Hj Hq Hl Hc. destruct (Z.eq_dec j i) as [->|NE].
    + exfalso. fold x y in Hq. fold x in Hl, Hc.
      destruct (Hopt q Hq Hl); lra.
    + apply (Hold j q ltac:(lia) Hq Hl Hc A); [auto|lia].
  - apply Qgeb_lt in Ege.
    destruct (Hchain ltac:(lra)) as (l & Hwp & Hnd & Hrange & Hwalk & Hpc & Hhd & Hlast).
    rewrite Hwp. cbn [bind].
    set (spur := rev l) in *.
    assert (Hne : spur <> []).
    { intros E. rewrite E in Hlast, Hhd. simpl in Hlast, Hhd.
      assert (Hn0 : n0 <> []) by (intros E0; rewrite E0 in Hlen; simpl in Hlen; lia).
      assert (Hxt : rd 0 n0 i = rd 0 n0 (Z.of_nat (length n0) - 1)).
      { rewrite <- (last_rd n0 Hn0), n0_last, <- Hlast. symmetry. exact Hhd. }
      apply NoDup_rd_inj in Hxt; try assumption; lia. }
    destruct (cand_prefix_spec hav n0 i ltac:(lia)) as [Hpn Hpc0].
    destruct (cand_spur_spec hav spur (cand_prefix hav n0 i (mkPath [] 0)) Hne)
      as [Hcn Hcc].
    set (cand := cand_spur hav spur (cand_prefix hav n0 i (mkPath [] 0))) in *.
    rewrite Hpn in Hcn.
    assert (Hcandcost : (cost cand == path_cost hav (firstn (Z.to_nat (i + 1)) n0)
                                      + path_cost hav spur)%Q)
      by (rewrite Hcc, Hpc0; reflexivity).
    assert (Hcandpc : (cost cand == path_cost hav (nodes cand))%Q).
    { rewrite Hcandcost, Hcn.
      destruct spur as [|x' rest]; [contradiction|]. simpl in Hhd. subst x'.
      replace (Z.to_nat (i + 1)) with (S (Z.to_nat i)) by lia.
      rewrite (firstn_snoc 0) by lia. fold (rd 0 n0 i). fold x.
      simpl tl. rewrite <- app_assoc. simpl app.
      rewrite (path_cost_glue hav (firstn (Z.to_nat i) n0) x rest). reflexivity. }
    assert (Hnew : forall j q, j = i ->
              gwalk st0 (avoid (rd 0 n0 j) (rd 0 n0 (j + 1))) (rd 0 n0 j :: q) ->
              last (rd 0 n0 j :: q) 0 = t ->
              (path_cost hav (rd 0%Z n0 j :: q) < INF / 2)%Q ->
              (cost cand <= path_cost hav (firstn (Z.to_nat (j + 1)) n0)
                            + path_cost hav (rd 0%Z n0 j :: q))%Q).
    { intros j q -> Hq Hl Hc. fold x y in Hq. fold x in Hl, Hc |- *.
      destruct (Hopt q Hq Hl); lra. }
    destruct (Z.ltb_spec MAXV (len cand)) as [Hover|Hfit].
    { (* the candidate does not fit *)
      left. split; [reflexivity|].
      unfold len in Hover. rewrite Hcn, length_app in Hover.
      rewrite firstn_length_le in Hover by lia.
      pose proof (NoDup_range_length (V st0) n0 ltac:(lia) n0_nodup n0_range).
      pose proof (NoDup_range_length (V st0) spur ltac:(lia) Hnd Hrange).
      destruct spur as [|x' rest]; [contradiction|].
      simpl length in *. lia. }
    destruct (negb (existsb (fun p => equal_paths p cand) A)
              && (Z.of_nat (length A) <? 64)) eqn:Eadd.
    + (* the candidate is added *)
      apply andb_true_iff in Eadd. destruct Eadd as [_ Eroom].
      apply Z.ltb_lt in Eroom.
      right. exists (with_tables st1 d par us), (A ++ [cand]). split; [reflexivity|].
      split; [exact Hg1|]. split; [|split; [|split]].
      * intros c Hc. apply in_app_or in Hc. destruct Hc as [Hc|[<-|[]]];
          [apply Hcost; assumption|exact Hcandpc].
      * intros c Hc. apply in_app_or in Hc. destruct Hc as [Hc|[<-|[]]];
          [apply Hdiff; assumption|].
        rewrite Hcn.
        apply (cand_differs st0 t n0 n0_nodup n0_last i spur); assumption.
      * intros p Hp. rewrite length_app in Hp. simpl length in Hp.
        destruct (Z_lt_ge_dec p (Z.of_nat (length A))) as [Hlt|Hge].
        -- rewrite rd_app_l by lia.
           destruct (Hgood p ltac:(lia)) as [Hn|(q & Hq & Hqc)]; [left; assumption|].
           right. exists q. split; [assumption|]. rewrite rd_app_l by lia. assumption.
        -- assert (p = Z.of_nat (length A)) by lia. subst p.
           rewrite rd_app_r by lia. rewrite Z.sub_diag. change (rd _ [cand] 0) with cand.
           destruct (cand_loopfree_or_beaten hav st0 t Hpos n0 n0_nodup i spur A
                       Hi Hlen Hnd Hhd Hne Hlast Hwalk ltac:(lra) Hcompl)
             as [Hn|[Hfull|(c & Hc & Hcc')]].
           ++ left. rewrite Hcn. assumption.
           ++ lia.
           ++ right. destruct (in_rd (mkPath [] 0) A c Hc) as (q & Hq & Hqc).
              exists q. split; [assumption|]. rewrite rd_app_l by lia.
              rewrite Hqc. lra.
      * intros j q Hj Hq Hl Hc. destruct (Z.eq_dec j i) as [E|NE].
        -- right. exists cand. split; [apply in_or_app; right; now left|].
           apply Hnew; assumption.
        -- apply (Hold j q ltac:(lia) Hq Hl Hc).
           ++ intros c Hin. apply in_or_app. now left.
           ++ rewrite length_app. lia.
    + (* a duplicate, or no room *)
      right. exists (with_tables st1 d par us), A. split; [reflexivity|].
      split; [exact Hg1|]. split; [assumption|]. split; [assumption|].
      split; [assumption|].
      intros j q Hj Hq Hl Hc. destruct (Z.eq_dec j i) as [E|NE].
      * apply andb_false_iff in Eadd. destruct Eadd as [Edup|Efull].
        -- right. apply negb_false_iff in Edup. apply existsb_exists in Edup.
           destruct Edup as (p & Hp & Heq). apply equal_paths_spec in Heq.
           exists p. split; [assumption|].
           pose proof (Hnew j q E Hq Hl Hc) as Hn.
           rewrite (Hcost p Hp), Heq, <- Hcandpc. exact Hn.
        -- left. apply Z.ltb_ge in Efull. assumption.
      * apply (Hold j q ltac:(lia) Hq Hl Hc A); [auto|lia].
Qed.

Lemma yen_spur_loop (st : state) :
  n0 <> [] -> graph_eq st0 st ->
  (for_loopM (Z.of_nat (length n0) - 1) (yen_spur hav t n0) (st, [])
     = OutOfBounds /\ MAXV + 2 < 2 * V st0) \/
  exists st' A,
    for_loopM (Z.of_nat (length n0) - 1) (yen_spur hav t n0) (st, []) = Ret (st', A) /\
    graph_eq st0 st' /\ yinv (Z.of_nat (length n0) - 1) A.
Proof.
  intros Hne Hg.
  assert (Hlen : 1 <= Z.of_nat (length n0)) by (destruct n0; [contradiction|simpl; lia]).
  destruct (for_loopM_ind_bounds (MAXV + 2 < 2 * V st0)
    (fun i (sA : state * list Path) => graph_eq st0 (fst sA) /\ yinv i (snd sA))
    (Z.of_nat (length n0) - 1) (yen_spur hav t n0) (st, []))
    as [Hover|([st' A] & Hrun & Hg' & Hinv)].
  - lia.
  - split; [exact Hg|]. split; [intros c []|]. split; [intros c []|].
    split; [intros p Hp; simpl in Hp; lia|]. intros j q Hj. lia.
  - intros i [sti Ai] Hi [Hgi Hinvi].
    destruct (yen_spur_step i sti Ai ltac:(lia) ltac:(lia) Hgi Hinvi)
      as [Hover|(st' & A' & Hrun & Hg' & Hinv')]; [left; exact Hover|].
    right. exists (st', A'). split; [exact Hrun|]. split; assumption.
  - left. exact Hover.
  - right. exists st', A. split; [exact Hrun|]. split; assumption.
Qed.

End YenMain.

(** *** The two paths of [yen_k2_paths] *)

Lemma walk_parents_nonempty (fuel : nat) (par : Z -> Z) (v : Z) (l : list Z) :
  v <> -1 -> walk_parents fuel par v = Ret l -> l <> [].
Proof.
  intros Hv H. destruct fuel as [|f]; simpl in H;
    destruct (Z.eqb_spec v (-1)); try contradiction; try discriminate.
  destruct (walk_parents f par (par v)); simpl in H; try discriminate.
  inversion H. discriminate.
Qed.

Section YenPaths.

Variable hav : Z -> Z -> Q.
Variable st : state.
Variables s t : Z.

Hypothesis Hwf : wf_graph st.
Hypothesis Hw : weights_ok hav st.
Hypothesis Hpos : hav_nonneg hav.
Hypothesis Hs : 0 <= s < V st.
Hypothesis Ht : 0 <= t < V st.

(** [dijkstra_skip_edge] returns, and changes the three tables only. *)
Lemma dijkstra_skip_edge_run :
  exists d par us,
    dijkstra_skip_edge st s t = Ret (with_tables st d par us, d t).
Proof.
  destruct (dijkstra_run hav st true s t Hwf Hw Hpos Hs Ht)
    as (d & par & us & Hrun & _).
  exists d, par, us. unfold dijkstra_skip_edge. rewrite Hrun. reflexivity.
Qed.

(** [yen_k2_paths] returns no path and leaves the excluded edge as it
    was, or it returns one or two paths and clears the excluded edge.  The
    first path runs from [s] to [t] without a repeated node; the second
    has no repeated node either and is not the first.  A candidate can be
    too long for its array only when the graph has more than [MAXV / 2 + 1]
    nodes. *)
Lemma yen_k2_paths_run :
  (yen_k2_paths hav st s t = OutOfBounds /\ MAXV + 2 < 2 * V st) \/
  exists st' out,
    yen_k2_paths hav st s t = Ret (st', out) /\
    graph_of st' = graph_of st /\
    match out with
    | [] => skip_u st' = skip_u st /\ skip_v st' = skip_v st
    | p0 :: rest =>
        skip_u st' = -1 /\ skip_v st' = -1 /\
        NoDup (nodes p0) /\ hd 0 (nodes p0) = s /\ last (nodes p0) 0 = t /\
        (rest = [] \/
         exists p1, rest = [p1] /\ NoDup (nodes p1) /\ nodes p1 <> nodes p0)
    end.
Proof.
  assert (Hg0 : graph_eq st st) by reflexivity.
  destruct (dijkstra_fn_run hav st t Hwf Hw Hpos Ht false st s Hg0 Hs)
    as (d & par & us & Hrun & _ & Hchain).
  unfold yen_k2_paths, ecodijkstra. rewrite Hrun. cbn [bind].
  change (distv (with_tables st d par us) t) with (d t).
  assert (HINF : (INF / 2 < INF)%Q) by reflexivity.
  destruct (Qgeb (d t) (INF / 2)) eqn:Ege.
  { right. exists (with_tables st d par us), []. split; [reflexivity|].
    split; [reflexivity|]. split; reflexivity. }
  unfold build_path.
  change (distv (with_tables st d par us) t) with (d t).
  change (parent (with_tables st d par us)) with par.
  rewrite Ege. apply Qgeb_lt in Ege.
  destruct (Hchain ltac:(lra)) as (l & Hwp & Hnd & Hrange & _ & _ & Hhd & Hlast).
  rewrite Hwp. cbn [bind].
  set (n0 := rev l) in *.
  change (len (mkPath n0 (d t))) with (Z.of_nat (length n0)).
  change (nodes (mkPath n0 (d t))) with n0.
  assert (Hne : n0 <> []).
  { intros E. apply (walk_parents_nonempty _ par t l ltac:(lia) Hwp).
    rewrite <- (rev_involutive l). fold n0. rewrite E. reflexivity. }
  destruct (yen_spur_loop hav st t Hwf Hw Hpos Ht n0 Hnd Hlast Hrange
              (with_tables st d par us) Hne (eq_refl : graph_eq st _))
    as [[Hloop Hover]|(st' & A & Hloop & Hg' & Hcost & Hdiff & Hgood & _)];
    rewrite Hloop; cbn [bind]; [left; split; [reflexivity|exact Hover]|].
  right.
  destruct (Z.eqb_spec (Z.of_nat (length A)) 0) as [EA|NA].
  - exists (set_skip st' (-1) (-1)), [mkPath n0 (d t)].
    split; [reflexivity|]. split; [exact Hg'|].
    split; [reflexivity|]. split; [reflexivity|].
    split; [exact Hnd|]. split; [exact Hhd|]. split; [exact Hlast|].
    left. reflexivity.
  - exists (set_skip st' (-1) (-1)),
      [mkPath n0 (d t); rd (mkPath [] 0) A (yen_besti A)].
    split; [reflexivity|]. split; [exact Hg'|].
    split; [reflexivity|]. split; [reflexivity|].
    split; [exact Hnd|]. split; [exact Hhd|]. split; [exact Hlast|].
    right. exists (rd (mkPath [] 0) A (yen_besti A)). split; [reflexivity|].
    assert (HA : A <> []) by (intros E; rewrite E in NA; simpl in NA; lia).
    destruct (yen_besti_spec A HA) as [Hb Hmin].
    split.
    + destruct (Hgood (yen_besti A) Hb) as [Hn|(q & Hq & Hle)]; [exact Hn|].
      specialize (Hmin q Hq). lra.
    + apply Hdiff. apply rd_in. exact Hb.
Qed.

End YenPaths.

(** *** What the shortest-path functions leave alone *)

Lemma same_graph_refl (st : state) : same_graph st st.
Proof. split; [reflexivity|split; reflexivity]. Qed.

Lemma same_graph_trans (st1 st2 st3 : state) :
  same_graph st1 st2 -> same_graph st2 st3 -> same_graph st1 st3.
Proof.
  intros (Hg & Hu & Hv) (Hg' & Hu' & Hv').
  split; [congruence|split; congruence].
Qed.

Lemma relax_edge_frame (sk : bool) (u e : Z) (st : state) :
  same_graph st (relax_edge sk u e st).
Proof.
  unfold relax_edge. cbv zeta.
  destruct (sk && is_skipped st u (to st e)); [apply same_graph_refl|].
  destruct (Qltb (distv st u + w st e) (distv st (to st e)));
    [|apply same_graph_refl].
  split; [reflexivity|split; reflexivity].
Qed.

Lemma relax_edges_frame (sk : bool) (fuel : nat) (u : Z) :
  forall (e : Z) (st st' : state),
    relax_edges sk fuel u e st = Ret st' -> same_graph st st'.
Proof.
  induction fuel as [|fuel IH]; intros e st st' H; cbn [relax_edges] in H;
    destruct (e =? -1); try discriminate;
    try (inversion H; subst st'; apply same_graph_refl).
  apply (same_graph_trans st (relax_edge sk u e st) st');
    [apply relax_edge_frame|exact (IH _ _ _ H)].
Qed.

Lemma dijkstra_init_frame (st : state) (s : Z) :
  same_graph st (dijkstra_init st s).
Proof.
  unfold dijkstra_init. cbv zeta.
  match goal with |- context [for_loop ?n ?f ?a] =>
    assert (G : same_graph st (for_loop n f a)) end.
  { destruct (Z_le_gt_dec 0 (V st)) as [H0|H0].
    - apply (for_loop_ind (fun _ acc => same_graph st acc)); [assumption| |].
      + apply same_graph_refl.
      + intros i acc _ Hacc. apply (same_graph_trans st acc); [assumption|].
        split; [reflexivity|split; reflexivity].
    - rewrite for_loop_nonpos by lia. apply same_graph_refl. }
  eapply same_graph_trans; [exact G|].
  split; [reflexivity|split; reflexivity].
Qed.

Lemma dijkstra_loop_frame (sk : bool) (t : Z) (fuel : nat) :
  forall st st', dijkstra_loop sk fuel t st = Ret st' -> same_graph st st'.
Proof.
  induction fuel as [|fuel IH]; intros st st' H; cbn [dijkstra_loop] in H;
    [discriminate|].
  cbv zeta in H.
  destruct (minQ st =? -1); [inversion H; subst st'; apply same_graph_refl|].
  set (st1 := set_used st (upd (used st) (minQ st) 1)) in H.
  assert (H1 : same_graph st st1) by (split; [reflexivity|split; reflexivity]).
  destruct (minQ st =? t); [inversion H; subst st'; exact H1|].
  destruct (relax_edges sk (Z.to_nat (E st1)) (minQ st) (head st1 (minQ st)) st1)
    as [st2| | |] eqn:Hr; cbn [bind] in H; try discriminate.
  apply (same_graph_trans st st1 st'); [exact H1|].
  apply (same_graph_trans st1 st2 st'); [|exact (IH _ _ H)].
  exact (relax_edges_frame _ _ _ _ _ _ Hr).
Qed.

(** Whenever [dijkstra_skip_edge] returns, on any arrays at all, the graph
    and the excluded edge are as they were. *)
Lemma dijkstra_skip_edge_frame (st : state) (s t : Z) (st' : state) (c : Q) :
  dijkstra_skip_edge st s t = Ret (st', c) -> same_graph st st'.
Proof.
  unfold dijkstra_skip_edge. intros H.
  destruct (dijkstra_loop true (S (Z.to_nat (V st))) t (dijkstra_init st s))
    as [st2| | |] eqn:Hl; cbn [bind] in H; try discriminate.
  inversion H; subst st' c.
  apply (same_graph_trans st (dijkstra_init st s) st2);
    [apply dijkstra_init_frame|exact (dijkstra_loop_frame _ _ _ _ _ Hl)].
Qed.

(** *** The weights that [build_knn_fixed] stores *)

Section KnnWeights.

Variable hav : Z -> Z -> Q.
Hypothesis hav_sym : forall a b, (hav a b == hav b a)%Q.

Definition winv (Vn : Z) (st : state) : Prop :=
  wf_graph st /\ V st = Vn /\ weights_ok hav st.

Lemma winv_add (Vn : Z) (st st' : state) (u v : Z) :
  winv Vn st -> 0 <= u < Vn ->
  (if negb (v =? u) then add_edge st u v (hav u v) else Ret st) = Ret st' ->
  winv Vn st'.
Proof.
  intros Hinv Hu Hstep.
  destruct (Z.eqb_spec v u) as [E|NE]; simpl in Hstep.
  { inversion Hstep; subst st'. exact Hinv. }
  destruct (add_edge_cases st u v (hav u v) st' Hstep)
    as [[-> _]|(Hur & Hvr & Huv & ->)]; [exact Hinv|].
  destruct Hinv as (Hwf & HV & Hwt).
  split; [apply add_edge_result_wf; assumption|]. split; [exact HV|].
  intros a b ww Ha Hin.
  change (V (add_edge_result st u v (hav u v))) with (V st) in Ha.
  cbn [add_edge_result V] in Ha.
  rewrite add_edge_result_out_edges in Hin by (try assumption; lia).
  apply in_app_or in Hin. destruct Hin as [Hin|Hin].
  { destruct (Z.eqb_spec a u) as [->|]; [|contradiction].
    destruct Hin as [Hin|[]]. inversion Hin; subst. reflexivity. }
  apply in_app_or in Hin. destruct Hin as [Hin|Hin].
  { destruct (Z.eqb_spec a v) as [->|]; [|contradiction].
    destruct Hin as [Hin|[]]. inversion Hin; subst. apply hav_sym. }
  apply (Hwt a b ww Ha Hin).
Qed.

Lemma build_knn_fixed_weights (st : state) (k : Z) (st' : state) :
  0 <= V st <= MAXV ->
  build_knn_fixed hav st k = Ret st' ->
  wf_graph st' /\ V st' = V st /\ weights_ok hav st'.
Proof.
  intros HV Hb. unfold build_knn_fixed in Hb.
  change (V (reset_graph st)) with (V st) in Hb. cbv zeta in Hb.
  revert st' Hb.
  apply (for_loopM_inv (fun _ s => winv (V st) s)).
  - lia.
  - split; [apply reset_graph_wf; assumption|]. split; [reflexivity|].
    intros a b ww Ha Hin. change (V (reset_graph st)) with (V st) in Ha.
    rewrite reset_graph_out_edges in Hin by lia. destruct Hin.
  - intros u acc acc' Hu Hacc Hrow.
    match type of Hrow with for_loopM ?n _ _ = _ =>
      destruct (Z_le_gt_dec 0 n) as [H0|H0] end.
    + revert acc' Hrow.
      apply (for_loopM_inv (fun _ s => winv (V st) s)); [assumption|assumption|].
      intros i a a' Hi Ha Hbody. cbv zeta in Hbody.
      exact (winv_add (V st) a a' u _ Ha Hu Hbody).
    + rewrite for_loopM_nonpos in Hrow by lia.
      inversion Hrow; subst acc'. exact Hacc.
Qed.

End KnnWeights.

(** *** The pieces of a candidate *)

(** [p] is the path [n0] up to one of its nodes but the last, followed by
    a path without a repeated node from that node to [t]. *)
Definition spliced (n0 : list Z) (t : Z) (p : list Z) : Prop :=
  exists i spur,
    0 <= i /\ i + 1 < Z.of_nat (length n0) /\
    p = firstn (Z.to_nat (i + 1)) n0 ++ tl spur /\
    NoDup spur /\ hd 0 spur = rd 0 n0 i /\ last spur 0 = t.

Section YenShape.

Variable hav : Z -> Z -> Q.
Variable st0 : state.
Variable t : Z.

Hypothesis Hwf : wf_graph st0.
Hypothesis Hw : weights_ok hav st0.
Hypothesis Hpos : hav_nonneg hav.
Hypothesis Ht : 0 <= t < V st0.

Variable n0 : list Z.
Hypothesis n0_range : forall z, In z n0 -> 0 <= z < V st0.

Lemma yen_spur_shape (i : Z) (st : state) (A : list Path)
    (st' : state) (A' : list Path) :
  0 <= i -> i + 1 < Z.of_nat (length n0) ->
  graph_eq st0 st -> (forall c, In c A -> spliced n0 t (nodes c)) ->
  yen_spur hav t n0 i (st, A) = Ret (st', A') ->
  graph_eq st0 st' /\ forall c, In c A' -> spliced n0 t (nodes c).
Proof.
  intros Hi Hlen Hg HA Hrun.
  assert (Hx : 0 <= rd 0 n0 i < V st0) by (apply n0_range; apply rd_in; lia).
  assert (Hg1 : graph_eq st0 (set_skip st (rd 0 n0 i) (rd 0 n0 (i + 1)))) by exact Hg.
  destruct (dijkstra_fn_run hav st0 t Hwf Hw Hpos Ht true _ _ Hg1 Hx)
    as (d & par & us & Hloop & _ & Hchain).
  unfold yen_spur, dijkstra_skip_edge in Hrun.
  rewrite Hloop in Hrun. cbn [bind] in Hrun.
  match type of Hrun with context [with_tables ?a d par us] =>
    change (distv (with_tables a d par us) t) with (d t) in Hrun;
    change (parent (with_tables a d par us)) with par in Hrun end.
  assert (HINF : (INF / 2 < INF)%Q) by reflexivity.
  destruct (Qgeb (d t) (INF / 2)) eqn:Ege.
  { inversion Hrun; subst st' A'. split; [exact Hg1|exact HA]. }
  apply Qgeb_lt in Ege.
  destruct (Hchain ltac:(lra)) as (l & Hwp & Hnd & _ & _ & _ & Hhd & Hlast).
  rewrite Hwp in Hrun. cbn [bind] in Hrun.
  assert (Hne : rev l <> []).
  { intros E. apply (walk_parents_nonempty _ par t l ltac:(lia) Hwp).
    rewrite <- (rev_involutive l), E. reflexivity. }
  destruct (cand_prefix_spec hav n0 i ltac:(lia)) as [Hpn _].
  destruct (cand_spur_spec hav (rev l) (cand_prefix hav n0 i (mkPath [] 0)) Hne)
    as [Hcn _].
  rewrite Hpn in Hcn.
  revert Hrun Hcn.
  generalize (cand_spur hav (rev l) (cand_prefix hav n0 i (mkPath [] 0))).
  intros cand Hrun Hcn.
  destruct (MAXV <? len cand); [discriminate|].
  assert (Hcand : spliced n0 t (nodes cand)).
  { exists i, (rev l). split; [exact Hi|]. split; [exact Hlen|].
    split; [exact Hcn|]. split; [exact Hnd|]. split; assumption. }
  destruct (negb (existsb (fun p => equal_paths p cand) A)
            && (Z.of_nat (length A) <? 64)); inversion Hrun; subst st' A'.
  - split; [exact Hg1|]. intros c Hc. apply in_app_or in Hc.
    destruct Hc as [Hc|[<-|[]]]; [apply HA; exact Hc|exact Hcand].
  - split; [exact Hg1|exact HA].
Qed.

End YenShape.

(** [yen_k2_paths] returns at most two paths.  The first has no repeated
    node and runs from [s] to [t]; the second is the first up to a spur
    node, followed by a path without a repeated node from that node to
    [t]. *)
Lemma yen_k2_paths_pieces (hav : Z -> Z -> Q) (st : state) (s t : Z) :
  wf_graph st -> weights_ok hav st -> hav_nonneg hav ->
  0 <= s < V st -> 0 <= t < V st ->
  (yen_k2_paths hav st s t = OutOfBounds /\ MAXV + 2 < 2 * V st) \/
  exists st' out,
    yen_k2_paths hav st s t = Ret (st', out) /\
    (length out <= 2)%nat /\
    match out with
    | [] => True
    | p0 :: rest =>
        NoDup (nodes p0) /\ hd 0 (nodes p0) = s /\ last (nodes p0) 0 = t /\
        forall p1, In p1 rest -> spliced (nodes p0) t (nodes p1)
    end.
Proof.
  intros Hwf Hw Hpos Hs Ht.
  assert (Hg0 : graph_eq st st) by reflexivity.
  destruct (dijkstra_fn_run hav st t Hwf Hw Hpos Ht false st s Hg0 Hs)
    as (d & par & us & Hrun & _ & Hchain).
  unfold yen_k2_paths, ecodijkstra. rewrite Hrun. cbn [bind].
  change (distv (with_tables st d par us) t) with (d t).
  assert (HINF : (INF / 2 < INF)%Q) by reflexivity.
  destruct (Qgeb (d t) (INF / 2)) eqn:Ege.
  { right. exists (with_tables st d par us), []. split; [reflexivity|].
    split; [simpl; lia|exact I]. }
  unfold build_path.
  change (distv (with_tables st d par us) t) with (d t).
  change (parent (with_tables st d par us)) with par.
  rewrite Ege. apply Qgeb_lt in Ege.
  destruct (Hchain ltac:(lra)) as (l & Hwp & Hnd & Hrange & _ & _ & Hhd & Hlast).
  rewrite Hwp. cbn [bind].
  set (n0 := rev l) in *.
  change (len (mkPath n0 (d t))) with (Z.of_nat (length n0)).
  change (nodes (mkPath n0 (d t))) with n0.
  assert (Hne : n0 <> []).
  { intros E. apply (walk_parents_nonempty _ par t l ltac:(lia) Hwp).
    rewrite <- (rev_involutive l). fold n0. rewrite E. reflexivity. }
  assert (Hlen : 1 <= Z.of_nat (length n0))
    by (destruct n0; [contradiction|simpl; lia]).
  destruct (yen_spur_loop hav st t Hwf Hw Hpos Ht n0 Hnd Hlast Hrange
              (with_tables st d par us) Hne (eq_refl : graph_eq st _))
    as [[Hloop Hover]|(st' & A & Hloop & _)].
  { left. rewrite Hloop. split; [reflexivity|exact Hover]. }
  assert (HA : forall c, In c A -> spliced n0 t (nodes c)).
  { assert (G : graph_eq st (fst (st', A)) /\
                forall c, In c (snd (st', A)) -> spliced n0 t (nodes c)).
    { revert Hloop.
      apply (for_loopM_inv (fun (_ : Z) (sA : state * list Path) =>
               graph_eq st (fst sA) /\
               forall c, In c (snd sA) -> spliced n0 t (nodes c))).
      - lia.
      - split; [reflexivity|intros c []].
      - intros i [sti Ai] [sti' Ai'] Hi [Hgi HAi] Hbody.
        exact (yen_spur_shape hav st t Hwf Hw Hpos Ht n0 Hrange
                 i sti Ai sti' Ai' ltac:(lia) ltac:(lia) Hgi HAi Hbody). }
    exact (proj2 G). }
  rewrite Hloop. cbn [bind]. right.
  destruct (Z.eqb_spec (Z.of_nat (length A)) 0) as [EA|NA].
  - exists (set_skip st' (-1) (-1)), [mkPath n0 (d t)].
    split; [reflexivity|]. split; [simpl; lia|]. cbn [nodes].
    split; [exact Hnd|]. split; [exact Hhd|]. split; [exact Hlast|].
    intros p1 [].
  - assert (HAne : A <> []) by (intros E; rewrite E in NA; simpl in NA; lia).
    destruct (yen_besti_spec A HAne) as [Hb _].
    pose proof (rd_in (mkPath [] 0) A (yen_besti A) Hb) as Hin.
    exists (set_skip st' (-1) (-1)),
      [mkPath n0 (d t); rd (mkPath [] 0) A (yen_besti A)].
    split; [reflexivity|]. split; [simpl; lia|]. cbn [nodes].
    split; [exact Hnd|]. split; [exact Hhd|]. split; [exact Hlast|].
    intros p1 [<-|[]]. apply HA. exact Hin.
Qed.

(** *** Three places on a line *)

Lemma line_hav_nonneg : hav_nonneg line_hav.
Proof. intros a b. unfold line_hav, Qle. simpl. lia. Qed.

Lemma line_hav_sym (a b : Z) : (line_hav a b == line_hav b a)%Q.
Proof.
  unfold line_hav, Qeq. simpl.
  replace (Z.abs (b - a)) with (Z.abs (a - b)) by lia. reflexivity.
Qed.

Lemma three_places_graph :
  wf_graph three_places /\ V three_places = 3 /\
  weights_ok line_hav three_places.
Proof.
  apply (build_knn_fixed_weights line_hav line_hav_sym (loaded_state 3) 2).
  - vm_compute. split; discriminate.
  - exact three_places_built.
Qed.

(** Between the first and the last of the three places [yen_k2_paths]
    finds the direct edge and the way over the middle place. *)
Example three_places_routes :
  match yen_k2_paths line_hav three_places 0 2 with
  | Ret (_, out) => map nodes out = [[0; 2]; [0; 1; 2]]
  | _ => False
  end.
Proof. vm_compute. reflexivity. Qed.

Lemma V_set_skip (st : state) (x y : Z) : V (set_skip st x y) = V st.
Proof. reflexivity. Qed.

Lemma wf_graph_set_skip (st : state) (x y : Z) :
  wf_graph st -> wf_graph (set_skip st x y).
Proof. intros H. exact H. Qed.

Lemma weights_ok_set_skip (hav : Z -> Z -> Q) (st : state) (x y : Z) :
  weights_ok hav st -> weights_ok hav (set_skip st x y).
Proof. intros H. exact H. Qed.

(** *** The claims about [yen_k2_paths] and [dijkstra_skip_edge] *)







(** C2.  On such a graph, when [yen_k2_paths] returns two paths their node
    sequences are not the same: [equal_paths] says no, so they differ in
    length or at some position.  The call returns unless the graph has
    more than [MAXV / 2 + 1] nodes and a candidate is too long for its
    array. *)
Theorem yen_paths_differ :
  forall (hav : Z -> Z -> Q) (st : state) (s t : Z),
    wf_graph st -> weights_ok hav st -> hav_nonneg hav ->
    0 <= s < V st -> 0 <= t < V st ->
    (yen_k2_paths hav st s t = OutOfBounds /\ MAXV + 2 < 2 * V st) \/
    exists st' out,
      yen_k2_paths hav st s t = Ret (st', out) /\
      forall p0 p1, out = [p0; p1] ->
        nodes p0 <> nodes p1 /\ equal_paths p0 p1 = false.
Proof.
  intros hav st s t Hwf Hw Hpos Hs Ht.
  destruct (yen_k2_paths_run hav st s t Hwf Hw Hpos Hs Ht)
    as [Hover|(st' & out & Hrun & _ & Hout)]; [left; exact Hover|].
  right. exists st', out. split; [exact Hrun|].
  intros p0 p1 E. subst out.
  destruct Hout as (_ & _ & _ & _ & _ & [Hr|(p & Hr & _ & Hne)]);
    [discriminate|].
  inversion Hr; subst p.
  assert (Hd : nodes p0 <> nodes p1) by (intros E; apply Hne; now symmetry).
  split; [exact Hd|].
  destruct (equal_paths p0 p1) eqn:Eq; [|reflexivity].
  apply equal_paths_spec in Eq. contradiction.
Qed.

Lemma yen_paths_differ_witness :
  exists st' out,
    yen_k2_paths line_hav three_places 0 2 = Ret (st', out) /\
    forall p0 p1, out = [p0; p1] ->
      nodes p0 <> nodes p1 /\ equal_paths p0 p1 = false.
Proof.
  destruct three_places_graph as (Hwf & HV & Hw).
  destruct (yen_paths_differ line_hav three_places 0 2 Hwf Hw line_hav_nonneg)
    as [[_ Hover]|H]; try (rewrite HV; lia); [|exact H].
  exfalso. rewrite HV in Hover. unfold MAXV in Hover. lia.
Defined.

(** C8.  Whenever [dijkstra_skip_edge] returns, the node count, the edge
    count [E] and the arrays [head], [to], [nxt] and [w] are as before the
    call, and so is the excluded edge, whatever it is.  On a graph as
    [add_edge] builds it the call does return, and so does [yen_k2_paths]
    (unless the graph has more than [MAXV / 2 + 1] nodes and a candidate
    is too long for its array), with the same graph; the excluded edge is
    cleared after [yen_k2_paths] when it returns a path, or when no edge
    was excluded at the call. *)
Theorem skip_edge_frame :
  forall (hav : Z -> Z -> Q) (st : state) (s t : Z),
    (forall st' c, dijkstra_skip_edge st s t = Ret (st', c) ->
       graph_of st' = graph_of st /\
       skip_u st' = skip_u st /\ skip_v st' = skip_v st) /\
    (wf_graph st -> weights_ok hav st -> hav_nonneg hav ->
     0 <= s < V st -> 0 <= t < V st ->
     (exists st' c, dijkstra_skip_edge st s t = Ret (st', c)) /\
     ((yen_k2_paths hav st s t = OutOfBounds /\ MAXV + 2 < 2 * V st) \/
      exists st' out,
        yen_k2_paths hav st s t = Ret (st', out) /\
        graph_of st' = graph_of st /\
        (out <> [] \/ (skip_u st = -1 /\ skip_v st = -1) ->
         skip_u st' = -1 /\ skip_v st' = -1))).
Proof.
  intros hav st s t. split.
  - intros st' c H. exact (dijkstra_skip_edge_frame st s t st' c H).
  - intros Hwf Hw Hpos Hs Ht. split.
    + destruct (dijkstra_skip_edge_run hav st s t Hwf Hw Hpos Hs Ht)
        as (d & par & us & Hrun).
      exists (with_tables st d par us), (d t). exact Hrun.
    + destruct (yen_k2_paths_run hav st s t Hwf Hw Hpos Hs Ht)
        as [Hover|(st' & out & Hrun & Hg & Hout)]; [left; exact Hover|].
      right. exists st', out. split; [exact Hrun|]. split; [exact Hg|].
      destruct out as [|p0 rest].
      * intros [Hne|[Hu Hv]]; [contradiction|].
        destruct Hout as [Hu' Hv']. split; congruence.
      * intros _. destruct Hout as (Hu & Hv & _). split; assumption.
Qed.

Lemma skip_edge_frame_witness :
  (exists st' c,
     dijkstra_skip_edge (set_skip three_places 0 1) 0 2 = Ret (st', c)) /\
  (exists st' out,
     yen_k2_paths line_hav (set_skip three_places 0 1) 0 2 = Ret (st', out) /\
     graph_of st' = graph_of (set_skip three_places 0 1) /\
     (out <> [] \/
      (skip_u (set_skip three_places 0 1) = -1 /\
       skip_v (set_skip three_places 0 1) = -1) ->
      skip_u st' = -1 /\ skip_v st' = -1)).
Proof.
  destruct three_places_graph as (Hwf & HV & Hw).
  destruct (skip_edge_frame line_hav (set_skip three_places 0 1) 0 2)
    as [_ Hrun].
  destruct Hrun as [Hd [[_ Hover]|Hy]];
    [exact (wf_graph_set_skip three_places 0 1 Hwf)
    |exact (weights_ok_set_skip line_hav three_places 0 1 Hw)
    |exact line_hav_nonneg
    |rewrite V_set_skip, HV; lia
    |rewrite V_set_skip, HV; lia
    | |].
  - exfalso. rewrite V_set_skip, HV in Hover. unfold MAXV in Hover. lia.
  - split; [exact Hd|exact Hy].
Defined.

(** * Further properties of the code *)

(** ** adb[1].h: the graph builder *)

(** On a well-formed graph with room for two more records, [add_edge]
    between two different nodes puts one record at the front of the list
    of each endpoint, both with the weight given, and grows [E] by two;
    every other list is as it was. *)
Theorem add_edge_links_both :
  forall (st : state) (u v : Z) (ww : Q),
    wf_graph st -> 0 <= u < V st -> 0 <= v < V st -> u <> v ->
    E st + 2 < MAXE ->
    exists st',
      add_edge st u v ww = Ret st' /\
      wf_graph st' /\ V st' = V st /\ E st' = E st + 2 /\
      out_edges st' u = (v, ww) :: out_edges st u /\
      out_edges st' v = (u, ww) :: out_edges st v /\
      forall x, 0 <= x < V st -> x <> u -> x <> v ->
        out_edges st' x = out_edges st x.
Proof.
  intros st u v ww Hwf Hu Hv Huv Hroom.
  exists (add_edge_result st u v ww). split.
  { rewrite add_edge_unfold.
    destruct (Z.ltb_spec u 0); [lia|]. destruct (Z.geb_spec u (V st)); [lia|].
    destruct (Z.ltb_spec v 0); [lia|]. destruct (Z.geb_spec v (V st)); [lia|].
    destruct (Z.eqb_spec u v); [lia|]. cbn [orb].
    destruct (Z.geb_spec (E st + 2) MAXE); [lia|reflexivity]. }
  split; [apply add_edge_result_wf; assumption|].
  split; [reflexivity|]. split; [cbn [add_edge_result E]; lia|].
  split; [|split].
  - rewrite add_edge_result_out_edges by assumption.
    rewrite Z.eqb_refl. destruct (Z.eqb_spec u v); [lia|]. reflexivity.
  - rewrite add_edge_result_out_edges by assumption.
    rewrite Z.eqb_refl. destruct (Z.eqb_spec v u); [lia|]. reflexivity.
  - intros x Hx Hxu Hxv. rewrite add_edge_result_out_edges by assumption.
    destruct (Z.eqb_spec x u); [lia|]. destruct (Z.eqb_spec x v); [lia|].
    reflexivity.
Qed.

Lemma add_edge_links_both_witness :
  exists st',
    add_edge three_places 0 2 5 = Ret st' /\
    wf_graph st' /\ V st' = V three_places /\ E st' = E three_places + 2 /\
    out_edges st' 0 = (2, 5%Q) :: out_edges three_places 0 /\
    out_edges st' 2 = (0, 5%Q) :: out_edges three_places 2 /\
    forall x, 0 <= x < V three_places -> x <> 0 -> x <> 2 ->
      out_edges st' x = out_edges three_places x.
Proof.
  destruct three_places_graph as (Hwf & HV & _).
  apply (add_edge_links_both three_places 0 2 5 Hwf);
    try (rewrite HV; lia); [lia|].
  vm_compute. reflexivity.
Defined.

(** *** Records come in pairs *)

Section KnnPairs.

Variable hav : Z -> Z -> Q.

(** Every record has its twin: the same weight on the list of the other
    endpoint. *)
Definition paired (st : state) : Prop :=
  forall u v ww, 0 <= u < V st -> In (v, ww) (out_edges st u) ->
    In (u, ww) (out_edges st v).

Definition pinv (Vn : Z) (st : state) : Prop :=
  wf_graph st /\ V st = Vn /\ paired st.

Lemma pinv_add (Vn : Z) (st st' : state) (u v : Z) (ww : Q) :
  pinv Vn st -> 0 <= u < Vn ->
  (if negb (v =? u) then add_edge st u v ww else Ret st) = Ret st' ->
  pinv Vn st'.
Proof.
  intros Hinv Hu Hstep.
  destruct (Z.eqb_spec v u) as [E|NE]; simpl in Hstep.
  { inversion Hstep; subst st'. exact Hinv. }
  destruct (add_edge_cases st u v ww st' Hstep)
    as [[-> _]|(Hur & Hvr & Huv & ->)]; [exact Hinv|].
  destruct Hinv as (Hwf & HV & Hp).
  split; [apply add_edge_result_wf; assumption|]. split; [exact HV|].
  intros a b w0 Ha Hin. cbn [add_edge_result V] in Ha.
  assert (Hb : 0 <= b < V st).
  { apply (out_edges_range (add_edge_result st u v ww) a b w0);
      [apply add_edge_result_wf; assumption|exact Ha|exact Hin]. }
  rewrite add_edge_result_out_edges in Hin by assumption.
  rewrite add_edge_result_out_edges by assumption.
  apply in_app_or in Hin. destruct Hin as [Hin|Hin].
  { destruct (Z.eqb_spec a u) as [->|]; [|contradiction].
    destruct Hin as [Hin|[]]. inversion Hin; subst b w0.
    apply in_or_app. right. apply in_or_app. left.
    rewrite Z.eqb_refl. now left. }
  apply in_app_or in Hin. destruct Hin as [Hin|Hin].
  { destruct (Z.eqb_spec a v) as [->|]; [|contradiction].
    destruct Hin as [Hin|[]]. inversion Hin; subst b w0.
    apply in_or_app. left. rewrite Z.eqb_refl. now left. }
  apply in_or_app. right. apply in_or_app. right. exact (Hp a b w0 Ha Hin).
Qed.

Lemma build_knn_fixed_paired (st : state) (k : Z) (st' : state) :
  0 <= V st <= MAXV ->
  build_knn_fixed hav st k = Ret st' -> pinv (V st) st'.
Proof.
  intros HV Hb. unfold build_knn_fixed in Hb.
  change (V (reset_graph st)) with (V st) in Hb. cbv zeta in Hb.
  revert st' Hb.
  apply (for_loopM_inv (fun _ s => pinv (V st) s)).
  - lia.
  - split; [apply reset_graph_wf; assumption|]. split; [reflexivity|].
    intros a b ww Ha Hin. change (V (reset_graph st)) with (V st) in Ha.
    rewrite reset_graph_out_edges in Hin by lia. destruct Hin.
  - intros u acc acc' Hu Hacc Hrow.
    match type of Hrow with for_loopM ?n _ _ = _ =>
      destruct (Z_le_gt_dec 0 n) as [H0|H0] end.
    + revert acc' Hrow.
      apply (for_loopM_inv (fun _ s => pinv (V st) s)); [assumption|assumption|].
      intros i a a' Hi Ha Hbody. cbv zeta in Hbody.
      exact (pinv_add (V st) a a' u _ _ Ha Hu Hbody).
    + rewrite for_loopM_nonpos in Hrow by lia.
      inversion Hrow; subst acc'. exact Hacc.
Qed.

End KnnPairs.

(** The graph that [build_knn_fixed] returns, for a distance that is the
    same in both directions: the arrays are well formed, the node count is
    kept, every record leads to a node, carries the distance between its
    two endpoints, and has a twin with the same weight on the list of the
    other endpoint. *)
Theorem knn_graph_undirected :
  forall (hav : Z -> Z -> Q) (st : state) (k : Z) (st' : state),
    (forall a b, (hav a b == hav b a)%Q) ->
    0 <= V st <= MAXV ->
    build_knn_fixed hav st k = Ret st' ->
    wf_graph st' /\ V st' = V st /\
    forall u v ww, 0 <= u < V st -> In (v, ww) (out_edges st' u) ->
      0 <= v < V st /\ (ww == hav u v)%Q /\ In (u, ww) (out_edges st' v).
Proof.
  intros hav st k st' Hsym HV Hb.
  destruct (build_knn_fixed_weights hav Hsym st k st' HV Hb) as (Hwf & HV' & Hw).
  destruct (build_knn_fixed_paired hav st k st' HV Hb) as (_ & _ & Hp).
  split; [exact Hwf|]. split; [exact HV'|].
  intros u v ww Hu Hin. rewrite <- HV' in Hu.
  split; [rewrite <- HV'; exact (out_edges_range st' u v ww Hwf Hu Hin)|].
  split; [exact (Hw u v ww Hu Hin)|exact (Hp u v ww Hu Hin)].
Qed.

Lemma knn_graph_undirected_witness :
  wf_graph three_places /\ V three_places = V (loaded_state 3) /\
  forall u v ww, 0 <= u < V (loaded_state 3) ->
    In (v, ww) (out_edges three_places u) ->
    0 <= v < V (loaded_state 3) /\ (ww == line_hav u v)%Q /\
    In (u, ww) (out_edges three_places v).
Proof.
  apply (knn_graph_undirected line_hav (loaded_state 3) 2 three_places
           line_hav_sym).
  - vm_compute. split; discriminate.
  - exact three_places_built.
Defined.

(** *** Room for the records *)

Lemma add_edge_total (st : state) (u v : Z) (ww : Q) :
  E st + 2 < MAXE ->
  exists st', add_edge st u v ww = Ret st' /\
              V st' = V st /\ E st <= E st' <= E st + 2.
Proof.
  intros Hroom. rewrite add_edge_unfold.
  destruct ((u <? 0) || (u >=? V st) || (v <? 0) || (v >=? V st) || (u =? v)).
  - exists st. split; [reflexivity|]. split; [reflexivity|lia].
  - destruct (Z.geb_spec (E st + 2) MAXE); [lia|].
    exists (add_edge_result st u v ww). split; [reflexivity|].
    split; [reflexivity|]. cbn [add_edge_result E]. lia.
Qed.

Lemma build_knn_fixed_run :
  forall (hav : Z -> Z -> Q) (st : state) (k : Z),
    let kk := Z.max 0 (Z.min (Z.max k 1) (V st - 1)) in
    2 * V st * kk < MAXE ->
    exists st',
      build_knn_fixed hav st k = Ret st' /\
      V st' = V st /\ 0 <= E st' <= 2 * V st * kk.
Proof.
  intros hav st k kk Hroom. unfold build_knn_fixed.
  change (V (reset_graph st)) with (V st). cbv zeta.
  destruct (Z_le_gt_dec (V st) 0) as [HV0|HV1].
  { rewrite for_loopM_nonpos by lia. exists (reset_graph st).
    split; [reflexivity|]. split; [reflexivity|].
    change (E (reset_graph st)) with 0. unfold kk. nia. }
  set (k1 := if k <? 1 then 1 else k).
  set (k2 := if V st - 1 <? k1 then V st - 1 else k1).
  assert (Hk2 : k2 = kk).
  { unfold k2, k1, kk. destruct (Z.ltb_spec k 1);
      destruct (Z.ltb_spec (V st - 1) 1); destruct (Z.ltb_spec (V st - 1) k); lia. }
  assert (Hkk : 0 <= kk < V st) by (unfold kk; lia).
  destruct (for_loopM_ind
    (fun u acc => V acc = V st /\ 0 <= E acc <= 2 * u * kk) (V st)
    (fun u st0 =>
       for_loopM (if k2 <? V st0 then k2 else V st0)
         (fun i st1 =>
            if negb (knn_row hav (V st0) k2 u i =? u)
            then add_edge st1 u (knn_row hav (V st0) k2 u i)
                          (hav u (knn_row hav (V st0) k2 u i))
            else Ret st1) st0)
    (reset_graph st)) as (st' & Hrun & HV' & HE').
  - lia.
  - split; [reflexivity|]. change (E (reset_graph st)) with 0. lia.
  - intros u acc Hu [HVa HEa]. rewrite HVa, Hk2.
    destruct (Z.ltb_spec kk (V st)); [|lia].
    destruct (for_loopM_ind
      (fun i a => V a = V st /\ 0 <= E a <= 2 * (u * kk + i)) kk
      (fun i st1 =>
         if negb (knn_row hav (V st) kk u i =? u)
         then add_edge st1 u (knn_row hav (V st) kk u i)
                       (hav u (knn_row hav (V st) kk u i))
         else Ret st1) acc) as (a' & Hrun & HVa' & HEa').
    + lia.
    + split; [exact HVa|lia].
    + intros i a Hi [HVi HEi].
      destruct (negb (knn_row hav (V st) kk u i =? u)).
      * destruct (add_edge_total a u (knn_row hav (V st) kk u i)
                    (hav u (knn_row hav (V st) kk u i)) ltac:(nia))
          as (a' & Hadd & HVa' & HEa').
        exists a'. split; [exact Hadd|]. split; [congruence|lia].
      * exists a. split; [reflexivity|]. split; [exact HVi|lia].
    + exists a'. split; [exact Hrun|]. split; [exact HVa'|nia].
  - exists st'. split; [exact Hrun|]. split; [exact HV'|lia].
Qed.

(** [build_knn_fixed] returns, and never calls [die], when twice the
    number of places times the number of neighbours asked for (at least 1,
    at most all the other places) stays below [MAXE]; the records it
    stores are at most that many. *)
Theorem build_knn_fixed_returns :
  forall (hav : Z -> Z -> Q) (st : state) (k : Z),
    let kk := Z.max 0 (Z.min (Z.max k 1) (V st - 1)) in
    2 * V st * kk < MAXE ->
    exists st',
      build_knn_fixed hav st k = Ret st' /\
      V st' = V st /\ 0 <= E st' <= 2 * V st * kk.
Proof. exact build_knn_fixed_run. Qed.

Lemma build_knn_fixed_returns_witness :
  exists st',
    build_knn_fixed line_hav (loaded_state 3) 8 = Ret st' /\
    V st' = V (loaded_state 3) /\
    0 <= E st' <=
      2 * V (loaded_state 3)
        * Z.max 0 (Z.min (Z.max 8 1) (V (loaded_state 3) - 1)).
Proof.
  apply (build_knn_fixed_returns line_hav (loaded_state 3) 8).
  vm_compute. reflexivity.
Defined.

(** *** The nearest places *)

Lemma knn_argmin_least (Vn : Z) (dists : Z -> Q) (i : Z) :
  0 <= i < Vn ->
  forall j, i <= j < Vn -> (dists (knn_argmin Vn dists i) <= dists j)%Q.
Proof.
  intros Hi. unfold knn_argmin.
  apply (fold_Zrange_from_ind
           (fun hi mi => forall j, i <= j < hi -> (dists mi <= dists j)%Q)).
  - lia.
  - intros j Hj. assert (j = i) by lia. subst j. apply Qle_refl.
  - intros k mi Hk IH j Hj.
    destruct (Qltb (dists k) (dists mi)) eqn:Elt.
    + apply Qltb_lt in Elt. destruct (Z.eq_dec j k) as [->|NE];
        [apply Qle_refl|]. specialize (IH j ltac:(lia)). lra.
    + apply Qltb_ge in Elt. destruct (Z.eq_dec j k) as [->|NE];
        [exact Elt|]. apply IH. lia.
Qed.

(** The tables of the selection after [i] steps: [idx] lists the nodes
    once each, [dists] holds the distance of the node in the same cell, and
    each of the first [i] cells is no farther than every cell after it. *)
Definition selected (Vn : Z) (dist0 : Z -> Q) (i : Z)
    (s : (Z -> Q) * (Z -> Z)) : Prop :=
  (forall j, 0 <= j < Vn -> 0 <= snd s j < Vn) /\
  one_to_one Vn (snd s) /\
  (forall j, 0 <= j < Vn -> fst s j = dist0 (snd s j)) /\
  (forall a b, 0 <= a < i -> a <= b < Vn -> (fst s a <= fst s b)%Q).

Lemma knn_select_step_selected (Vn : Z) (dist0 : Z -> Q) (i : Z)
    (s : (Z -> Q) * (Z -> Z)) :
  0 <= i < Vn -> selected Vn dist0 i s ->
  selected Vn dist0 (i + 1) (knn_select_step Vn i s).
Proof.
  intros Hi (Hr & Hinj & Hd & Hs).
  pose proof (knn_select_step_one_to_one Vn i s Hi Hinj) as Hinj'.
  destruct s as [dists idx]. unfold knn_select_step in *. cbn [fst snd] in *.
  pose proof (knn_argmin_range Vn dists i Hi) as Hmi.
  pose proof (knn_argmin_least Vn dists i Hi) as Hmin.
  revert Hmi Hmin Hinj'. generalize (knn_argmin Vn dists i). intros mi Hmi Hmin Hinj'.
  unfold selected. cbv zeta in *. cbn [fst snd] in *.
  split; [|split; [exact Hinj'|split]].
  - intros j Hj. unfold upd.
    destruct (Z.eqb_spec j mi); [apply Hr; lia|].
    destruct (Z.eqb_spec j i); [apply Hr; lia|apply Hr; lia].
  - intros j Hj. unfold upd.
    destruct (Z.eqb_spec j mi); [apply Hd; lia|].
    destruct (Z.eqb_spec j i); [apply Hd; lia|apply Hd; lia].
  - intros a b Ha Hb. unfold upd.
    destruct (Z.eqb_spec a mi) as [Eam|Nam]; destruct (Z.eqb_spec a i) as [Eai|Nai];
      destruct (Z.eqb_spec b mi) as [Ebm|Nbm]; destruct (Z.eqb_spec b i) as [Ebi|Nbi];
      subst; try lia; try apply Qle_refl;
      try (apply Hmin; lia); try (apply Hs; lia).
Qed.

Lemma knn_row_sorted :
  forall (hav : Z -> Z -> Q) (Vn k u : Z),
    let idx := knn_row hav Vn k u in
    let dist := fun v => if u =? v then INF else hav u v in
    (forall j, 0 <= j < Vn -> 0 <= idx j < Vn) /\
    (forall i j, 0 <= i < Vn -> 0 <= j < Vn -> idx i = idx j -> i = j) /\
    (forall a b, 0 <= a < Z.min k Vn -> a <= b < Vn ->
       (dist (idx a) <= dist (idx b))%Q).
Proof.
  intros hav Vn k u idx dist.
  assert (G : selected Vn dist (Z.max 0 (Z.min k Vn))
                (for_loop (Z.min k Vn) (knn_select_step Vn)
                   (dist, fun v : Z => v))).
  { assert (H0 : selected Vn dist 0 (dist, fun v : Z => v)).
    { split; [intros j Hj; exact Hj|]. split; [intros a b _ _ E; exact E|].
      split; [intros j _; reflexivity|intros a b Ha; lia]. }
    destruct (Z_le_gt_dec 0 (Z.min k Vn)) as [Hk|Hk].
    - rewrite Z.max_r by lia.
      apply (for_loop_ind (fun i s => selected Vn dist i s)); [assumption|exact H0|].
      intros i acc Hi Hacc. apply knn_select_step_selected; [lia|assumption].
    - rewrite for_loop_nonpos by lia. rewrite Z.max_l by lia. exact H0. }
  destruct G as (Hr & Hinj & Hd & Hs).
  split; [exact Hr|]. split; [exact Hinj|].
  intros a b Ha Hb.
  change idx with (snd (for_loop (Z.min k Vn) (knn_select_step Vn)
                          (dist, fun v : Z => v))).
  rewrite <- !Hd by lia. apply Hs; lia.
Qed.

(** The order in which [build_knn_fixed] places the nodes for the node
    [u]: every node once, and each of the first [k] no farther from [u]
    than every node after it, where [u] itself counts as infinitely far. *)
Theorem knn_row_nearest :
  forall (hav : Z -> Z -> Q) (Vn k u : Z),
    let idx := knn_row hav Vn k u in
    let dist := fun v => if u =? v then INF else hav u v in
    (forall j, 0 <= j < Vn -> 0 <= idx j < Vn) /\
    (forall i j, 0 <= i < Vn -> 0 <= j < Vn -> idx i = idx j -> i = j) /\
    (forall a b, 0 <= a < Z.min k Vn -> a <= b < Vn ->
       (dist (idx a) <= dist (idx b))%Q).
Proof. exact knn_row_sorted. Qed.

Lemma linked_add (Vn : Z) (st st' : state) (u v : Z) (ww : Q) :
  wf_graph st -> V st = Vn -> 0 <= u < Vn -> 0 <= v < Vn ->
  (if negb (v =? u) then add_edge st u v ww else Ret st) = Ret st' ->
  wf_graph st' /\ V st' = Vn /\
  (forall x y, 0 <= x < Vn -> In y (adjacency st x) -> In y (adjacency st' x)) /\
  (v <> u -> In v (adjacency st' u)).
Proof.
  intros Hwf HV Hu Hv Hstep.
  destruct (Z.eqb_spec v u) as [E|NE]; simpl in Hstep.
  { inversion Hstep; subst st'. split; [exact Hwf|]. split; [exact HV|].
    split; [intros x y _ H; exact H|intros H; contradiction]. }
  destruct (add_edge_cases st u v ww st' Hstep)
    as [[_ Hbad]|(Hur & Hvr & Huv & ->)]; [lia|].
  split; [apply add_edge_result_wf; assumption|]. split; [exact HV|].
  split.
  - intros x y Hx Hin. unfold adjacency.
    rewrite add_edge_result_out_edges by (try assumption; lia).
    rewrite !map_app. apply in_or_app. right. apply in_or_app. right. exact Hin.
  - intros _. unfold adjacency.
    rewrite add_edge_result_out_edges by (try assumption; lia).
    rewrite Z.eqb_refl. now left.
Qed.

(** After [build_knn_fixed] every node [u] is linked to each of the [k]
    nodes that the selection puts first for it ([k] at least 1 and at most
    the number of other nodes): the nodes nearest to [u]. *)
Theorem knn_graph_links_nearest :
  forall (hav : Z -> Z -> Q) (st : state) (k : Z) (st' : state),
    0 <= V st <= MAXV ->
    build_knn_fixed hav st k = Ret st' ->
    let kk := Z.min (Z.max k 1) (V st - 1) in
    forall u i, 0 <= u < V st -> 0 <= i < kk ->
      let v := knn_row hav (V st) kk u i in
      v <> u -> In v (adjacency st' u).
Proof.
  intros hav st k st' HV Hb kk. unfold build_knn_fixed in Hb.
  change (V (reset_graph st)) with (V st) in Hb. cbv zeta in Hb.
  assert (Hk2 : (if V st - 1 <? (if k <? 1 then 1 else k)
                 then V st - 1 else (if k <? 1 then 1 else k)) = kk).
  { unfold kk. destruct (Z.ltb_spec k 1);
      destruct (Z.ltb_spec (V st - 1) 1); destruct (Z.ltb_spec (V st - 1) k); lia. }
  rewrite Hk2 in Hb.
  assert (G : wf_graph st' /\ V st' = V st /\
              forall u i, 0 <= u < V st -> 0 <= i < kk ->
                knn_row hav (V st) kk u i <> u ->
                In (knn_row hav (V st) kk u i) (adjacency st' u)).
  { revert st' Hb.
    apply (for_loopM_inv (fun u' s =>
             wf_graph s /\ V s = V st /\
             forall u i, 0 <= u < u' -> 0 <= i < kk ->
               knn_row hav (V st) kk u i <> u ->
               In (knn_row hav (V st) kk u i) (adjacency s u))).
    - lia.
    - split; [apply reset_graph_wf; assumption|]. split; [reflexivity|].
      intros u i Hu. lia.
    - intros u acc acc' Hu (Hwf & HVa & Hold) Hrow. rewrite HVa in Hrow.
      destruct (Z.ltb_spec kk (V st)); [|unfold kk in *; lia].
      destruct (Z_le_gt_dec 0 kk) as [H0|H0].
      2:{ rewrite for_loopM_nonpos in Hrow by lia. inversion Hrow; subst acc'.
          split; [exact Hwf|]. split; [exact HVa|]. intros u0 i _ Hi. lia. }
      assert (G : wf_graph acc' /\ V acc' = V st /\
                  (forall u0 i, 0 <= u0 < u -> 0 <= i < kk ->
                     knn_row hav (V st) kk u0 i <> u0 ->
                     In (knn_row hav (V st) kk u0 i) (adjacency acc' u0)) /\
                  (forall i, 0 <= i < kk ->
                     knn_row hav (V st) kk u i <> u ->
                     In (knn_row hav (V st) kk u i) (adjacency acc' u))).
      { revert acc' Hrow.
        apply (for_loopM_inv (fun i' s =>
                 wf_graph s /\ V s = V st /\
                 (forall u0 i, 0 <= u0 < u -> 0 <= i < kk ->
                    knn_row hav (V st) kk u0 i <> u0 ->
                    In (knn_row hav (V st) kk u0 i) (adjacency s u0)) /\
                 (forall i, 0 <= i < i' ->
                    knn_row hav (V st) kk u i <> u ->
                    In (knn_row hav (V st) kk u i) (adjacency s u)))).
        - exact H0.
        - split; [exact Hwf|]. split; [exact HVa|]. split; [exact Hold|].
          intros i Hi. lia.
        - intros i a a' Hi (Hwa & HVi & Hprev & Hcur) Hbody. cbv zeta in Hbody.
          destruct (knn_row_sorted hav (V st) kk u) as (Hr & _ & _).
          destruct (linked_add (V st) a a' u (knn_row hav (V st) kk u i) _
                      Hwa HVi Hu (Hr i ltac:(lia)) Hbody)
            as (Hwa' & HVa' & Hmono & Hnew).
          split; [exact Hwa'|]. split; [exact HVa'|]. split.
          + intros u0 i0 Hu0 Hi0 Hne. apply Hmono; [lia|].
            apply Hprev; assumption.
          + intros i0 Hi0 Hne. destruct (Z.eq_dec i0 i) as [->|NE].
            * apply Hnew. exact Hne.
            * apply Hmono; [lia|]. apply Hcur; [lia|exact Hne]. }
      destruct G as (Hwf' & HV' & Hprev & Hcur).
      split; [exact Hwf'|]. split; [exact HV'|].
      intros u0 i Hu0 Hi Hne. destruct (Z.eq_dec u0 u) as [->|NE].
      + apply Hcur; assumption.
      + apply Hprev; [lia|assumption|assumption]. }
  destruct G as (_ & _ & G). intros u i Hu Hi v Hne. apply G; assumption.
Qed.

Lemma knn_graph_links_nearest_witness :
  In (knn_row line_hav 3 2 0 0) (adjacency three_places 0).
Proof.
  apply (knn_graph_links_nearest line_hav (loaded_state 3) 2 three_places
           ltac:(vm_compute; split; discriminate) three_places_built 0 0).
  - vm_compute. split; [discriminate|reflexivity].
  - vm_compute. split; [discriminate|reflexivity].
  - vm_compute. discriminate.
Defined.

(** ** adb[1].h: shortest paths *)

(** On the [V] nodes of the graph, [minQ] returns -1 when every unmarked
    node is at distance [INF] or more; otherwise it returns the unmarked
    node below [INF] whose distance is the least among the unmarked nodes,
    and among several at that distance the one with the lowest index. *)
Theorem minQ_least_unmarked :
  forall st : state,
    0 <= V st ->
    (minQ st = -1 /\
     forall i, 0 <= i < V st -> used st i = 0 -> (INF <= distv st i)%Q) \/
    (0 <= minQ st < V st /\ used st (minQ st) = 0 /\
     (distv st (minQ st) < INF)%Q /\
     (forall i, 0 <= i < V st -> used st i = 0 ->
        (distv st (minQ st) <= distv st i)%Q) /\
     (forall i, 0 <= i < minQ st -> used st i = 0 ->
        (distv st (minQ st) < distv st i)%Q)).
Proof.
  intros st HV. unfold minQ.
  set (body := fun (i : Z) '(best, bi) =>
     if (used st i =? 0) && Qltb (distv st i) best
     then (distv st i, i) else (best, bi)).
  set (P := fun (k : Z) (r : Q * Z) =>
      (snd r = -1 /\ fst r = INF /\
       forall i, 0 <= i < k -> used st i = 0 -> (INF <= distv st i)%Q) \/
      (0 <= snd r < k /\ used st (snd r) = 0 /\ fst r = distv st (snd r) /\
       (fst r < INF)%Q /\
       (forall i, 0 <= i < k -> used st i = 0 -> (fst r <= distv st i)%Q) /\
       (forall i, 0 <= i < snd r -> used st i = 0 -> (fst r < distv st i)%Q))).
  assert (G : P (V st) (for_loop (V st) body (INF, -1))).
  { apply (for_loop_ind P); [assumption| |].
    - left. repeat split. intros i Hi. lia.
    - intros k [best bi] Hk Hacc. unfold P, body in *.
      cbn [fst snd] in *.
      destruct (Z.eqb_spec (used st k) 0) as [Hu0|Hu1]; cbn [andb].
      + destruct (Qltb (distv st k) best) eqn:Elt.
        * apply Qltb_lt in Elt. right. cbn [fst snd].
          split; [lia|]. split; [assumption|]. split; [reflexivity|].
          destruct Hacc as [(_ & Hb & Hall)|(_ & _ & _ & Hfin & Hall & _)].
          -- subst best. split; [assumption|]. split.
             ++ intros i Hi Hi0. destruct (Z.eq_dec i k) as [->|]; [lra|].
                specialize (Hall i ltac:(lia) Hi0). lra.
             ++ intros i Hi Hi0. specialize (Hall i ltac:(lia) Hi0). lra.
          -- split; [lra|]. split.
             ++ intros i Hi Hi0. destruct (Z.eq_dec i k) as [->|]; [lra|].
                specialize (Hall i ltac:(lia) Hi0). lra.
             ++ intros i Hi Hi0. specialize (Hall i ltac:(lia) Hi0). lra.
        * apply Qltb_ge in Elt.
          destruct Hacc as [(Hbi & Hb & Hall)|(Hbi & Hu & Hb & Hfin & Hall & Hfirst)].
          -- left. cbn [fst snd]. split; [assumption|]. split; [assumption|].
             intros i Hi Hi0. destruct (Z.eq_dec i k) as [->|]; [subst best; lra|].
             apply Hall; [lia|assumption].
          -- right. cbn [fst snd]. split; [lia|]. split; [assumption|].
             split; [assumption|]. split; [assumption|]. split; [|assumption].
             intros i Hi Hi0. destruct (Z.eq_dec i k) as [->|]; [lra|].
             apply Hall; [lia|assumption].
      + destruct Hacc as [(Hbi & Hb & Hall)|(Hbi & Hu & Hb & Hfin & Hall & Hfirst)].
        * left. cbn [fst snd]. split; [assumption|]. split; [assumption|].
          intros i Hi Hi0. destruct (Z.eq_dec i k) as [->|]; [contradiction|].
          apply Hall; [lia|assumption].
        * right. cbn [fst snd]. split; [lia|]. split; [assumption|].
          split; [assumption|]. split; [assumption|]. split; [|assumption].
          intros i Hi Hi0. destruct (Z.eq_dec i k) as [->|]; [contradiction|].
          apply Hall; [lia|assumption]. }
  unfold P in G.
  destruct G as [(Hbi & Hb & Hall)|(Hbi & Hu & Hb & Hfin & Hall & Hfirst)].
  - left. split; assumption.
  - right. split; [assumption|]. split; [assumption|]. rewrite <- Hb.
    split; [assumption|]. split; assumption.
Qed.

Lemma minQ_least_unmarked_witness :
  0 <= minQ (dijkstra_init three_places 1) < V (dijkstra_init three_places 1).
Proof.
  destruct (minQ_least_unmarked (dijkstra_init three_places 1)
              ltac:(vm_compute; discriminate))
    as [[Hm _]|[Hr _]]; [|exact Hr].
  exfalso. vm_compute in Hm. discriminate.
Defined.






(** [equal_paths] compares the node sequences and nothing else: it says
    yes exactly when the two paths have the same nodes in the same order,
    whatever their costs. *)
Theorem equal_paths_same_nodes :
  forall a b : Path, equal_paths a b = true <-> nodes a = nodes b.
Proof. exact equal_paths_spec. Qed.

(** ** adb[1].h: what the two paths cost *)



Section YenWalks.

Variable hav : Z -> Z -> Q.
Variable st0 : state.
Variables s t : Z.

Hypothesis Hwf : wf_graph st0.
Hypothesis Hw : weights_ok hav st0.
Hypothesis Hpos : hav_nonneg hav.
Hypothesis Hs : 0 <= s < V st0.
Hypothesis Ht : 0 <= t < V st0.

Variable n0 : list Z.
Hypothesis n0_walk : gwalk st0 (fun _ _ => true) n0.
Hypothesis n0_hd : hd 0 n0 = s.
Hypothesis n0_range : forall z, In z n0 -> 0 <= z < V st0.

(** A route from [s] to [t] along the records of the graph. *)
Definition route (p : list Z) : Prop :=
  gwalk st0 (fun _ _ => true) p /\ hd 0 p = s /\ last p 0 = t.


End YenWalks.



(** ** adb[1].h: the request as a whole *)

(** With at least 2 and fewer than [MAXV] places, a distance that is the
    same in both directions and never negative, and two different places
    [s] and [t], [ecopath] does not call [die]: it builds the graph and
    returns no route, one route, or two.  The first route runs from [s] to
    [t] without a repeated node; the second is not the first: it follows
    the first up to a spur node and goes on from there to [t] by a path
    without a repeated node.  (With more than [MAXV / 2 + 1] places a
    candidate can be too long for its array.) *)
Theorem ecopath_routes :
  forall (hav : Z -> Z -> Q) (st : state) (s t : Z),
    (forall a b, (hav a b == hav b a)%Q) -> hav_nonneg hav ->
    2 <= V st < MAXV -> 0 <= s < V st -> 0 <= t < V st -> s <> t ->
    (ecopath hav st s t = OutOfBounds /\ MAXV + 2 < 2 * V st) \/
    exists st' out,
      ecopath hav st s t = Ret (st', out) /\
      V st' = V st /\
      match out with
      | [] => True
      | p0 :: rest =>
          NoDup (nodes p0) /\ hd 0 (nodes p0) = s /\ last (nodes p0) 0 = t /\
          (rest = [] \/
           exists p1, rest = [p1] /\ nodes p1 <> nodes p0 /\
                      spliced (nodes p0) t (nodes p1))
      end.
Proof.
  intros hav st s t Hsym Hpos HV Hs Ht Hst. unfold ecopath.
  destruct (Z.ltb_spec (V st) 2); [lia|]. cbv zeta.
  change (V (reset_graph st)) with (V st).
  match goal with |- context [build_knn_fixed hav (reset_graph st) ?kk] =>
    set (k := kk) end.
  assert (Hk : 1 <= k <= 8).
  { unfold k.
    repeat (match goal with
            | |- context [?a <? ?b] => destruct (Z.ltb_spec a b)
            | |- context [?a >=? ?b] => destruct (Z.geb_spec a b)
            end; cbn [andb]); lia. }
  destruct (build_knn_fixed_run hav (reset_graph st) k) as (st1 & Hb & HV1 & _).
  { change (V (reset_graph st)) with (V st). unfold MAXE, MAXV in *. nia. }
  rewrite Hb. cbn [bind].
  change (V (reset_graph st)) with (V st) in HV1.
  destruct (build_knn_fixed_weights hav Hsym (reset_graph st) k st1
              ltac:(change (V (reset_graph st)) with (V st); lia) Hb)
    as (Hwf1 & _ & Hw1).
  destruct (Z.eqb_spec s t); [contradiction|].
  destruct (yen_k2_paths_run hav st1 s t Hwf1 Hw1 Hpos
              ltac:(rewrite HV1; exact Hs) ltac:(rewrite HV1; exact Ht))
    as [[Hrun Hover]|(st' & out & Hrun & Hg & Hout)].
  - left. rewrite Hrun. split; [reflexivity|]. rewrite <- HV1. exact Hover.
  - right. exists st', out. split; [exact Hrun|].
    split.
    { unfold graph_of in Hg. injection Hg as HV' _. congruence. }
    destruct (yen_k2_paths_pieces hav st1 s t Hwf1 Hw1 Hpos
                ltac:(rewrite HV1; exact Hs) ltac:(rewrite HV1; exact Ht))
      as [[Hrun' _]|(st2 & out2 & Hrun' & _ & Hpieces)];
      [rewrite Hrun in Hrun'; discriminate|].
    rewrite Hrun in Hrun'. injection Hrun' as _ <-.
    destruct out as [|p0 rest]; [exact I|].
    destruct Hout as (_ & _ & Hnd & Hhd & Hl & Hrest).
    destruct Hpieces as (_ & _ & _ & Hsp).
    split; [exact Hnd|]. split; [exact Hhd|]. split; [exact Hl|].
    destruct Hrest as [->|(p1 & -> & _ & Hne)]; [now left|right].
    exists p1. split; [reflexivity|]. split; [exact Hne|].
    apply Hsp. now left.
Qed.

Lemma ecopath_routes_witness :
  exists st' out,
    ecopath line_hav (loaded_state 3) 0 2 = Ret (st', out) /\
    V st' = V (loaded_state 3) /\
    match out with
    | [] => True
    | p0 :: rest =>
        NoDup (nodes p0) /\ hd 0 (nodes p0) = 0 /\ last (nodes p0) 0 = 2 /\
        (rest = [] \/
         exists p1, rest = [p1] /\ nodes p1 <> nodes p0 /\
                    spliced (nodes p0) 2 (nodes p1))
    end.
Proof.
  assert (HV : 2 <= V (loaded_state 3) < MAXV)
    by (vm_compute; split; [discriminate|reflexivity]).
  assert (Hs : 0 <= 0 < V (loaded_state 3))
    by (vm_compute; split; [discriminate|reflexivity]).
  assert (Ht : 0 <= 2 < V (loaded_state 3))
    by (vm_compute; split; [discriminate|reflexivity]).
  destruct (ecopath_routes line_hav (loaded_state 3) 0 2 line_hav_sym
              line_hav_nonneg HV Hs Ht ltac:(discriminate))
    as [[_ Hover]|H]; [|exact H].
  exfalso. vm_compute in Hover. discriminate.
Defined.

(** ** carbon.c: names *)

(** A string of white space only. *)
Fixpoint blank (s : string) : bool :=
  match s with
  | EmptyString => true
  | String c r => isspace c && blank r
  end.

Lemma ltrim_split (s : string) :
  exists a, s = (a ++ ltrim s)%string /\ blank a = true /\
            forall c r, ltrim s = String c r -> isspace c = false.
Proof.
  induction s as [|c s IH].
  - exists EmptyString. split; [reflexivity|]. split; [reflexivity|].
    intros c r H. discriminate.
  - cbn [ltrim]. destruct (isspace c) eqn:Ec.
    + destruct IH as (a & Hs & Ha & Hf). exists (String c a).
      split; [cbn [append]; congruence|]. split; [cbn [blank]; now rewrite Ec|exact Hf].
    + exists EmptyString. split; [reflexivity|]. split; [reflexivity|].
      intros c' r H. inversion H; subst. exact Ec.
Qed.

Lemma append_single (r : string) (c d : ascii) :
  (r ++ String c EmptyString)%string = String d EmptyString -> r = EmptyString /\ c = d.
Proof.
  destruct r as [|x r]; cbn [append]; intros H.
  - inversion H. split; reflexivity.
  - inversion H as [[Hx Hr]]. destruct r; discriminate.
Qed.

Lemma rtrim_split (s : string) :
  exists b, s = (rtrim s ++ b)%string /\ blank b = true /\
            (forall r c, rtrim s = (r ++ String c EmptyString)%string ->
                         isspace c = false) /\
            (forall c r, s = String c r -> isspace c = false ->
                         exists r', rtrim s = String c r').
Proof.
  induction s as [|c s IH].
  - exists EmptyString. split; [reflexivity|]. split; [reflexivity|]. split.
    + intros r c H. destruct r; discriminate.
    + intros c r H. discriminate.
  - destruct IH as (b & Hs & Hb & Hlast & _). cbn [rtrim].
    destruct (rtrim s) as [|d r'] eqn:Er.
    + destruct (isspace c) eqn:Ec.
      * exists (String c s). split; [reflexivity|].
        split; [cbn [blank]; rewrite Ec; cbn [append] in Hs; rewrite Hs; exact Hb|].
        split; [intros r c0 H; destruct r; discriminate|].
        intros c0 r H Hc0. inversion H; subst. congruence.
      * exists s. split; [reflexivity|].
        split; [cbn [append] in Hs; rewrite Hs; exact Hb|]. split.
        -- intros r c0 H. symmetry in H. apply append_single in H.
           destruct H as [_ ->]. exact Ec.
        -- intros c0 r H _. inversion H; subst. eexists. reflexivity.
    + exists b. split; [cbn [append] in *; rewrite <- Hs; reflexivity|].
      split; [exact Hb|]. split.
      * intros r c0 H. destruct r as [|x r]; cbn [append] in H.
        -- inversion H.
        -- inversion H; subst. apply (Hlast r c0). assumption.
      * intros c0 r H _. inversion H; subst. eexists. reflexivity.
Qed.

Lemma ltrim_fixed (s : string) :
  (forall c r, s = String c r -> isspace c = false) -> ltrim s = s.
Proof.
  destruct s as [|c r]; intros H; [reflexivity|].
  cbn [ltrim]. now rewrite (H c r eq_refl).
Qed.

Lemma rtrim_fixed (s : string) :
  (forall r c, s = (r ++ String c EmptyString)%string -> isspace c = false) ->
  rtrim s = s.
Proof.
  induction s as [|c s IH]; intros H; [reflexivity|].
  cbn [rtrim]. rewrite IH.
  - destruct s as [|d s]; [|reflexivity].
    now rewrite (H EmptyString c eq_refl).
  - intros r c0 E. apply (H (String c r) c0). cbn [append]. now rewrite E.
Qed.

(** [trim] cuts white space off both ends and nothing else: the string is
    some white space, then the result, then some white space; the result
    neither starts nor ends with white space; trimming again changes
    nothing. *)
Theorem trim_strips_blanks :
  forall s : string,
    (exists a b, s = (a ++ trim s ++ b)%string /\
                 blank a = true /\ blank b = true) /\
    (forall c r, trim s = String c r -> isspace c = false) /\
    (forall r c, trim s = (r ++ String c EmptyString)%string ->
                 isspace c = false) /\
    trim (trim s) = trim s.
Proof.
  intros s. unfold trim.
  destruct (ltrim_split s) as (a & Hs & Ha & Hfirst).
  destruct (rtrim_split (ltrim s)) as (b & Hl & Hb & Hlast & Hhead).
  assert (Hf : forall c r, rtrim (ltrim s) = String c r -> isspace c = false).
  { intros c r H. destruct (ltrim s) as [|c0 r0] eqn:El; [discriminate|].
    pose proof (Hfirst c0 r0 eq_refl) as Hc0.
    destruct (Hhead c0 r0 eq_refl Hc0) as (r' & Hr').
    rewrite Hr' in H. inversion H; subst. exact Hc0. }
  split; [|split; [exact Hf|split; [exact Hlast|]]].
  - exists a, b. split; [|split; assumption]. rewrite <- Hl. exact Hs.
  - rewrite (ltrim_fixed _ Hf). apply rtrim_fixed. exact Hlast.
Qed.

(** The name of city [i], without the white space around it, is the name
    [nm] up to the case of the letters. *)
Definition name_matches (cs : Z -> City) (i : Z) (nm : string) : bool :=
  String.eqb (lower (trim (name (cs i)))) (lower nm).

(** [r] is the last of the [n] cities whose name matches, or -1 when
    there is none. *)
Definition last_match (cs : Z -> City) (n : Z) (nm : string) (r : Z) : Prop :=
  (r = -1 /\ forall i, 0 <= i < n -> name_matches cs i nm = false) \/
  (0 <= r < n /\ name_matches cs r nm = true /\
   forall j, r < j < n -> name_matches cs j nm = false).

Lemma last_match_step (cs : Z -> City) (k : Z) (nm : string) (r : Z) :
  0 <= k -> last_match cs k nm r ->
  last_match cs (k + 1) nm (if name_matches cs k nm then k else r).
Proof.
  intros Hk H. destruct (name_matches cs k nm) eqn:Ek.
  - right. split; [lia|]. split; [exact Ek|]. intros j Hj. lia.
  - destruct H as [[-> Hnone]|(Hr & Hm & Hlater)].
    + left. split; [reflexivity|]. intros i Hi.
      destruct (Z.eq_dec i k) as [->|]; [exact Ek|apply Hnone; lia].
    + right. split; [lia|]. split; [exact Hm|]. intros j Hj.
      destruct (Z.eq_dec j k) as [->|]; [exact Ek|apply Hlater; lia].
Qed.

(** The two indices that the loop of [resolve_cities] leaves. *)
Lemma resolve_cities_spec :
  forall (cs : Z -> City) (n : Z) (from_name to_name : string),
    last_match cs n from_name (fst (resolve_cities cs n from_name to_name)) /\
    last_match cs n to_name (snd (resolve_cities cs n from_name to_name)).
Proof.
  intros cs n from_name to_name. unfold resolve_cities.
  destruct (Z_le_gt_dec 0 n) as [Hn|Hn].
  - apply (for_loop_ind (fun k (r : Z * Z) =>
             last_match cs k from_name (fst r) /\ last_match cs k to_name (snd r)));
      [exact Hn| |].
    + split; left; (split; [reflexivity|intros i Hi; lia]).
    + intros k [src dst] Hk [Hs Hd]. cbn [fst snd] in *.
      split; [exact (last_match_step cs k from_name src ltac:(lia) Hs)
             |exact (last_match_step cs k to_name dst ltac:(lia) Hd)].
  - rewrite for_loop_nonpos by lia.
    split; left; (split; [reflexivity|intros i Hi; lia]).
Qed.

(** The loop of [shortp] that looks the two names of the route up among
    the cities compares without the white space around a city's name and
    without regard to case, and it does not stop at a match: each name
    resolves to the last city that matches it, and to -1 when none does. *)
Theorem resolve_cities_last_match :
  forall (cs : Z -> City) (n : Z) (from_name to_name : string),
    last_match cs n from_name (fst (resolve_cities cs n from_name to_name)) /\
    last_match cs n to_name (snd (resolve_cities cs n from_name to_name)).
Proof. exact resolve_cities_spec. Qed.

(** The scan of [cars.txt] stops at the first row whose model, without
    the white space around it and without regard to case, is the model
    asked for: rows before it do not match and rows after it are not
    looked at.  It finds nothing exactly when no row matches. *)
Theorem lookup_car_model_first_match :
  forall (rows : list (string * Q)) (car_model : string),
    let hit := fun row : string * Q =>
      String.eqb (lower (trim (fst row))) (lower car_model) in
    match lookup_car_model rows car_model with
    | Some val =>
        exists before model after,
          rows = before ++ (model, val) :: after /\
          hit (model, val) = true /\
          forall row, In row before -> hit row = false
    | None => forall row, In row rows -> hit row = false
    end.
Proof.
  intros rows car_model hit. induction rows as [|[model val] rows IH].
  - intros row [].
  - cbn [lookup_car_model].
    destruct (String.eqb (lower (trim model)) (lower car_model)) eqn:E.
    + exists [], model, rows. split; [reflexivity|]. split; [exact E|intros row []].
    + destruct (lookup_car_model rows car_model) as [v|].
      * destruct IH as (before & m & after & -> & Hm & Hb).
        exists ((model, val) :: before), m, after. split; [reflexivity|].
        split; [exact Hm|]. intros row [<-|Hin]; [exact E|apply Hb; exact Hin].
      * intros row [<-|Hin]; [exact E|apply IH; exact Hin].
Qed.

(** ** carbon.c: the times of a route *)

Lemma car_minutes_bounds (d f : Q) :
  (0 <= d)%Q -> (0 <= car_minutes d f <= d / WALK_KMPH * 60)%Q.
Proof.
  intros Hd. unfold car_minutes, WALK_KMPH, CAR_FREEFLOW_KMPH.
  assert (Hwalk : (0 <= d / 5 * 60)%Q).
  { apply Qmult_le_0_compat; [|lra]. apply Qle_shift_div_l; lra. }
  assert (G : forall s : Q, (5 <= s)%Q -> (0 <= d / s * 60 <= d / 5 * 60)%Q).
  { intros s Hs. split.
    - apply Qmult_le_0_compat; [|lra]. apply Qle_shift_div_l; lra.
    - apply Qmult_le_compat_r; [|lra]. apply Qle_shift_div_r; [lra|].
      unfold Qdiv. rewrite <- Qmult_assoc, (Qmult_comm (/ 5)), Qmult_assoc.
      apply Qle_shift_div_l; [lra|]. nra. }
  destruct (Qeq_bool f 0); [split; [lra|exact Hwalk]|].
  cbv zeta. destruct (Qltb (50 / f) 5) eqn:E.
  - apply G. lra.
  - apply Qltb_ge in E. apply G. exact E.
Qed.

(** On a route whose steps have no negative distance, the minutes by car
    that [shortp] adds up are never negative and never more than the
    minutes on foot (the car speed is not let below 5 km/h, the walking
    speed). *)
Theorem car_not_slower_than_walk :
  forall (g : Graph) (path : list Z),
    (forall u v, In (u, v) (steps path) ->
                 (0 <= distance_km (edge_at g u v))%Q) ->
    let r := mode_times g path in
    (0 <= fst (fst r))%Q /\ (fst (fst r) <= snd r)%Q.
Proof.
  intros g path Hd r. unfold r. rewrite mode_times_fold.
  pose proof (mode_times_sums g (steps path) 0 0 0) as H. cbv zeta in H.
  destruct H as (Hcar & Hbike & Hwalk).
  rewrite Hcar, Hwalk. clear Hcar Hbike Hwalk.
  assert (E1 : forall x : Q, (x / WALK_KMPH * 60 == 12 * x)%Q)
    by (intros x; unfold WALK_KMPH; field).
  induction (steps path) as [|[u v] l IH].
  - cbn [fold_right]. rewrite E1. split; lra.
  - cbn [fold_right fst snd].
    pose proof (car_minutes_bounds (distance_km (edge_at g u v))
                  (traffic_factor (edge_at g u v)) (Hd u v (or_introl eq_refl)))
      as [Hc0 Hc1].
    destruct IH as (I0 & I1); [intros a b Hab; apply Hd; now right|].
    revert Hc0 Hc1 I0 I1.
    generalize (car_minutes (distance_km (edge_at g u v))
                            (traffic_factor (edge_at g u v))).
    generalize (fold_right
       (fun (p : Z * Z) (acc : Q) =>
          (car_minutes (distance_km (edge_at g (fst p) (snd p)))
                       (traffic_factor (edge_at g (fst p) (snd p))) + acc)%Q) 0%Q l).
    generalize (fold_right
       (fun (p : Z * Z) (acc : Q) =>
          (distance_km (edge_at g (fst p) (snd p)) + acc)%Q) 0%Q l).
    generalize (distance_km (edge_at g u v)).
    intros d km cm c Hc0 Hc1 I0 I1.
    rewrite E1 in *. split; lra.
Qed.

Lemma car_not_slower_than_walk_witness :
  (0 <= fst (fst (mode_times two_city_graph [0%Z; 1%Z])))%Q /\
  (fst (fst (mode_times two_city_graph [0%Z; 1%Z]))
   <= snd (mode_times two_city_graph [0%Z; 1%Z]))%Q.
Proof.
  apply (car_not_slower_than_walk two_city_graph [0%Z; 1%Z]).
  intros u v [H|[]]. inversion H; subst. vm_compute. discriminate.
Defined.

(** ** carbon.c: the traffic cache *)

Lemma load_traffic_cache_run (g : Graph) (cf : cache_file) (ts : Z) :
  0 <= g_n g -> Z.of_nat (length (edges g)) = g_n g * g_n g ->
  cf_ts cf = Some ts ->
  exists l',
    load_traffic_cache g (Some cf) = Ret (set_edges g l', 1) /\
    length l' = length (edges g) /\
    forall i j, 0 <= i < g_n g -> 0 <= j < g_n g ->
      rd zero_edge l' (i * g_n g + j) =
      set_traffic_factor (edge_at g i j) (cache_factor (g_n g) (cf_rows cf) i j).
Proof.
  intros Hn Hl Hts. unfold load_traffic_cache. rewrite Hts.
  destruct (reset_factors (edges g) (g_n g * g_n g) Hl) as (l1 & H1 & Hl1 & Hc1).
  rewrite H1. cbn [bind].
  destruct (load_rows_cells (g_n g) (edges g) (cf_rows cf) Hn l1 (fun _ _ => 1%Q))
    as (l' & H' & Hl' & Hc').
  - lia.
  - intros i j Hi Hj. apply Hc1. apply cell_index_bound; assumption.
  - exists l'. rewrite H'. cbn [bind]. split; [reflexivity|]. split; [congruence|].
    intros i j Hi Hj. rewrite Hc' by assumption. reflexivity.
Qed.

(** The rows that [save_traffic_cache] writes for the pairs [i < j], with
    [f i j] on the row of the pair. *)
Definition pair_rows (n : Z) (f : Z -> Z -> Q) : list (Z * Z * Q) :=
  for_loop n (fun i rows =>
    fold_left (fun rows j => rows ++ [(i, j, f i j)])
              (Zrange_from (i + 1) n) rows) [].

Lemma in_pair_rows (n : Z) (f : Z -> Z -> Q) (row : Z * Z * Q) :
  0 <= n ->
  (In row (pair_rows n f) <->
   exists a b, 0 <= a < b /\ b < n /\ row = (a, b, f a b)).
Proof.
  intros Hn. unfold pair_rows.
  assert (G : forall r,
    In r (for_loop n (fun i rows =>
            fold_left (fun rows j => rows ++ [(i, j, f i j)])
                      (Zrange_from (i + 1) n) rows) []) <->
    exists a b, 0 <= a < n /\ a < b < n /\ r = (a, b, f a b)).
  { apply (for_loop_ind (fun i rows => forall r,
      In r rows <-> exists a b, 0 <= a < i /\ a < b < n /\ r = (a, b, f a b)));
      [exact Hn| |].
    - intros r. split; [intros []|intros (a & b & Ha & _); lia].
    - intros i rows Hi IH.
      assert (F : forall r,
        In r (fold_left (fun rows j => rows ++ [(i, j, f i j)])
                        (Zrange_from (i + 1) n) rows) <->
        (exists a b, 0 <= a < i /\ a < b < n /\ r = (a, b, f a b)) \/
        (exists b, i < b < n /\ r = (i, b, f i b))).
      { apply (fold_Zrange_from_ind (fun j rows' => forall r,
          In r rows' <->
          (exists a b, 0 <= a < i /\ a < b < n /\ r = (a, b, f a b)) \/
          (exists b, i < b < j /\ r = (i, b, f i b)))).
        - lia.
        - intros r. rewrite IH. split; [intros H; left; exact H|].
          intros [H|(b & Hb & _)]; [exact H|lia].
        - intros j rows' Hj IH' r. rewrite in_app_iff, IH'. cbn [In]. split.
          + intros [[H|(b & Hb & ->)]|[<-|[]]].
            * left. exact H.
            * right. exists b. split; [lia|reflexivity].
            * right. exists j. split; [lia|reflexivity].
          + intros [H|(b & Hb & ->)].
            * left. left. exact H.
            * destruct (Z.eq_dec b j) as [->|NE].
              -- right. left. reflexivity.
              -- left. right. exists b. split; [lia|reflexivity]. }
      intros r. rewrite F. split.
      + intros [(a & b & Ha & Hb & ->)|(b & Hb & ->)].
        * exists a, b. split; [lia|]. split; [lia|reflexivity].
        * exists i, b. split; [lia|]. split; [lia|reflexivity].
      + intros (a & b & Ha & Hb & ->). destruct (Z.eq_dec a i) as [->|NE].
        * right. exists b. split; [lia|reflexivity].
        * left. exists a, b. split; [lia|]. split; [lia|reflexivity].
  }
  rewrite G. split.
  - intros (a & b & Ha & Hb & ->). exists a, b. split; [lia|]. split; [lia|reflexivity].
  - intros (a & b & Ha & Hb & ->). exists a, b. split; [lia|]. split; [lia|reflexivity].
Qed.

Lemma cache_factor_from_hits (n : Z) (i j : Z) (x : Q) (rows : list (Z * Z * Q)) :
  (forall row, In row rows -> row_hits n row i j = true -> snd row = x) ->
  forall start,
    (cache_factor_from n rows i j start = start /\
     forall row, In row rows -> row_hits n row i j = false) \/
    (cache_factor_from n rows i j start = x /\
     exists row, In row rows /\ row_hits n row i j = true).
Proof.
  unfold cache_factor_from.
  induction rows as [|row rows IH]; intros Hx start.
  - left. split; [reflexivity|intros row []].
  - cbn [fold_left]. destruct (row_hits n row i j) eqn:Eh.
    + right. rewrite (Hx row (or_introl eq_refl) Eh).
      destruct (IH (fun r Hr => Hx r (or_intror Hr)) x) as [[H _]|[H _]];
        (split; [exact H|exists row; split; [now left|exact Eh]]).
    + destruct (IH (fun r Hr => Hx r (or_intror Hr)) start)
        as [[H Hnone]|[H (r & Hr & Hh)]].
      * left. split; [exact H|]. intros r [<-|Hr]; [exact Eh|apply Hnone; exact Hr].
      * right. split; [exact H|]. exists r. split; [now right|exact Hh].
Qed.

Lemma cache_factor_pair_rows (n : Z) (f : Z -> Z -> Q) (i j : Z) :
  0 <= i < n -> 0 <= j < n ->
  cache_factor n (pair_rows n f) i j =
  if i =? j then 1%Q else f (Z.min i j) (Z.max i j).
Proof.
  intros Hi Hj. unfold cache_factor.
  assert (Hn : 0 <= n) by lia.
  destruct (cache_factor_from_hits n i j (f (Z.min i j) (Z.max i j))
              (pair_rows n f)) with (start := 1%Q)
    as [[H Hnone]|[H (row & Hrow & Hh)]].
  - intros row Hrow Hh. apply (in_pair_rows n f row Hn) in Hrow.
    destruct Hrow as (a & b & Ha & Hb & ->). cbn [snd].
    unfold row_hits in Hh.
    apply andb_true_iff in Hh. destruct Hh as [_ Hh].
    apply orb_true_iff in Hh.
    destruct Hh as [Hh|Hh]; apply andb_true_iff in Hh; destruct Hh as [H1 H2];
      apply Z.eqb_eq in H1; apply Z.eqb_eq in H2; subst.
    + rewrite Z.min_l, Z.max_r by lia. reflexivity.
    + rewrite Z.min_r, Z.max_l by lia. reflexivity.
  - rewrite H. destruct (Z.eqb_spec i j) as [E|NE]; [reflexivity|].
    exfalso.
    assert (Hin : In (Z.min i j, Z.max i j, f (Z.min i j) (Z.max i j))
                     (pair_rows n f)).
    { apply (in_pair_rows n f _ Hn). exists (Z.min i j), (Z.max i j).
      split; [lia|]. split; [lia|reflexivity]. }
    specialize (Hnone _ Hin). unfold row_hits in Hnone.
    destruct (Z.leb_spec 0 (Z.min i j)); [|lia].
    destruct (Z.ltb_spec (Z.min i j) n); [|lia].
    destruct (Z.leb_spec 0 (Z.max i j)); [|lia].
    destruct (Z.ltb_spec (Z.max i j) n); [|lia].
    cbn [andb] in Hnone.
    destruct (Z.eqb_spec (Z.min i j) i); destruct (Z.eqb_spec (Z.max i j) j);
      destruct (Z.eqb_spec (Z.min i j) j); destruct (Z.eqb_spec (Z.max i j) i);
      cbn [andb orb] in Hnone; try discriminate; lia.
  - rewrite H. destruct (Z.eqb_spec i j) as [E|NE]; [|reflexivity].
    exfalso. apply (in_pair_rows n f row Hn) in Hrow.
    destruct Hrow as (a & b & Ha & Hb & ->). unfold row_hits in Hh.
    apply andb_true_iff in Hh. destruct Hh as [_ Hh].
    apply orb_true_iff in Hh.
    destruct Hh as [Hh|Hh]; apply andb_true_iff in Hh; destruct Hh as [H1 H2];
      apply Z.eqb_eq in H1; apply Z.eqb_eq in H2; lia.
Qed.

(** A tie goes to the even digit: 129/128 = 1.0078125 is written
    1.007812, and 131/128 = 1.0234375 is written 1.023438. *)
Example round6_tie_to_even :
  (round6 (129 # 128) == 1007812 # 1000000)%Q /\
  (round6 (131 # 128) == 1023438 # 1000000)%Q.
Proof. split; vm_compute; reflexivity. Qed.

(** What is saved can be loaded: after [save_traffic_cache] has written
    the file, [load_traffic_cache] returns 1 and gives every pair of
    different cities, in both directions, the multiplier that the graph
    had on the cell (i, j) with [i < j], as ["%.6f"] printed it; the
    diagonal gets 1.0 and no other field changes. *)
Theorem traffic_cache_round_trip :
  forall (g : Graph) (now : Z) (old : option cache_file),
    0 <= g_n g -> Z.of_nat (length (edges g)) = g_n g * g_n g ->
    snd (save_traffic_cache g now old true) = 1 /\
    exists g',
      load_traffic_cache g (fst (save_traffic_cache g now old true))
        = Ret (g', 1) /\
      g_n g' = g_n g /\
      forall i j, 0 <= i < g_n g -> 0 <= j < g_n g ->
        edge_at g' i j =
        set_traffic_factor (edge_at g i j)
          (if i =? j then 1%Q
           else round6 (traffic_factor (edge_at g (Z.min i j) (Z.max i j)))).
Proof.
  intros g now old Hn Hl. split; [reflexivity|].
  unfold save_traffic_cache. cbv zeta. cbn [fst].
  fold (pair_rows (g_n g) (fun i j => round6 (traffic_factor (edge_at g i j)))).
  destruct (load_traffic_cache_run g
              (mkCache (Some now)
                 (pair_rows (g_n g)
                    (fun i j => round6 (traffic_factor (edge_at g i j)))))
              now Hn Hl eq_refl) as (l' & Hrun & Hlen & Hcells).
  exists (set_edges g l'). split; [exact Hrun|]. split; [reflexivity|].
  intros i j Hi Hj. unfold edge_at at 1. cbn [set_edges edges g_n].
  rewrite Hcells by assumption. cbn [cf_rows].
  rewrite cache_factor_pair_rows by assumption. reflexivity.
Qed.

Lemma traffic_cache_round_trip_witness :
  snd (save_traffic_cache two_city_graph 1000 None true) = 1 /\
  exists g',
    load_traffic_cache two_city_graph
      (fst (save_traffic_cache two_city_graph 1000 None true)) = Ret (g', 1) /\
    g_n g' = g_n two_city_graph /\
    forall i j, 0 <= i < g_n two_city_graph -> 0 <= j < g_n two_city_graph ->
      edge_at g' i j =
      set_traffic_factor (edge_at two_city_graph i j)
        (if i =? j then 1%Q
         else round6 (traffic_factor
                        (edge_at two_city_graph (Z.min i j) (Z.max i j)))).
Proof.
  apply (traffic_cache_round_trip two_city_graph 1000 None).
  - vm_compute. discriminate.
  - vm_compute. reflexivity.
Defined.

(** *** The sampling pass *)

(** The number of pairs [(a, b)], [a < b < n], with [a < i]: the value of
    [sample_count] when the loop reaches row [i]. *)
Definition pairs_before (n i : Z) : Z := i * (2 * n - i - 1) / 2.

Lemma pairs_before_succ (n i : Z) :
  pairs_before n (i + 1) = pairs_before n i + (n - 1 - i).
Proof.
  unfold pairs_before.
  replace ((i + 1) * (2 * n - (i + 1) - 1))
    with (i * (2 * n - i - 1) + (n - 1 - i) * 2) by ring.
  apply Z.div_add. lia.
Qed.

Lemma modify_pair {A} (d : A) (l : list A) (n i j a b : Z) (F : A -> A) :
  Z.of_nat (length l) = n * n ->
  0 <= i < n -> 0 <= j < n -> i <> j -> 0 <= a < n -> 0 <= b < n ->
  rd d (modify d (modify d l (i * n + j) F) (j * n + i) F) (a * n + b) =
  if ((a =? i) && (b =? j)) || ((a =? j) && (b =? i))
  then F (rd d l (a * n + b)) else rd d l (a * n + b).
Proof.
  intros Hl Hi Hj Hij Ha Hb. unfold modify.
  pose proof (cell_index_bound n i j Hi Hj) as Bij.
  pose proof (cell_index_bound n j i Hj Hi) as Bji.
  pose proof (cell_index_bound n a b Ha Hb) as Bab.
  assert (Dij : i * n + j <> j * n + i)
    by (intros E; apply cell_index_inj in E; lia).
  destruct (Z.eq_dec (a * n + b) (j * n + i)) as [E|N].
  - apply cell_index_inj in E; [|lia|lia]. destruct E as [-> ->].
    rewrite !Z.eqb_refl. cbn [andb]. rewrite orb_true_r.
    rewrite rd_wr_same by (rewrite length_wr; lia).
    rewrite rd_wr_other by lia. reflexivity.
  - rewrite rd_wr_other by lia.
    destruct (Z.eq_dec (a * n + b) (i * n + j)) as [E|N'].
    + apply cell_index_inj in E; [|lia|lia]. destruct E as [-> ->].
      rewrite !Z.eqb_refl. cbn [andb orb].
      rewrite rd_wr_same by lia. reflexivity.
    + rewrite rd_wr_other by lia.
      destruct (Z.eqb_spec a i) as [Eai|Nai]; destruct (Z.eqb_spec b j) as [Ebj|Nbj];
        destruct (Z.eqb_spec a j) as [Eaj|Naj]; destruct (Z.eqb_spec b i) as [Ebi|Nbi];
        cbn [andb orb]; subst; try reflexivity; contradiction.
Qed.

Section Sampling.

Variable sample_tomtom_factor : Q -> Q -> Q.
Variable USE_TOMTOM : bool.

(** The multiplier that the sampling pass gives the pair [a < b]: the
    answer of the traffic service for the midpoint when the pair is one of
    those sampled, which is every [N]th pair in the order of the loop, and
    1.0 otherwise. *)
Definition sampled_factor (g : Graph) (N a b : Z) : Q :=
  if ((pairs_before (g_n g) a + (b - a - 1)) mod N =? 0) && USE_TOMTOM
  then sample_tomtom_factor
         ((lat (cities g a) + lat (cities g b)) / 2)
         ((lon (cities g a) + lon (cities g b)) / 2)
  else 1%Q.

(** The pair of the cell (a, b) has had its turn when the loop stands at
    the pair (i, j). *)
Definition swept (i j a b : Z) : Prop :=
  a <> b /\ (Z.min a b < i \/ (Z.min a b = i /\ Z.max a b < j)).

Definition sweep_inv (g : Graph) (N i j : Z) (s : list Edge * Z) : Prop :=
  Z.of_nat (length (fst s)) = g_n g * g_n g /\
  snd s = pairs_before (g_n g) i + (j - i - 1) /\
  forall a b, 0 <= a < g_n g -> 0 <= b < g_n g ->
    (swept i j a b ->
     rd zero_edge (fst s) (a * g_n g + b) =
     set_traffic_factor (edge_at g a b)
                        (sampled_factor g N (Z.min a b) (Z.max a b))) /\
    (~ swept i j a b -> rd zero_edge (fst s) (a * g_n g + b) = edge_at g a b).

Lemma sweep_inv_row (g : Graph) (N i : Z) (s : list Edge * Z) :
  0 <= i < g_n g -> sweep_inv g N i (g_n g) s -> sweep_inv g N (i + 1) (i + 2) s.
Proof.
  intros Hi (Hl & Hc & Hcells). split; [exact Hl|]. split.
  - rewrite Hc, pairs_before_succ. lia.
  - intros a b Ha Hb. destruct (Hcells a b Ha Hb) as [H1 H2]. split.
    + intros [Hab Hs]. apply H1. split; [exact Hab|]. lia.
    + intros Hn. apply H2. intros [Hab Hs]. apply Hn. split; [exact Hab|]. lia.
Qed.

Lemma sweep_inv_step (g : Graph) (N i j : Z) (l : list Edge) (cnt : Z) :
  0 <= i -> i < j < g_n g -> sweep_inv g N i j (l, cnt) ->
  sweep_inv g N i (j + 1)
    (modify zero_edge
       (modify zero_edge l (i * g_n g + j)
          (fun e => set_traffic_factor e
             (if (cnt mod N =? 0) && USE_TOMTOM
              then sample_tomtom_factor
                     ((lat (cities g i) + lat (cities g j)) / 2)
                     ((lon (cities g i) + lon (cities g j)) / 2)
              else 1%Q)))
       (j * g_n g + i)
       (fun e => set_traffic_factor e
          (if (cnt mod N =? 0) && USE_TOMTOM
           then sample_tomtom_factor
                  ((lat (cities g i) + lat (cities g j)) / 2)
                  ((lon (cities g i) + lon (cities g j)) / 2)
           else 1%Q)),
     cnt + 1).
Proof.
  intros Hi Hj (Hl & Hc & Hcells). unfold sweep_inv. cbn [fst snd] in *.
  split; [rewrite !length_modify; exact Hl|]. split; [lia|].
  intros a b Ha Hb.
  rewrite (modify_pair zero_edge l (g_n g) i j a b) by (try assumption; lia).
  destruct (Hcells a b Ha Hb) as [H1 H2].
  assert (Hfac : (if (cnt mod N =? 0) && USE_TOMTOM
                  then sample_tomtom_factor
                         ((lat (cities g i) + lat (cities g j)) / 2)
                         ((lon (cities g i) + lon (cities g j)) / 2)
                  else 1%Q) = sampled_factor g N i j).
  { unfold sampled_factor. rewrite Hc. reflexivity. }
  rewrite Hfac.
  destruct (Z.eqb_spec a i) as [Eai|Nai]; destruct (Z.eqb_spec b j) as [Ebj|Nbj];
    destruct (Z.eqb_spec a j) as [Eaj|Naj]; destruct (Z.eqb_spec b i) as [Ebi|Nbi];
    cbn [andb orb]; subst; try lia;
    try (split;
         [intros _; rewrite H2 by (unfold swept; lia);
          rewrite ?Z.min_l, ?Z.max_r, ?Z.min_r, ?Z.max_l by lia; reflexivity
         |intros Hn; exfalso; apply Hn; unfold swept; lia]);
    try (split;
         [intros Hs; apply H1; unfold swept in *; lia
         |intros Hn; apply H2; unfold swept in *; lia]).
Qed.

Lemma sample_pass_cells (g : Graph) (N : Z) :
  0 <= g_n g -> Z.of_nat (length (edges g)) = g_n g * g_n g ->
  Z.of_nat (length (sample_pass sample_tomtom_factor USE_TOMTOM g N))
    = g_n g * g_n g /\
  forall i j, 0 <= i < g_n g -> 0 <= j < g_n g ->
    rd zero_edge (sample_pass sample_tomtom_factor USE_TOMTOM g N)
       (i * g_n g + j) =
    if i =? j then edge_at g i j
    else set_traffic_factor (edge_at g i j)
           (sampled_factor g N (Z.min i j) (Z.max i j)).
Proof.
  intros Hn Hl. unfold sample_pass. cbv zeta.
  match goal with |- context [for_loop ?n ?f ?s] =>
    assert (G : sweep_inv g N (g_n g) (g_n g + 1) (for_loop n f s)) end.
  { apply (for_loop_ind (fun i s => sweep_inv g N i (i + 1) s)); [exact Hn| |].
    - split; [exact Hl|]. split; [reflexivity|]. intros a b Ha Hb. split.
      + intros [Hab Hs]. lia.
      + intros _. reflexivity.
    - intros i s Hi Hs.
      replace (i + 1 + 1) with (i + 2) by lia.
      apply sweep_inv_row; [exact Hi|].
      apply (fold_Zrange_from_ind (fun j s' => sweep_inv g N i j s')); [lia|exact Hs|].
      intros j [l cnt] Hj Hs'.
      exact (sweep_inv_step g N i j l cnt ltac:(lia) ltac:(lia) Hs'). }
  destruct G as (Hlen & _ & Hcells). split; [exact Hlen|].
  intros i j Hi Hj. destruct (Hcells i j Hi Hj) as [H1 H2].
  destruct (Z.eqb_spec i j) as [E|NE].
  - apply H2. intros [Hab _]. contradiction.
  - apply H1. split; [exact NE|]. lia.
Qed.

End Sampling.

(** *** With and without a fresh cache *)

Lemma sampled_run (sample : Q -> Q -> Q) (tom : bool) (g : Graph)
    (N : Z) (force : bool) (ttl : Z) (file : option cache_file) (now : Z)
    (writable : bool) :
  0 <= g_n g -> Z.of_nat (length (edges g)) = g_n g * g_n g ->
  force = true \/ is_cache_fresh file ttl now = false ->
  exists g',
    build_edge_midpoint_traffic_factors_cached sample tom g N force ttl file
      now writable
    = Ret (g', if writable
               then Some (mkCache (Some now)
                            (pair_rows (g_n g)
                               (fun i j => round6 (traffic_factor (edge_at g' i j)))))
               else file) /\
    g_n g' = g_n g /\ cities g' = cities g /\
    Z.of_nat (length (edges g')) = g_n g * g_n g /\
    forall i j, 0 <= i < g_n g -> 0 <= j < g_n g ->
      edge_at g' i j =
      if i =? j then edge_at g i j
      else set_traffic_factor (edge_at g i j)
             (sampled_factor sample tom g
                (if N <? 1 then SAMPLE_EVERY_N else N) (Z.min i j) (Z.max i j)).
Proof.
  intros Hn Hl Hwhy.
  unfold build_edge_midpoint_traffic_factors_cached. cbv zeta.
  assert (Hc : negb force && is_cache_fresh file ttl now = false).
  { destruct Hwhy as [-> | ->]; [reflexivity|apply andb_false_r]. }
  rewrite Hc.
  set (N' := if N <? 1 then SAMPLE_EVERY_N else N).
  destruct (sample_pass_cells sample tom g N' Hn Hl) as [Hlen Hcells].
  exists (set_edges g (sample_pass sample tom g N')).
  split; [|split; [reflexivity|split; [reflexivity|split; [exact Hlen|]]]].
  - unfold save_traffic_cache. destruct writable; reflexivity.
  - intros i j Hi Hj. unfold edge_at at 1. cbn [set_edges edges g_n].
    apply Hcells; assumption.
Qed.

Lemma cached_run (sample : Q -> Q -> Q) (tom : bool) (g : Graph)
    (N : Z) (ttl : Z) (cf : cache_file) (now : Z) (writable : bool) :
  0 <= g_n g -> Z.of_nat (length (edges g)) = g_n g * g_n g ->
  is_cache_fresh (Some cf) ttl now = true ->
  exists g',
    build_edge_midpoint_traffic_factors_cached sample tom g N false ttl
      (Some cf) now writable = Ret (g', Some cf) /\
    g_n g' = g_n g /\ cities g' = cities g /\
    forall i j, 0 <= i < g_n g -> 0 <= j < g_n g ->
      edge_at g' i j =
      set_traffic_factor (edge_at g i j) (cache_factor (g_n g) (cf_rows cf) i j).
Proof.
  intros Hn Hl Hfresh.
  unfold build_edge_midpoint_traffic_factors_cached. cbv zeta.
  rewrite Hfresh. cbn [negb andb].
  assert (Hts : exists ts, cf_ts cf = Some ts).
  { unfold is_cache_fresh in Hfresh. destruct (cf_ts cf) as [ts|];
      [exists ts; reflexivity|discriminate]. }
  destruct Hts as (ts & Hts).
  destruct (load_traffic_cache_run g cf ts Hn Hl Hts) as (l' & Hrun & _ & Hcells).
  rewrite Hrun. cbn [bind]. cbn [Z.eqb negb].
  exists (set_edges g l'). split; [reflexivity|]. split; [reflexivity|].
  split; [reflexivity|].
  intros i j Hi Hj. unfold edge_at at 1. cbn [set_edges edges g_n].
  apply Hcells; assumption.
Qed.

(** Without a fresh cache, or when a refresh is forced,
    [build_edge_midpoint_traffic_factors_cached] runs the sampling pass:
    every pair of different cities gets the same multiplier in both
    directions, the answer of the traffic service at the midpoint for every
    [N]th pair in loop order (when the program is built with [USE_TOMTOM])
    and 1.0 for the others; the diagonal and all other fields stay; and
    the multipliers are saved when the cache file can be written. *)
Theorem traffic_factors_sampled :
  forall (sample : Q -> Q -> Q) (tom : bool) (g : Graph) (N : Z)
         (force : bool) (ttl : Z) (file : option cache_file) (now : Z)
         (writable : bool),
    0 <= g_n g -> Z.of_nat (length (edges g)) = g_n g * g_n g ->
    force = true \/ is_cache_fresh file ttl now = false ->
    exists g',
      build_edge_midpoint_traffic_factors_cached sample tom g N force ttl file
        now writable
      = Ret (g', if writable
                 then Some (mkCache (Some now)
                              (pair_rows (g_n g)
                                 (fun i j =>
                                    round6 (traffic_factor (edge_at g' i j)))))
                 else file) /\
      g_n g' = g_n g /\ cities g' = cities g /\
      Z.of_nat (length (edges g')) = g_n g * g_n g /\
      forall i j, 0 <= i < g_n g -> 0 <= j < g_n g ->
        edge_at g' i j =
        if i =? j then edge_at g i j
        else set_traffic_factor (edge_at g i j)
               (sampled_factor sample tom g
                  (if N <? 1 then SAMPLE_EVERY_N else N)
                  (Z.min i j) (Z.max i j)).
Proof. exact sampled_run. Qed.

Lemma traffic_factors_sampled_witness :
  exists g',
    build_edge_midpoint_traffic_factors_cached (fun _ _ => 2%Q) true
      two_city_graph 3 false 15 None 1000 true
    = Ret (g', Some (mkCache (Some 1000)
                       (pair_rows (g_n two_city_graph)
                          (fun i j => round6 (traffic_factor (edge_at g' i j)))))) /\
    g_n g' = g_n two_city_graph /\ cities g' = cities two_city_graph /\
    Z.of_nat (length (edges g')) = g_n two_city_graph * g_n two_city_graph /\
    forall i j, 0 <= i < g_n two_city_graph -> 0 <= j < g_n two_city_graph ->
      edge_at g' i j =
      if i =? j then edge_at two_city_graph i j
      else set_traffic_factor (edge_at two_city_graph i j)
             (sampled_factor (fun _ _ => 2%Q) true two_city_graph
                (if 3 <? 1 then SAMPLE_EVERY_N else 3)
                (Z.min i j) (Z.max i j)).
Proof.
  apply (traffic_factors_sampled (fun _ _ => 2%Q) true two_city_graph 3 false
           15 None 1000 true).
  - vm_compute. discriminate.
  - vm_compute. reflexivity.
  - right. reflexivity.
Defined.

(** With a fresh cache and no forced refresh the traffic service is not
    asked and the file is not rewritten: whatever the service would
    answer, the multipliers are those that [load_traffic_cache] reads. *)
Theorem traffic_factors_from_cache :
  forall (sample : Q -> Q -> Q) (tom : bool) (g : Graph) (N : Z) (ttl : Z)
         (cf : cache_file) (now : Z) (writable : bool),
    0 <= g_n g -> Z.of_nat (length (edges g)) = g_n g * g_n g ->
    is_cache_fresh (Some cf) ttl now = true ->
    exists g',
      build_edge_midpoint_traffic_factors_cached sample tom g N false ttl
        (Some cf) now writable = Ret (g', Some cf) /\
      g_n g' = g_n g /\ cities g' = cities g /\
      forall i j, 0 <= i < g_n g -> 0 <= j < g_n g ->
        edge_at g' i j =
        set_traffic_factor (edge_at g i j)
                           (cache_factor (g_n g) (cf_rows cf) i j).
Proof. exact cached_run. Qed.

Lemma traffic_factors_from_cache_witness :
  exists g',
    build_edge_midpoint_traffic_factors_cached (fun _ _ => 2%Q) true
      two_city_graph 3 false 15 (Some (mkCache (Some 1000) [(0, 1, 3%Q)]))
      1060 true
    = Ret (g', Some (mkCache (Some 1000) [(0, 1, 3%Q)])) /\
    g_n g' = g_n two_city_graph /\ cities g' = cities two_city_graph /\
    forall i j, 0 <= i < g_n two_city_graph -> 0 <= j < g_n two_city_graph ->
      edge_at g' i j =
      set_traffic_factor (edge_at two_city_graph i j)
        (cache_factor (g_n two_city_graph)
           (cf_rows (mkCache (Some 1000) [(0, 1, 3%Q)])) i j).
Proof.
  apply (traffic_factors_from_cache (fun _ _ => 2%Q) true two_city_graph 3 15
           (mkCache (Some 1000) [(0, 1, 3%Q)]) 1060 true).
  - vm_compute. discriminate.
  - vm_compute. reflexivity.
  - vm_compute. reflexivity.
Defined.

(** A second request within the time to live reuses what the first one
    sampled: after a first call that samples and saves, a call on a graph
    of the same size, no later than [ttl] minutes after, does not sample;
    every pair of different cities has the multiplier of the first call,
    rounded to six decimals, and the diagonal has 1.0. *)
Theorem traffic_factors_reused :
  forall (sample sample' : Q -> Q -> Q) (tom tom' : bool) (g g2 : Graph)
         (N N' : Z) (ttl : Z) (file : option cache_file) (now now' : Z)
         (writable' : bool),
    0 <= g_n g -> Z.of_nat (length (edges g)) = g_n g * g_n g ->
    g_n g2 = g_n g -> Z.of_nat (length (edges g2)) = g_n g * g_n g ->
    is_cache_fresh file ttl now = false ->
    0 <= now -> now <= now' -> now' < 2 ^ 63 ->
    - 2 ^ 31 <= ttl < 2 ^ 31 -> now' - now <= ttl * 60 ->
    exists g1 file1 g3,
      build_edge_midpoint_traffic_factors_cached sample tom g N false ttl file
        now true = Ret (g1, file1) /\
      build_edge_midpoint_traffic_factors_cached sample' tom' g2 N' false ttl
        file1 now' writable' = Ret (g3, file1) /\
      forall i j, 0 <= i < g_n g -> 0 <= j < g_n g ->
        traffic_factor (edge_at g3 i j) =
        if i =? j then 1%Q else round6 (traffic_factor (edge_at g1 i j)).
Proof.
  intros sample sample' tom tom' g g2 N N' ttl file now now' writable'
         Hn Hl Hn2 Hl2 Hstale Hnow Hle Hmax Httl Hage.
  destruct (sampled_run sample tom g N false ttl file now true Hn Hl
              (or_intror Hstale)) as (g1 & Hrun1 & Hn1 & _ & _ & Hcells1).
  set (cf := mkCache (Some now)
               (pair_rows (g_n g)
                  (fun i j => round6 (traffic_factor (edge_at g1 i j))))) in *.
  assert (Hfresh : is_cache_fresh (Some cf) ttl now' = true).
  { apply (is_cache_fresh_age cf now ttl now' eq_refl); lia. }
  destruct (cached_run sample' tom' g2 N' ttl cf now' writable'
              ltac:(lia) ltac:(rewrite Hn2; exact Hl2) Hfresh)
    as (g3 & Hrun2 & _ & _ & Hcells2).
  exists g1, (Some cf), g3. split; [exact Hrun1|]. split; [exact Hrun2|].
  intros i j Hi Hj. rewrite Hcells2 by (rewrite Hn2; assumption).
  cbn [set_traffic_factor traffic_factor]. rewrite Hn2. cbn [cf cf_rows].
  rewrite cache_factor_pair_rows by assumption.
  destruct (Z.eqb_spec i j) as [E|NE]; [reflexivity|].
  rewrite (Hcells1 (Z.min i j) (Z.max i j)) by lia.
  rewrite (Hcells1 i j) by assumption.
  destruct (Z.eqb_spec (Z.min i j) (Z.max i j)); [lia|].
  destruct (Z.eqb_spec i j); [lia|].
  cbn [set_traffic_factor traffic_factor].
  rewrite Z.min_l by lia. rewrite Z.max_r by lia. reflexivity.
Qed.

Lemma traffic_factors_reused_witness :
  exists g1 file1 g3,
    build_edge_midpoint_traffic_factors_cached (fun _ _ => 2%Q) true
      two_city_graph 3 false 15 None 1000 true = Ret (g1, file1) /\
    build_edge_midpoint_traffic_factors_cached (fun _ _ => 4%Q) true
      two_city_graph 3 false 15 file1 1060 true = Ret (g3, file1) /\
    forall i j, 0 <= i < g_n two_city_graph -> 0 <= j < g_n two_city_graph ->
      traffic_factor (edge_at g3 i j) =
      if i =? j then 1%Q else round6 (traffic_factor (edge_at g1 i j)).
Proof.
  apply (traffic_factors_reused (fun _ _ => 2%Q) (fun _ _ => 4%Q) true true
           two_city_graph two_city_graph 3 3 15 None 1000 1060 true);
    try (vm_compute; reflexivity); try (vm_compute; discriminate).
  vm_compute. split; [discriminate|reflexivity].
Defined.

(** ** carbon.c: the simplifier for any tolerance *)

Lemma rdp_compose_bounded (pts : list Pt) (keep : list Z) (out_max : Z) :
  let out := rdp_compose pts (Z.of_nat (length pts)) keep out_max in
  Z.of_nat (length out) <= Z.max 0 out_max /\
  (length out <= length pts)%nat /\
  forall p, In p out -> In p pts.
Proof.
  cbv zeta. unfold rdp_compose.
  assert (G : (fun i (out : list Pt) =>
            Z.of_nat (length out) <= Z.max 0 out_max /\
            Z.of_nat (length out) <= i /\
            forall p, In p out -> In p pts)
          (Z.of_nat (length pts))
          (for_loop (Z.of_nat (length pts)) (fun i out =>
             if (Z.of_nat (length out) <? out_max) && negb (rd 0 keep i =? 0)
             then out ++ [rd pt0 pts i] else out) [])).
  { apply for_loop_ind.
    - lia.
    - split; [simpl; lia|]. split; [simpl; lia|]. intros p [].
    - intros i out Hi (Hmax & Hlen & Hin).
      destruct (Z.ltb_spec (Z.of_nat (length out)) out_max); cbn [andb];
        [|split; [exact Hmax|split; [lia|exact Hin]]].
      destruct (negb (rd 0 keep i =? 0)); [|split; [exact Hmax|split; [lia|exact Hin]]].
      rewrite length_app. cbn [length]. split; [lia|]. split; [lia|].
      intros p Hp. apply in_app_or in Hp. destruct Hp as [Hp|[<-|[]]];
        [apply Hin; exact Hp|apply rd_in; lia]. }
  cbv beta in G. destruct G as (H1 & H2 & H3).
  split; [exact H1|]. split; [lia|exact H3].
Qed.

(** Whatever the tolerance and however small the room in [out],
    [rdp_simplify] never returns more points than [out_max] or than the
    input has, and every point it returns is a point of the input. *)
Theorem rdp_output_bounded :
  forall (pts : list Pt) (eps : Q) (out_max : Z) (out : list Pt),
    rdp_simplify pts eps out_max = Ret out ->
    Z.of_nat (length out) <= Z.max 0 out_max /\
    (length out <= length pts)%nat /\
    forall p, In p out -> In p pts.
Proof.
  intros pts eps out_max out H. unfold rdp_simplify, rdp_simplify_by in H.
  destruct (Z.leb_spec (Z.of_nat (length pts)) 0) as [Hn|Hn]; cbn [orb] in H.
  { inversion H. split; [simpl; lia|]. split; [simpl; lia|intros p []]. }
  destruct (Z.leb_spec out_max 0) as [Hm|Hm].
  { inversion H. split; [simpl; lia|]. split; [simpl; lia|intros p []]. }
  destruct (Z.eqb_spec (Z.of_nat (length pts)) 1) as [E1|N1].
  { inversion H. split; [simpl; lia|]. split; [simpl; lia|].
    intros p [<-|[]]. apply rd_in. lia. }
  match type of H with bind ?m _ = _ => destruct m as [keep| | |] eqn:Hl end;
    cbn [bind] in H; try discriminate.
  inversion H. apply rdp_compose_bounded.
Qed.

Lemma rdp_output_bounded_witness :
  Z.of_nat (length [mkPt 0 0; mkPt 0 2]) <= Z.max 0 5 /\
  (length [mkPt 0 0; mkPt 0 2] <= length bent_line)%nat /\
  forall p, In p [mkPt 0 0; mkPt 0 2] -> In p bent_line.
Proof.
  apply (rdp_output_bounded bent_line 3 5 [mkPt 0 0; mkPt 0 2]).
  vm_compute. reflexivity.
Defined.

(** [dist2] stands for [seg_point_dist2] as it is computed and [eps2] for
    the value of [eps*eps], not negative.  For [n >= 1] points, room for
    all of them and any tolerance, [rdp_simplify] returns the points of the
    input at an increasing list of indices that starts with the first
    point and ends with the last; every point between two neighbours of
    the list is within the tolerance of the chord of the two, by the
    computed distance; and every interior point of the list is beyond the
    tolerance of the chord of two points of the list around it, and the
    farthest from that chord of the points between the two.  (It may
    instead store beyond the [n + 5] cells of its work stack, which takes
    more than 7 points.) *)
Theorem rdp_simplify_tolerance :
  forall (dist2 : Pt -> Pt -> Pt -> Q) (pts : list Pt) (eps2 : Q) (out_max : Z),
    let n := Z.of_nat (length pts) in
    let d2 := chord_dist2 dist2 pts in
    (0 <= eps2)%Q -> 1 <= n -> n <= out_max ->
    (rdp_simplify_by dist2 pts eps2 out_max = OutOfBounds /\ 7 < n) \/
    exists ks,
      rdp_simplify_by dist2 pts eps2 out_max = Ret (map (rd pt0 pts) ks) /\
      StronglySorted Z.lt ks /\
      (forall k, In k ks -> 0 <= k < n) /\
      hd 0 ks = 0 /\ last ks 0 = n - 1 /\
      (forall a b, In a ks -> In b ks -> a < b ->
         (forall c, a < c < b -> ~ In c ks) ->
         forall k, a < k < b -> (d2 a b k <= eps2)%Q) /\
      (forall k, In k ks -> 0 < k < n - 1 ->
         exists a b, In a ks /\ In b ks /\ a < k < b /\
           (eps2 < d2 a b k)%Q /\
           forall k', a < k' < b -> (d2 a b k' <= d2 a b k)%Q).
Proof.
  intros dist2 pts eps2 out_max n d2 Heps Hn Hmax.
  destruct (rdp_simplify_by_spec dist2 pts eps2 out_max Heps Hn Hmax)
    as [Hoob|(ks & Hret & Hsort & Hrange & Hhd & Hlast & Hleaf & Hsplit & _)].
  - left. exact Hoob.
  - right. exists ks. split; [exact Hret|]. split; [exact Hsort|].
    split; [exact Hrange|]. split; [exact Hhd|]. split; [exact Hlast|].
    split; [exact Hleaf|exact Hsplit].
Qed.

Lemma rdp_simplify_tolerance_witness :
  exists ks,
    rdp_simplify bent_line 3 5 = Ret (map (rd pt0 bent_line) ks) /\
    StronglySorted Z.lt ks /\
    (forall k, In k ks -> 0 <= k < 3) /\
    hd 0 ks = 0 /\ last ks 0 = 2 /\
    (forall a b, In a ks -> In b ks -> a < b ->
       (forall c, a < c < b -> ~ In c ks) ->
       forall k, a < k < b ->
         (chord_dist2 seg_point_dist2 bent_line a b k <= 3 * 3)%Q) /\
    (forall k, In k ks -> 0 < k < 2 ->
       exists a b, In a ks /\ In b ks /\ a < k < b /\
         (3 * 3 < chord_dist2 seg_point_dist2 bent_line a b k)%Q /\
         forall k', a < k' < b ->
           (chord_dist2 seg_point_dist2 bent_line a b k'
            <= chord_dist2 seg_point_dist2 bent_line a b k)%Q).
Proof.
  destruct (rdp_simplify_tolerance seg_point_dist2 bent_line (3 * 3) 5
              ltac:(vm_compute; discriminate)
              ltac:(simpl; lia) ltac:(simpl; lia))
    as [[_ Hbig]|H]; [|exact H].
  exfalso. simpl in Hbig. lia.
Defined.

(** [seg_point_dist2] is never negative; it is 0 for the first end of the
    segment; and for a segment of length 0 it is the squared distance to
    that one point. *)
Theorem seg_point_dist2_edges :
  forall a b c : Pt,
    (0 <= seg_point_dist2 a b c)%Q /\
    (seg_point_dist2 a b a == 0)%Q /\
    (seg_point_dist2 a a c ==
     (pt_lon c - pt_lon a) * (pt_lon c - pt_lon a)
     + (pt_lat c - pt_lat a) * (pt_lat c - pt_lat a))%Q.
Proof.
  intros a b c. split; [apply seg_point_dist2_nonneg|]. split.
  - unfold seg_point_dist2. cbv zeta.
    destruct (Qeq_bool _ 0) eqn:E; [ring|].
    apply Qeq_bool_neq in E.
    set (vv := ((pt_lon b - pt_lon a) * (pt_lon b - pt_lon a)
                + (pt_lat b - pt_lat a) * (pt_lat b - pt_lat a))%Q) in *.
    assert (Ht : (((pt_lon b - pt_lon a) * (pt_lon a - pt_lon a)
                   + (pt_lat b - pt_lat a) * (pt_lat a - pt_lat a)) / vv == 0)%Q)
      by (field; exact E).
    destruct (Qltb _ 0) eqn:E0; [ring|].
    destruct (Qltb 1 _) eqn:E1.
    + apply Qltb_lt in E1. rewrite Ht in E1. lra.
    + rewrite Ht. ring.
  - unfold seg_point_dist2. cbv zeta.
    destruct (Qeq_bool _ 0) eqn:E; [reflexivity|].
    apply Qeq_bool_neq in E. exfalso. apply E. ring.
Qed.

(** ** carbon.c: Dijkstra on the dense graph *)





Section DenseRun.

Variable g : Graph.
Variables src dst : Z.

Hypothesis Hdense : dense_graph g.
Hypothesis Hcost : forall e, In e (edges g) -> (0 <= co2_cost e)%Q.
Hypothesis Hsrc : 0 <= src < g_n g.
Hypothesis Hdst : 0 <= dst < g_n g.














End DenseRun.






(** ** carbon.c: the request as a whole *)







Section ShortpRun.

Variable haversine_km : Q -> Q -> Q -> Q -> Q.
Variable sample_tomtom_factor : Q -> Q -> Q.
Variable USE_TOMTOM : bool.

Hypothesis haversine_nonneg : forall a b c d, (0 <= haversine_km a b c d)%Q.
Hypothesis sample_nonneg : forall x y, (0 <= sample_tomtom_factor x y)%Q.


End ShortpRun.

(** [shortp] returns the value 1 and no report of a route when no city is
    loaded or when one of the two names of the route matches no city. *)
Theorem shortp_unknown_city
    (hv : Q -> Q -> Q -> Q -> Q) (sample : Q -> Q -> Q) (tom : bool)
    (cs : Z -> City) (n : Z) (from_name to_name car_line : string)
    (cars : option (list (string * Q)))
    (file : option cache_file) (now : Z) (writable : bool) :
  n <= 0 \/
  (forall i, 0 <= i < n -> name_matches cs i from_name = false) \/
  (forall i, 0 <= i < n -> name_matches cs i to_name = false) ->
  shortp hv sample tom cs n from_name to_name car_line cars file now writable
  = Ret (1, None).
Proof.
  intros H. unfold shortp.
  destruct (Z.leb_spec n 0) as [|Hn]; [reflexivity|].
  destruct (resolve_cities_spec cs n from_name to_name) as [Hs Hd].
  rewrite (surjective_pairing (resolve_cities cs n from_name to_name)).
  destruct H as [H|[H|H]]; [lia| |].
  - destruct Hs as [[-> _]|(Hr & Hm & _)]; [reflexivity|].
    rewrite (H _ Hr) in Hm. discriminate.
  - destruct Hd as [[-> _]|(Hr & Hm & _)];
      [|rewrite (H _ Hr) in Hm; discriminate].
    destruct (fst (resolve_cities cs n from_name to_name) <? 0); reflexivity.
Qed.

Lemma shortp_unknown_city_witness :
  shortp (fun _ _ _ _ => 10%Q) (fun _ _ => 1%Q) false two_cities 2
         "Dehradun" "Delhi" EmptyString None None 1060 true
  = Ret (1, None).
Proof.
  apply shortp_unknown_city. right. right. intros i Hi.
  assert (C : i = 0 \/ i = 1) by lia. destruct C as [-> | ->]; reflexivity.
Defined.



(** ** adb[1].h: the input module *)

Lemma tolower_copy_room_length (src : string) (room : nat) :
  (String.length (tolower_copy_room src room) <= room)%nat.
Proof.
  revert room. induction src as [|c r IH]; intros [|k]; simpl; try lia.
  specialize (IH k). lia.
Qed.

Lemma tolower_copy_length (src : string) :
  0 <= Z.of_nat (String.length (tolower_copy src NAMELEN)) <= 63.
Proof.
  unfold tolower_copy, NAMELEN.
  pose proof (tolower_copy_room_length src (Z.to_nat (64 - 1))). lia.
Qed.

Lemma min3_cases (a b c : Z) :
  min3 a b c = a \/ min3 a b c = b \/ min3 a b c = c.
Proof.
  unfold min3. destruct (a <? b), (b <? c); auto.
Qed.

Section LevTable.

Variables n m : Z.
Hypothesis n_nonneg : 0 <= n.
Hypothesis m_nonneg : 0 <= m.

(** The cell of row [i] and column [j] of the table holds a number between
    0 and [i + j]. *)
Definition lev_table (d : list Z) : Prop :=
  Z.of_nat (length d) = (n + 1) * (m + 1) /\
  forall i j, 0 <= i <= n -> 0 <= j <= m ->
    0 <= rd 0 d (i * (m + 1) + j) <= i + j.

Lemma lev_table_wr (d : list Z) (i0 j0 v : Z) :
  lev_table d -> 0 <= i0 <= n -> 0 <= j0 <= m -> 0 <= v <= i0 + j0 ->
  lev_table (wr d (i0 * (m + 1) + j0) v).
Proof.
  intros [Hl Hc] Hi0 Hj0 Hv. split; [rewrite length_wr; exact Hl|].
  intros i j Hi Hj.
  destruct (Z.eq_dec (i0 * (m + 1) + j0) (i * (m + 1) + j)) as [E|NE].
  - destruct (cell_index_inj (m + 1) i0 j0 i j) as [<- <-]; [lia|lia|exact E|].
    rewrite rd_wr_same by nia. exact Hv.
  - rewrite rd_wr_other by (try assumption; nia). apply Hc; assumption.
Qed.

Lemma lev_table_zero : lev_table (repeat 0 (Z.to_nat ((n + 1) * (m + 1)))).
Proof.
  split; [rewrite repeat_length; nia|].
  intros i j Hi Hj. unfold rd. rewrite nth_repeat. lia.
Qed.

End LevTable.

(** The number that [levenshtein_ci] returns lies between 0 and the sum of
    the two lengths after the cut at 63 characters, so below the 9999 that
    marks an empty entry of [best]. *)
Lemma levenshtein_ci_range (s1 s2 : string) :
  0 <= levenshtein_ci s1 s2 <= 126.
Proof.
  unfold levenshtein_ci. cbv zeta.
  pose proof (tolower_copy_length s1) as Ha.
  pose proof (tolower_copy_length s2) as Hb.
  set (a := tolower_copy s1 NAMELEN) in *.
  set (b := tolower_copy s2 NAMELEN) in *.
  set (n := Z.of_nat (String.length a)) in *.
  set (m := Z.of_nat (String.length b)) in *.
  assert (Hn : 0 <= n) by lia. assert (Hm : 0 <= m) by lia.
  match goal with |- _ <= rd 0 ?tab _ <= _ => assert (T : lev_table n m tab) end.
  { apply (fold_Zrange_from_ind (fun _ d => lev_table n m d)); [lia| |].
    - apply (for_loop_ind (fun _ d => lev_table n m d)); [lia| |].
      + apply (for_loop_ind (fun _ d => lev_table n m d)); [lia| |].
        * apply lev_table_zero; assumption.
        * intros i d Hi Hd. apply lev_table_wr; try assumption; lia.
      + intros j d Hj Hd. apply lev_table_wr; try assumption; lia.
    - intros i d Hi Hd.
      apply (fold_Zrange_from_ind (fun _ d => lev_table n m d)); [lia|exact Hd|].
      intros j d' Hj Hd'. cbv zeta.
      apply lev_table_wr; try assumption; try lia.
      destruct Hd' as [_ Hc].
      pose proof (Hc (i - 1) j ltac:(lia) ltac:(lia)) as C1.
      pose proof (Hc i (j - 1) ltac:(lia) ltac:(lia)) as C2.
      pose proof (Hc (i - 1) (j - 1) ltac:(lia) ltac:(lia)) as C3.
      match goal with |- _ <= min3 ?x ?y ?z <= _ =>
        destruct (min3_cases x y z) as [E|[E|E]]; rewrite E end;
        try lia.
      destruct (Ascii.eqb _ _); lia. }
  destruct T as [_ Hc]. specialize (Hc n m ltac:(lia) ltac:(lia)). lia.
Qed.

(** The first loop of [ask_place_interactive]. *)
Lemma exact_match_spec (names : Z -> string) (V : Z) (q : string) :
  match exact_match names V q with
  | None => forall i, 0 <= i < V -> strcasecmp_eq (names i) q = false
  | Some i =>
      0 <= i < V /\ strcasecmp_eq (names i) q = true /\
      forall j, 0 <= j < i -> strcasecmp_eq (names j) q = false
  end.
Proof.
  unfold exact_match. destruct (Z_le_gt_dec 0 V) as [HV|HV].
  - apply (for_loop_ind (fun k (r : option Z) =>
      match r with
      | None => forall i, 0 <= i < k -> strcasecmp_eq (names i) q = false
      | Some i =>
          0 <= i < k /\ strcasecmp_eq (names i) q = true /\
          forall j, 0 <= j < i -> strcasecmp_eq (names j) q = false
      end)); [exact HV|intros i Hi; lia|].
    intros k [i|] Hk H.
    + destruct H as (Hi & Hm & Hb). split; [lia|]. split; assumption.
    + destruct (strcasecmp_eq (names k) q) eqn:E.
      * split; [lia|]. split; [exact E|]. intros j Hj. apply H. lia.
      * intros i Hi. destruct (Z.eq_dec i k) as [->|]; [exact E|apply H; lia].
  - rewrite for_loop_nonpos by lia. intros i Hi. lia.
Qed.

(** The second loop: only places whose name holds the query are
    collected, and one is collected when there is one. *)
Lemma candidates_spec (names : Z -> string) (V : Z) (q : string) :
  (forall i, In i (candidates names V q) ->
     0 <= i < V /\ ci_contains (names i) q = true) /\
  (forall i, 0 <= i < V -> ci_contains (names i) q = true ->
     candidates names V q <> []).
Proof.
  unfold candidates. destruct (Z_le_gt_dec 0 V) as [HV|HV].
  - apply (for_loop_ind (fun k (cand : list Z) =>
      (forall i, In i cand -> 0 <= i < k /\ ci_contains (names i) q = true) /\
      (forall i, 0 <= i < k -> ci_contains (names i) q = true -> cand <> [])));
      [exact HV|split; [intros i []|intros i Hi; lia]|].
    intros k cand Hk [Hin Hne].
    assert (Hin' : forall i, In i cand ->
              0 <= i < k + 1 /\ ci_contains (names i) q = true).
    { intros i Hi. destruct (Hin i Hi). split; [lia|assumption]. }
    destruct (Z.ltb_spec (Z.of_nat (length cand)) 64) as [Hroom|Hfull].
    + destruct (ci_contains (names k) q) eqn:E.
      * split.
        -- intros i Hi. apply in_app_or in Hi. destruct Hi as [Hi|[<-|[]]];
             [apply Hin'; exact Hi|]. split; [lia|exact E].
        -- intros i _ _. destruct cand; discriminate.
      * split; [exact Hin'|]. intros i Hi Hc.
        destruct (Z.eq_dec i k) as [->|]; [congruence|]. apply (Hne i); [lia|exact Hc].
    + split; [exact Hin'|]. intros i _ _ ->. simpl in Hfull. lia.
  - rewrite for_loop_nonpos by lia. split; [intros i []|intros i Hi; lia].
Qed.

(** The inner loop of the third loop, on the five entries of [best]. *)
Lemma suggest_insert_closed (e0 e1 e2 e3 e4 : Suggestion) (i d : Z) :
  suggest_insert [e0; e1; e2; e3; e4] i d =
  let new := mkSuggestion i d in
  if d <? b_dist e0 then [new; e0; e1; e2; e3]
  else if d <? b_dist e1 then [e0; new; e1; e2; e3]
  else if d <? b_dist e2 then [e0; e1; new; e2; e3]
  else if d <? b_dist e3 then [e0; e1; e2; new; e3]
  else if d <? b_dist e4 then [e0; e1; e2; e3; new]
  else [e0; e1; e2; e3; e4].
Proof.
  unfold suggest_insert, for_loop.
  change (Zrange 5) with [0; 1; 2; 3; 4]. cbn [fold_left].
  change (rd no_suggestion [e0; e1; e2; e3; e4] 0) with e0.
  destruct (d <? b_dist e0); [reflexivity|].
  change (rd no_suggestion [e0; e1; e2; e3; e4] 1) with e1.
  destruct (d <? b_dist e1); [reflexivity|].
  change (rd no_suggestion [e0; e1; e2; e3; e4] 2) with e2.
  destruct (d <? b_dist e2); [reflexivity|].
  change (rd no_suggestion [e0; e1; e2; e3; e4] 3) with e3.
  destruct (d <? b_dist e3); [reflexivity|].
  change (rd no_suggestion [e0; e1; e2; e3; e4] 4) with e4.
  destruct (d <? b_dist e4); reflexivity.
Qed.

(** [x] is not farther than [y]. *)
Definition nearer (x y : Suggestion) : Prop := b_dist x <= b_dist y.

Section Suggest.

Variable d : Z -> Z.
Hypothesis d_range : forall i, 0 <= d i < 9999.

(** An entry is empty, or it holds one of the first [K] places with its
    distance. *)
Definition entry_ok (K : Z) (e : Suggestion) : Prop :=
  e = no_suggestion \/ (0 <= b_idx e < K /\ b_dist e = d (b_idx e)).

(** [best] when the first [K] places have had their turn: five entries in
    the order of their distances; every place is listed, or all five
    entries are taken by places that are not farther. *)
Definition sug_inv (K : Z) (best : list Suggestion) : Prop :=
  length best = 5%nat /\
  StronglySorted nearer best /\
  Forall (entry_ok K) best /\
  forall i, 0 <= i < K ->
    Exists (fun e => b_idx e = i) best \/
    Forall (fun e => b_idx e <> -1 /\ b_dist e <= d i) best.

Lemma entry_ok_weaken (K : Z) (e : Suggestion) :
  entry_ok K e -> entry_ok (K + 1) e.
Proof. intros [H|H]; [now left|right; lia]. Qed.

Lemma entry_ok_arith (K : Z) (e : Suggestion) :
  entry_ok K e ->
  (b_idx e = -1 /\ b_dist e = 9999) \/
  (0 <= b_idx e < K /\ b_dist e = d (b_idx e) /\ 0 <= d (b_idx e) < 9999).
Proof.
  intros [->|[H1 H2]]; [now left|right]. pose proof (d_range (b_idx e)). lia.
Qed.

Lemma sug_inv_start (K : Z) : K <= 0 -> sug_inv K (repeat no_suggestion 5).
Proof.
  intros HK. split; [reflexivity|]. split.
  - cbn [repeat]. repeat (apply SSorted_cons || apply SSorted_nil
                          || apply Forall_cons || apply Forall_nil);
      unfold nearer; cbn; lia.
  - split.
    + cbn [repeat]. repeat (apply Forall_cons; [now left|]). apply Forall_nil.
    + intros i Hi. lia.
Qed.

Ltac break_lists :=
  repeat match goal with
  | H : StronglySorted _ (_ :: _) |- _ =>
      apply StronglySorted_inv in H; destruct H
  | H : Forall _ (_ :: _) |- _ => apply Forall_cons_iff in H; destruct H
  | H : StronglySorted _ [] |- _ => clear H
  | H : Forall _ [] |- _ => clear H
  end.

Ltac listed :=
  left;
  solve [repeat first [apply Exists_cons_hd; solve [reflexivity|assumption]
                      |apply Exists_cons_tl]].

Ltac all_nearer :=
  right; repeat (apply Forall_cons; [cbn [b_idx b_dist]; lia|]);
  apply Forall_nil.

Lemma sug_inv_step (K : Z) (best : list Suggestion) :
  0 <= K -> sug_inv K best -> sug_inv (K + 1) (suggest_insert best K (d K)).
Proof.
  intros HK (Hlen & Hs & He & Hfar).
  destruct best as [|e0 [|e1 [|e2 [|e3 [|e4 [|e5 r]]]]]]; try discriminate Hlen.
  rewrite suggest_insert_closed. cbv zeta.
  pose proof (d_range K) as HdK.
  assert (Hfar' : forall i, 0 <= i < K ->
            (b_idx e0 = i \/ b_idx e1 = i \/ b_idx e2 = i \/ b_idx e3 = i
             \/ b_idx e4 = i) \/
            ((b_idx e0 <> -1 /\ b_dist e0 <= d i) /\
             (b_idx e1 <> -1 /\ b_dist e1 <= d i) /\
             (b_idx e2 <> -1 /\ b_dist e2 <= d i) /\
             (b_idx e3 <> -1 /\ b_dist e3 <= d i) /\
             (b_idx e4 <> -1 /\ b_dist e4 <= d i))).
  { intros i Hi. destruct (Hfar i Hi) as [Hex|Hall].
    - left.
      apply Exists_cons in Hex. destruct Hex as [Hex|Hex]; [now left|right].
      apply Exists_cons in Hex. destruct Hex as [Hex|Hex]; [now left|right].
      apply Exists_cons in Hex. destruct Hex as [Hex|Hex]; [now left|right].
      apply Exists_cons in Hex. destruct Hex as [Hex|Hex]; [now left|right].
      apply Exists_cons in Hex. destruct Hex as [Hex|Hex]; [exact Hex|].
      inversion Hex.
    - right. clear Hs He Hfar. break_lists.
      repeat (split; [assumption|]). assumption. }
  clear Hfar.
  assert (He' := He).
  apply Forall_cons_iff in He'. destruct He' as [E0 He'].
  apply Forall_cons_iff in He'. destruct He' as [E1 He'].
  apply Forall_cons_iff in He'. destruct He' as [E2 He'].
  apply Forall_cons_iff in He'. destruct He' as [E3 He'].
  apply Forall_cons_iff in He'. destruct He' as [E4 _].
  assert (Enew : entry_ok (K + 1) (mkSuggestion K (d K))) by (right; cbn; lia).
  apply entry_ok_weaken in E0, E1, E2, E3, E4.
  break_lists.
  repeat match goal with
  | H : entry_ok K _ |- _ => apply entry_ok_arith in H
  end.
  unfold nearer in *.
  destruct (Z.ltb_spec (d K) (b_dist e0));
    [|destruct (Z.ltb_spec (d K) (b_dist e1));
      [|destruct (Z.ltb_spec (d K) (b_dist e2));
        [|destruct (Z.ltb_spec (d K) (b_dist e3));
          [|destruct (Z.ltb_spec (d K) (b_dist e4))]]]];
    (split; [reflexivity|]; split;
     [repeat (apply SSorted_cons || apply SSorted_nil
              || apply Forall_cons || apply Forall_nil);
      unfold nearer; cbn [b_idx b_dist]; lia
     |split;
      [repeat (apply Forall_cons; [assumption|]); apply Forall_nil
      |intros i Hi; destruct (Z.eq_dec i K) as [->|NE];
       [first [listed|all_nearer]
       |destruct (Hfar' i ltac:(lia)) as [[Hx|[Hx|[Hx|[Hx|Hx]]]]|Hall];
        [subst i; first [listed|all_nearer] ..
        |all_nearer]]]]).
Qed.

Lemma suggestions_inv (names : Z -> string) (V : Z) (q : string) :
  (forall i, d i = levenshtein_ci (names i) q) ->
  sug_inv V (suggestions names V q).
Proof.
  intros Hd. unfold suggestions. destruct (Z_le_gt_dec 0 V) as [HV|HV].
  - apply (for_loop_ind (fun k best => sug_inv k best)); [exact HV| |].
    + apply sug_inv_start. lia.
    + intros k best Hk Hinv. rewrite <- Hd. apply sug_inv_step; [lia|exact Hinv].
  - rewrite for_loop_nonpos by lia. apply sug_inv_start. lia.
Qed.

End Suggest.

(** Three places, for the examples. *)
Definition hill_names (i : Z) : string :=
  if i =? 0 then "Dehradun"%string
  else if i =? 1 then "Haridwar"%string
  else "Delhi"%string.

(** When a place has the name typed, up to the case of the letters,
    [ask_place_interactive] returns the first such place and asks nothing
    more. *)
Theorem ask_place_exact_first
    (names : Z -> string) (V : Z) (q : string) (pick : option Z) (i : Z) :
  0 <= i < V -> strcasecmp_eq (names i) q = true ->
  (forall j, 0 <= j < i -> strcasecmp_eq (names j) q = false) ->
  ask_place_interactive names V (Some q) pick = Ret i.
Proof.
  intros Hi Hm Hfirst. unfold ask_place_interactive.
  pose proof (exact_match_spec names V q) as H.
  destruct (exact_match names V q) as [i'|].
  - destruct H as (Hi' & Hm' & Hfirst'). f_equal.
    destruct (Z.lt_trichotomy i i') as [L|[E|L]]; [|exact (eq_sym E)|].
    + rewrite (Hfirst' i ltac:(lia)) in Hm. discriminate.
    + rewrite (Hfirst i' ltac:(lia)) in Hm'. discriminate.
  - rewrite (H i Hi) in Hm. discriminate.
Qed.

Lemma ask_place_exact_first_witness :
  ask_place_interactive hill_names 3 (Some "DELHI"%string) None = Ret 2.
Proof.
  apply ask_place_exact_first; [lia|reflexivity|].
  intros j Hj. assert (C : j = 0 \/ j = 1) by lia.
  destruct C as [-> | ->]; reflexivity.
Defined.

(** The index that [ask_place_interactive] returns is the index of a
    place; and when the name of some place holds the text typed, the place
    returned has that name or holds the text, whatever number is picked. *)
Theorem ask_place_in_range
    (names : Z -> string) (V : Z) (q : string) (pick : option Z) (i : Z) :
  ask_place_interactive names V (Some q) pick = Ret i ->
  0 <= i < V /\
  ((exists j, 0 <= j < V /\ ci_contains (names j) q = true) ->
   strcasecmp_eq (names i) q = true \/ ci_contains (names i) q = true).
Proof.
  unfold ask_place_interactive. cbv zeta.
  pose proof (exact_match_spec names V q) as Hex.
  destruct (exact_match names V q) as [i'|].
  - intros E. injection E as <-. destruct Hex as (Hi & Hm & _).
    split; [exact Hi|]. intros _. now left.
  - destruct (candidates_spec names V q) as [Hin Hne].
    destruct (Z.ltb_spec 0 (Z.of_nat (length (candidates names V q)))) as [Hcc|Hcc].
    + destruct pick as [p|]; [|discriminate].
      destruct (Z.ltb_spec p 1) as [|Hp1]; [discriminate|].
      destruct (Z.ltb_spec (Z.of_nat (length (candidates names V q))) p) as [|Hp2];
        [discriminate|].
      cbn [orb]. intros E. injection E as <-.
      destruct (Hin (rd 0 (candidates names V q) (p - 1))) as [Hr Hc];
        [apply rd_in; lia|].
      split; [exact Hr|]. intros _. now right.
    + destruct pick as [p|]; [|discriminate].
      destruct (Z.ltb_spec p 1) as [|Hp1]; [discriminate|].
      destruct (Z.ltb_spec 5 p) as [|Hp2]; [discriminate|].
      cbn [orb].
      destruct (Z.eqb_spec (b_idx (rd no_suggestion (suggestions names V q) (p - 1)))
                           (-1)) as [|Hidx]; [discriminate|].
      intros E. injection E as <-.
      destruct (suggestions_inv (fun k => levenshtein_ci (names k) q)
                  ltac:(intros k; pose proof (levenshtein_ci_range (names k) q); lia)
                  names V q ltac:(reflexivity)) as (Hlen & _ & Hent & _).
      assert (Hin5 : In (rd no_suggestion (suggestions names V q) (p - 1))
                        (suggestions names V q)) by (apply rd_in; lia).
      rewrite Forall_forall in Hent.
      destruct (Hent _ Hin5) as [E|[Hr _]].
      * rewrite E in Hidx. contradiction.
      * split; [exact Hr|]. intros (j & Hj & Hc). exfalso.
        apply (Hne j Hj Hc). destruct (candidates names V q); [reflexivity|].
        simpl in Hcc. lia.
Qed.

Lemma ask_place_in_range_witness :
  0 <= 1 < 3 /\
  ((exists j, 0 <= j < 3 /\ ci_contains (hill_names j) "hari" = true) ->
   strcasecmp_eq (hill_names 1) "hari" = true
   \/ ci_contains (hill_names 1) "hari" = true).
Proof.
  apply (ask_place_in_range hill_names 3 "hari" (Some 1) 1). reflexivity.
Defined.

(** When no name matches or holds the text typed, the list of suggestions
    has five entries in the order of the numbers that [levenshtein_ci]
    gives; an entry is empty or holds a place with its number; and every
    place is listed, or all five entries hold places whose numbers are not
    larger. *)
Theorem suggestions_nearest (names : Z -> string) (V : Z) (q : string) :
  let best := suggestions names V q in
  let d := fun i => levenshtein_ci (names i) q in
  length best = 5%nat /\
  StronglySorted (fun x y => b_dist x <= b_dist y) best /\
  Forall (fun e => e = no_suggestion \/
                   (0 <= b_idx e < V /\ b_dist e = d (b_idx e))) best /\
  forall i, 0 <= i < V ->
    Exists (fun e => b_idx e = i) best \/
    Forall (fun e => b_idx e <> -1 /\ b_dist e <= d i) best.
Proof.
  intros best d.
  exact (suggestions_inv d
           ltac:(intros k; pose proof (levenshtein_ci_range (names k) q);
                 unfold d; lia)
           names V q ltac:(reflexivity)).
Qed.

(** ** adb[1].h: the text of the map page *)

(** What the body of a JavaScript string literal in double quotes denotes,
    for the escapes that [js_escape] writes: a backslash stands for the
    character behind it.  [None]: the text is not the body of a literal,
    because it holds a bare double quote or line break or ends in a
    backslash. *)
Fixpoint js_read (s : string) : option string :=
  match s with
  | EmptyString => Some EmptyString
  | String c r =>
      let k := N_of_ascii c in
      if N.eqb k 92
      then match r with
           | EmptyString => None
           | String e r' => option_map (String e) (js_read r')
           end
      else if (N.eqb k 34 || N.eqb k 10 || N.eqb k 13)%bool then None
           else option_map (String c) (js_read r)
  end.

(** The text with each line feed and carriage return replaced by a
    space. *)
Fixpoint blank_breaks (s : string) : string :=
  match s with
  | EmptyString => EmptyString
  | String c r =>
      let k := N_of_ascii c in
      String (if (N.eqb k 10 || N.eqb k 13)%bool then ascii_of_N 32 else c)
             (blank_breaks r)
  end.

Lemma js_escape_from_length (s : string) :
  forall i outn, 0 <= i < outn ->
    i + Z.of_nat (String.length (js_escape_from s i outn)) < outn.
Proof.
  induction s as [|c r IH]; intros i outn Hi; cbn [js_escape_from].
  - cbn. lia.
  - destruct (Z.ltb_spec (i + 2) outn) as [Hroom|Hfull]; [|cbn; lia].
    cbv zeta.
    destruct (N.eqb (N_of_ascii c) 92 || N.eqb (N_of_ascii c) 34)%bool.
    + cbn [String.length]. specialize (IH (i + 2) outn ltac:(lia)). lia.
    + destruct (N.eqb (N_of_ascii c) 10 || N.eqb (N_of_ascii c) 13)%bool;
        cbn [String.length]; specialize (IH (i + 1) outn ltac:(lia)); lia.
Qed.

Lemma js_escape_from_read (s : string) :
  forall i outn,
    exists p rest,
      s = (p ++ rest)%string /\
      js_read (js_escape_from s i outn) = Some (blank_breaks p) /\
      (i + 2 * Z.of_nat (String.length s) < outn -> rest = EmptyString).
Proof.
  induction s as [|c r IH]; intros i outn.
  - exists EmptyString, EmptyString. repeat split.
  - cbn [js_escape_from].
    destruct (Z.ltb_spec (i + 2) outn) as [Hroom|Hfull].
    2:{ exists EmptyString, (String c r). split; [reflexivity|].
        split; [reflexivity|]. cbn [String.length]. intros H. lia. }
    cbv zeta.
    destruct (N.eqb (N_of_ascii c) 92 || N.eqb (N_of_ascii c) 34)%bool eqn:Eq.
    + destruct (IH (i + 2) outn) as (p & rest & Hs & Hread & Hall).
      exists (String c p), rest. split; [cbn; now rewrite Hs|]. split.
      * cbn [js_read]. cbv zeta.
        change (N.eqb (N_of_ascii (ascii_of_N 92)) 92) with true. cbv iota.
        rewrite Hread. cbn [option_map blank_breaks]. cbv zeta.
        replace (N.eqb (N_of_ascii c) 10 || N.eqb (N_of_ascii c) 13)%bool
          with false; [reflexivity|].
        apply orb_prop in Eq. destruct Eq as [E|E]; apply N.eqb_eq in E;
          rewrite E; reflexivity.
      * intros H. apply Hall. cbn [String.length] in H. lia.
    + apply orb_false_elim in Eq. destruct Eq as [E92 E34].
      destruct (IH (i + 1) outn) as (p & rest & Hs & Hread & Hall).
      exists (String c p), rest. split; [cbn; now rewrite Hs|]. split.
      * cbn [blank_breaks]. cbv zeta.
        destruct (N.eqb (N_of_ascii c) 10 || N.eqb (N_of_ascii c) 13)%bool eqn:Enl.
        -- cbn [js_read]. cbv zeta.
           change (N.eqb (N_of_ascii (ascii_of_N 32)) 92) with false.
           change (N.eqb (N_of_ascii (ascii_of_N 32)) 34
                   || N.eqb (N_of_ascii (ascii_of_N 32)) 10
                   || N.eqb (N_of_ascii (ascii_of_N 32)) 13)%bool with false.
           cbv iota. rewrite Hread. reflexivity.
        -- cbn [js_read]. cbv zeta. rewrite E92.
           apply orb_false_elim in Enl. destruct Enl as [E10 E13].
           rewrite E34, E10, E13. cbn [orb]. rewrite Hread. reflexivity.
      * intros H. apply Hall. cbn [String.length] in H. lia.
Qed.

(** [js_escape] stays inside [out]: the text it writes is shorter than
    [outn], so that the closing 0 has its place. *)
Theorem js_escape_fits (s : string) (outn : Z) :
  0 < outn -> Z.of_nat (String.length (js_escape s outn)) < outn.
Proof.
  intros H. unfold js_escape.
  pose proof (js_escape_from_length s 0 outn ltac:(lia)). lia.
Qed.

Lemma js_escape_fits_witness :
  Z.of_nat (String.length (js_escape "Dehradun" 6)) < 6.
Proof. apply js_escape_fits. lia. Defined.

(** What [js_escape] writes is the body of a string literal, and the
    literal denotes a front part of the text given, with its line breaks
    turned into spaces: the whole text when [outn] is more than twice its
    length. *)
Theorem js_escape_literal (s : string) (outn : Z) :
  exists p rest,
    s = (p ++ rest)%string /\
    js_read (js_escape s outn) = Some (blank_breaks p) /\
    (2 * Z.of_nat (String.length s) < outn -> rest = EmptyString).
Proof.
  destruct (js_escape_from_read s 0 outn) as (p & rest & H1 & H2 & H3).
  exists p, rest. split; [exact H1|]. split; [exact H2|].
  intros H. apply H3. lia.
Qed.
